(** * AKAZE nonlinear scale-space features: a shallow embedding

    This development embeds the parts of
    [modules/features2d/src/kaze/AKAZEFeatures.cpp] that build the scale
    space, score it, detect and refine keypoints, size the descriptor
    matrix, choose the sampling pattern of the binary descriptor and write
    its bits, and proves properties of them.

    Conventions.
    - A C++ [int] is a [Z]; where the source can leave the 32-bit range the
      wrap-around is written out ([int32_wrap]); a [uint8_t] is a [Z] kept in
      [0, 256) by [u8].
    - A [float] is an element of a type [F] with the operations of the class
      [FloatOps].  The code is written once, over any such [F].  Two
      instances are given: [binary32], IEEE-754 single precision with
      round-to-nearest-even (executable), and [R], exact real arithmetic.
    - The two places where the source widens to [double] for one sum before
      converting back, [(float)(x*ratio + .5*(ratio-1.0))], form the sum in
      [F]: the summands are floats, and the float sum is the exact sum
      rounded once, as the converted [double] sum is whenever that sum is
      exact in [double].
    - A [cv::Mat] of floats is a row-major buffer with its dimensions.
    - Functions of OpenCV that are not part of the file (filters, the linear
      solver, the FED time stepper, [fRound], [fastpow], libm's [pow]) are
      parameters of the sections that call them.
    - A load or store outside an array has undefined behaviour in C++.  The
      histogram of the contrast factor, the counting sort, the sampling
      pattern and the binary comparisons are modelled with accesses that
      return [None] outside the array, and a function that runs into one
      ends with [None] or with the outcome [Undefined]. *)

From Stdlib Require Import String.
From Stdlib Require Import ZArith List Bool Lia Reals Lra QArith Qround.
From Stdlib Require Import Sorting.Permutation Sorting.Sorted.
From Stdlib Require Import Floats.SpecFloat.
From stdpp Require Import base list.

#[local] Open Scope Z_scope.

(** ** Machine integers *)

(** Two's complement reduction of an integer to the 32-bit [int] range. *)
Definition int32_wrap (z : Z) : Z := (z + 2 ^ 31) mod 2 ^ 32 - 2 ^ 31.

(** Reduction to [uint8_t]. *)
Definition u8 (z : Z) : Z := z mod 256.

(** ** Floating-point interface *)

Class FloatOps (F : Type) := {
  f_of_Z : Z -> F;          (* (float)n *)
  f_to_Z : F -> Z;          (* (int)x : truncation towards zero *)
  fadd : F -> F -> F;
  fsub : F -> F -> F;
  fmul : F -> F -> F;
  fdiv : F -> F -> F;
  fsqrt : F -> F;           (* sqrtf *)
  fabs : F -> F;            (* fabs *)
  fopp : F -> F;            (* -x *)
  fltb : F -> F -> bool;    (* x < y *)
  fleb : F -> F -> bool;    (* x <= y *)
  feqb : F -> F -> bool     (* x == y *)
}.

(** The rounded operations are written with circled operators, comparisons
    with a trailing dot, so that they mix with integer arithmetic without
    scope annotations. *)
Infix "⊕" := fadd (at level 50, left associativity).
Infix "⊖" := fsub (at level 50, left associativity).
Infix "⊗" := fmul (at level 40, left associativity).
Infix "⊘" := fdiv (at level 40, left associativity).
Infix "<." := fltb (at level 70, no associativity).
Infix "<=." := fleb (at level 70, no associativity).
Infix "==." := feqb (at level 70, no associativity).

Section FloatDerived.
Context {F : Type} `{FloatOps F}.

(** A decimal literal [n/d] of the source, e.g. [0.03f] is [flit 3 100]:
    numerator and denominator are exactly representable, so the correctly
    rounded quotient is the value the compiler stores. *)
Definition flit (n d : Z) : F := f_of_Z n ⊘ f_of_Z d.

Definition fzero : F := f_of_Z 0.
Definition fone : F := f_of_Z 1.
Definition fgtb (x y : F) : bool := y <. x.
Definition fgeb (x y : F) : bool := y <=. x.

(** [std::max(a, b)] is [(a < b) ? b : a]. *)
Definition fmax (a b : F) : F := if a <. b then b else a.

End FloatDerived.

Infix ">." := fgtb (at level 70, no associativity).
Infix ">=." := fgeb (at level 70, no associativity).

(** ** IEEE-754 binary32 *)

Module B32.

Definition prec : Z := 24.
Definition emax : Z := 128.

Definition binary32 : Type := spec_float.

Definition of_Z (z : Z) : binary32 := binary_normalize prec emax z 0 false.

(** The result of converting a float outside the [int] range (or a NaN) is
    undefined in C++; x86 returns the "integer indefinite" value. *)
Definition int_indefinite : Z := - 2 ^ 31.

Definition to_Z (x : binary32) : Z :=
  match x with
  | S754_zero _ => 0
  | S754_finite s m e =>
      let mag := match e with
                 | Z0 => Zpos m
                 | Zpos p => Zpos m * 2 ^ Zpos p
                 | Zneg p => Zpos m / 2 ^ Zpos p
                 end in
      let v := if s then - mag else mag in
      if (- 2 ^ 31 <=? v) && (v <? 2 ^ 31) then v else int_indefinite
  | _ => int_indefinite
  end.

#[global] Instance ops : FloatOps binary32 := {|
  f_of_Z := of_Z;
  f_to_Z := to_Z;
  fadd := SFadd prec emax;
  fsub := SFsub prec emax;
  fmul := SFmul prec emax;
  fdiv := SFdiv prec emax;
  fsqrt := SFsqrt prec emax;
  fabs := SFabs;
  fopp := SFopp;
  fltb := SFltb;
  fleb := SFleb;
  feqb := SFeqb
|}.

(** libm's [pow] is not one of the IEEE basic operations.  For running
    examples the instance below gives its values where they are exact: base
    two and an integral exponent [k] yield [2^k]; elsewhere NaN. *)
Definition pow (b x : binary32) : binary32 :=
  if SFeqb b (of_Z 2) && SFeqb (of_Z (to_Z x)) x
  then SFldexp prec emax (of_Z 1) (to_Z x)
  else S754_nan.

End B32.

(** ** Exact real arithmetic *)

Module Exact.

(** Truncation towards zero. *)
Definition Rtrunc (x : R) : Z :=
  if Rle_dec 0 x then Zfloor x else Zceil x.

#[global] Instance ops : FloatOps R := {|
  f_of_Z := IZR;
  f_to_Z := Rtrunc;
  fadd := Rplus;
  fsub := Rminus;
  fmul := Rmult;
  fdiv := Rdiv;
  fsqrt := sqrt;
  fabs := Rabs;
  fopp := Ropp;
  fltb := fun x y => if Rlt_dec x y then true else false;
  fleb := fun x y => if Rle_dec x y then true else false;
  feqb := fun x y => if Req_dec_T x y then true else false
|}.

Definition pow : R -> R -> R := Rpower.

End Exact.

(** The short-circuit conjunction of C++: the right operand is evaluated
    only when the left one holds. *)
Notation "a &&& b" := (if a then b else false)
  (at level 40, left associativity, only parsing).

(** ** Arrays and counted loops *)

Section Arrays.
Context {A : Type}.

(** [p[i]] for a buffer [p]; reading outside the buffer is undefined in the
    source, the model returns the default [d]. *)
Definition zget (d : A) (l : list A) (i : Z) : A :=
  if i <? 0 then d else nth (Z.to_nat i) l d.

(** [p[i] = v]; a store outside the buffer leaves the model unchanged. *)
Definition zset (l : list A) (i : Z) (v : A) : list A :=
  if i <? 0 then l else <[Z.to_nat i := v]> l.

End Arrays.

(** An array of [int] or of [unsigned char] behind a pointer is the list of
    its elements; an access outside the array is undefined in the source and
    gives [None] here. *)
Definition arr_at (a : list Z) (i : Z) : option Z :=
  if i <? 0 then None else a !! Z.to_nat i.

Definition arr_set (a : list Z) (i v : Z) : option (list Z) :=
  if i <? 0 then None
  else if (Z.to_nat i <? length a)%nat then Some (<[Z.to_nat i := v]> a) else None.

Section Loops.
Context {S : Type}.

Fixpoint for_loop_nat (n : nat) (i : Z) (body : Z -> S -> S) (s : S) : S :=
  match n with
  | O => s
  | Datatypes.S n' => for_loop_nat n' (i + 1) body (body i s)
  end.

(** [for (int i = lo; i < hi; i++) s = body i s;] *)
Definition for_loop (lo hi : Z) (body : Z -> S -> S) (s : S) : S :=
  for_loop_nat (Z.to_nat (hi - lo)) lo body s.

End Loops.

(** ** Matrices *)

Record Mat (F : Type) := mkMat { rows : Z; cols : Z; data : list F }.
Arguments mkMat {F} _ _ _.
Arguments rows {F} _.
Arguments cols {F} _.
Arguments data {F} _.

Section MatOps.
Context {F : Type} `{FloatOps F}.

(** The buffer holds [rows * cols] elements. *)
Definition Mat_wf (m : Mat F) : Prop :=
  0 <= rows m /\ 0 <= cols m /\ Z.of_nat (length (data m)) = rows m * cols m.

(** [m.empty()] *)
Definition Mat_empty (m : Mat F) : bool :=
  (rows m * cols m =? 0) || match data m with [] => true | _ => false end.

(** [*(m.ptr<float>(r) + c)] *)
Definition Mat_at (m : Mat F) (r c : Z) : F := zget fzero (data m) (r * cols m + c).

(** [*(m.ptr<float>(r) + c) = v] *)
Definition Mat_set (m : Mat F) (r c : Z) (v : F) : Mat F :=
  mkMat (rows m) (cols m) (zset (data m) (r * cols m + c) v).

(** [m.ptr<float>()[j]] and [m.ptr<float>()[j] = v] on the flat buffer. *)
Definition Mat_flat (m : Mat F) (j : Z) : F := zget fzero (data m) j.
Definition Mat_flat_set (m : Mat F) (j : Z) (v : F) : Mat F :=
  mkMat (rows m) (cols m) (zset (data m) j v).

Definition same_size (a b : Mat F) : bool := (rows a =? rows b) && (cols a =? cols b).

(** [m.create(rows, cols, CV_32F)]: keeps the buffer when it already has the
    requested size, otherwise takes fresh storage, whose contents [fresh] are
    whatever the allocator hands out. *)
Definition Mat_create (fresh : nat -> list F) (r c : Z) (m : Mat F) : Mat F :=
  if (rows m =? r) && (cols m =? c) then m
  else mkMat r c (fresh (Z.to_nat (r * c))).

(** [cv::add(a, b, dst)] on matrices of one size. *)
Definition Mat_add (a b : Mat F) : Mat F :=
  mkMat (rows a) (cols a) (zip_with fadd (data a) (data b)).

End MatOps.

(** ** Data model *)

(** [cv::KeyPoint] *)
Record KeyPoint (F : Type) := mkKeyPoint {
  pt_x : F;
  pt_y : F;
  size : F;
  angle : F;
  response : F;
  octave : Z;
  class_id : Z
}.
Arguments mkKeyPoint {F} _ _ _ _ _ _ _.
Arguments pt_x {F} _.
Arguments pt_y {F} _.
Arguments size {F} _.
Arguments angle {F} _.
Arguments response {F} _.
Arguments octave {F} _.
Arguments class_id {F} _.

(** One level of the pyramid ([struct Evolution]).  [Lx .. Ldet] are the
    [UMat] members, [Mx .. Mdet] the [Mat] views set by [downloadPyramid]. *)
Record Evolution (F : Type) := mkEvolution {
  Lx : Mat F;
  Ly : Mat F;
  Lt : Mat F;
  Lsmooth : Mat F;
  Ldet : Mat F;
  Mx : Mat F;
  My : Mat F;
  Mt : Mat F;
  Mdet : Mat F;
  ev_width : Z;
  ev_height : Z;
  etime : F;
  esigma : F;
  ev_octave : Z;
  sublevel : Z;
  sigma_size : Z;
  octave_ratio : F
}.
Arguments mkEvolution {F} _ _ _ _ _ _ _ _ _ _ _ _ _ _ _ _ _.
Arguments Lx {F} _.
Arguments Ly {F} _.
Arguments Lt {F} _.
Arguments Lsmooth {F} _.
Arguments Ldet {F} _.
Arguments Mx {F} _.
Arguments My {F} _.
Arguments Mt {F} _.
Arguments Mdet {F} _.
Arguments ev_width {F} _.
Arguments ev_height {F} _.
Arguments etime {F} _.
Arguments esigma {F} _.
Arguments ev_octave {F} _.
Arguments sublevel {F} _.
Arguments sigma_size {F} _.
Arguments octave_ratio {F} _.

(** [struct AKAZEOptions], the members the file reads. *)
Record AKAZEOptions (F : Type) := mkOptions {
  omax : Z;
  nsublevels : Z;
  img_width : Z;
  img_height : Z;
  soffset : F;
  derivative_factor : F;
  dthreshold : F;
  min_dthreshold : F;
  diffusivity : Z;
  descriptor : Z;
  descriptor_size : Z;
  descriptor_channels : Z;
  descriptor_pattern_size : Z;
  kcontrast_percentile : F;
  kcontrast_nbins : Z
}.
Arguments mkOptions {F} _ _ _ _ _ _ _ _ _ _ _ _ _ _ _.
Arguments omax {F} _.
Arguments nsublevels {F} _.
Arguments img_width {F} _.
Arguments img_height {F} _.
Arguments soffset {F} _.
Arguments derivative_factor {F} _.
Arguments dthreshold {F} _.
Arguments min_dthreshold {F} _.
Arguments diffusivity {F} _.
Arguments descriptor {F} _.
Arguments descriptor_size {F} _.
Arguments descriptor_channels {F} _.
Arguments descriptor_pattern_size {F} _.
Arguments kcontrast_percentile {F} _.
Arguments kcontrast_nbins {F} _.

(** Modelled from the spec: the descriptor selectors [AKAZE::DESCRIPTOR_*]
    are declared in the public header, which is not among the sources.  The
    spec names four variants (float upright, float, binary upright, binary);
    the code only compares them by order, with the float variants below
    [DESCRIPTOR_MLDB_UPRIGHT].  The values are those of the header. *)
Definition DESCRIPTOR_KAZE_UPRIGHT : Z := 2.
Definition DESCRIPTOR_KAZE : Z := 3.
Definition DESCRIPTOR_MLDB_UPRIGHT : Z := 4.
Definition DESCRIPTOR_MLDB : Z := 5.

(** Modelled from the spec: the diffusivity selectors [KAZE::DIFF_*] are
    declared in the same header; the spec names the four variants (sharp,
    quadratic, Weickert, Charbonnier). *)
Definition DIFF_PM_G1 : Z := 0.
Definition DIFF_PM_G2 : Z := 1.
Definition DIFF_WEICKERT : Z := 2.
Definition DIFF_CHARBONNIER : Z := 3.

(** ** Descriptor matrix ([AKAZEFeatures::Compute_Descriptors]) *)

Inductive ElemType := CV_32FC1 | CV_8UC1.

(** What [descriptors.create(rows, cols, type)] allocates. *)
Record DescShape := mkShape { d_rows : Z; d_cols : Z; d_type : ElemType }.

(** The loop body classes that fill the rows. *)
Inductive Invoker :=
  | MSURF_Upright_Descriptor_64_Invoker
  | MSURF_Descriptor_64_Invoker
  | Upright_MLDB_Full_Descriptor_Invoker
  | Upright_MLDB_Descriptor_Subset_Invoker
  | MLDB_Full_Descriptor_Invoker
  | MLDB_Descriptor_Subset_Invoker.

(** [(int)ceil(t / 8.)]: an [int] converts exactly to [double] and the
    division by eight is exact, so the quotient is the rational [t/8]. *)
Definition ceil_div8 (t : Z) : Z := Qceiling (inject_Z t / 8)%Q.

Section Descriptors.
Context {F : Type}.

Definition Compute_Descriptors (options_ : AKAZEOptions F) (nlevels : Z)
    (kpts : list (KeyPoint F)) : option (DescShape * option Invoker) :=
  (* CV_Assert(0 <= kpts[i].class_id && kpts[i].class_id < evolution_.size()) *)
  if negb (forallb (fun k => (0 <=? class_id k) && (class_id k <? nlevels)) kpts)
  then None
  else
    let n := Z.of_nat (length kpts) in
    let desc :=
      if descriptor options_ <? DESCRIPTOR_MLDB_UPRIGHT then mkShape n 64 CV_32FC1
      else if descriptor_size options_ =? 0 then
        let t := (6 + 36 + 120) * descriptor_channels options_ in
        mkShape n (ceil_div8 t) CV_8UC1
      else mkShape n (ceil_div8 (descriptor_size options_)) CV_8UC1 in
    let d := descriptor options_ in
    let inv :=
      if d =? DESCRIPTOR_KAZE_UPRIGHT then Some MSURF_Upright_Descriptor_64_Invoker
      else if d =? DESCRIPTOR_KAZE then Some MSURF_Descriptor_64_Invoker
      else if d =? DESCRIPTOR_MLDB_UPRIGHT then
        Some (if descriptor_size options_ =? 0
              then Upright_MLDB_Full_Descriptor_Invoker
              else Upright_MLDB_Descriptor_Subset_Invoker)
      else if d =? DESCRIPTOR_MLDB then
        Some (if descriptor_size options_ =? 0
              then MLDB_Full_Descriptor_Invoker
              else MLDB_Descriptor_Subset_Invoker)
      else None in
    Some (desc, inv).

End Descriptors.

(** ** Parallel ranges *)

(** [parallel_for_(Range(lo, hi), body)] hands the body consecutive
    sub-ranges of [lo, hi); which ones is the scheduler's choice.  The bodies
    of this file write disjoint rows or levels, so running the stripes one
    after the other is a faithful schedule. *)
Inductive Range_split : Z -> Z -> list (Z * Z) -> Prop :=
  | Range_split_nil lo hi : hi <= lo -> Range_split lo hi []
  | Range_split_cons lo mid hi l :
      lo < mid -> mid <= hi -> Range_split mid hi l ->
      Range_split lo hi ((lo, mid) :: l).

Definition parallel_for_ {S : Type} (stripes : list (Z * Z))
    (body : Z -> Z -> S -> S) (s : S) : S :=
  fold_left (fun s r => body (fst r) (snd r) s) stripes s.

(** ** Hessian determinant response *)

Section EvolutionSetters.
Context {F : Type}.

Definition released : Mat F := mkMat 0 0 [].

Definition set_Lx (e : Evolution F) (m : Mat F) : Evolution F :=
  mkEvolution m (Ly e) (Lt e) (Lsmooth e) (Ldet e) (Mx e) (My e) (Mt e) (Mdet e)
    (ev_width e) (ev_height e) (etime e) (esigma e) (ev_octave e) (sublevel e)
    (sigma_size e) (octave_ratio e).
Definition set_Ly (e : Evolution F) (m : Mat F) : Evolution F :=
  mkEvolution (Lx e) m (Lt e) (Lsmooth e) (Ldet e) (Mx e) (My e) (Mt e) (Mdet e)
    (ev_width e) (ev_height e) (etime e) (esigma e) (ev_octave e) (sublevel e)
    (sigma_size e) (octave_ratio e).
Definition set_Lt (e : Evolution F) (m : Mat F) : Evolution F :=
  mkEvolution (Lx e) (Ly e) m (Lsmooth e) (Ldet e) (Mx e) (My e) (Mt e) (Mdet e)
    (ev_width e) (ev_height e) (etime e) (esigma e) (ev_octave e) (sublevel e)
    (sigma_size e) (octave_ratio e).
Definition set_Lsmooth (e : Evolution F) (m : Mat F) : Evolution F :=
  mkEvolution (Lx e) (Ly e) (Lt e) m (Ldet e) (Mx e) (My e) (Mt e) (Mdet e)
    (ev_width e) (ev_height e) (etime e) (esigma e) (ev_octave e) (sublevel e)
    (sigma_size e) (octave_ratio e).
Definition set_Ldet (e : Evolution F) (m : Mat F) : Evolution F :=
  mkEvolution (Lx e) (Ly e) (Lt e) (Lsmooth e) m (Mx e) (My e) (Mt e) (Mdet e)
    (ev_width e) (ev_height e) (etime e) (esigma e) (ev_octave e) (sublevel e)
    (sigma_size e) (octave_ratio e).

(** The body of [downloadPyramid]'s loop. *)
Definition download (e : Evolution F) : Evolution F :=
  mkEvolution (Lx e) (Ly e) (Lt e) (Lsmooth e) (Ldet e) (Lx e) (Ly e) (Lt e) (Ldet e)
    (ev_width e) (ev_height e) (etime e) (esigma e) (ev_octave e) (sublevel e)
    (sigma_size e) (octave_ratio e).

Definition downloadPyramid (evolution : list (Evolution F)) : list (Evolution F) :=
  for_loop 0 (Z.of_nat (length evolution))
    (fun i ev => alter download (Z.to_nat i) ev) evolution.

End EvolutionSetters.

Section Hessian.
Context {F : Type} `{FloatOps F}.

(** Contents of freshly allocated storage. *)
Variable fresh : nat -> list F.
(** [compute_derivative_kernels(kx, ky, dx, dy, scale)] of
    nldiffusion_functions.h, returning the kernel pair. *)
Variable compute_derivative_kernels : Z -> Z -> Z -> Mat F * Mat F.
(** [sepFilter2D(src, dst, CV_32F, kx, ky)], returning [dst]. *)
Variable sepFilter2D : Mat F -> Mat F -> Mat F -> Mat F.

(** The CPU path of [compute_determinant]; [Ldet] is the matrix the caller
    passes for the output. *)
Definition compute_determinant (Lxx Lxy Lyy Ldet : Mat F) (sigma : F) : Mat F :=
  let Ldet := Mat_create fresh (rows Lxx) (cols Lxx) Ldet in
  let total := cols Lxx * rows Lxx in
  for_loop 0 total
    (fun j Ldet =>
       Mat_flat_set Ldet j
         ((Mat_flat Lxx j ⊗ Mat_flat Lyy j ⊖ Mat_flat Lxy j ⊗ Mat_flat Lxy j) ⊗ sigma))
    Ldet.

(** The second derivatives [Lxx], [Lxy], [Lyy] of a level, as the loop body
    of [DeterminantHessianResponse::operator()] computes them. *)
Definition second_derivatives (e : Evolution F) : Mat F * Mat F * Mat F :=
  let '(DxKx, DxKy) := compute_derivative_kernels 1 0 (sigma_size e) in
  let '(DyKx, DyKy) := compute_derivative_kernels 0 1 (sigma_size e) in
  let Lx' := sepFilter2D (Lsmooth e) DxKx DxKy in
  let Lxx := sepFilter2D Lx' DxKx DxKy in
  let Lxy := sepFilter2D Lx' DyKx DyKy in
  let Ly' := sepFilter2D (Lsmooth e) DyKx DyKy in
  let Lyy := sepFilter2D Ly' DyKx DyKy in
  (Lxx, Lxy, Lyy).

(** One iteration of the loop of [DeterminantHessianResponse::operator()]. *)
Definition DeterminantHessianResponse_level (e : Evolution F) : Evolution F :=
  let '(DxKx, DxKy) := compute_derivative_kernels 1 0 (sigma_size e) in
  let '(DyKx, DyKy) := compute_derivative_kernels 0 1 (sigma_size e) in
  let '(Lxx, Lxy, Lyy) := second_derivatives e in
  let e1 := set_Lx e (sepFilter2D (Lsmooth e) DxKx DxKy) in
  let e2 := set_Ly e1 (sepFilter2D (Lsmooth e) DyKx DyKy) in
  let e3 := set_Lsmooth e2 released in
  let s := sigma_size e in
  let sigma_size_quat := f_of_Z (int32_wrap (s * s * s * s)) in
  set_Ldet e3 (compute_determinant Lxx Lxy Lyy (Ldet e) sigma_size_quat).

(** [DeterminantHessianResponse::operator()(Range(start, end))] *)
Definition DeterminantHessianResponse (start end_ : Z)
    (evolution : list (Evolution F)) : list (Evolution F) :=
  for_loop start end_
    (fun i ev => alter DeterminantHessianResponse_level (Z.to_nat i) ev) evolution.

(** The stripes the scheduler makes of a range. *)
Variable sched : Z -> Z -> list (Z * Z).

(** [AKAZEFeatures::Compute_Determinant_Hessian_Response]; with OpenCL in
    use the body runs on the whole range, which is the one-stripe schedule. *)
Definition Compute_Determinant_Hessian_Response
    (evolution : list (Evolution F)) : list (Evolution F) :=
  parallel_for_ (sched 0 (Z.of_nat (length evolution)))
    DeterminantHessianResponse evolution.

End Hessian.

(** ** Nonlinear diffusion step *)

Section Diffusion.
Context {F : Type} `{FloatOps F}.

Variable fresh : nat -> list F.
Variable sched : Z -> Z -> list (Z * Z).

(** [nld_step_scalar_one_lane] computes the rows [row_begin, row_end) of the
    step increment [Lstep] in three blocks.  A pointer
    [Lt.ptr<float>(r) + 1] is the function [fun j => Mat_at Lt r (1 + j)]. *)

(** "Process the top row" *)
Definition nld_top_row (Lt Lf Lstep : Mat F) (step_size : F) : Mat F :=
  let cols_ := cols Lt - 2 in
  let lt_c := fun j => Mat_at Lt 0 (1 + j) in
  let lf_c := fun j => Mat_at Lf 0 (1 + j) in
  let lt_b := fun j => Mat_at Lt 1 (1 + j) in
  let lf_b := fun j => Mat_at Lf 1 (1 + j) in
  (* fill the corner to prevent uninitialized values *)
  let Lstep := Mat_set Lstep 0 0 fzero in
  let Lstep :=
    for_loop 0 cols_
      (fun j Lstep =>
         let step_r :=
           ((lf_c j ⊕ lf_c (j + 1)) ⊗ (lt_c (j + 1) ⊖ lt_c j) ⊕
            (lf_c j ⊕ lf_c (j - 1)) ⊗ (lt_c (j - 1) ⊖ lt_c j) ⊕
            (lf_c j ⊕ lf_b j) ⊗ (lt_b j ⊖ lt_c j)) in
         Mat_set Lstep 0 (1 + j) (step_r ⊗ step_size))
      Lstep in
  (* fill the corner to prevent uninitialized values *)
  Mat_set Lstep 0 (1 + cols_) fzero.

(** The body of the loop "Process the middle rows". *)
Definition nld_middle_row (Lt Lf : Mat F) (step_size : F) (row : Z) (Lstep : Mat F)
    : Mat F :=
  let cols_ := cols Lt - 2 in
  let lt_a := fun j => Mat_at Lt (row - 1) j in
  let lf_a := fun j => Mat_at Lf (row - 1) j in
  let lt_c := fun j => Mat_at Lt row j in
  let lf_c := fun j => Mat_at Lf row j in
  let lt_b := fun j => Mat_at Lt (row + 1) j in
  let lf_b := fun j => Mat_at Lf (row + 1) j in
  (* The left-most column *)
  let step_r :=
    ((lf_c 0 ⊕ lf_c 1) ⊗ (lt_c 1 ⊖ lt_c 0) ⊕
     (lf_c 0 ⊕ lf_b 0) ⊗ (lt_b 0 ⊖ lt_c 0) ⊕
     (lf_c 0 ⊕ lf_a 0) ⊗ (lt_a 0 ⊖ lt_c 0)) in
  let Lstep := Mat_set Lstep row 0 (step_r ⊗ step_size) in
  (* lt_a++; lt_c++; lt_b++; lf_a++; lf_c++; lf_b++; dst++; *)
  let lt_a := fun j => lt_a (1 + j) in
  let lf_a := fun j => lf_a (1 + j) in
  let lt_c := fun j => lt_c (1 + j) in
  let lf_c := fun j => lf_c (1 + j) in
  let lt_b := fun j => lt_b (1 + j) in
  let lf_b := fun j => lf_b (1 + j) in
  (* The middle columns *)
  let Lstep :=
    for_loop 0 cols_
      (fun j Lstep =>
         let step_r :=
           ((lf_c j ⊕ lf_c (j + 1)) ⊗ (lt_c (j + 1) ⊖ lt_c j) ⊕
            (lf_c j ⊕ lf_c (j - 1)) ⊗ (lt_c (j - 1) ⊖ lt_c j) ⊕
            (lf_c j ⊕ lf_b j) ⊗ (lt_b j ⊖ lt_c j) ⊕
            (lf_c j ⊕ lf_a j) ⊗ (lt_a j ⊖ lt_c j)) in
         Mat_set Lstep row (1 + j) (step_r ⊗ step_size))
      Lstep in
  (* The right-most column *)
  let step_r :=
    ((lf_c cols_ ⊕ lf_c (cols_ - 1)) ⊗ (lt_c (cols_ - 1) ⊖ lt_c cols_) ⊕
     (lf_c cols_ ⊕ lf_b cols_) ⊗ (lt_b cols_ ⊖ lt_c cols_) ⊕
     (lf_c cols_ ⊕ lf_a cols_) ⊗ (lt_a cols_ ⊖ lt_c cols_)) in
  Mat_set Lstep row (1 + cols_) (step_r ⊗ step_size).

(** "Process the bottom row (row == Lt.rows - 1)" *)
Definition nld_bottom_row (Lt Lf Lstep : Mat F) (step_size : F) (row : Z) : Mat F :=
  let cols_ := cols Lt - 2 in
  let lt_a := fun j => Mat_at Lt (row - 1) (1 + j) in
  let lf_a := fun j => Mat_at Lf (row - 1) (1 + j) in
  let lt_c := fun j => Mat_at Lt row (1 + j) in
  let lf_c := fun j => Mat_at Lf row (1 + j) in
  (* fill the corner to prevent uninitialized values *)
  let Lstep := Mat_set Lstep row 0 fzero in
  let Lstep :=
    for_loop 0 cols_
      (fun j Lstep =>
         let step_r :=
           ((lf_c j ⊕ lf_c (j + 1)) ⊗ (lt_c (j + 1) ⊖ lt_c j) ⊕
            (lf_c j ⊕ lf_c (j - 1)) ⊗ (lt_c (j - 1) ⊖ lt_c j) ⊕
            (lf_c j ⊕ lf_a j) ⊗ (lt_a j ⊖ lt_c j)) in
         Mat_set Lstep row (1 + j) (step_r ⊗ step_size))
      Lstep in
  (* fill the corner to prevent uninitialized values *)
  Mat_set Lstep row (1 + cols_) fzero.

Definition nld_step_scalar_one_lane (Lt Lf Lstep : Mat F) (step_size : F)
    (row_begin row_end : Z) : Mat F :=
  let Lstep := Mat_create fresh (rows Lt) (cols Lt) Lstep in
  let row := row_begin in
  let '(Lstep, row) :=
    if row =? 0 then (nld_top_row Lt Lf Lstep step_size, row + 1)
    else (Lstep, row) in
  let middle_end := Z.min (rows Lt - 1) row_end in
  let Lstep := for_loop row middle_end (nld_middle_row Lt Lf step_size) Lstep in
  let row := Z.max row middle_end in
  if row_end =? rows Lt then nld_bottom_row Lt Lf Lstep step_size row
  else Lstep.

(** [non_linear_diffusion_step], CPU path: the body
    [NonLinearScalarDiffusionStep] runs [nld_step_scalar_one_lane] on each
    stripe of [Range(0, Lt.rows)]. *)
Definition non_linear_diffusion_step (Lt Lf Lstep : Mat F) (step_size : F) : Mat F :=
  let Lstep := Mat_create fresh (rows Lt) (cols Lt) Lstep in
  parallel_for_ (sched 0 (rows Lt))
    (fun start end_ Lstep => nld_step_scalar_one_lane Lt Lf Lstep step_size start end_)
    Lstep.

(** One iteration of the FED loop of [Create_Nonlinear_Scale_Space]:
    [non_linear_diffusion_step(e.Lt, Lflow, Lstep, tsteps[j] * 0.5f);
     add(e.Lt, Lstep, e.Lt);]  The state is the pair [(e.Lt, Lstep)]. *)
Definition fed_iteration (Lflow : Mat F) (st : Mat F * Mat F) (tstep : F) : Mat F * Mat F :=
  let '(Lt, Lstep) := st in
  let step_size := tstep ⊗ flit 1 2 in
  let Lstep := non_linear_diffusion_step Lt Lflow Lstep step_size in
  (Mat_add Lt Lstep, Lstep).

End Diffusion.

(** ** Exceptions *)

(** [CV_Assert(expr)] and [CV_Error(code, msg)] throw a [cv::Exception]. *)
Inductive Exception :=
  | StsAssert (expr : String.string)
  | CvError (code : Z) (msg : String.string).

(** How a call ends: it returns, it throws, or it runs into undefined
    behaviour (an access outside an array), after which the source says
    nothing about the program. *)
Inductive result (A : Type) :=
  | Ok (a : A)
  | Throw (e : Exception)
  | Undefined.
Arguments Ok {A} _.
Arguments Throw {A} _.
Arguments Undefined {A}.

(** ** Contrast factor *)

Section Contrast.
Context {F : Type} `{FloatOps F}.

Variable fresh : nat -> list F.

(** The first loop nest of [compute_kcontrast]: the gradient magnitudes of
    the interior pixels are stored through [modg] and their maximum kept in
    [hmax].  The state is [(modgs, modg, hmax)], [modg] being the offset of
    the write pointer. *)
Definition gradient_magnitudes (Lx Ly modgs : Mat F) : Mat F * Z * F :=
  for_loop 1 (rows Lx - 1)
    (fun i st =>
       let lx := fun j => Mat_at Lx i (1 + j) in
       let ly := fun j => Mat_at Ly i (1 + j) in
       let cols_ := cols Lx - 2 in
       for_loop 0 cols_
         (fun j st =>
            let '(modgs, modg, hmax) := st in
            let dist := fsqrt (lx j ⊗ lx j ⊕ ly j ⊗ ly j) in
            (Mat_flat_set modgs modg dist, modg + 1, fmax hmax dist))
         st)
    (modgs, 0, fzero).

(** [modgs *= s] *)
Definition Mat_scale (m : Mat F) (s : F) : Mat F :=
  mkMat (rows m) (cols m) (map (fun x => x ⊗ s) (data m)).

(** The histogram loop: [hist[(int)modg[i]]++] on the vector [hist] of
    [nbins] zeros.  [operator[]] does not check its index: a bin number
    outside the vector is undefined behaviour. *)
Definition count_histogram (modgs : Mat F) (total nbins : Z) : option (list Z) :=
  for_loop 0 total
    (fun i hist =>
       hist ← hist;
       let b := f_to_Z (Mat_flat modgs i) in
       count ← arr_at hist b;
       arr_set hist b (count + 1))
    (Some (repeat 0 (Z.to_nat nbins))).

(** The percentile loop; it returns from inside the loop, which the state
    [(returned, nelements)] records. *)
Definition find_percentile (hist : list Z) (hmax : F) (nthreshold nbins : Z) : option F * Z :=
  for_loop 1 nbins
    (fun k st =>
       match st with
       | (Some r, nelements) => (Some r, nelements)
       | (None, nelements) =>
           if nthreshold <=? nelements
           then (Some (hmax ⊗ f_of_Z k ⊘ f_of_Z nbins), nelements)
           else (None, nelements + zget 0 hist k)
       end)
    (None, 0).

Definition compute_kcontrast (Lx Ly : Mat F) (perc : F) (nbins : Z) : result F :=
  if negb (2 <? nbins) then Throw (StsAssert "nbins > 2"%string)
  else if Mat_empty Lx then Throw (StsAssert "!Lx.empty()"%string)
  else
    (* temporary square roots of dot product *)
    let modgs := mkMat (rows Lx - 2) (cols Lx - 2)
                   (fresh (Z.to_nat ((rows Lx - 2) * (cols Lx - 2)))) in
    let total := cols modgs * rows modgs in
    let '(modgs, _, hmax) := gradient_magnitudes Lx Ly modgs in
    if hmax ==. fzero then Ok (flit 3 100)  (* e.g. a blank image *)
    else
      (* Compute the bin numbers: the value range [0, hmax] -> [0, nbins-1] *)
      let modgs := Mat_scale modgs (f_of_Z (nbins - 1) ⊘ hmax) in
      (* Count up histogram *)
      match count_histogram modgs total nbins with
      | None => Undefined
      | Some hist =>
          (* Now find the perc of the histogram percentile *)
          let nthreshold := f_to_Z (f_of_Z (total - zget 0 hist 0) ⊗ perc) in
          match fst (find_percentile hist hmax nthreshold nbins) with
          | Some r => Ok r
          | None => Ok (flit 3 100)
          end
      end.

(** The maximum gradient magnitude [hmax] that [compute_kcontrast] finds. *)
Definition kcontrast_hmax (Lx Ly : Mat F) : F :=
  snd (gradient_magnitudes Lx Ly
         (mkMat (rows Lx - 2) (cols Lx - 2)
            (fresh (Z.to_nat ((rows Lx - 2) * (cols Lx - 2)))))).

End Contrast.

(** ** Orientation: counting sort by quantized angles *)

Section CountingSort.
Context {F : Type} `{FloatOps F}.

(** The label [(int)(a[i] / quantum)] of the [i]-th value. *)
Definition quantized_key (a : list F) (quantum : F) (i : Z) : Z :=
  f_to_Z (zget fzero a i ⊘ quantum).

(** [a[i]] on the array of floats. *)
Definition float_at (a : list F) (i : Z) : option F :=
  if i <? 0 then None else a !! Z.to_nat i.

(** The first three loops of [quantized_counting_sort]: after them [cum]
    holds the inclusive prefix sums of the key counts, as [uint8_t].  The
    third argument of [memset] is a [size_t]: a negative [nkeys + 1] becomes
    a size beyond every array. *)
Definition counting_prefix_sums (a : list F) (n : Z) (quantum max : F)
    (cum : list Z) : option (list Z) :=
  let nkeys := f_to_Z (max ⊘ quantum) in
  (* memset(cum, 0, nkeys + 1) *)
  cum ← (if nkeys + 1 <? 0 then None
         else for_loop 0 (nkeys + 1)
                (fun i cum => cum ← cum; arr_set cum i 0) (Some cum));
  (* Count up the quantized values *)
  cum ← for_loop 0 n
    (fun i cum =>
       cum ← cum;
       x ← float_at a i;
       let k := f_to_Z (x ⊘ quantum) in
       count ← arr_at cum k;
       arr_set cum k (u8 (count + 1)))
    (Some cum);
  (* Compute the inclusive prefix sum *)
  for_loop 1 (nkeys + 1)
    (fun i cum =>
       cum ← cum;
       this ← arr_at cum i;
       before ← arr_at cum (i - 1);
       arr_set cum i (u8 (this + before)))
    (Some cum).

(** [quantized_counting_sort(a, n, quantum, max, idx, cum)], returning the
    two output arrays. *)
Definition quantized_counting_sort (a : list F) (n : Z) (quantum max : F)
    (idx cum : list Z) : option (list Z * list Z) :=
  cum ← counting_prefix_sums a n quantum max cum;
  (* Generate the sorted indices *)
  for_loop 0 n
    (fun i st =>
       '(idx, cum) ← st;
       x ← float_at a i;
       let k := f_to_Z (x ⊘ quantum) in
       count ← arr_at cum k;
       let c := u8 (count - 1) in        (* --cum[k] *)
       cum ← arr_set cum k c;
       idx ← arr_set idx c (u8 i);
       Some (idx, cum))
    (Some (idx, cum)).

End CountingSort.

(** ** Keypoint detection *)

Section Detection.
Context {F : Type} `{FloatOps F}.

(** [fRound] and [fastpow] of utils.h. *)
Variable fRound : F -> Z.
Variable fastpow : Z -> Z -> Z.
(** [cv::solve(A, b, dst, DECOMP_LU)] for the 2x2 system; [A] is given row by
    row, the third argument is [dst] before the call, the result [dst]
    after it. *)
Variable solve : F * F * F * F -> F * F -> F * F -> F * F.

Definition empty_evolution : Evolution F :=
  mkEvolution released released released released released released released
    released released 0 0 fzero fzero 0 0 0 fzero.

(** [evolution_[i]] *)
Definition ev_at (evolution : list (Evolution F)) (i : Z) : Evolution F :=
  zget empty_evolution evolution i.

(** A default-constructed [cv::KeyPoint]. *)
Definition KeyPoint_default : KeyPoint F :=
  mkKeyPoint fzero fzero fzero (f_of_Z (-1)) fzero 0 (-1).

(** "Set maximum size" *)
Definition smax_of (options_ : AKAZEOptions F) : F :=
  let d := descriptor options_ in
  if (d =? DESCRIPTOR_MLDB_UPRIGHT) || (d =? DESCRIPTOR_MLDB)
  then f_of_Z 10 ⊗ fsqrt (f_of_Z 2)
  else if (d =? DESCRIPTOR_KAZE_UPRIGHT) || (d =? DESCRIPTOR_KAZE)
  then f_of_Z 12 ⊗ fsqrt (f_of_Z 2)
  else fzero.

(** Squared distance test of the first pass: [point] is still in the
    coordinates of its level, [k] in those of the image. *)
Definition overlaps_scaled (point : KeyPoint F) (ratio : F) (k : KeyPoint F) : bool :=
  let distx := pt_x point ⊗ ratio ⊖ pt_x k in
  let disty := pt_y point ⊗ ratio ⊖ pt_y k in
  let dist := distx ⊗ distx ⊕ disty ⊗ disty in
  dist <=. size point ⊗ size point.

(** "Compare response with the same and lower scale": the loop over
    [kpts_aux], left by [break] at the first keypoint of level [class_id] or
    [class_id - 1] within the radius.  [ik] is the index of the head of the
    list; the result is [(is_extremum, is_repeated, id_repeated)]. *)
Fixpoint compare_lower_scale (point : KeyPoint F) (ratio : F)
    (kpts_aux : list (KeyPoint F)) (ik id_repeated : Z) : bool * bool * Z :=
  match kpts_aux with
  | [] => (true, false, id_repeated)
  | k :: rest =>
      if (class_id point - 1 =? class_id k) || (class_id point =? class_id k) then
        if overlaps_scaled point ratio k then
          if response point >. response k
          then (true, true, ik)
          else (false, false, id_repeated)
        else compare_lower_scale point ratio rest (ik + 1) id_repeated
      else compare_lower_scale point ratio rest (ik + 1) id_repeated
  end.

(** The body of the pixel loop; the state is [(kpts_aux, id_repeated)]. *)
Definition extremum_at (options_ : AKAZEOptions F) (evolution : list (Evolution F))
    (i ix jx : Z) (st : list (KeyPoint F) * Z) : list (KeyPoint F) * Z :=
  let '(kpts_aux, id_repeated) := st in
  let e := ev_at evolution i in
  let Ldet := Mdet e in
  let prev := fun j => Mat_at Ldet (ix - 1) j in
  let curr := fun j => Mat_at Ldet ix j in
  let next := fun j => Mat_at Ldet (ix + 1) j in
  let smax := smax_of options_ in
  let value := Mat_at Ldet ix jx in
  (* Filter the points with the detector threshold *)
  if (value >. dthreshold options_) &&& (value >=. min_dthreshold options_) &&&
     (value >. curr (jx - 1)) &&& (value >. curr (jx + 1)) &&&
     (value >. prev (jx - 1)) &&& (value >. prev jx) &&& (value >. prev (jx + 1)) &&&
     (value >. next (jx - 1)) &&& (value >. next jx) &&& (value >. next (jx + 1))
  then
    let point :=
      mkKeyPoint (f_of_Z jx) (f_of_Z ix) (esigma e ⊗ derivative_factor options_)
        (angle KeyPoint_default) (fabs value) (ev_octave e) i in
    let ratio := f_of_Z (fastpow 2 (octave point)) in
    let sigma_size_ := fRound (size point ⊘ ratio) in
    let '(is_extremum, is_repeated, id_repeated) :=
      compare_lower_scale point ratio kpts_aux 0 id_repeated in
    (* Check out of bounds *)
    if is_extremum then
      let left_x := fRound (pt_x point ⊖ smax ⊗ f_of_Z sigma_size_) - 1 in
      let right_x := fRound (pt_x point ⊕ smax ⊗ f_of_Z sigma_size_) + 1 in
      let up_y := fRound (pt_y point ⊖ smax ⊗ f_of_Z sigma_size_) - 1 in
      let down_y := fRound (pt_y point ⊕ smax ⊗ f_of_Z sigma_size_) + 1 in
      let is_out :=
        (left_x <? 0) || (cols Ldet <=? right_x) ||
        (up_y <? 0) || (rows Ldet <=? down_y) in
      if is_out then (kpts_aux, id_repeated)
      else
        (* (float)(point.pt.x*ratio + .5*(ratio-1.0)) *)
        let point :=
          mkKeyPoint
            (pt_x point ⊗ ratio ⊕ flit 1 2 ⊗ (ratio ⊖ fone))
            (pt_y point ⊗ ratio ⊕ flit 1 2 ⊗ (ratio ⊖ fone))
            (size point) (angle point) (response point) (octave point)
            (class_id point) in
        if is_repeated
        then (zset kpts_aux id_repeated point, id_repeated)
        else (kpts_aux ++ [point], id_repeated)
    else (kpts_aux, id_repeated)
  else (kpts_aux, id_repeated).

(** The first pass of [Find_Scale_Space_Extrema]: levels, rows, columns. *)
Definition accumulate_extrema (options_ : AKAZEOptions F)
    (evolution : list (Evolution F)) : list (KeyPoint F) * Z :=
  for_loop 0 (Z.of_nat (length evolution))
    (fun i st =>
       let Ldet := Mdet (ev_at evolution i) in
       for_loop 1 (rows Ldet - 1)
         (fun ix st =>
            for_loop 1 (cols Ldet - 1)
              (fun jx st => extremum_at options_ evolution i ix jx st) st)
         st)
    ([], 0).

(** The test of the second pass for [pt] against a later entry [k]: [k] is
    one level up, within the radius, and has the larger response. *)
Definition repeated_upper_scale (pt k : KeyPoint F) : bool :=
  (class_id pt + 1 =? class_id k) &&
  (let distx := pt_x pt ⊖ pt_x k in
   let disty := pt_y pt ⊖ pt_y k in
   let dist := distx ⊗ distx ⊕ disty ⊗ disty in
   dist <=. size pt ⊗ size pt) &&
  (response pt <. response k).

(** "Now filter points with the upper scale level": entry [i] is compared
    with the entries [j > i]; the inner loop stops at the first hit. *)
Fixpoint filter_upper_scale (kpts_aux : list (KeyPoint F)) : list (KeyPoint F) :=
  match kpts_aux with
  | [] => []
  | pt :: rest =>
      let is_repeated := existsb (repeated_upper_scale pt) rest in
      if is_repeated then filter_upper_scale rest
      else pt :: filter_upper_scale rest
  end.

Definition Find_Scale_Space_Extrema (options_ : AKAZEOptions F)
    (evolution : list (Evolution F)) : list (KeyPoint F) :=
  filter_upper_scale (fst (accumulate_extrema options_ evolution)).

(** *** Subpixel refinement *)

(** Arithmetic on [size_t]. *)
Definition size_t_wrap (z : Z) : Z := z mod 2 ^ 64.

(** The integer position of a keypoint in its level and the offset [dst]
    that [solve] leaves for it. *)
Definition subpixel_offset (evolution : list (Evolution F)) (kp : KeyPoint F)
    (dst : F * F) : Z * Z * (F * F) :=
  let ratio := f_of_Z (fastpow 2 (octave kp)) in
  let x := fRound (pt_x kp ⊘ ratio) in
  let y := fRound (pt_y kp ⊘ ratio) in
  let Ldet := Mdet (ev_at evolution (class_id kp)) in
  (* Compute the gradient *)
  let Dx := flit 1 2 ⊗ (Mat_at Ldet y (x + 1) ⊖ Mat_at Ldet y (x - 1)) in
  let Dy := flit 1 2 ⊗ (Mat_at Ldet (y + 1) x ⊖ Mat_at Ldet (y - 1) x) in
  (* Compute the Hessian *)
  let Dxx := Mat_at Ldet y (x + 1) ⊕ Mat_at Ldet y (x - 1)
             ⊖ f_of_Z 2 ⊗ Mat_at Ldet y x in
  let Dyy := Mat_at Ldet (y + 1) x ⊕ Mat_at Ldet (y - 1) x
             ⊖ f_of_Z 2 ⊗ Mat_at Ldet y x in
  let Dxy := flit 1 4 ⊗ (Mat_at Ldet (y + 1) (x + 1) ⊕ Mat_at Ldet (y - 1) (x - 1))
             ⊖ flit 1 4 ⊗ (Mat_at Ldet (y - 1) (x + 1) ⊕ Mat_at Ldet (y + 1) (x - 1)) in
  (* Solve the linear system *)
  (x, y, solve (Dxx, Dxy, Dxy, Dyy) (fopp Dx, fopp Dy) dst).

(** [fabs(dst(0)) <= 1.0f && fabs(dst(1)) <= 1.0f] *)
Definition offset_accepted (dst : F * F) : bool :=
  (fabs (fst dst) <=. fone) && (fabs (snd dst) <=. fone).

(** The keypoint as the accepting branch rewrites it. *)
Definition refined (evolution : list (Evolution F)) (kp : KeyPoint F)
    (x y : Z) (dst : F * F) : KeyPoint F :=
  let px := f_of_Z x ⊕ fst dst in
  let py := f_of_Z y ⊕ snd dst in
  let power := fastpow 2 (ev_octave (ev_at evolution (class_id kp))) in
  (* (float)(kpts[i].pt.x*power + .5*(power-1)) *)
  mkKeyPoint
    (px ⊗ f_of_Z power ⊕ flit 1 2 ⊗ f_of_Z (power - 1))
    (py ⊗ f_of_Z power ⊕ flit 1 2 ⊗ f_of_Z (power - 1))
    (size kp ⊗ f_of_Z 2) fzero (response kp) (octave kp) (class_id kp).

(** The loop of [Do_Subpixel_Refinement] over the index [i], with the vector
    and [dst] as state.  Each round either advances [i] or shortens the
    vector, so [fuel] rounds suffice when [fuel] is the length at entry. *)
Fixpoint Do_Subpixel_Refinement_loop (fuel : nat) (evolution : list (Evolution F))
    (kpts : list (KeyPoint F)) (i : Z) (dst : F * F) : list (KeyPoint F) :=
  match fuel with
  | O => kpts
  | Datatypes.S fuel =>
      if i <? Z.of_nat (length kpts) then
        let kp := zget KeyPoint_default kpts i in
        let '(x, y, dst) := subpixel_offset evolution kp dst in
        if offset_accepted dst then
          let kpts := zset kpts i (refined evolution kp x y dst) in
          Do_Subpixel_Refinement_loop fuel evolution kpts (size_t_wrap (i + 1)) dst
        else
          (* Delete the point since its not stable *)
          let kpts := delete (Z.to_nat i) kpts in
          let i := size_t_wrap (i - 1) in
          Do_Subpixel_Refinement_loop fuel evolution kpts (size_t_wrap (i + 1)) dst
      else kpts
  end.

Definition Do_Subpixel_Refinement (evolution : list (Evolution F))
    (kpts : list (KeyPoint F)) : list (KeyPoint F) :=
  Do_Subpixel_Refinement_loop (length kpts) evolution kpts 0 (fzero, fzero).

Definition Feature_Detection (options_ : AKAZEOptions F)
    (evolution : list (Evolution F)) : list (KeyPoint F) :=
  Do_Subpixel_Refinement evolution (Find_Scale_Space_Extrema options_ evolution).

End Detection.

(** ** The sampling pattern of the subsampled binary descriptor *)

(** A [Mat_<int>] is the list of its rows.  An element access outside the
    matrix is undefined in the source; [imat_at] and [imat_set] then give
    [None], and so does everything that follows. *)
Definition imat_create (nrows ncols v : Z) : list (list Z) :=
  repeat (repeat v (Z.to_nat ncols)) (Z.to_nat nrows).

(** [m(r, c)] *)
Definition imat_at (m : list (list Z)) (r c : Z) : option Z :=
  if (r <? 0) || (c <? 0) then None
  else row ← m !! Z.to_nat r; row !! Z.to_nat c.

(** [m(r, c) = v] *)
Definition imat_set (m : list (list Z)) (r c v : Z) : option (list (list Z)) :=
  if (r <? 0) || (c <? 0) then None
  else
    row ← m !! Z.to_nat r;
    if (Z.to_nat c <? length row)%nat
    then Some (<[Z.to_nat r := <[Z.to_nat c := v]> row]> m)
    else None.

(** [src.row(from).copyTo(dst.row(to))] within one matrix. *)
Definition imat_copy_row (m : list (list Z)) (from to : Z) : option (list (list Z)) :=
  if (from <? 0) || (to <? 0) then None
  else
    row ← m !! Z.to_nat from;
    if (Z.to_nat to <? length m)%nat then Some (<[Z.to_nat to := row]> m) else None.

(** [m.rowRange(0, n).clone()]; the range must lie within the matrix. *)
Definition imat_rowRange (m : list (list Z)) (n : Z) : option (list (list Z)) :=
  if (0 <=? n) && (n <=? Z.of_nat (length m)) then Some (take (Z.to_nat n) m) else None.

(** The capacity [ssz] of the full descriptor that
    [generateDescriptorSubsample] computes before its assertion. *)
Definition full_descriptor_bits (nchannels : Z) : Z :=
  let ssz :=
    for_loop 0 3
      (fun i ssz => let gz := (i + 2) * (i + 2) in ssz + gz * (gz - 1) / 2) 0 in
  ssz * nchannels.

Section DescriptorSubsample.
Context {F : Type} `{FloatOps F}.

(** [ceil] of [<cmath>] on [float]. *)
Variable fceil : F -> F.
(** [rand i] is what the call of [rand()] in round [i] of the pick loop
    returns after [srand(1024)]. *)
Variable rand : Z -> Z.
(** What a matrix holds before it is written. *)
Variable uninit : Z.

(** The matrix [fullM] of all comparisons: a row per pair [j < k] of cells
    of the grids of 2x2, 3x3 and 4x4 cells, holding the grid and the
    corners of the two cells. *)
Definition full_comparisons (pattern_size nrows : Z) : option (list (list Z)) :=
  let fullM := imat_create nrows 5 uninit in
  st ← for_loop 0 3
    (fun i st =>
       let gdiv := i + 2 in   (* grid divisions, per row *)
       let gsz := gdiv * gdiv in
       let psz := f_to_Z (fceil ((f_of_Z 2 ⊗ f_of_Z pattern_size) ⊘ f_of_Z gdiv)) in
       for_loop 0 gsz
         (fun j st =>
            for_loop (j + 1) gsz
              (fun k st =>
                 '(fullM, c) ← st;
                 fullM ← imat_set fullM c 0 i;
                 fullM ← imat_set fullM c 1 (psz * (Z.rem j gdiv) - pattern_size);
                 fullM ← imat_set fullM c 2 (psz * (Z.quot j gdiv) - pattern_size);
                 fullM ← imat_set fullM c 3 (psz * (Z.rem k gdiv) - pattern_size);
                 fullM ← imat_set fullM c 4 (psz * (Z.quot k gdiv) - pattern_size);
                 Some (fullM, c + 1))
              st)
         st)
    (Some (fullM, 0));
  Some (fst st).

(** [samples(j, 0) == fullcopy(k, 0) && samples(j, 1) == fullcopy(k, c1) &&
     samples(j, 2) == fullcopy(k, c2)] *)
Definition same_point (samples : list (list Z)) (j : Z) (fullcopy : list (list Z))
    (k c1 c2 : Z)
    : option bool :=
  s0 ← imat_at samples j 0; f0 ← imat_at fullcopy k 0;
  if s0 =? f0 then
    s1 ← imat_at samples j 1; f1 ← imat_at fullcopy k c1;
    if s1 =? f1 then
      s2 ← imat_at samples j 2; f2 ← imat_at fullcopy k c2;
      Some (s2 =? f2)
    else Some false
  else Some false.

(** The search [for (int j = 0; j < count; j++)] for the point of row [k],
    left by [break] at the first hit; [fuel] is the number of rounds left. *)
Fixpoint find_point (fuel : nat) (j : Z) (samples fullcopy : list (list Z))
    (k c1 c2 : Z)
    : option (option Z) :=
  match fuel with
  | O => Some None
  | Datatypes.S fuel =>
      hit ← same_point samples j fullcopy k c1 c2;
      if hit : bool then Some (Some j)
      else find_point fuel (j + 1) samples fullcopy k c1 c2
  end.

(** [comps(i*nchannels + t, col) = nchannels*j + t] for the three [t]. *)
Definition store_comparison (comps : list (list Z)) (i nchannels col j : Z)
    : option (list (list Z)) :=
  comps ← imat_set comps (i * nchannels) col (nchannels * j);
  comps ← imat_set comps (i * nchannels + 1) col (nchannels * j + 1);
  imat_set comps (i * nchannels + 2) col (nchannels * j + 2).

(** One of the two halves of a pick: the point in the columns [0, c1, c2]
    of row [k] is looked up in the sampling list, appended to it when it is
    new, and its position is stored in column [col] of the comparisons. *)
Definition place_point (st : list (list Z) * list (list Z) * Z) (fullcopy : list (list Z))
    (i k nchannels c1 c2 col : Z) : option (list (list Z) * list (list Z) * Z) :=
  let '(samples, comps, count) := st in
  found ← find_point (Z.to_nat count) 0 samples fullcopy k c1 c2;
  match found with
  | Some j =>
      comps ← store_comparison comps i nchannels col j;
      Some (samples, comps, count)
  | None =>
      f0 ← imat_at fullcopy k 0; samples ← imat_set samples count 0 f0;
      f1 ← imat_at fullcopy k c1; samples ← imat_set samples count 1 f1;
      f2 ← imat_at fullcopy k c2; samples ← imat_set samples count 2 f2;
      comps ← store_comparison comps i nchannels col count;
      Some (samples, comps, count + 1)
  end.

(** Round [i] of the loop "Select some samples". *)
Definition pick (nchannels nrows i : Z)
    (st : list (list Z) * list (list Z) * Z * list (list Z))
    : option (list (list Z) * list (list Z) * Z * list (list Z)) :=
  let '(samples, comps, count, fullcopy) := st in
  if nrows - i =? 0 then None
  else
    let k := Z.rem (rand i) (nrows - i) in
    (* Force use of the coarser grid values and comparisons *)
    let k := if i <? 6 then i else k in
    st ← place_point (samples, comps, count) fullcopy i k nchannels 1 2 0;
    '(samples, comps, count) ← place_point st fullcopy i k nchannels 3 4 1;
    fullcopy ← imat_copy_row fullcopy (Z.of_nat (length fullcopy) - i - 1) k;
    Some (samples, comps, count, fullcopy).

(** The statements of [generateDescriptorSubsample] after its assertion. *)
Definition select_subsample (nbits pattern_size nchannels : Z)
    : option (list (list Z) * list (list Z)) :=
  let ssz := full_descriptor_bits nchannels in
  if nchannels =? 0 then None
  else
    fullM ← full_comparisons pattern_size (Z.quot ssz nchannels);
    let comps :=
      imat_create (nchannels * f_to_Z (fceil (f_of_Z nbits ⊘ f_of_Z nchannels))) 2 1000 in
    (* Select some samples. A sample includes all channels *)
    let npicks := f_to_Z (fceil (f_of_Z nbits ⊘ f_of_Z nchannels)) in
    let samples := imat_create 29 3 (-1) in
    let fullcopy := fullM in
    st ← for_loop 0 npicks
      (fun i st => st ← st; pick nchannels (Z.of_nat (length fullM)) i st)
      (Some (samples, comps, 0, fullcopy));
    let '(samples, comps, count, _) := st in
    sampleList ← imat_rowRange samples count;
    comparisons ← imat_rowRange comps nbits;
    Some (sampleList, comparisons).

(** [generateDescriptorSubsample(sampleList, comparisons, nbits,
    pattern_size, nchannels)], returning the two matrices. *)
Definition generateDescriptorSubsample (nbits pattern_size nchannels : Z)
    : result (list (list Z) * list (list Z)) :=
  let ssz := full_descriptor_bits nchannels in
  (* Descriptor size can't be bigger than full descriptor *)
  if negb (nbits <=? ssz) then Throw (StsAssert "nbits <= ssz"%string)
  else
    match select_subsample nbits pattern_size nchannels with
    | Some tables => Ok tables
    | None => Undefined
    end.

End DescriptorSubsample.

(** ** The comparisons of the full binary descriptor *)

Section BinaryComparisons.
Context {F : Type} `{FloatOps F}.

(** [CV_TOGGLE_FLT] of the core module, on the [int] that shares its bytes
    with a [float]. *)
Variable CV_TOGGLE_FLT : Z -> Z.

(** [MLDB_Binary_Comparisons]: [values] is given as the [int]s that
    [ivalues = (int* )values] reads, [desc] as bytes.  The result is the
    buffer of values, the descriptor row and [dpos] after the call. *)
Definition MLDB_Binary_Comparisons (chan : Z) (ivalues desc : list Z) (count dpos : Z)
    : option (list Z * list Z * Z) :=
  ivalues ← for_loop 0 (count * chan)
    (fun i ivalues =>
       ivalues ← ivalues;
       x ← arr_at ivalues i;
       arr_set ivalues i (CV_TOGGLE_FLT x))
    (Some ivalues);
  st ← for_loop 0 chan
    (fun pos st =>
       for_loop 0 count
         (fun i st =>
            _ ← st;
            ival ← arr_at ivalues (chan * i + pos);
            for_loop (i + 1) count
              (fun j st =>
                 '(desc, dpos) ← st;
                 other ← arr_at ivalues (chan * j + pos);
                 byte ← arr_at desc (Z.shiftr dpos 3);
                 desc ← arr_set desc (Z.shiftr dpos 3)
                          (if ival >? other
                           then u8 (Z.lor byte (Z.shiftl 1 (Z.land dpos 7)))
                           else u8 (Z.land byte (Z.lnot (Z.shiftl 1 (Z.land dpos 7)))));
                 Some (desc, dpos + 1))
              st)
         st)
    (Some (desc, dpos));
  Some (ivalues, st.1, st.2).

(** [fRound] of utils.h, [cos] and [sin] of [<cmath>], [(float)CV_PI]. *)
Variable fRound : F -> Z.
Variables fcos fsin : F -> F.
Variable pi : F.
(** [static_cast<int>(ceil(pattern_size * size_mult[lvl]))], a product of
    [double]s. *)
Variable sample_step_of : Z -> Z -> Z.
(** [MLDB_Fill_Values(values, sample_step, level, xf, yf, co, si, scale)]:
    the buffer of values after the call. *)
Variable MLDB_Fill_Values : list Z -> Z -> Z -> F -> F -> F -> F -> F -> list Z.
(** What the array [values] on the stack holds at first. *)
Variable stack_values : list Z.

(** [Get_MLDB_Full_Descriptor]: the descriptor row after the call. *)
Definition Get_MLDB_Full_Descriptor (options_ : AKAZEOptions F) (kpt : KeyPoint F)
    (desc : list Z) : result (option (list Z)) :=
  let max_channels := 3 in
  if negb (descriptor_channels options_ <=? max_channels)
  then Throw (StsAssert "options_->descriptor_channels <= max_channels"%string)
  else
    let values := take (Z.to_nat (16 * max_channels)) stack_values in
    let ratio := f_of_Z (Z.shiftl 1 (octave kpt)) in
    let scale := f_of_Z (fRound (flit 1 2 ⊗ size kpt ⊘ ratio)) in
    let xf := pt_x kpt ⊘ ratio in
    let yf := pt_y kpt ⊘ ratio in
    let angle_ := (angle kpt ⊗ pi) ⊘ f_of_Z 180 in
    let co := fcos angle_ in
    let si := fsin angle_ in
    let pattern_size := descriptor_pattern_size options_ in
    let dpos := 0 in
    Ok (st ← for_loop 0 3
          (fun lvl st =>
             '(values, desc, dpos) ← st;
             let val_count := (lvl + 2) * (lvl + 2) in
             let sample_step := sample_step_of pattern_size lvl in
             let values :=
               MLDB_Fill_Values values sample_step (class_id kpt) xf yf co si scale in
             MLDB_Binary_Comparisons (descriptor_channels options_) values desc
               val_count dpos)
          (Some (values, desc, dpos));
        Some st.1.2).

End BinaryComparisons.

(** ** The subsampled binary descriptor *)

Section DescriptorSubset.
Context {F : Type} `{FloatOps F}.

(** The matrix [values] of floats: an element is [None] until it is
    written.  Reading an element outside the matrix, or one that was never
    written, gives [None]. *)
Definition values_at (values : list (option F)) (i : Z) : option F :=
  if i <? 0 then None else mjoin (values !! Z.to_nat i).

Definition values_set (values : list (option F)) (i : Z) (v : F)
    : option (list (option F)) :=
  if i <? 0 then None
  else if (Z.to_nat i <? length values)%nat
       then Some (<[Z.to_nat i := Some v]> values) else None.

(** [ceil] of [<cmath>] on [float]. *)
Variable fceil : F -> F.
(** The two loops over [k] and [l] that sum the samples of one cell: the
    sums [di], [dx], [dy] for the keypoint, the step and the corner of the
    cell. *)
Variable sample_cell : AKAZEOptions F -> KeyPoint F -> Z -> Z -> Z -> F * F * F.

(** [Get_MLDB_Descriptor_Subset]: the descriptor row after the call. *)
Definition Get_MLDB_Descriptor_Subset (options : AKAZEOptions F) (kpt : KeyPoint F)
    (descriptorSamples_ descriptorBits_ : list (list Z)) (desc : list Z)
    : option (list Z) :=
  let chan := descriptor_channels options in
  (* Allocate memory for the matrix of values *)
  let values : list (option F) := repeat None (Z.to_nat ((4 + 9 + 16) * chan)) in
  (* Sample everything, but only do the comparisons *)
  let steps :=
    [descriptor_pattern_size options;
     f_to_Z (fceil ((f_of_Z 2 ⊗ f_of_Z (descriptor_pattern_size options)) ⊘ f_of_Z 3));
     Z.quot (descriptor_pattern_size options) 2] in
  values ← for_loop 0 (Z.of_nat (length descriptorSamples_))
    (fun i values =>
       values ← values;
       coords0 ← imat_at descriptorSamples_ i 0;
       sample_step ← arr_at steps coords0;
       coords1 ← imat_at descriptorSamples_ i 1;
       coords2 ← imat_at descriptorSamples_ i 2;
       let '(di, dx, dy) := sample_cell options kpt sample_step coords1 coords2 in
       values ← values_set values (chan * i) di;
       if chan =? 2 then values_set values (chan * i + 1) dx
       else if chan =? 3 then
         values ← values_set values (chan * i + 1) dx;
         values_set values (chan * i + 2) dy
       else Some values)
    (Some values);
  (* Do the comparisons *)
  for_loop 0 (Z.of_nat (length descriptorBits_))
    (fun i desc =>
       desc ← desc;
       a ← imat_at descriptorBits_ i 0;
       b ← imat_at descriptorBits_ i 1;
       va ← values_at values a;
       vb ← values_at values b;
       byte ← arr_at desc (Z.quot i 8);
       arr_set desc (Z.quot i 8)
         (if va >. vb
          then u8 (Z.lor byte (Z.shiftl 1 (Z.rem i 8)))
          else u8 (Z.land byte (Z.lnot (Z.shiftl 1 (Z.rem i 8))))))
    (Some desc).

End DescriptorSubset.

(** ** The upright full binary descriptor *)

Section UprightFullDescriptor.
Context {F : Type} `{FloatOps F}.

(** [*(m.ptr<float>(0) + i)] on the buffer of a continuous matrix of
    floats. *)
Definition farr_at (a : list F) (i : Z) : option F :=
  if i <? 0 then None else a !! Z.to_nat i.

(** The sampling loops of grid [z]: the matrix [values[z]], of
    [(z + 2) * (z + 2)] rows of [descriptor_channels] floats, as they leave
    it, or [None] when they leave the matrix or the images. *)
Variable upright_values : AKAZEOptions F -> KeyPoint F -> Z -> option (list F).

(** [Get_Upright_MLDB_Full_Descriptor]: the descriptor row after the
    call. *)
Definition Get_Upright_MLDB_Full_Descriptor (options : AKAZEOptions F) (kpt : KeyPoint F)
    (desc : list Z) : option (list Z) :=
  let chan := descriptor_channels options in
  let dcount1 := 0 in
  (* For the three grids *)
  st ← for_loop 0 3
    (fun z st =>
       '(desc, dcount1) ← st;
       values ← upright_values options kpt z;
       (* Do binary comparison *)
       let num := (z + 2) * (z + 2) in
       for_loop 0 num
         (fun i st =>
            for_loop (i + 1) num
              (fun j st =>
                 for_loop 0 3
                   (fun k st =>
                      '(desc, dcount1) ← st;
                      valI ← farr_at values (chan * i + k);
                      valJ ← farr_at values (chan * j + k);
                      byte ← arr_at desc (Z.quot dcount1 8);
                      desc ← arr_set desc (Z.quot dcount1 8)
                               (if valI >. valJ
                                then u8 (Z.lor byte (Z.shiftl 1 (Z.rem dcount1 8)))
                                else u8 (Z.land byte
                                           (Z.lnot (Z.shiftl 1 (Z.rem dcount1 8)))));
                      Some (desc, dcount1 + 1))
                   st)
              st)
         (Some (desc, dcount1)))
    (Some (desc, dcount1));
  Some st.1.

End UprightFullDescriptor.

(** ** The scale space *)

(** The members of [class AKAZEFeatures]. *)
Record AKAZEFeatures (F : Type) := mkAKAZEFeatures {
  options_ : AKAZEOptions F;
  evolution_ : list (Evolution F);
  ncycles_ : Z;
  reordering_ : bool;
  nsteps_ : list Z;
  tsteps_ : list (list F);
  descriptorSamples_ : list (list Z);
  descriptorBits_ : list (list Z)
}.
Arguments mkAKAZEFeatures {F} _ _ _ _ _ _ _ _.
Arguments options_ {F} _.
Arguments evolution_ {F} _.
Arguments ncycles_ {F} _.
Arguments reordering_ {F} _.
Arguments nsteps_ {F} _.
Arguments tsteps_ {F} _.
Arguments descriptorSamples_ {F} _.
Arguments descriptorBits_ {F} _.

Section ScaleSpace.
Context {F : Type} `{FloatOps F}.

Variable fresh : nat -> list F.
Variable sched : Z -> Z -> list (Z * Z).
(** utils.h, libm, fed.h *)
Variable fRound : F -> Z.
Variable powf : F -> F -> F.
Variable fed_tau_by_process_time : F -> Z -> F -> bool -> Z * list F.
(** imgproc *)
Variable GaussianBlur : Mat F -> Z -> F -> Mat F.
Variable Scharr : Mat F -> Z -> Z -> Mat F.
Variable resize : Mat F -> Z -> Z -> Mat F.
Variable compute_derivative_kernels : Z -> Z -> Z -> Mat F * Mat F.
Variable sepFilter2D : Mat F -> Mat F -> Mat F -> Mat F.
(** nldiffusion_functions.h: the four conductivity functions. *)
Variable pm_g1 pm_g2 weickert_diffusivity charbonnier_diffusivity :
  Mat F -> Mat F -> F -> Mat F.
(** The size of the Gaussian kernel for a deviation, [getGaussianKernelSize]. *)
Variable getGaussianKernelSize : F -> Z.
(** [ceil] of [<cmath>] on [float], the values of [rand()] after
    [srand(1024)] and the contents of a fresh matrix of [int], for
    [generateDescriptorSubsample]. *)
Variable fceil : F -> F.
Variable rand : Z -> Z.
Variable uninit : Z.

Definition set_omax (o : AKAZEOptions F) (v : Z) : AKAZEOptions F :=
  mkOptions v (nsublevels o) (img_width o) (img_height o) (soffset o)
    (derivative_factor o) (dthreshold o) (min_dthreshold o) (diffusivity o)
    (descriptor o) (descriptor_size o) (descriptor_channels o)
    (descriptor_pattern_size o) (kcontrast_percentile o) (kcontrast_nbins o).

(** The [Evolution step] that [Allocate_Memory_Evolution] pushes for octave
    [i] (with [power = 2^i]) and sublevel [j]. *)
Definition evolution_step (o : AKAZEOptions F) (level_width level_height : Z)
    (i power j : Z) : Evolution F :=
  let esigma :=
    soffset o ⊗ powf (f_of_Z 2) (f_of_Z j ⊘ f_of_Z (nsublevels o) ⊕ f_of_Z i) in
  let sigma_size := fRound (esigma ⊗ derivative_factor o ⊘ f_of_Z power) in
  let etime := flit 1 2 ⊗ (esigma ⊗ esigma) in
  mkEvolution released released released released released released released
    released released level_width level_height etime esigma i j sigma_size
    (f_of_Z power).

(** The first loop of [Allocate_Memory_Evolution], [n] being the number of
    octaves still allowed by [i <= omax - 1]; the state is the options (whose
    [omax] the loop may lower) and the levels pushed so far. *)
Fixpoint allocate_octaves (n : nat) (i power : Z) (o : AKAZEOptions F)
    (evolution : list (Evolution F)) : AKAZEOptions F * list (Evolution F) :=
  match n with
  | O => (o, evolution)
  | Datatypes.S n =>
      let rfactor := fone ⊘ f_of_Z power in
      let level_height := f_to_Z (f_of_Z (img_height o) ⊗ rfactor) in
      let level_width := f_to_Z (f_of_Z (img_width o) ⊗ rfactor) in
      (* Smallest possible octave and allow one scale if the image is small *)
      if ((level_width <? 80) || (level_height <? 40)) && negb (i =? 0)
      then (set_omax o i, evolution)
      else
        let evolution :=
          for_loop 0 (nsublevels o)
            (fun j ev => ev ++ [evolution_step o level_width level_height i power j])
            evolution in
        allocate_octaves n (i + 1) (power * 2) o evolution
  end.

(** The second loop: the FED cycles between consecutive levels. *)
Definition allocate_time_steps (reordering : bool) (evolution : list (Evolution F))
    : Z * list Z * list (list F) :=
  for_loop 1 (Z.of_nat (length evolution))
    (fun i st =>
       let '(ncycles, nsteps, tsteps) := st in
       let ttime :=
         etime (zget (empty_evolution) evolution i)
         ⊖ etime (zget (empty_evolution) evolution (i - 1)) in
       let '(naux, tau) := fed_tau_by_process_time ttime 1 (flit 1 4) reordering in
       (ncycles + 1, nsteps ++ [naux], tsteps ++ [tau]))
    (0, [], []).

Definition Allocate_Memory_Evolution (self : AKAZEFeatures F) : AKAZEFeatures F :=
  let '(o, evolution) :=
    allocate_octaves (Z.to_nat (omax (options_ self))) 0 1 (options_ self)
      (evolution_ self) in
  let '(ncycles, nsteps, tsteps) := allocate_time_steps (reordering_ self) evolution in
  mkAKAZEFeatures o evolution (ncycles_ self + ncycles) (reordering_ self)
    (nsteps_ self ++ nsteps) (tsteps_ self ++ tsteps)
    (descriptorSamples_ self) (descriptorBits_ self).

(** The constructor [AKAZEFeatures::AKAZEFeatures(options)]. *)
Definition AKAZEFeatures_new (options : AKAZEOptions F) : result (AKAZEFeatures F) :=
  let self := mkAKAZEFeatures options [] 0 true [] [] [] [] in
  if (0 <? descriptor_size options) && (DESCRIPTOR_MLDB_UPRIGHT <=? descriptor options)
  then
    match generateDescriptorSubsample fceil rand uninit (descriptor_size options)
            (descriptor_pattern_size options) (descriptor_channels options) with
    | Throw e => Throw e
    | Undefined => Undefined
    | Ok (samples, bits) =>
        Ok (Allocate_Memory_Evolution
              (mkAKAZEFeatures options [] 0 true [] [] samples bits))
    end
  else Ok (Allocate_Memory_Evolution self).

Definition compute_diffusivity (Lx Ly : Mat F) (kcontrast : F) (diffusivity : Z)
    : result (Mat F) :=
  if diffusivity =? DIFF_PM_G1 then Ok (pm_g1 Lx Ly kcontrast)
  else if diffusivity =? DIFF_PM_G2 then Ok (pm_g2 Lx Ly kcontrast)
  else if diffusivity =? DIFF_WEICKERT then Ok (weickert_diffusivity Lx Ly kcontrast)
  else if diffusivity =? DIFF_CHARBONNIER then Ok (charbonnier_diffusivity Lx Ly kcontrast)
  else Throw (CvError diffusivity "Diffusivity is not supported"%string).

Definition set_evolution (self : AKAZEFeatures F) (ev : list (Evolution F))
    : AKAZEFeatures F :=
  mkAKAZEFeatures (options_ self) ev (ncycles_ self) (reordering_ self)
    (nsteps_ self) (tsteps_ self) (descriptorSamples_ self) (descriptorBits_ self).

(** One round of the loop "Now generate the rest of evolution levels" of
    [Create_Nonlinear_Scale_Space].  The state is the pyramid, the contrast
    factor and the buffer [Lstep]; an exception leaves the loop with the
    pyramid as it is at the throw. *)
Definition evolve_level (self : AKAZEFeatures F) (i : Z)
    (st : list (Evolution F) * F * Mat F)
    : list (Evolution F) * F * Mat F * result unit :=
  let '(evolution, kcontrast, Lstep) := st in
  let e := zget empty_evolution evolution i in
  let prev := zget empty_evolution evolution (i - 1) in
  let '(e, kcontrast) :=
    if ev_octave prev <? ev_octave e
    then (* new octave will be half the size *)
      (set_Lt e (resize (Lt prev) (ev_width e) (ev_height e)), kcontrast ⊗ flit 3 4)
    else (set_Lt e (Lt prev), kcontrast) in
  let e := set_Lsmooth e (GaussianBlur (Lt e) 5 fone) in
  (* Compute the Gaussian derivatives Lx and Ly *)
  let Lx := Scharr (Lsmooth e) 1 0 in
  let Ly := Scharr (Lsmooth e) 0 1 in
  let evolution := zset evolution i e in
  (* Compute the conductivity equation *)
  match compute_diffusivity Lx Ly kcontrast (diffusivity (options_ self)) with
  | Throw ex => (evolution, kcontrast, Lstep, Throw ex)
  | Undefined => (evolution, kcontrast, Lstep, Undefined)
  | Ok Lflow =>
      (* Perform Fast Explicit Diffusion on Lt *)
      let tsteps := nth (Z.to_nat (i - 1)) (tsteps_ self) [] in
      let '(Lt', Lstep) := fold_left (fed_iteration fresh sched Lflow) tsteps (Lt e, Lstep) in
      (zset evolution i (set_Lt e Lt'), kcontrast, Lstep, Ok tt)
  end.

Fixpoint evolve_levels (self : AKAZEFeatures F) (n : nat) (i : Z)
    (st : list (Evolution F) * F * Mat F)
    : list (Evolution F) * F * Mat F * result unit :=
  match n with
  | O => (st, Ok tt)
  | Datatypes.S n =>
      match evolve_level self i st with
      | (st', Ok _) => evolve_levels self n (i + 1) st'
      | (st', Throw ex) => (st', Throw ex)
      | (st', Undefined) => (st', Undefined)
      end
  end.

(** [AKAZEFeatures::Create_Nonlinear_Scale_Space(img)]: the object after the
    call and how the call ended.  With the outcome [Undefined] the object is
    given as it was when the behaviour became undefined. *)
Definition Create_Nonlinear_Scale_Space (self : AKAZEFeatures F) (img : Mat F)
    : AKAZEFeatures F * result unit :=
  let evolution := evolution_ self in
  if negb (0 <? Z.of_nat (length evolution))
  then (self, Throw (StsAssert "evolution_.size() > 0"%string))
  else
    let o := options_ self in
    (* create first level of the evolution *)
    let ksize := getGaussianKernelSize (soffset o) in
    let e0 := zget empty_evolution evolution 0 in
    let e0 := set_Lsmooth e0 (GaussianBlur img ksize (soffset o)) in
    let e0 := set_Lt e0 (Lsmooth e0) in
    let evolution := zset evolution 0 e0 in
    let hessian :=
      Compute_Determinant_Hessian_Response fresh compute_derivative_kernels
        sepFilter2D sched in
    if Z.of_nat (length evolution) =? 1 then
      (* we don't need to compute kcontrast factor *)
      (set_evolution self (downloadPyramid (hessian evolution)), Ok tt)
    else
      (* compute derivatives for computing k contrast *)
      let Lsmooth := GaussianBlur img 5 fone in
      let Lx := Scharr Lsmooth 1 0 in
      let Ly := Scharr Lsmooth 0 1 in
      (* compute the kcontrast factor *)
      match compute_kcontrast fresh Lx Ly (kcontrast_percentile o) (kcontrast_nbins o) with
      | Throw ex => (set_evolution self evolution, Throw ex)
      | Undefined => (set_evolution self evolution, Undefined)
      | Ok kcontrast =>
          (* Now generate the rest of evolution levels *)
          match evolve_levels self (length evolution - 1) 1
                  (evolution, kcontrast, released) with
          | (evolution, _, _, Throw ex) => (set_evolution self evolution, Throw ex)
          | (evolution, _, _, Undefined) => (set_evolution self evolution, Undefined)
          | (evolution, _, _, Ok _) =>
              (set_evolution self (downloadPyramid (hessian evolution)), Ok tt)
          end
      end.

End ScaleSpace.

(** ** Sample inputs *)

(** A [ceil] on [binary32] for running examples. *)
Definition sample_ceil (x : B32.binary32) : B32.binary32 :=
  match x with
  | S754_finite s m (Zneg p) =>
      let q := Zpos m / 2 ^ Zpos p in
      let r := Zpos m mod 2 ^ Zpos p in
      if s then (if q =? 0 then S754_zero true else B32.of_Z (- q))
      else B32.of_Z (if r =? 0 then q else q + 1)
  | _ => x
  end.

(** A linear congruential generator in the place of [rand]. *)
Definition sample_rand (i : Z) : Z := (1103515245 * i + 12345) mod 2 ^ 31.

Module Samples.
Import B32.

(** Stand-ins for the collaborators: storage that comes filled with NaN, a
    scheduler that makes one stripe of a range, a "filter" that adds the
    first kernel coefficient to every pixel, and kernels whose first
    coefficient is [dx + 3 * dy]. *)
Definition nan_storage (n : nat) : list binary32 := repeat S754_nan n.

Definition one_stripe (lo hi : Z) : list (Z * Z) :=
  if lo <? hi then [(lo, hi)] else [].

(** The other extreme: one stripe per index. *)
Definition unit_stripes (lo hi : Z) : list (Z * Z) :=
  map (fun k : nat => (lo + Z.of_nat k, lo + Z.of_nat k + 1))
      (seq 0 (Z.to_nat (hi - lo))).

Definition shift_filter (src kx ky : Mat binary32) : Mat binary32 :=
  mkMat (rows src) (cols src) (map (fun x => x ⊕ Mat_flat kx 0) (data src)).

Definition sample_kernels (dx dy scale : Z) : Mat binary32 * Mat binary32 :=
  (mkMat 1 1 [of_Z (dx + 3 * dy)], mkMat 1 1 [of_Z 1]).

(** A 3x3 image and a constant conductivity. *)
Definition sample_image : Mat binary32 := mkMat 3 3 (map of_Z [1; 2; 3; 4; 5; 6; 7; 8; 10]).
Definition sample_flow : Mat binary32 := mkMat 3 3 (repeat (of_Z 1) 9).

(** A 4x4 gradient pair that vanishes in the interior only. *)
Definition blank_Lx : Mat binary32 :=
  mkMat 4 4 [of_Z 1; of_Z 2; of_Z 3; of_Z 4;
             of_Z 5; S754_zero false; S754_zero true; of_Z 6;
             of_Z 7; S754_zero true; S754_zero false; of_Z 8;
             of_Z 9; of_Z 1; of_Z 2; of_Z 3].
Definition blank_Ly : Mat binary32 :=
  mkMat 4 4 [of_Z 4; of_Z 3; of_Z 2; of_Z 1;
             of_Z 5; S754_zero true; S754_zero true; of_Z 6;
             of_Z 7; S754_zero false; S754_zero false; of_Z 8;
             of_Z 9; of_Z 1; of_Z 2; of_Z 3].

(** Four angles to sort with quantum 1 below 3, and the 256 angles
    [0, .., 0, 1] (255 zeros). *)
Definition four_angles : list binary32 := [flit 5 2; flit 1 2; flit 3 2; flit 7 10].
Definition many_angles : list binary32 := repeat (of_Z 0) 255 ++ [of_Z 1].

(** Stand-ins for utils.h and for the 2x2 solver (Cramer's rule; a singular
    system leaves [dst] as it was). *)
Definition sample_fRound (x : binary32) : Z := f_to_Z (x ⊕ flit 1 2).
Definition sample_fastpow (b e : Z) : Z := b ^ e.
Definition sample_solve (A : binary32 * binary32 * binary32 * binary32)
    (b dst : binary32 * binary32) : binary32 * binary32 :=
  let '(a00, a01, a10, a11) := A in
  let d := a00 ⊗ a11 ⊖ a01 ⊗ a10 in
  if d ==. fzero then dst
  else ((fst b ⊗ a11 ⊖ snd b ⊗ a01) ⊘ d, (snd b ⊗ a00 ⊖ fst b ⊗ a10) ⊘ d).

(** A 5x7 response map (in tenths) that is zero off row 2, and three
    candidates on that row: two peaks and, between them, a point on a nearly
    straight ramp, where the Newton step is far larger than a pixel. *)
Definition sample_response : Mat binary32 :=
  mkMat 5 7 (map (fun z => flit z 10)
    [ 0;   0;  0;   0;   0;   0;   0;
      0;   0;  0;   0;   0;   0;   0;
      0; 100;  0; 101; 200; 400; 200;
      0;   0;  0;   0;   0;   0;   0;
      0;   0;  0;   0;   0;   0;   0]).

Definition response_level : Evolution binary32 :=
  mkEvolution released released released released sample_response
    released released released sample_response 7 5 (flit 128 100) (flit 16 10)
    0 0 2 (of_Z 1).

Definition candidate (x y : Z) : KeyPoint binary32 :=
  mkKeyPoint (of_Z x) (of_Z y) (flit 24 10) (of_Z (-1))
    (Mat_at sample_response y x) 0 0.

Definition three_candidates : list (KeyPoint binary32) :=
  [candidate 1 2; candidate 3 2; candidate 5 2].

(** A two-level pyramid of one octave over a 96x96 image: the response maps
    are zero except for a peak at pixel (48, 48), of height 1 at level 0 and
    of height 2 at level 1. *)
Definition peak_map (v : Z) : Mat binary32 :=
  mkMat 96 96
    (repeat (of_Z 0) (48 * 96 + 48) ++ [of_Z v] ++ repeat (of_Z 0) (47 * 96 + 47)).

Definition peak_level (v : Z) (esigma : binary32) (j : Z) : Evolution binary32 :=
  mkEvolution released released released released (peak_map v)
    released released released (peak_map v) 96 96
    (flit 1 2 ⊗ (esigma ⊗ esigma)) esigma 0 j 2 (of_Z 1).

Definition two_peaks : list (Evolution binary32) :=
  [peak_level 1 (flit 16 10) 0; peak_level 2 (flit 22627417 10000000) 1].

(** The keypoint of the peak of level 0, and the candidate and keypoint of
    the peak of level 1. *)
Definition peak_A : KeyPoint binary32 :=
  mkKeyPoint (of_Z 48) (of_Z 48) (flit 16 10 ⊗ flit 15 10) (of_Z (-1)) (of_Z 1) 0 0.
Definition peak_B : KeyPoint binary32 :=
  mkKeyPoint (of_Z 48) (of_Z 48) (flit 22627417 10000000 ⊗ flit 15 10) (of_Z (-1))
    (of_Z 2) 0 1.

Definition two_sublevel_options : AKAZEOptions binary32 :=
  mkOptions 1 2 96 96 (flit 16 10) (flit 15 10) (flit 1 1000) (flit 1 100000)
    DIFF_PM_G2 DESCRIPTOR_MLDB 0 3 10 (flit 7 10) 300.

(** A 2x2 level with window size 2. *)
Definition sample_level : Evolution binary32 :=
  mkEvolution released released released (mkMat 2 2 (map of_Z [1; 2; 3; 4]))
    released released released released released 2 2 (flit 128 100) (flit 16 10)
    0 0 2 (of_Z 1).

(** The options of [AKAZE::create()] for a 160x124 image, with one sublevel
    per octave. *)
Definition default_options : AKAZEOptions binary32 :=
  mkOptions 2 1 160 124 (flit 16 10) (flit 15 10) (flit 1 1000) (flit 1 100000)
    DIFF_PM_G2 DESCRIPTOR_MLDB 0 3 10 (flit 7 10) 300.

Definition with_descriptor (o : AKAZEOptions binary32) (d dsize channels : Z)
    : AKAZEOptions binary32 :=
  mkOptions (omax o) (nsublevels o) (img_width o) (img_height o) (soffset o)
    (derivative_factor o) (dthreshold o) (min_dthreshold o) (diffusivity o)
    d dsize channels (descriptor_pattern_size o) (kcontrast_percentile o)
    (kcontrast_nbins o).

Definition with_diffusivity (o : AKAZEOptions binary32) (d : Z)
    : AKAZEOptions binary32 :=
  mkOptions (omax o) (nsublevels o) (img_width o) (img_height o) (soffset o)
    (derivative_factor o) (dthreshold o) (min_dthreshold o) d
    (descriptor o) (descriptor_size o) (descriptor_channels o)
    (descriptor_pattern_size o) (kcontrast_percentile o) (kcontrast_nbins o).

Definition with_soffset (o : AKAZEOptions binary32) (s : binary32)
    : AKAZEOptions binary32 :=
  mkOptions (omax o) (nsublevels o) (img_width o) (img_height o) s
    (derivative_factor o) (dthreshold o) (min_dthreshold o) (diffusivity o)
    (descriptor o) (descriptor_size o) (descriptor_channels o)
    (descriptor_pattern_size o) (kcontrast_percentile o) (kcontrast_nbins o).

(** A base scale of [2^100], a finite binary32 number. *)
Definition huge_offset_options : AKAZEOptions binary32 :=
  with_soffset default_options (pow (of_Z 2) (of_Z 100)).

(** A stand-in for [fed_tau_by_process_time]. *)
Definition no_cycles {F : Type} (ttime : F) (n : Z) (tau_max : F) (reordering : bool)
    : Z * list F := (0, []).

(** Stand-ins for the image filters: a blur and a derivative that return
    their input, a resize that keeps every second pixel, a conductivity that
    is 1 everywhere, and a kernel size of 5. *)
Definition sample_blur (src : Mat binary32) (ksize : Z) (sigma : binary32)
    : Mat binary32 := src.
Definition sample_scharr (src : Mat binary32) (dx dy : Z) : Mat binary32 := src.
Definition sample_resize (src : Mat binary32) (w h : Z) : Mat binary32 :=
  mkMat h w
    (flat_map (fun r : nat =>
                 map (fun c : nat => Mat_at src (2 * Z.of_nat r) (2 * Z.of_nat c))
                     (seq 0 (Z.to_nat w)))
              (seq 0 (Z.to_nat h))).
Definition sample_conductivity (Lx Ly : Mat binary32) (k : binary32) : Mat binary32 :=
  mkMat (rows Lx) (cols Lx) (repeat (of_Z 1) (length (data Lx))).
Definition sample_ksize (sigma : binary32) : Z := 5.

(** A black 160x124 image. *)
Definition blank_image : Mat binary32 := mkMat 124 160 (repeat (of_Z 0) (124 * 160)).

(** The constructor and the scale-space construction with the stand-ins. *)
Definition sample_new : AKAZEOptions binary32 -> result (AKAZEFeatures binary32) :=
  AKAZEFeatures_new sample_fRound pow no_cycles sample_ceil sample_rand 0.
Definition sample_create
    : AKAZEFeatures binary32 -> Mat binary32 -> AKAZEFeatures binary32 * result unit :=
  Create_Nonlinear_Scale_Space nan_storage one_stripe sample_blur sample_scharr
    sample_resize sample_kernels shift_filter sample_conductivity sample_conductivity
    sample_conductivity sample_conductivity sample_ksize.

(** A 3-channel MLDB configuration asking for 256 bits. *)
Definition mldb_256_options : AKAZEOptions binary32 :=
  with_descriptor default_options DESCRIPTOR_MLDB 256 3.

Definition two_keypoints : list (KeyPoint binary32) :=
  [ mkKeyPoint (of_Z 70) (of_Z 60) (flit 24 10) fzero (of_Z 1) 0 0;
    mkKeyPoint (flit 141 2) (flit 121 2) (flit 48 10) fzero (of_Z 2) 1 1 ].

End Samples.

(** * Properties *)

(** ** Loops and arrays *)

Section LoopFacts.
Context {S : Type}.
Implicit Types (body : Z -> S -> S) (s : S).

Lemma for_loop_nat_snoc n i body s :
  for_loop_nat (Datatypes.S n) i body s =
  body (i + Z.of_nat n) (for_loop_nat n i body s).
Proof.
  revert i s. induction n as [|n IH]; intros i s.
  - simpl. now rewrite Z.add_0_r.
  - change (for_loop_nat (Datatypes.S (Datatypes.S n)) i body s)
      with (for_loop_nat (Datatypes.S n) (i + 1) body (body i s)).
    rewrite IH. simpl. f_equal. lia.
Qed.

Lemma for_loop_ge lo hi body s : hi <= lo -> for_loop lo hi body s = s.
Proof.
  intros Hle. unfold for_loop.
  replace (Z.to_nat (hi - lo)) with 0%nat by lia. reflexivity.
Qed.

Lemma for_loop_first lo hi body s :
  lo < hi -> for_loop lo hi body s = for_loop (lo + 1) hi body (body lo s).
Proof.
  intros Hlt. unfold for_loop.
  replace (Z.to_nat (hi - lo)) with (Datatypes.S (Z.to_nat (hi - (lo + 1)))) by lia.
  reflexivity.
Qed.

Lemma for_loop_last lo hi body s :
  lo < hi -> for_loop lo hi body s = body (hi - 1) (for_loop lo (hi - 1) body s).
Proof.
  intros Hlt. unfold for_loop.
  replace (Z.to_nat (hi - lo)) with (Datatypes.S (Z.to_nat (hi - 1 - lo))) by lia.
  rewrite for_loop_nat_snoc. f_equal. lia.
Qed.

(** The invariant rule: [P i s] holds of the state before round [i]. *)
Lemma for_loop_invariant (P : Z -> S -> Prop) lo hi body s :
  lo <= hi ->
  P lo s ->
  (forall i s, lo <= i < hi -> P i s -> P (i + 1) (body i s)) ->
  P hi (for_loop lo hi body s).
Proof.
  intros Hle H0 Hstep.
  assert (Hgen : forall n : nat, lo + Z.of_nat n <= hi ->
            P (lo + Z.of_nat n) (for_loop_nat n lo body s)).
  { induction n as [|n IH]; intros Hn.
    - simpl. now rewrite Z.add_0_r.
    - rewrite for_loop_nat_snoc.
      replace (lo + Z.of_nat (Datatypes.S n)) with (lo + Z.of_nat n + 1) by lia.
      apply Hstep; [lia | apply IH; lia]. }
  unfold for_loop. specialize (Hgen (Z.to_nat (hi - lo))).
  replace (lo + Z.of_nat (Z.to_nat (hi - lo))) with hi in Hgen by lia.
  apply Hgen. lia.
Qed.

(** A property that every round preserves holds at the end. *)
Lemma for_loop_preserves (P : S -> Prop) lo hi body s :
  P s -> (forall i s, lo <= i < hi -> P s -> P (body i s)) ->
  P (for_loop lo hi body s).
Proof.
  intros H0 Hstep. destruct (Z_le_gt_dec lo hi) as [Hle|Hgt].
  - apply (for_loop_invariant (fun _ => P)); auto.
  - rewrite for_loop_ge by lia. exact H0.
Qed.

End LoopFacts.

Section ArrayFacts.
Context {A : Type}.
Implicit Types (l : list A) (d v : A) (i j : Z).

Lemma length_zset l i v : length (zset l i v) = length l.
Proof. unfold zset. destruct (i <? 0); [reflexivity | apply length_insert]. Qed.

Lemma zget_zset_eq d l i v :
  0 <= i < Z.of_nat (length l) -> zget d (zset l i v) i = v.
Proof.
  intros Hi. unfold zget, zset.
  destruct (Z.ltb_spec i 0) as [Hneg|_]; [lia|].
  apply nth_lookup_Some, list_lookup_insert_eq. lia.
Qed.

Lemma zget_zset_ne d l i j v : i <> j -> zget d (zset l i v) j = zget d l j.
Proof.
  intros Hne. unfold zget, zset.
  destruct (Z.ltb_spec j 0) as [Hj|Hj]; [reflexivity|].
  destruct (Z.ltb_spec i 0) as [Hi|Hi]; [reflexivity|].
  rewrite !nth_lookup, list_lookup_insert_ne by lia. reflexivity.
Qed.

Lemma zget_lookup d l i x :
  0 <= i -> l !! Z.to_nat i = Some x -> zget d l i = x.
Proof.
  intros Hi Hx. unfold zget. destruct (Z.ltb_spec i 0); [lia|].
  now apply nth_lookup_Some.
Qed.

Lemma zget_in_range d l i :
  0 <= i < Z.of_nat (length l) -> l !! Z.to_nat i = Some (zget d l i).
Proof.
  intros Hi. unfold zget. destruct (Z.ltb_spec i 0); [lia|].
  destruct (nth_lookup_or_length l (Z.to_nat i) d) as [Hn|Hn]; [exact Hn | lia].
Qed.

Lemma zget_nat d l (n : nat) : zget d l (Z.of_nat n) = nth n l d.
Proof.
  unfold zget. destruct (Z.ltb_spec (Z.of_nat n) 0); [lia|].
  now rewrite Nat2Z.id.
Qed.

End ArrayFacts.

(** A property of all elements from a boolean test of all elements. *)
Lemma Forall_forallb {A : Type} (P : A -> Prop) (p : A -> bool) (l : list A) :
  (forall x, p x = true -> P x) -> forallb p l = true -> Forall P l.
Proof.
  intros Hp Hall. apply List.Forall_forall. intros x Hx.
  apply Hp. exact (proj1 (forallb_forall p l) Hall x Hx).
Qed.

Lemma bind_Some_head {A B : Type} (x : A) (f : A -> option B) : Some x ≫= f = f x.
Proof. reflexivity. Qed.

Section OptionArrays.
Implicit Types (a : list Z) (i v : Z).

Lemma arr_at_zget a i :
  0 <= i < Z.of_nat (length a) -> arr_at a i = Some (zget 0 a i).
Proof.
  intros Hi. unfold arr_at. destruct (Z.ltb_spec i 0); [lia|].
  apply zget_in_range. exact Hi.
Qed.

Lemma arr_set_zset a i v :
  0 <= i < Z.of_nat (length a) -> arr_set a i v = Some (zset a i v).
Proof.
  intros Hi. unfold arr_set, zset. destruct (Z.ltb_spec i 0); [lia|].
  destruct (Nat.ltb_spec (Z.to_nat i) (length a)); [reflexivity | lia].
Qed.

Lemma arr_at_outside a i : ~ 0 <= i < Z.of_nat (length a) -> arr_at a i = None.
Proof.
  intros Hi. unfold arr_at. destruct (Z.ltb_spec i 0); [reflexivity|].
  apply lookup_ge_None_2. lia.
Qed.

Lemma arr_set_length a i v a' : arr_set a i v = Some a' -> length a' = length a.
Proof.
  unfold arr_set. destruct (i <? 0); [discriminate|].
  destruct (_ <? _)%nat; [|discriminate].
  intros [= <-]. apply length_insert.
Qed.

End OptionArrays.

Lemma float_at_zget {F : Type} `{FloatOps F} (a : list F) (d : F) (i : Z) :
  0 <= i < Z.of_nat (length a) -> float_at a i = Some (zget d a i).
Proof.
  intros Hi. unfold float_at. destruct (Z.ltb_spec i 0); [lia|].
  apply zget_in_range. exact Hi.
Qed.

(** A loop on an optional state that succeeds in every round. *)
Lemma for_loop_succeeds {S : Type} (P : Z -> S -> Prop) lo hi
    (body : Z -> option S -> option S) (s : S) :
  lo <= hi ->
  P lo s ->
  (forall i s, lo <= i < hi -> P i s -> exists s', body i (Some s) = Some s' /\ P (i + 1) s') ->
  exists s', for_loop lo hi body (Some s) = Some s' /\ P hi s'.
Proof.
  intros Hle H0 Hstep.
  apply (for_loop_invariant (fun i st => exists s', st = Some s' /\ P i s')); [exact Hle | eauto |].
  intros i st Hi (s' & -> & Hs'). apply Hstep; assumption.
Qed.

(** A loop on an optional state whose rounds all succeed runs like the loop
    [run] on the state itself. *)
Lemma for_loop_total {S : Type} (P : Z -> S -> Prop) lo hi
    (body : Z -> option S -> option S) (run : Z -> S -> S) (s : S) :
  lo <= hi ->
  P lo s ->
  (forall i s, lo <= i < hi -> P i s ->
     body i (Some s) = Some (run i s) /\ P (i + 1) (run i s)) ->
  for_loop lo hi body (Some s) = Some (for_loop lo hi run s) /\
  P hi (for_loop lo hi run s).
Proof.
  intros Hle H0 Hstep.
  assert (Hgen : forall n : nat, lo + Z.of_nat n <= hi ->
            for_loop_nat n lo body (Some s) = Some (for_loop_nat n lo run s) /\
            P (lo + Z.of_nat n) (for_loop_nat n lo run s)).
  { induction n as [|n IH]; intros Hn.
    - simpl. rewrite Z.add_0_r. split; [reflexivity | exact H0].
    - rewrite !for_loop_nat_snoc. destruct IH as [-> HP]; [lia|].
      replace (lo + Z.of_nat (Datatypes.S n)) with (lo + Z.of_nat n + 1) by lia.
      apply Hstep; [lia | exact HP]. }
  unfold for_loop. specialize (Hgen (Z.to_nat (hi - lo))).
  replace (lo + Z.of_nat (Z.to_nat (hi - lo))) with hi in Hgen by lia.
  apply Hgen. lia.
Qed.

Lemma for_loop_split {S : Type} lo mid hi (body : Z -> S -> S) (s : S) :
  lo <= mid <= hi ->
  for_loop lo hi body s = for_loop mid hi body (for_loop lo mid body s).
Proof.
  intros Hm.
  assert (Hgen : forall n : nat, mid + Z.of_nat n <= hi ->
            for_loop lo (mid + Z.of_nat n) body s =
            for_loop mid (mid + Z.of_nat n) body (for_loop lo mid body s)).
  { induction n as [|n IH]; intros Hn.
    - rewrite Z.add_0_r, (for_loop_ge mid mid) by lia. reflexivity.
    - rewrite (for_loop_last lo), (for_loop_last mid) by lia.
      replace (mid + Z.of_nat (Datatypes.S n) - 1) with (mid + Z.of_nat n) by lia.
      rewrite IH by lia. reflexivity. }
  specialize (Hgen (Z.to_nat (hi - mid))).
  replace (mid + Z.of_nat (Z.to_nat (hi - mid))) with hi in Hgen by lia.
  apply Hgen. lia.
Qed.

(** A loop on an optional state fails once a round fails. *)
Lemma for_loop_fails {S : Type} (Q : S -> Prop) lo hi
    (body : Z -> option S -> option S) (s : S) (i : Z) :
  lo <= i < hi ->
  Q s ->
  (forall j s s', Q s -> body j (Some s) = Some s' -> Q s') ->
  (forall j, body j None = None) ->
  (forall s, Q s -> body i (Some s) = None) ->
  for_loop lo hi body (Some s) = None.
Proof.
  intros Hi H0 Hkeep Hnone Hfail.
  rewrite (for_loop_split lo i hi) by lia.
  assert (Hbefore : match for_loop lo i body (Some s) with
                    | Some s' => Q s' | None => True end).
  { apply (for_loop_preserves
             (fun st => match st with Some s' => Q s' | None => True end)); [exact H0|].
    intros j [s0|] _ Hs0; [|now rewrite Hnone].
    destruct (body j (Some s0)) as [s1|] eqn:Hb; [|exact I].
    exact (Hkeep j s0 s1 Hs0 Hb). }
  rewrite (for_loop_first i hi) by lia.
  assert (Hround : body i (for_loop lo i body (Some s)) = None).
  { destruct (for_loop lo i body (Some s)) as [s0|]; [apply Hfail, Hbefore | apply Hnone]. }
  rewrite Hround.
  apply (for_loop_preserves (fun st => st = None)); [reflexivity|].
  intros j st _ ->. apply Hnone.
Qed.

Section LoopsAsFolds.
Context {S B : Type}.

(** A counted loop is a fold over its range. *)
Lemma for_loop_nat_fold (n : nat) : forall (i : Z) (body : Z -> S -> S) (s : S),
  for_loop_nat n i body s = fold_left (fun s i => body i s) (seqZ i (Z.of_nat n)) s.
Proof.
  induction n as [|n IH]; intros i body s.
  - rewrite seqZ_nil by lia. reflexivity.
  - rewrite seqZ_cons by lia. cbn [for_loop_nat fold_left]. rewrite IH.
    replace (Z.pred (Z.of_nat (Datatypes.S n))) with (Z.of_nat n) by lia.
    replace (Z.succ i) with (i + 1) by lia. reflexivity.
Qed.

Lemma for_loop_fold (lo hi : Z) (body : Z -> S -> S) (s : S) :
  for_loop lo hi body s = fold_left (fun s i => body i s) (seqZ lo (hi - lo)) s.
Proof.
  unfold for_loop. rewrite for_loop_nat_fold.
  destruct (Z_le_gt_dec lo hi).
  - rewrite Z2Nat.id by lia. reflexivity.
  - rewrite !seqZ_nil by lia. reflexivity.
Qed.

(** A loop whose round [i] is the step [g] on the datum [f i]. *)
Lemma for_loop_fold_map (lo hi : Z) (body : Z -> S -> S) (g : S -> B -> S)
    (f : Z -> B) (s : S) :
  (forall i s, lo <= i < hi -> body i s = g s (f i)) ->
  for_loop lo hi body s = fold_left g (f <$> seqZ lo (hi - lo)) s.
Proof.
  intros Hbody. rewrite for_loop_fold.
  assert (Hgen : forall l s, (forall i, i ∈ l -> lo <= i < hi) ->
            fold_left (fun s i => body i s) l s = fold_left g (f <$> l) s).
  { induction l as [|i l IH]; intros s0 Hl; [reflexivity|].
    cbn [fold_left fmap list_fmap]. rewrite Hbody by (apply Hl; left).
    apply IH. intros j Hj. apply Hl. now right. }
  apply Hgen. intros i Hi. apply elem_of_seqZ in Hi. lia.
Qed.

(** A loop whose round [i] is a fold over the data [h i]. *)
Lemma for_loop_fold_bind (lo hi : Z) (body : Z -> S -> S) (g : S -> B -> S)
    (h : Z -> list B) (s : S) :
  (forall i s, lo <= i < hi -> body i s = fold_left g (h i) s) ->
  for_loop lo hi body s = fold_left g (seqZ lo (hi - lo) ≫= h) s.
Proof.
  intros Hbody. rewrite for_loop_fold.
  assert (Hgen : forall l s, (forall i, i ∈ l -> lo <= i < hi) ->
            fold_left (fun s i => body i s) l s = fold_left g (l ≫= h) s).
  { induction l as [|i l IH]; intros s0 Hl; [reflexivity|].
    rewrite bind_cons, fold_left_app. cbn [fold_left].
    rewrite Hbody by (apply Hl; left).
    apply IH. intros j Hj. apply Hl. now right. }
  apply Hgen. intros i Hi. apply elem_of_seqZ in Hi. lia.
Qed.

End LoopsAsFolds.

Section IntArrays.
Implicit Types (a : list Z) (i v : Z).

(** Element [i] of an array, for stating what it holds. *)
Definition elt a i : Z := nth (Z.to_nat i) a 0.

Lemma arr_at_in a i : 0 <= i < Z.of_nat (length a) -> arr_at a i = Some (elt a i).
Proof.
  intros Hi. unfold arr_at, elt. destruct (Z.ltb_spec i 0); [lia|].
  destruct (lookup_lt_is_Some_2 a (Z.to_nat i)) as [x Hx]; [lia|].
  rewrite Hx. f_equal. symmetry. now apply nth_lookup_Some.
Qed.

Lemma arr_set_in a i v :
  0 <= i < Z.of_nat (length a) -> arr_set a i v = Some (<[Z.to_nat i := v]> a).
Proof.
  intros Hi. unfold arr_set. destruct (Z.ltb_spec i 0); [lia|].
  destruct (Nat.ltb_spec (Z.to_nat i) (length a)); [reflexivity | lia].
Qed.

Lemma elt_insert a (n : nat) v i :
  (n < length a)%nat -> 0 <= i ->
  elt (<[n := v]> a) i = if (Z.to_nat i =? n)%nat then v else elt a i.
Proof.
  intros Hn Hi. unfold elt. destruct (Nat.eqb_spec (Z.to_nat i) n) as [-> | Hne].
  - apply nth_lookup_Some, list_lookup_insert_eq. exact Hn.
  - rewrite (nth_lookup (<[n := v]> a)), (nth_lookup a).
    rewrite list_lookup_insert_ne by lia. reflexivity.
Qed.

End IntArrays.

Section FoldFailure.
Context {S B : Type}.

(** A step that fails whatever the state makes the fold fail. *)
Lemma fold_left_fails (g : option S -> B -> option S) (l : list B) (x : B) (s : option S) :
  x ∈ l -> (forall s, g s x = None) -> (forall y, g None y = None) ->
  fold_left g l s = None.
Proof.
  intros Hx Hfail Hnone.
  apply list_elem_of_split in Hx as (l1 & l2 & ->).
  rewrite fold_left_app. cbn [fold_left]. rewrite Hfail.
  induction l2 as [|y l2 IH]; [reflexivity|]. cbn [fold_left]. now rewrite Hnone.
Qed.

Lemma fold_left_map_ext (g : option S -> B -> option S) {C : Type}
    (h : option S -> C -> option S) (f : B -> C) (l : list B) (s : option S) :
  (forall x s, x ∈ l -> g s x = h s (f x)) ->
  fold_left g l s = fold_left h (f <$> l) s.
Proof.
  revert s. induction l as [|x l IH]; intros s Hext; [reflexivity|].
  cbn [fold_left fmap list_fmap]. rewrite Hext by left.
  apply IH. intros y s' Hy. apply Hext. now right.
Qed.

End FoldFailure.

(** ** The descriptor matrix *)

(** [ceil_div8 t] is the least [c] with [t <= 8 * c]. *)
Lemma ceil_div8_spec t : 8 * (ceil_div8 t - 1) < t <= 8 * ceil_div8 t.
Proof.
  unfold ceil_div8, Qceiling, Qfloor. cbn.
  change (Z.pos (1 * 8)) with 8. rewrite Z.mul_1_r.
  pose proof (Z.div_mod (- t) 8 ltac:(lia)) as Hdm.
  pose proof (Z.mod_pos_bound (- t) 8 ltac:(lia)) as Hb.
  lia.
Qed.

Lemma ceil_div8_unique t c : 8 * (c - 1) < t <= 8 * c -> ceil_div8 t = c.
Proof. pose proof (ceil_div8_spec t). lia. Qed.



(** ** The Hessian determinant response *)

Lemma int32_wrap_small z : - 2 ^ 31 <= z < 2 ^ 31 -> int32_wrap z = z.
Proof. intros Hz. unfold int32_wrap. rewrite Z.mod_small; lia. Qed.

Lemma fourth_power_fits s : Z.abs s <= 215 -> int32_wrap (s * s * s * s) = s ^ 4.
Proof.
  intros Hs. replace (s ^ 4) with (s * s * s * s) by ring.
  apply int32_wrap_small.
  assert (Hsq : 0 <= s * s <= 46225) by nia.
  replace (s * s * s * s) with ((s * s) * (s * s)) by ring. nia.
Qed.

Section ParallelFacts.
Context {A : Type}.
Implicit Types (f : A -> A) (l : list A).

Definition in_range (lo hi : Z) (k : nat) : bool :=
  (lo <=? Z.of_nat k) && (Z.of_nat k <? hi).

Lemma in_range_spec lo hi k :
  BoolSpec (lo <= Z.of_nat k < hi) (~ lo <= Z.of_nat k < hi) (in_range lo hi k).
Proof.
  unfold in_range.
  destruct (Z.leb_spec lo (Z.of_nat k)), (Z.ltb_spec (Z.of_nat k) hi);
    constructor; lia.
Qed.

Lemma for_loop_alter_lookup f lo hi l (k : nat) :
  0 <= lo ->
  for_loop lo hi (fun i ev => alter f (Z.to_nat i) ev) l !! k =
  if in_range lo hi k then f <$> l !! k else l !! k.
Proof.
  intros Hlo. destruct (Z_le_gt_dec lo hi) as [Hle|Hgt].
  - apply (for_loop_invariant
      (fun i ev => ev !! k = if in_range lo i k then f <$> l !! k else l !! k)).
    + exact Hle.
    + destruct (in_range_spec lo lo k); [lia | reflexivity].
    + intros i ev Hi IH.
      destruct (decide (Z.to_nat i = k)) as [<-|Hne].
      * rewrite list_lookup_alter_eq, IH.
        destruct (in_range_spec lo i (Z.to_nat i)); [lia|].
        destruct (in_range_spec lo (i + 1) (Z.to_nat i)); [reflexivity | lia].
      * rewrite list_lookup_alter_ne, IH by exact Hne.
        destruct (in_range_spec lo i k), (in_range_spec lo (i + 1) k);
          try reflexivity; lia.
  - rewrite for_loop_ge by lia. destruct (in_range_spec lo hi k); [lia | reflexivity].
Qed.

(** Whatever the stripes, a body that rewrites the entries of its stripe one
    by one rewrites every entry of the range exactly once. *)
Lemma parallel_for_alter_lookup f stripes lo hi l (k : nat) :
  0 <= lo -> Range_split lo hi stripes ->
  parallel_for_ stripes
    (fun a b ev => for_loop a b (fun i ev => alter f (Z.to_nat i) ev) ev) l !! k =
  if in_range lo hi k then f <$> l !! k else l !! k.
Proof.
  intros Hlo Hsplit. revert l Hlo.
  induction Hsplit as [lo hi Hle | lo mid hi rest Hlt Hmid Hrest IH]; intros l Hlo.
  - cbn. destruct (in_range_spec lo hi k); [lia | reflexivity].
  - unfold parallel_for_ in *. cbn [fold_left fst snd].
    rewrite IH by lia. rewrite for_loop_alter_lookup by exact Hlo.
    destruct (in_range_spec mid hi k), (in_range_spec lo mid k),
      (in_range_spec lo hi k); try reflexivity; lia.
Qed.

End ParallelFacts.

Section MatFacts.
Context {F : Type} `{FloatOps F}.
Implicit Types (m : Mat F).

Variable fresh : nat -> list F.
Hypothesis fresh_length : forall n, length (fresh n) = n.

Lemma Mat_create_rows r c m : rows (Mat_create fresh r c m) = r.
Proof.
  unfold Mat_create. destruct (Z.eqb_spec (rows m) r), (Z.eqb_spec (cols m) c);
    cbn; congruence.
Qed.

Lemma Mat_create_cols r c m : cols (Mat_create fresh r c m) = c.
Proof.
  unfold Mat_create. destruct (Z.eqb_spec (rows m) r), (Z.eqb_spec (cols m) c);
    cbn; congruence.
Qed.

Lemma Mat_create_wf r c m :
  0 <= r -> 0 <= c -> Mat_wf m -> Mat_wf (Mat_create fresh r c m).
Proof.
  intros Hr Hc Hwf. unfold Mat_create.
  destruct (Z.eqb_spec (rows m) r), (Z.eqb_spec (cols m) c); cbn; try exact Hwf.
  all: unfold Mat_wf; cbn; rewrite fresh_length; repeat split; nia.
Qed.

Lemma Mat_create_idem r c m :
  Mat_create fresh r c (Mat_create fresh r c m) = Mat_create fresh r c m.
Proof.
  unfold Mat_create at 1. rewrite Mat_create_rows, Mat_create_cols, !Z.eqb_refl.
  reflexivity.
Qed.

Lemma Mat_set_rows m r c v : rows (Mat_set m r c v) = rows m.
Proof. reflexivity. Qed.

Lemma Mat_set_cols m r c v : cols (Mat_set m r c v) = cols m.
Proof. reflexivity. Qed.

Lemma Mat_set_wf m r c v : Mat_wf m -> Mat_wf (Mat_set m r c v).
Proof. unfold Mat_wf. cbn. now rewrite length_zset. Qed.

Lemma Mat_at_flat m r c : Mat_at m r c = Mat_flat m (r * cols m + c).
Proof. reflexivity. Qed.

(** Cell [(r, c)] of a well-formed matrix is element [r * cols + c] of the
    buffer, and distinct cells are distinct elements. *)
Lemma cell_index_bounds m r c :
  Mat_wf m -> 0 <= r < rows m -> 0 <= c < cols m ->
  0 <= r * cols m + c < Z.of_nat (length (data m)).
Proof. intros (Hr & Hc & Hlen) Hrr Hcc. rewrite Hlen. nia. Qed.

Lemma cell_index_inj (w r c r' c' : Z) :
  0 <= c < w -> 0 <= c' < w -> r * w + c = r' * w + c' -> r = r' /\ c = c'.
Proof. intros Hc Hc' Heq. assert (r = r') by nia. subst. lia. Qed.

Lemma Mat_at_set_eq m r c v :
  Mat_wf m -> 0 <= r < rows m -> 0 <= c < cols m ->
  Mat_at (Mat_set m r c v) r c = v.
Proof.
  intros Hwf Hr Hc. unfold Mat_at, Mat_set. cbn.
  apply zget_zset_eq. now apply cell_index_bounds.
Qed.

Lemma Mat_at_set_ne m r c v r' c' :
  0 <= c < cols m -> 0 <= c' < cols m -> (r, c) <> (r', c') ->
  Mat_at (Mat_set m r c v) r' c' = Mat_at m r' c'.
Proof.
  intros Hc Hc' Hne. unfold Mat_at, Mat_set. cbn.
  apply zget_zset_ne. intros Heq.
  destruct (cell_index_inj (cols m) r c r' c' Hc Hc' Heq). congruence.
Qed.

End MatFacts.

Section HessianFacts.
Context {F : Type} `{FloatOps F}.

Variable fresh : nat -> list F.
Variable compute_derivative_kernels : Z -> Z -> Z -> Mat F * Mat F.
Variable sepFilter2D : Mat F -> Mat F -> Mat F -> Mat F.
Variable sched : Z -> Z -> list (Z * Z).

Hypothesis fresh_length : forall n, length (fresh n) = n.
(** The destination of [sepFilter2D] has the size of its source. *)
Hypothesis sepFilter2D_size : forall src kx ky,
  rows (sepFilter2D src kx ky) = rows src /\ cols (sepFilter2D src kx ky) = cols src.
Hypothesis sched_split : forall lo hi, Range_split lo hi (sched lo hi).

Definition determinant_at (Lxx Lxy Lyy : Mat F) (sigma : F) (j : Z) : F :=
  (Mat_flat Lxx j ⊗ Mat_flat Lyy j ⊖ Mat_flat Lxy j ⊗ Mat_flat Lxy j) ⊗ sigma.

Lemma compute_determinant_flat Lxx Lxy Lyy Ldet sigma :
  0 <= rows Lxx -> 0 <= cols Lxx -> Mat_wf Ldet ->
  let out := compute_determinant fresh Lxx Lxy Lyy Ldet sigma in
  rows out = rows Lxx /\ cols out = cols Lxx /\
  forall j, 0 <= j < cols Lxx * rows Lxx ->
    Mat_flat out j = determinant_at Lxx Lxy Lyy sigma j.
Proof.
  intros Hr Hc Hwf out. subst out. unfold compute_determinant.
  set (L0 := Mat_create fresh (rows Lxx) (cols Lxx) Ldet).
  assert (Hwf0 : Mat_wf L0) by (apply Mat_create_wf; assumption).
  assert (Hr0 : rows L0 = rows Lxx) by apply Mat_create_rows.
  assert (Hc0 : cols L0 = cols Lxx) by apply Mat_create_cols.
  set (total := cols Lxx * rows Lxx).
  assert (Htot : 0 <= total) by (subst total; nia).
  set (P := fun (k : Z) (Ld : Mat F) =>
    rows Ld = rows Lxx /\ cols Ld = cols Lxx /\
    Z.of_nat (length (data Ld)) = total /\
    forall j, 0 <= j < k -> Mat_flat Ld j = determinant_at Lxx Lxy Lyy sigma j).
  match goal with |- context [for_loop 0 total ?body L0] =>
    assert (Hinv : P total (for_loop 0 total body L0))
  end.
  { apply (for_loop_invariant P); [exact Htot | |].
    - destruct Hwf0 as (_ & _ & Hlen). repeat split; try assumption.
      + rewrite Hlen, Hr0, Hc0. subst total. lia.
      + intros j Hj. lia.
    - intros k Ld Hk (Hrk & Hck & Hlen & Hpre). repeat split; try assumption.
      + cbn. now rewrite length_zset.
      + intros j Hj. unfold Mat_flat, Mat_flat_set. cbn.
        destruct (Z.eq_dec j k) as [->|Hne].
        * rewrite zget_zset_eq by lia. reflexivity.
        * rewrite zget_zset_ne by lia. apply Hpre; lia. }
  destruct Hinv as (Hrk & Hck & _ & Hpre). auto.
Qed.

Lemma second_derivatives_size e Lxx Lxy Lyy :
  second_derivatives compute_derivative_kernels sepFilter2D e = (Lxx, Lxy, Lyy) ->
  (rows Lxx = rows (Lsmooth e) /\ cols Lxx = cols (Lsmooth e)) /\
  (rows Lxy = rows (Lsmooth e) /\ cols Lxy = cols (Lsmooth e)) /\
  (rows Lyy = rows (Lsmooth e) /\ cols Lyy = cols (Lsmooth e)).
Proof.
  unfold second_derivatives.
  destruct (compute_derivative_kernels 1 0 (sigma_size e)) as [DxKx DxKy].
  destruct (compute_derivative_kernels 0 1 (sigma_size e)) as [DyKx DyKy].
  intros [= <- <- <-].
  repeat match goal with
         | |- context [sepFilter2D ?s ?a ?b] =>
             let Hs := fresh "Hs" in
             destruct (sepFilter2D_size s a b) as [Hs ?]; rewrite Hs; clear Hs
         end.
  repeat split; congruence.
Qed.

Lemma DeterminantHessianResponse_level_Ldet e :
  Ldet (DeterminantHessianResponse_level fresh compute_derivative_kernels sepFilter2D e) =
  let '(Lxx, Lxy, Lyy) := second_derivatives compute_derivative_kernels sepFilter2D e in
  compute_determinant fresh Lxx Lxy Lyy (Ldet e)
    (f_of_Z (int32_wrap (sigma_size e * sigma_size e * sigma_size e * sigma_size e))).
Proof.
  unfold DeterminantHessianResponse_level.
  destruct (compute_derivative_kernels 1 0 (sigma_size e)) as [DxKx DxKy].
  destruct (compute_derivative_kernels 0 1 (sigma_size e)) as [DyKx DyKy].
  destruct (second_derivatives _ _ e) as [[Lxx Lxy] Lyy]. reflexivity.
Qed.

Lemma Compute_Determinant_Hessian_Response_lookup evolution (i : nat) :
  Compute_Determinant_Hessian_Response fresh compute_derivative_kernels sepFilter2D
    sched evolution !! i =
  DeterminantHessianResponse_level fresh compute_derivative_kernels sepFilter2D
    <$> evolution !! i.
Proof.
  unfold Compute_Determinant_Hessian_Response, DeterminantHessianResponse.
  rewrite (parallel_for_alter_lookup _ _ 0 (Z.of_nat (length evolution)))
    by (try lia; apply sched_split).
  destruct (in_range_spec 0 (Z.of_nat (length evolution)) i) as [_|Hout];
    [reflexivity|].
  rewrite (lookup_ge_None_2 evolution i) by lia. reflexivity.
Qed.

End HessianFacts.

(** C8, amended: after [Compute_Determinant_Hessian_Response], the response
    of every level at every pixel is [(Lxx*Lyy - Lxy*Lxy) * sigma_size_quat],
    computed in floating point from the level's second derivatives and from
    the [int] product [sigma_size * sigma_size * sigma_size * sigma_size]
    converted to [float]; that product is the fourth power of the window
    size for windows up to 215, and wraps around beyond. *)
Theorem determinant_response_formula {F : Type} `{FloatOps F}
    (fresh : nat -> list F)
    (compute_derivative_kernels : Z -> Z -> Z -> Mat F * Mat F)
    (sepFilter2D : Mat F -> Mat F -> Mat F -> Mat F)
    (sched : Z -> Z -> list (Z * Z))
    (evolution : list (Evolution F)) (i : nat) (e : Evolution F) :
  (forall n, length (fresh n) = n) ->
  (forall src kx ky,
     rows (sepFilter2D src kx ky) = rows src /\
     cols (sepFilter2D src kx ky) = cols src) ->
  (forall lo hi, Range_split lo hi (sched lo hi)) ->
  evolution !! i = Some e ->
  Mat_wf (Ldet e) ->
  let s := sigma_size e in
  let sigma_size_quat := int32_wrap (s * s * s * s) in
  exists e',
    Compute_Determinant_Hessian_Response fresh compute_derivative_kernels
      sepFilter2D sched evolution !! i = Some e' /\
    sigma_size e' = sigma_size e /\
    rows (Ldet e') = rows (Lsmooth e) /\ cols (Ldet e') = cols (Lsmooth e) /\
    (let '(Lxx, Lxy, Lyy) :=
       second_derivatives compute_derivative_kernels sepFilter2D e in
     forall r c, 0 <= r < rows (Lsmooth e) -> 0 <= c < cols (Lsmooth e) ->
       Mat_at (Ldet e') r c =
       (Mat_at Lxx r c ⊗ Mat_at Lyy r c ⊖ Mat_at Lxy r c ⊗ Mat_at Lxy r c)
       ⊗ f_of_Z sigma_size_quat) /\
    (Z.abs s <= 215 -> sigma_size_quat = s ^ 4).
Proof.
  intros Hfresh Hsize Hsched Hlook Hwf s sigma_size_quat.
  eexists. split.
  { rewrite Compute_Determinant_Hessian_Response_lookup by assumption.
    rewrite Hlook. reflexivity. }
  split.
  { unfold DeterminantHessianResponse_level.
    destruct (compute_derivative_kernels 1 0 _), (compute_derivative_kernels 0 1 _),
      (second_derivatives _ _ e) as [[? ?] ?]. reflexivity. }
  rewrite DeterminantHessianResponse_level_Ldet. fold s. fold sigma_size_quat.
  match goal with
  | |- ?A /\ ?B /\ ?C /\ _ =>
      enough (Hmain : A /\ B /\ C);
      [destruct Hmain as (Hr & Hc & Hf);
       split; [exact Hr|]; split; [exact Hc|]; split; [exact Hf|];
       apply fourth_power_fits|]
  end.
  destruct (second_derivatives compute_derivative_kernels sepFilter2D e)
    as [[Lxx Lxy] Lyy] eqn:Hsd.
  destruct (second_derivatives_size _ sepFilter2D Hsize e Lxx Lxy Lyy Hsd)
    as ((Hrxx & Hcxx) & (Hrxy & Hcxy) & (Hryy & Hcyy)).
  assert (Hrc : 0 <= rows Lxx /\ 0 <= cols Lxx \/ ~ (0 <= rows Lxx /\ 0 <= cols Lxx)) by lia.
  destruct Hrc as [[Hr0 Hc0]|Hneg].
  - destruct (compute_determinant_flat fresh Hfresh Lxx Lxy Lyy (Ldet e)
                (f_of_Z sigma_size_quat) Hr0 Hc0 Hwf) as (Hro & Hco & Hflat).
    split; [congruence|]. split; [congruence|].
    intros r c Hr Hc. rewrite Mat_at_flat, Hco, Hflat by nia.
    unfold determinant_at. rewrite !Mat_at_flat. congruence.
  - split; [|split].
    + unfold compute_determinant.
      match goal with |- rows (for_loop ?a ?b ?f ?s) = _ =>
        enough (rows (for_loop a b f s) = rows Lxx) by congruence;
        apply (for_loop_preserves (fun m => rows m = rows Lxx))
      end; [apply Mat_create_rows | intros; assumption].
    + unfold compute_determinant.
      match goal with |- cols (for_loop ?a ?b ?f ?s) = _ =>
        enough (cols (for_loop a b f s) = cols Lxx) by congruence;
        apply (for_loop_preserves (fun m => cols m = cols Lxx))
      end; [apply Mat_create_cols | intros; assumption].
    + intros r c Hr Hc. lia.
Qed.

Lemma one_stripe_split lo hi : Range_split lo hi (Samples.one_stripe lo hi).
Proof.
  unfold Samples.one_stripe. destruct (Z.ltb_spec lo hi).
  - apply Range_split_cons; [lia | lia | apply Range_split_nil; lia].
  - apply Range_split_nil; lia.
Defined.

Lemma length_nan_storage n : length (Samples.nan_storage n) = n.
Proof. apply repeat_length. Defined.

(** On the sample level the derivatives at pixel (0,0) are 3, 5 and 7 and
    the window size is 2: the response is (3*7 - 5*5) * 16. *)
Lemma determinant_response_formula_witness :
  exists e',
    Compute_Determinant_Hessian_Response Samples.nan_storage Samples.sample_kernels
      Samples.shift_filter Samples.one_stripe [Samples.sample_level] !! 0%nat
      = Some e' /\
    Mat_at (Ldet e') 0 0 = B32.of_Z (-64).
Proof.
  destruct (determinant_response_formula Samples.nan_storage Samples.sample_kernels
              Samples.shift_filter Samples.one_stripe [Samples.sample_level] 0
              Samples.sample_level)
    as (e' & Hlook & _ & _ & _ & Hform & _).
  - exact length_nan_storage.
  - intros src kx ky. split; reflexivity.
  - exact one_stripe_split.
  - reflexivity.
  - unfold Mat_wf. cbn. lia.
  - exists e'. split; [exact Hlook|].
    cbn in Hform. rewrite (Hform 0 0) by (cbn; lia). vm_compute. reflexivity.
Defined.

(** C8 as stated: the response is the determinant times the fourth power of
    the window size, at every level. *)
Definition determinant_response_claim : Prop :=
  forall (evolution : list (Evolution B32.binary32)) (i : nat)
         (e : Evolution B32.binary32),
    evolution !! i = Some e ->
    Mat_wf (Ldet e) ->
    exists e',
      Compute_Determinant_Hessian_Response Samples.nan_storage Samples.sample_kernels
        Samples.shift_filter Samples.one_stripe evolution !! i = Some e' /\
      let '(Lxx, Lxy, Lyy) :=
        second_derivatives Samples.sample_kernels Samples.shift_filter e in
      forall r c, 0 <= r < rows (Lsmooth e) -> 0 <= c < cols (Lsmooth e) ->
        Mat_at (Ldet e') r c =
        (Mat_at Lxx r c ⊗ Mat_at Lyy r c ⊖ Mat_at Lxy r c ⊗ Mat_at Lxy r c)
        ⊗ f_of_Z (sigma_size e ^ 4).

(** The 2x2 sample level with a window size of 216. *)
Definition wide_level : Evolution B32.binary32 :=
  mkEvolution released released released (mkMat 2 2 (map B32.of_Z [1; 2; 3; 4]))
    released released released released released 2 2 (flit 128 100) (flit 16 10)
    0 0 216 (B32.of_Z 1).

(** The [int] product for the window size 216. *)
Lemma wide_level_quat : int32_wrap (216 * 216 * 216 * 216) = -2118184960.
Proof. reflexivity. Qed.

(** C8, counterexample: for the window size 216 the fourth power
    2176782336 does not fit an [int]; the product is -2118184960, and the
    response at pixel (0,0), where the determinant is 3*7 - 5*5 = -4, is
    positive. *)
Lemma determinant_response_counterexample : ~ determinant_response_claim.
Proof.
  intros Hclaim.
  destruct (Hclaim [wide_level] 0%nat wide_level eq_refl) as (e' & Hlook & Hform).
  { unfold Mat_wf. cbn. lia. }
  assert (Hval : Compute_Determinant_Hessian_Response Samples.nan_storage
                   Samples.sample_kernels Samples.shift_filter Samples.one_stripe
                   [wide_level] !! 0%nat
                 = Some (DeterminantHessianResponse_level Samples.nan_storage
                           Samples.sample_kernels Samples.shift_filter wide_level))
    by reflexivity.
  rewrite Hval in Hlook. injection Hlook as <-.
  cbn in Hform. specialize (Hform 0 0 ltac:(cbn; lia) ltac:(cbn; lia)).
  vm_compute in Hform. discriminate Hform.
Qed.

(** ** The diffusion step *)

Section DiffusionFacts.
Context {F : Type} `{FloatOps F}.
Implicit Types (m : Mat F).

Variable fresh : nat -> list F.
Variable sched : Z -> Z -> list (Z * Z).
Hypothesis fresh_length : forall n, length (fresh n) = n.
Hypothesis sched_split : forall lo hi, Range_split lo hi (sched lo hi).

(** [m'] is [m] rewritten in rows satisfying [R] only. *)
Definition row_frame (R : Z -> Prop) (m m' : Mat F) : Prop :=
  rows m' = rows m /\ cols m' = cols m /\
  length (data m') = length (data m) /\
  forall r c, 0 <= c < cols m -> ~ R r -> Mat_at m' r c = Mat_at m r c.

Lemma row_frame_refl R m : row_frame R m m.
Proof. repeat split. Qed.

Lemma row_frame_trans R m1 m2 m3 :
  row_frame R m1 m2 -> row_frame R m2 m3 -> row_frame R m1 m3.
Proof.
  intros (Hr1 & Hc1 & Hl1 & Hf1) (Hr2 & Hc2 & Hl2 & Hf2).
  repeat split; try congruence.
  intros r c Hc HR. rewrite Hf2, Hf1; auto. congruence.
Qed.

Lemma row_frame_weaken (R R' : Z -> Prop) m m' :
  (forall r, R r -> R' r) -> row_frame R m m' -> row_frame R' m m'.
Proof.
  intros Himp (Hr & Hc & Hl & Hf). repeat split; auto.
Qed.

Lemma row_frame_wf R m m' : row_frame R m m' -> Mat_wf m -> Mat_wf m'.
Proof.
  intros (Hr & Hc & Hl & _) (H1 & H2 & H3). unfold Mat_wf.
  rewrite Hr, Hc, Hl. auto.
Qed.

Lemma row_frame_set (R : Z -> Prop) m r c v :
  R r -> 0 <= c < cols m -> row_frame R m (Mat_set m r c v).
Proof.
  intros HR Hc. repeat split; cbn.
  - apply length_zset.
  - intros r' c' Hc' HnR. apply Mat_at_set_ne; auto. congruence.
Qed.

Lemma row_frame_loop (R : Z -> Prop) lo hi (body : Z -> Mat F -> Mat F) m :
  (forall i s, lo <= i < hi -> row_frame R m s -> row_frame R s (body i s)) ->
  row_frame R m (for_loop lo hi body m).
Proof.
  intros Hbody. apply (for_loop_preserves (row_frame R m)).
  - apply row_frame_refl.
  - intros i s Hi Hs. eapply row_frame_trans; [exact Hs | auto].
Qed.

(** The pattern of the top and bottom blocks: first cell, inner cells, last
    cell of one row. *)
Definition row_fill (row cols_ : Z) (v0 v1 : F) (v : Z -> F) m : Mat F :=
  Mat_set
    (for_loop 0 cols_ (fun j L => Mat_set L row (1 + j) (v j)) (Mat_set m row 0 v0))
    row (1 + cols_) v1.

Lemma row_fill_frame row cols_ v0 v1 v m :
  0 <= cols_ -> cols m = cols_ + 2 ->
  row_frame (eq row) m (row_fill row cols_ v0 v1 v m).
Proof.
  intros Hc Hcols. unfold row_fill.
  set (body := fun j L => Mat_set L row (1 + j) (v j)).
  set (m0 := Mat_set m row 0 v0).
  set (m1 := for_loop 0 cols_ body m0).
  assert (H0 : row_frame (eq row) m m0)
    by (apply row_frame_set; [reflexivity | lia]).
  assert (H1 : row_frame (eq row) m0 m1).
  { apply row_frame_loop. intros j s Hj (_ & Hcs & _). subst body. cbv beta.
    apply row_frame_set; [reflexivity|]. cbn in Hcs. lia. }
  apply (row_frame_trans _ m m0); [exact H0|].
  apply (row_frame_trans _ m0 m1); [exact H1|].
  apply row_frame_set; [reflexivity|].
  destruct H1 as (_ & Hc1 & _). cbn in Hc1. lia.
Qed.

Lemma row_fill_ends row cols_ v0 v1 v m :
  0 <= cols_ -> cols m = cols_ + 2 -> Mat_wf m -> 0 <= row < rows m ->
  Mat_at (row_fill row cols_ v0 v1 v m) row 0 = v0 /\
  Mat_at (row_fill row cols_ v0 v1 v m) row (1 + cols_) = v1.
Proof.
  intros Hc Hcols Hwf Hrow. unfold row_fill.
  set (m0 := Mat_set m row 0 v0).
  set (m1 := for_loop 0 cols_ _ m0).
  assert (Hinv : rows m1 = rows m /\ cols m1 = cols m /\ Mat_wf m1 /\
                 Mat_at m1 row 0 = v0).
  { subst m1.
    apply (for_loop_preserves
             (fun L => rows L = rows m /\ cols L = cols m /\ Mat_wf L /\
                       Mat_at L row 0 = v0)).
    - split; [reflexivity | split; [reflexivity | split]].
      + apply Mat_set_wf, Hwf.
      + subst m0. apply Mat_at_set_eq; auto. lia.
    - intros j L Hj (HrL & HcL & HwfL & H0). cbv beta.
      split; [exact HrL | split; [exact HcL | split]].
      + now apply Mat_set_wf.
      + rewrite Mat_at_set_ne; auto; try lia. intros Heq. injection Heq. lia. }
  destruct Hinv as (Hr1 & Hc1 & Hwf1 & H0). split.
  - rewrite Mat_at_set_ne; auto; try lia. intros Heq. injection Heq. lia.
  - apply Mat_at_set_eq; auto; lia.
Qed.

Lemma nld_top_row_fill Lt Lf Lstep step_size :
  exists v, nld_top_row Lt Lf Lstep step_size =
            row_fill 0 (cols Lt - 2) fzero fzero v Lstep.
Proof. eexists (fun j => _). unfold nld_top_row, row_fill. reflexivity. Qed.

Lemma nld_bottom_row_fill Lt Lf Lstep step_size row :
  exists v, nld_bottom_row Lt Lf Lstep step_size row =
            row_fill row (cols Lt - 2) fzero fzero v Lstep.
Proof. eexists (fun j => _). unfold nld_bottom_row, row_fill. reflexivity. Qed.

Lemma nld_middle_row_fill Lt Lf step_size row Lstep :
  exists v0 v1 v, nld_middle_row Lt Lf step_size row Lstep =
                  row_fill row (cols Lt - 2) v0 v1 v Lstep.
Proof.
  eexists _, _, (fun j => _). unfold nld_middle_row, row_fill. reflexivity.
Qed.

(** What one stripe does to a buffer of the right size. *)
Lemma nld_step_scalar_one_lane_spec Lt Lf Lstep step_size a b :
  2 <= rows Lt -> 2 <= cols Lt ->
  Mat_wf Lstep -> rows Lstep = rows Lt -> cols Lstep = cols Lt ->
  0 <= a < b -> b <= rows Lt ->
  let out := nld_step_scalar_one_lane fresh Lt Lf Lstep step_size a b in
  row_frame (fun r => a <= r < b) Lstep out /\
  (a = 0 -> Mat_at out 0 0 = fzero /\ Mat_at out 0 (cols Lt - 1) = fzero) /\
  (b = rows Lt ->
     Mat_at out (rows Lt - 1) 0 = fzero /\
     Mat_at out (rows Lt - 1) (cols Lt - 1) = fzero).
Proof.
  intros Hrows Hcols Hwf Hr Hc Hab Hb out. subst out.
  unfold nld_step_scalar_one_lane.
  assert (Hcreate : Mat_create fresh (rows Lt) (cols Lt) Lstep = Lstep).
  { unfold Mat_create. rewrite Hr, Hc, !Z.eqb_refl. reflexivity. }
  rewrite Hcreate.
  (* the top block *)
  set (top := if a =? 0 then (nld_top_row Lt Lf Lstep step_size, a + 1) else (Lstep, a)).
  assert (Htop : row_frame (fun r => a <= r < b) Lstep (fst top) /\
                 snd top = Z.max a 1 /\
                 (a = 0 -> Mat_at (fst top) 0 0 = fzero /\
                           Mat_at (fst top) 0 (cols Lt - 1) = fzero)).
  { subst top. destruct (Z.eqb_spec a 0) as [->|Hne]; cbn [fst snd].
    - destruct (nld_top_row_fill Lt Lf Lstep step_size) as [v ->].
      split; [|split; [lia|]].
      + eapply row_frame_weaken; [|apply row_fill_frame; lia].
        intros r <-. lia.
      + intros _.
        destruct (row_fill_ends 0 (cols Lt - 2) fzero fzero v Lstep) as [H0 H1];
          try lia; try assumption.
        replace (cols Lt - 1) with (1 + (cols Lt - 2)) by lia. auto.
    - split; [apply row_frame_refl | split; [lia | intros; lia]]. }
  destruct top as [m1 row1]. cbn [fst snd] in Htop.
  destruct Htop as (Hf1 & Hrow1 & Hcorner1).
  (* the middle rows *)
  set (me := Z.min (rows Lt - 1) b).
  set (m2 := for_loop row1 me (nld_middle_row Lt Lf step_size) m1).
  assert (Hf12 : row_frame (fun r => row1 <= r < me) m1 m2).
  { subst m2. apply row_frame_loop. intros i s Hi Hs.
    destruct (nld_middle_row_fill Lt Lf step_size i s) as (v0 & v1 & v & ->).
    eapply row_frame_weaken; [|apply row_fill_frame].
    - intros r <-. lia.
    - lia.
    - destruct Hs as (_ & Hcs & _). destruct Hf1 as (_ & Hc1 & _). lia. }
  assert (Hf2 : row_frame (fun r => a <= r < b) Lstep m2).
  { eapply row_frame_trans; [exact Hf1|].
    eapply row_frame_weaken; [|exact Hf12]. intros r Hrr. cbn in Hrr. lia. }
  assert (Hcorner2 : a = 0 -> Mat_at m2 0 0 = fzero /\ Mat_at m2 0 (cols Lt - 1) = fzero).
  { intros Ha. destruct (Hcorner1 Ha) as [H0 H1].
    destruct Hf12 as (_ & _ & _ & Hsame). destruct Hf1 as (_ & Hc1 & _).
    rewrite !Hsame by lia. auto. }
  (* the bottom row *)
  destruct (Z.eqb_spec b (rows Lt)) as [Hbe|Hbne].
  - assert (Hrowf : Z.max row1 me = rows Lt - 1) by lia.
    rewrite Hrowf.
    destruct (nld_bottom_row_fill Lt Lf m2 step_size (rows Lt - 1)) as [v ->].
    assert (Hwf2 : Mat_wf m2) by (eapply row_frame_wf; eauto).
    pose proof Hf2 as (Hr2 & Hc2 & Hl2 & Hs2).
    assert (Hfb : row_frame (eq (rows Lt - 1)) m2
                    (row_fill (rows Lt - 1) (cols Lt - 2) fzero fzero v m2))
      by (apply row_fill_frame; lia).
    split; [|split].
    + apply (row_frame_trans _ Lstep m2); [exact Hf2|].
      eapply row_frame_weaken; [|exact Hfb]. intros r <-. lia.
    + intros Ha. destruct (Hcorner2 Ha) as [H0 H1].
      destruct Hfb as (_ & _ & _ & Hsame). rewrite !Hsame by lia. auto.
    + intros _.
      destruct (row_fill_ends (rows Lt - 1) (cols Lt - 2) fzero fzero v m2) as [H0 H1];
        try lia; try assumption.
      replace (cols Lt - 1) with (1 + (cols Lt - 2)) by lia. auto.
  - split; [exact Hf2 | split; [exact Hcorner2 | intros; lia]].
Qed.

(** Whatever the stripes of [Range(0, rows)], the four corners of the step
    increment end up zero. *)
Lemma stripes_corners Lt Lf step_size stripes lo Lstep :
  2 <= rows Lt -> 2 <= cols Lt ->
  Mat_wf Lstep -> rows Lstep = rows Lt -> cols Lstep = cols Lt ->
  0 <= lo -> Range_split lo (rows Lt) stripes ->
  let out :=
    parallel_for_ stripes
      (fun a b L => nld_step_scalar_one_lane fresh Lt Lf L step_size a b) Lstep in
  row_frame (fun r => lo <= r < rows Lt) Lstep out /\
  (lo = 0 -> Mat_at out 0 0 = fzero /\ Mat_at out 0 (cols Lt - 1) = fzero) /\
  (lo < rows Lt ->
     Mat_at out (rows Lt - 1) 0 = fzero /\
     Mat_at out (rows Lt - 1) (cols Lt - 1) = fzero).
Proof.
  intros Hrows Hcols Hwf Hr Hc Hlo Hsplit.
  remember (rows Lt) as hi eqn:Hhi in Hsplit.
  revert Lstep Hwf Hr Hc Hlo.
  induction Hsplit as [lo hi Hle | lo mid hi rest Hlt Hmid Hrest IH];
    intros Lstep Hwf Hr Hc Hlo out; subst out hi.
  - cbn. split; [apply row_frame_refl | split; intros; lia].
  - unfold parallel_for_. cbn [fold_left fst snd].
    destruct (nld_step_scalar_one_lane_spec Lt Lf Lstep step_size lo mid)
      as (Hf1 & Htop1 & Hbot1); try assumption; try lia.
    set (m1 := nld_step_scalar_one_lane fresh Lt Lf Lstep step_size lo mid) in *.
    assert (Hwf1 : Mat_wf m1) by (eapply row_frame_wf; eauto).
    pose proof Hf1 as (Hr1 & Hc1 & _ & _).
    destruct (IH eq_refl m1 Hwf1 ltac:(congruence) ltac:(congruence) ltac:(lia))
      as (Hf2 & _ & Hbot2).
    fold (parallel_for_ rest
            (fun a b L => nld_step_scalar_one_lane fresh Lt Lf L step_size a b) m1)
      in *.
    split; [|split].
    + eapply row_frame_trans.
      * eapply row_frame_weaken; [|exact Hf1]. intros r Hrr. cbn in Hrr. lia.
      * eapply row_frame_weaken; [|exact Hf2]. intros r Hrr. cbn in Hrr. lia.
    + intros Hz. destruct (Htop1 Hz) as [H0 H1].
      destruct Hf2 as (_ & _ & _ & Hsame). rewrite !Hsame by lia. auto.
    + intros _. destruct (Z_lt_ge_dec mid (rows Lt)) as [Hmlt|Hmge].
      * apply Hbot2. exact Hmlt.
      * inversion Hrest as [? ? Hnil | ? ? ? ? Hlt' ]; subst; [|lia].
        cbn. apply Hbot1. lia.
Qed.

Lemma non_linear_diffusion_step_corners Lt Lf Lstep step_size :
  2 <= rows Lt -> 2 <= cols Lt -> Mat_wf Lt -> Mat_wf Lstep ->
  let out := non_linear_diffusion_step fresh sched Lt Lf Lstep step_size in
  Mat_wf out /\ rows out = rows Lt /\ cols out = cols Lt /\
  forall r c, r = 0 \/ r = rows Lt - 1 -> c = 0 \/ c = cols Lt - 1 ->
    Mat_at out r c = fzero.
Proof.
  intros Hrows Hcols HwfLt Hwf out. subst out. unfold non_linear_diffusion_step.
  set (L0 := Mat_create fresh (rows Lt) (cols Lt) Lstep).
  assert (Hwf0 : Mat_wf L0) by (apply Mat_create_wf; auto; lia).
  assert (Hr0 : rows L0 = rows Lt) by apply Mat_create_rows.
  assert (Hc0 : cols L0 = cols Lt) by apply Mat_create_cols.
  destruct (stripes_corners Lt Lf step_size (sched 0 (rows Lt)) 0 L0)
    as (Hf & Htop & Hbot); auto; try lia.
  split; [eapply row_frame_wf; eauto|].
  destruct Hf as (Hr & Hc & _ & _).
  split; [congruence | split; [congruence|]].
  intros r c [-> | ->] [-> | ->].
  - apply Htop; reflexivity.
  - apply Htop; reflexivity.
  - apply Hbot; lia.
  - apply Hbot; lia.
Qed.

Lemma Mat_add_at (a b : Mat F) r c :
  Mat_wf a -> Mat_wf b -> rows b = rows a -> cols b = cols a ->
  0 <= r < rows a -> 0 <= c < cols a ->
  Mat_at (Mat_add a b) r c = Mat_at a r c ⊕ Mat_at b r c.
Proof.
  intros Hwa Hwb Hr Hc Hrr Hcc. unfold Mat_at, Mat_add. cbn. rewrite Hc.
  pose proof (cell_index_bounds a r c Hwa Hrr Hcc) as Hia.
  assert (Hib : 0 <= r * cols a + c < Z.of_nat (length (data b))).
  { destruct Hwb as (_ & _ & Hlb). rewrite Hlb, Hr, Hc. nia. }
  apply zget_lookup; [lia|].
  rewrite lookup_zip_with.
  rewrite (zget_in_range fzero (data a)), (zget_in_range fzero (data b)) by assumption.
  reflexivity.
Qed.

(** One FED iteration: zero corners in the increment, and the image
    corners are their old values plus zero. *)
Lemma fed_iteration_corners Lflow Lt Lstep tstep :
  2 <= rows Lt -> 2 <= cols Lt -> Mat_wf Lt -> Mat_wf Lstep ->
  forall r c, r = 0 \/ r = rows Lt - 1 -> c = 0 \/ c = cols Lt - 1 ->
    Mat_at (snd (fed_iteration fresh sched Lflow (Lt, Lstep) tstep)) r c = fzero /\
    Mat_at (fst (fed_iteration fresh sched Lflow (Lt, Lstep) tstep)) r c =
      Mat_at Lt r c ⊕ fzero.
Proof.
  intros Hrows Hcols HwfLt Hwf r c Hr Hc. unfold fed_iteration. cbn [fst snd].
  destruct (non_linear_diffusion_step_corners Lt Lflow Lstep (tstep ⊗ flit 1 2))
    as (Hwfo & Hro & Hco & Hcorner); auto.
  split; [apply Hcorner; auto|].
  rewrite Mat_add_at by (auto; lia). rewrite Hcorner by auto. reflexivity.
Qed.

End DiffusionFacts.

(** In binary32, adding [+0] changes nothing but the sign of a negative
    zero. *)
Lemma B32_add_zero (x : B32.binary32) :
  x <> S754_zero true -> x ⊕ fzero = x.
Proof. destruct x as [[|]| [|] | |]; intros Hx; try reflexivity. congruence. Qed.

(** The corners of a matrix. *)
Definition is_corner {F : Type} (m : Mat F) (r c : Z) : Prop :=
  (r = 0 \/ r = rows m - 1) /\ (c = 0 \/ c = cols m - 1).

(** C2 as stated: after a diffusion step the four corners of the image are
    zero. *)
Definition image_corners_zero (Lt' : Mat B32.binary32) : Prop :=
  forall r c, is_corner Lt' r c -> Mat_at Lt' r c = fzero.

(** C2, counterexample: one step on the 3x3 sample image leaves 1.0 in its
    top left corner. *)
Lemma image_corners_zero_counterexample :
  ~ image_corners_zero
      (fst (fed_iteration Samples.nan_storage Samples.one_stripe Samples.sample_flow
              (Samples.sample_image, released) (flit 1 2))).
Proof.
  intros Hclaim. specialize (Hclaim 0 0).
  assert (Hc : is_corner
                 (fst (fed_iteration Samples.nan_storage Samples.one_stripe
                         Samples.sample_flow (Samples.sample_image, released)
                         (flit 1 2))) 0 0)
    by (split; left; reflexivity).
  specialize (Hclaim Hc). vm_compute in Hclaim. discriminate Hclaim.
Qed.

(** C2, amended: a diffusion step writes 0.0 to the four corners of the step
    increment [Lstep]; the image is updated to [Lt + Lstep], so each of its
    corners is its old value plus 0.0, that is, unchanged (a negative zero
    becomes +0). *)
Theorem diffusion_step_corners
    (fresh : nat -> list B32.binary32) (sched : Z -> Z -> list (Z * Z))
    (Lflow Lt Lstep : Mat B32.binary32) (tstep : B32.binary32) :
  (forall n, length (fresh n) = n) ->
  (forall lo hi, Range_split lo hi (sched lo hi)) ->
  2 <= rows Lt -> 2 <= cols Lt -> Mat_wf Lt -> Mat_wf Lstep ->
  let Lt' := fst (fed_iteration fresh sched Lflow (Lt, Lstep) tstep) in
  let Lstep' := snd (fed_iteration fresh sched Lflow (Lt, Lstep) tstep) in
  forall r c, is_corner Lt r c ->
    Mat_at Lstep' r c = fzero /\
    Mat_at Lt' r c = Mat_at Lt r c ⊕ fzero /\
    (Mat_at Lt r c <> S754_zero true -> Mat_at Lt' r c = Mat_at Lt r c).
Proof.
  intros Hfresh Hsched Hrows Hcols HwfLt Hwf Lt' Lstep' r c [Hr Hc].
  destruct (fed_iteration_corners fresh sched Hfresh Hsched Lflow Lt Lstep tstep
              Hrows Hcols HwfLt Hwf r c Hr Hc) as [Hstep Himg].
  subst Lt' Lstep'. split; [exact Hstep|]. split; [exact Himg|].
  intros Hnz. rewrite Himg. now apply B32_add_zero.
Qed.

Lemma diffusion_step_corners_witness :
  let st := fed_iteration Samples.nan_storage Samples.one_stripe Samples.sample_flow
              (Samples.sample_image, released) (flit 1 2) in
  Mat_at (snd st) 2 2 = fzero /\ Mat_at (fst st) 2 2 = B32.of_Z 10.
Proof.
  destruct (diffusion_step_corners Samples.nan_storage Samples.one_stripe
              Samples.sample_flow Samples.sample_image released (flit 1 2)
              length_nan_storage one_stripe_split) with (r := 2) (c := 2)
    as (Hstep & _ & Himg).
  - cbn. lia.
  - cbn. lia.
  - unfold Mat_wf. cbn. lia.
  - unfold Mat_wf. cbn. lia.
  - split; right; reflexivity.
  - split; [exact Hstep|]. rewrite Himg; [reflexivity|]. vm_compute. discriminate.
Defined.

(** ** The contrast factor *)

Section B32Zero.
Import B32.

Lemma B32_fzero : (fzero : binary32) = S754_zero false.
Proof. reflexivity. Qed.

(** [x == 0.0f] holds of the two zeros only. *)
Lemma B32_eq_zero (x : binary32) :
  (x ==. fzero) = true -> exists s, x = S754_zero s.
Proof.
  destruct x as [s|s| |s m e]; cbn; try discriminate.
  - eauto.
  - destruct s; discriminate.
  - destruct s; discriminate.
Qed.

(** The magnitude of a zero gradient is [+0], and it does not raise the
    running maximum. *)
Lemma B32_zero_magnitude (lx ly : binary32) :
  (lx ==. fzero) = true -> (ly ==. fzero) = true ->
  fsqrt (lx ⊗ lx ⊕ ly ⊗ ly) = fzero.
Proof.
  intros Hx Hy. destruct (B32_eq_zero lx Hx) as [sx ->].
  destruct (B32_eq_zero ly Hy) as [sy ->]. destruct sx, sy; reflexivity.
Qed.

Lemma B32_fmax_zero : fmax (fzero : binary32) fzero = fzero.
Proof. reflexivity. Qed.

End B32Zero.

Section BlankImage.
Import B32.

(** A gradient pair that vanishes at every interior pixel. *)
Definition zero_gradient (Lx Ly : Mat binary32) : Prop :=
  forall i j, 1 <= i < rows Lx - 1 -> 1 <= j < cols Lx - 1 ->
    (Mat_at Lx i j ==. fzero) = true /\ (Mat_at Ly i j ==. fzero) = true.

Lemma gradient_magnitudes_blank Lx Ly modgs :
  zero_gradient Lx Ly ->
  snd (gradient_magnitudes Lx Ly modgs) = fzero.
Proof.
  intros Hzero. unfold gradient_magnitudes.
  apply (for_loop_preserves (fun st : Mat binary32 * Z * binary32 => snd st = fzero));
    [reflexivity|].
  intros i st Hi Hst.
  apply (for_loop_preserves (fun st : Mat binary32 * Z * binary32 => snd st = fzero));
    [exact Hst|].
  intros j [[m p] hmax] Hj Hh. cbn [snd] in *. subst hmax.
  destruct (Hzero i (1 + j) ltac:(lia) ltac:(lia)) as [Hx Hy].
  rewrite B32_zero_magnitude by assumption. apply B32_fmax_zero.
Qed.

End BlankImage.

(** C3: on a gradient pair that is zero at every interior pixel the maximum
    magnitude [hmax] is 0 and [compute_kcontrast] returns the constant
    0.03f. *)
Theorem compute_kcontrast_blank
    (fresh : nat -> list B32.binary32) (Lx Ly : Mat B32.binary32)
    (perc : B32.binary32) (nbins : Z) :
  2 < nbins -> Mat_empty Lx = false -> zero_gradient Lx Ly ->
  kcontrast_hmax fresh Lx Ly = fzero /\
  compute_kcontrast fresh Lx Ly perc nbins = Ok (flit 3 100).
Proof.
  intros Hbins Hne Hzero.
  pose proof (gradient_magnitudes_blank Lx Ly
                (mkMat (rows Lx - 2) (cols Lx - 2)
                   (fresh (Z.to_nat ((rows Lx - 2) * (cols Lx - 2))))) Hzero) as Hh.
  split; [exact Hh|].
  unfold compute_kcontrast.
  destruct (Z.ltb_spec 2 nbins) as [_|?]; [|lia]. cbn [negb]. rewrite Hne.
  destruct (gradient_magnitudes _ _ _) as [[m p] hmax]. cbn [snd] in Hh. subst hmax.
  reflexivity.
Qed.

(** A 4x4 gradient pair whose interior is zero (with both signs of zero)
    while the border is not. *)
Lemma compute_kcontrast_blank_witness :
  compute_kcontrast Samples.nan_storage Samples.blank_Lx Samples.blank_Ly
    (flit 7 10) 300 = Ok (S754_finite false 16106127 (-29)).
Proof.
  refine (proj2 (compute_kcontrast_blank Samples.nan_storage Samples.blank_Lx
                   Samples.blank_Ly (flit 7 10) 300 _ _ _)).
  - lia.
  - reflexivity.
  - intros i j Hi Hj. cbn in Hi, Hj.
    assert (Hij : (i = 1 \/ i = 2) /\ (j = 1 \/ j = 2)) by lia.
    destruct Hij as [[-> | ->] [-> | ->]]; split; reflexivity.
Defined.

(** ** Rounding in binary32 *)

Section Binary32Rounding.
Import B32.

Lemma fexp_binary32 (x : Z) : fexp prec emax x = Z.max (x - 24) (-149).
Proof. reflexivity. Qed.

(** The number of binary digits is the logarithm plus one. *)
Lemma digits2_pos_log2 (p : positive) :
  Z.pos (digits2_pos p) = Z.log2 (Z.pos p) + 1.
Proof.
  induction p as [p IH | p IH |]; cbn [digits2_pos];
    rewrite ?Pos2Z.inj_succ, ?IH; try reflexivity.
  - change (Z.pos p~1) with (2 * Z.pos p + 1).
    rewrite Z.log2_succ_double by lia. lia.
  - change (Z.pos p~0) with (2 * Z.pos p).
    rewrite Z.log2_double by lia. lia.
Qed.

Lemma Zdigits2_log2 (m : Z) : 0 < m -> Zdigits2 m = Z.log2 m + 1.
Proof. destruct m as [|p|p]; try lia. intros _. apply digits2_pos_log2. Qed.

Lemma Zdigits2_le (a b : Z) : 0 < a <= b -> Zdigits2 a <= Zdigits2 b.
Proof.
  intros Hab. rewrite !Zdigits2_log2 by lia.
  pose proof (Z.log2_le_mono a b). lia.
Qed.

Lemma Zdigits2_succ (a : Z) : 0 < a -> Zdigits2 (a + 1) <= Zdigits2 a + 1.
Proof.
  intros Ha. rewrite !Zdigits2_log2 by lia.
  pose proof (Z.log2_le_mono (a + 1) (2 * a)) as Hle.
  rewrite Z.log2_double in Hle by lia. lia.
Qed.

(** A number that is at least [2^k] has more than [k] digits. *)
Lemma Zdigits2_above (m k : Z) : 0 <= k -> 2 ^ k <= m -> k + 1 <= Zdigits2 m.
Proof.
  intros Hk Hm.
  assert (0 < 2 ^ k) by (apply Z.pow_pos_nonneg; lia).
  rewrite Zdigits2_log2 by lia.
  pose proof (Z.log2_le_mono (2 ^ k) m ltac:(lia)) as Hle.
  rewrite Z.log2_pow2 in Hle by lia. lia.
Qed.

Lemma Zdigits2_lower (m : Z) : 0 < m -> 2 ^ (Zdigits2 m - 1) <= m.
Proof.
  intros Hm. rewrite Zdigits2_log2 by lia.
  replace (Z.log2 m + 1 - 1) with (Z.log2 m) by lia.
  apply Z.log2_spec. lia.
Qed.

Lemma Zdigits2_upper (m : Z) : 0 < m -> m < 2 ^ Zdigits2 m.
Proof.
  intros Hm. rewrite Zdigits2_log2 by lia.
  replace (Z.log2 m + 1) with (Z.succ (Z.log2 m)) by lia.
  apply Z.log2_spec. lia.
Qed.

Lemma Zdigits2_pos (m : Z) : 0 < m -> 1 <= Zdigits2 m.
Proof. intros Hm. rewrite Zdigits2_log2 by lia. pose proof (Z.log2_nonneg m). lia. Qed.

(** *** Shifts *)

Lemma shr_1_div2 (mrs : shr_record) :
  0 <= shr_m mrs -> shr_m (shr_1 mrs) = shr_m mrs / 2.
Proof.
  destruct mrs as [m r s]. cbn [shr_m]. intros Hm.
  rewrite <- Z.div2_div.
  destruct m as [|[p|p|]|p]; try reflexivity. lia.
Qed.

Lemma iter_pos_shr_1 (p : positive) : forall mrs,
  0 <= shr_m mrs ->
  shr_m (SpecFloat.iter_pos shr_1 p mrs) = shr_m mrs / 2 ^ Z.pos p.
Proof.
  assert (Hstep : forall mrs, 0 <= shr_m mrs -> 0 <= shr_m (shr_1 mrs)).
  { intros mrs Hm. rewrite shr_1_div2 by exact Hm. apply Z.div_pos; lia. }
  induction p as [p IH | p IH |]; intros mrs Hm; cbn [SpecFloat.iter_pos].
  - assert (H2 : 0 <= shr_m (SpecFloat.iter_pos shr_1 p (shr_1 mrs))).
    { rewrite IH by auto. apply Z.div_pos; [auto | lia]. }
    rewrite IH by exact H2. rewrite IH by auto. rewrite shr_1_div2 by exact Hm.
    rewrite !Z.div_div by lia. f_equal.
    rewrite <- Z.pow_add_r, <- Z.pow_succ_r by lia. f_equal. lia.
  - assert (H2 : 0 <= shr_m (SpecFloat.iter_pos shr_1 p mrs)).
    { rewrite IH by auto. apply Z.div_pos; [auto | lia]. }
    rewrite IH by exact H2. rewrite IH by auto.
    rewrite !Z.div_div by lia. f_equal.
    rewrite <- Z.pow_add_r by lia. f_equal. lia.
  - rewrite shr_1_div2 by exact Hm. reflexivity.
Qed.

Lemma shr_m_of_loc (m : Z) (l : location) : shr_m (shr_record_of_loc m l) = m.
Proof. destruct l as [|[]]; reflexivity. Qed.

(** Dropping [n] of the [d] digits of [m] leaves [d - n] digits. *)
Lemma Zdigits2_div_pow2 (m n : Z) :
  0 < m -> 0 <= n < Zdigits2 m ->
  0 < m / 2 ^ n /\ Zdigits2 (m / 2 ^ n) = Zdigits2 m - n.
Proof.
  intros Hm Hn. rewrite Zdigits2_log2 in Hn by exact Hm.
  assert (Hpos : 0 < m / 2 ^ n).
  { apply Z.div_str_pos. split; [apply Z.pow_pos_nonneg; lia|].
    apply Z.le_trans with (2 ^ Z.log2 m); [apply Z.pow_le_mono_r; lia|].
    apply Z.log2_spec. exact Hm. }
  split; [exact Hpos|].
  rewrite !Zdigits2_log2 by assumption.
  rewrite <- Z.shiftr_div_pow2 by lia.
  rewrite Z.log2_shiftr by exact Hm. lia.
Qed.

(** [shr_fexp] keeps a mantissa of magnitude [2^-149] or more positive, and
    keeps its magnitude. *)
Lemma shr_fexp_magnitude (m e : Z) (l : location) :
  0 < m -> -148 <= Zdigits2 m + e ->
  let '(mrs, e') := shr_fexp prec emax m e l in
  0 < shr_m mrs /\ Zdigits2 (shr_m mrs) + e' = Zdigits2 m + e.
Proof.
  intros Hm Hmag. unfold shr_fexp, shr. rewrite fexp_binary32.
  destruct (Z.max (Zdigits2 m + e - 24) (-149) - e) as [|n|n] eqn:Hn;
    rewrite ?shr_m_of_loc; try (split; [exact Hm | reflexivity]).
  rewrite iter_pos_shr_1 by (rewrite shr_m_of_loc; lia).
  rewrite shr_m_of_loc.
  destruct (Zdigits2_div_pow2 m (Z.pos n) Hm ltac:(lia)) as [Hpos Hdig].
  split; [exact Hpos | lia].
Qed.

Lemma round_nearest_even_bounds (m : Z) (l : location) :
  m <= round_nearest_even m l <= m + 1.
Proof. destruct l as [|[]]; cbn; try lia. destruct (Z.even m); lia. Qed.

(** A positive number of magnitude [2^(t-1)] or more, or [+inf]. *)
Definition above (t : Z) (x : binary32) : Prop :=
  x = S754_infinity false \/
  exists m e, x = S754_finite false m e /\ t <= Z.pos (digits2_pos m) + e.

(** A positive finite number of magnitude below [2^u]. *)
Definition below (u : Z) (x : binary32) : Prop :=
  exists m e, x = S754_finite false m e /\ Z.pos (digits2_pos m) + e <= u.

Lemma above_weaken (t t' : Z) (x : binary32) : t' <= t -> above t x -> above t' x.
Proof.
  intros Ht [Hinf | (m & e & Hx & Hm)]; [left; exact Hinf|].
  right. exists m, e. split; [exact Hx | lia].
Qed.

Lemma above_positive (t : Z) (x : binary32) : above t x -> (fzero <. x) = true.
Proof. intros [-> | (m & e & -> & _)]; reflexivity. Qed.

(** Rounding a positive mantissa of magnitude [2^-149] or more gives a
    positive number of the same or the next magnitude, or [+inf] when the
    magnitude is beyond the finite numbers. *)
Lemma binary_round_aux_magnitude (mx ex : Z) (lx : location) :
  0 < mx -> -148 <= Zdigits2 mx + ex ->
  let r := binary_round_aux prec emax false mx ex lx in
  (r = S754_infinity false /\ 104 < Zdigits2 mx + ex) \/
  exists m e, r = S754_finite false m e /\
    Zdigits2 mx + ex <= Z.pos (digits2_pos m) + e <= Zdigits2 mx + ex + 1.
Proof.
  intros Hm Hmag. unfold binary_round_aux.
  pose proof (shr_fexp_magnitude mx ex lx Hm Hmag) as H1.
  destruct (shr_fexp prec emax mx ex lx) as [mrs1 e1]. destruct H1 as [Hpos1 Hmag1].
  pose proof (round_nearest_even_bounds (shr_m mrs1) (loc_of_shr_record mrs1)) as Hr.
  set (m2 := round_nearest_even (shr_m mrs1) (loc_of_shr_record mrs1)) in *.
  assert (Hd2 : Zdigits2 (shr_m mrs1) <= Zdigits2 m2 <= Zdigits2 (shr_m mrs1) + 1).
  { split; [apply Zdigits2_le; lia|].
    apply Z.le_trans with (Zdigits2 (shr_m mrs1 + 1));
      [apply Zdigits2_le; lia | apply Zdigits2_succ; exact Hpos1]. }
  pose proof (shr_fexp_magnitude m2 e1 loc_Exact ltac:(lia) ltac:(lia)) as H2.
  destruct (shr_fexp prec emax m2 e1 loc_Exact) as [mrs2 e2]. destruct H2 as [Hpos2 Hmag2].
  destruct (shr_m mrs2) as [|m|m] eqn:Hm2; try lia.
  cbn [Zdigits2] in Hmag2. cbv zeta.
  destruct (Z.leb_spec e2 (emax - prec)) as [Hfin | Hinf].
  - right. exists m, e2. split; [reflexivity | lia].
  - left. split; [reflexivity|]. unfold emax, prec in Hinf. lia.
Qed.

Lemma binary_round_aux_above (mx ex : Z) (lx : location) (t : Z) :
  0 < mx -> -148 <= t -> t <= Zdigits2 mx + ex ->
  above t (binary_round_aux prec emax false mx ex lx).
Proof.
  intros Hm Ht Hmag.
  destruct (binary_round_aux_magnitude mx ex lx Hm ltac:(lia))
    as [[Hinf _] | (m & e & Hr & Hlo & _)].
  - left. exact Hinf.
  - right. exists m, e. split; [exact Hr | lia].
Qed.

(** The exponent of a rounded number is at least [emin]. *)
Definition valid_exponent (x : binary32) : Prop :=
  match x with S754_finite _ _ e => -149 <= e | _ => True end.

Lemma binary_round_aux_exponent (s : bool) (mx ex : Z) (lx : location) :
  valid_exponent (binary_round_aux prec emax s mx ex lx).
Proof.
  unfold binary_round_aux.
  destruct (shr_fexp prec emax mx ex lx) as [mrs1 e1].
  generalize (round_nearest_even (shr_m mrs1) (loc_of_shr_record mrs1)). intros m2.
  unfold shr_fexp, shr. rewrite fexp_binary32.
  destruct (Z.max (Zdigits2 m2 + e1 - 24) (-149) - e1) as [|n|n] eqn:Hn;
    cbn [shr_record_of_loc];
    match goal with
    | |- context [match shr_m ?r with _ => _ end] => destruct (shr_m r)
    end; cbn; try exact I;
    destruct (_ <=? _); cbn; try exact I; lia.
Qed.

(** *** Alignment *)

Lemma iter_xO_shiftl (m d : positive) :
  Z.pos (Pos.iter xO m d) = Z.pos m * 2 ^ Z.pos d.
Proof.
  rewrite <- Z.shiftl_mul_pow2 by lia. cbn [Z.shiftl].
  apply (Pos.iter_swap_gen _ _ Z.pos xO (Z.mul 2)). reflexivity.
Qed.

Lemma binary_round_above (m : positive) (e t : Z) :
  -148 <= t -> t <= Z.pos (digits2_pos m) + e ->
  above t (binary_round prec emax false m e).
Proof.
  intros Ht Hmag. unfold binary_round, shl_align.
  destruct (fexp prec emax (Z.pos (digits2_pos m) + e) - e) as [|d|d] eqn:Hd.
  - apply binary_round_aux_above; [lia | exact Ht | exact Hmag].
  - apply binary_round_aux_above; [lia | exact Ht | exact Hmag].
  - apply binary_round_aux_above; [lia | exact Ht |].
    rewrite iter_xO_shiftl, Zdigits2_log2 by lia.
    rewrite Z.log2_mul_pow2 by lia.
    rewrite digits2_pos_log2 in Hmag. lia.
Qed.

Lemma binary_round_exponent (s : bool) (m : positive) (e : Z) :
  valid_exponent (binary_round prec emax s m e).
Proof.
  unfold binary_round. destruct (shl_align _ _ _) as [mz ez].
  apply binary_round_aux_exponent.
Qed.

Lemma binary_round_below (m : positive) (e u : Z) :
  -148 <= Z.pos (digits2_pos m) + e -> Z.pos (digits2_pos m) + e + 1 <= u -> u <= 105 ->
  below u (binary_round prec emax false m e).
Proof.
  intros Hlo Hmag Hu. unfold binary_round, shl_align.
  assert (Haux : forall mz ez, 0 < mz ->
            Zdigits2 mz + ez = Z.pos (digits2_pos m) + e ->
            below u (binary_round_aux prec emax false mz ez loc_Exact)).
  { intros mz ez Hmz Heq.
    destruct (binary_round_aux_magnitude mz ez loc_Exact Hmz ltac:(lia))
      as [[_ Hbig] | (m' & e' & Hr & _ & Hhi)]; [lia|].
    exists m', e'. split; [exact Hr | lia]. }
  destruct (fexp prec emax (Z.pos (digits2_pos m) + e) - e) as [|d|d] eqn:Hd.
  - apply Haux; [lia | reflexivity].
  - apply Haux; [lia | reflexivity].
  - apply Haux; [lia|].
    rewrite iter_xO_shiftl, Zdigits2_log2 by lia.
    rewrite Z.log2_mul_pow2 by lia.
    pose proof (digits2_pos_log2 m). lia.
Qed.

(** *** Conversion of integers *)

Lemma of_Z_above (k : Z) : 1 <= k -> above 1 (of_Z k).
Proof.
  intros Hk. destruct k as [|p|p]; try lia.
  unfold of_Z, binary_normalize. apply binary_round_above; [lia|].
  pose proof (Zdigits2_pos (Z.pos p) ltac:(lia)) as Hd. cbn [Zdigits2] in Hd. lia.
Qed.

Lemma of_Z_below (k : Z) : 1 <= k < 2 ^ 31 -> below 32 (of_Z k).
Proof.
  intros Hk. destruct k as [|p|p]; try lia.
  unfold of_Z, binary_normalize.
  assert (Hd : 1 <= Z.pos (digits2_pos p) <= 31).
  { pose proof (Zdigits2_pos (Z.pos p) ltac:(lia)) as Hd. cbn [Zdigits2] in Hd.
    split; [lia|]. rewrite digits2_pos_log2.
    assert (Z.log2 (Z.pos p) < 31) by (apply Z.log2_lt_pow2; lia). lia. }
  apply binary_round_below; lia.
Qed.

(** *** Multiplication *)

Lemma SFmul_above (t u : Z) (x y : binary32) :
  above t x -> above u y -> -148 <= t + u - 1 ->
  above (t + u - 1) (SFmul prec emax x y).
Proof.
  intros [-> | (m1 & e1 & -> & H1)] [-> | (m2 & e2 & -> & H2)] Hlo;
    try (left; reflexivity).
  cbn [SFmul xorb]. apply binary_round_aux_above; [lia | exact Hlo |].
  rewrite Zdigits2_log2 by lia. rewrite Pos2Z.inj_mul.
  pose proof (Z.log2_mul_below (Z.pos m1) (Z.pos m2) ltac:(lia) ltac:(lia)) as Hmul.
  rewrite !digits2_pos_log2 in *. lia.
Qed.

Lemma SFmul_exponent (x y : binary32) : valid_exponent (SFmul prec emax x y).
Proof.
  destruct x as [sx|sx| |sx mx ex], y as [sy|sy| |sy my ey]; cbn [SFmul]; try exact I.
  apply binary_round_aux_exponent.
Qed.

(** *** Addition *)

Lemma binary_normalize_exponent (m e : Z) (s : bool) :
  valid_exponent (binary_normalize prec emax m e s).
Proof.
  destruct m as [|p|p]; cbn [binary_normalize]; [exact I| |]; apply binary_round_exponent.
Qed.

Lemma SFadd_exponent (x y : binary32) :
  valid_exponent x -> valid_exponent y -> valid_exponent (SFadd prec emax x y).
Proof.
  intros Hx Hy.
  destruct x as [sx|sx| |sx mx ex], y as [sy|sy| |sy my ey]; cbn [SFadd];
    try exact I; try exact Hx; try exact Hy;
    try (destruct sx, sy; exact I).
  apply binary_normalize_exponent.
Qed.

(** *** Division *)

Lemma shifted_mantissa (m : positive) (s : Z) :
  0 <= s ->
  match s with
  | Z.pos _ => Z.shiftl (Z.pos m) s
  | 0 => Z.pos m
  | Z.neg _ => 0
  end = Z.pos m * 2 ^ s.
Proof.
  intros Hs. destruct s as [|p|p]; [lia | apply Z.shiftl_mul_pow2; lia | lia].
Qed.

Lemma SFdiv_above (t u : Z) (x y : binary32) :
  above t x -> below u y -> -148 <= t - u ->
  above (t - u) (SFdiv prec emax x y).
Proof.
  intros [-> | (m1 & e1 & -> & H1)] (m2 & e2 & -> & H2) Hlo; [left; reflexivity|].
  cbn [SFdiv xorb]. unfold SFdiv_core_binary. cbn [Zdigits2]. rewrite fexp_binary32.
  set (d1 := Z.pos (digits2_pos m1)) in *. set (d2 := Z.pos (digits2_pos m2)) in *.
  set (e' := Z.min (Z.max (d1 + e1 - (d2 + e2) - 24) (-149)) (e1 - e2)).
  set (s := e1 - e2 - e').
  rewrite (shifted_mantissa m1 s) by (unfold s, e'; lia).
  destruct (Z.div_eucl (Z.pos m1 * 2 ^ s) (Z.pos m2)) as [q r] eqn:Hdiv.
  assert (Hq : q = Z.pos m1 * 2 ^ s / Z.pos m2)
    by (unfold Z.div; rewrite Hdiv; reflexivity).
  assert (Hs : 0 <= s) by (unfold s, e'; lia).
  set (k := d1 + s - 1 - d2).
  assert (Hk : 0 <= k) by (unfold k, s, e'; lia).
  assert (Hpow : 2 ^ k <= q).
  { rewrite Hq. apply Z.div_le_lower_bound; [lia|].
    pose proof (Zdigits2_upper (Z.pos m2) ltac:(lia)) as Hm2.
    pose proof (Zdigits2_lower (Z.pos m1) ltac:(lia)) as Hm1.
    cbn [Zdigits2] in Hm1, Hm2. fold d1 in Hm1. fold d2 in Hm2.
    assert (Hd1 : 1 <= d1)
      by (pose proof (Zdigits2_pos (Z.pos m1) ltac:(lia)) as Hd; exact Hd).
    assert (Hd2 : 1 <= d2)
      by (pose proof (Zdigits2_pos (Z.pos m2) ltac:(lia)) as Hd; exact Hd).
    assert (Hsplit : 2 ^ (d1 - 1) * 2 ^ s = 2 ^ d2 * 2 ^ k).
    { rewrite <- !Z.pow_add_r by lia. f_equal. unfold k. lia. }
    assert (0 < 2 ^ k) by (apply Z.pow_pos_nonneg; lia).
    assert (0 < 2 ^ s) by (apply Z.pow_pos_nonneg; lia).
    nia. }
  assert (0 < 2 ^ k) by (apply Z.pow_pos_nonneg; lia).
  apply binary_round_aux_above; [lia | exact Hlo |].
  pose proof (Zdigits2_above q k Hk Hpow). unfold k, s in *. lia.
Qed.

(** *** Square root *)

Lemma SFsqrt_cases (x : binary32) :
  valid_exponent x ->
  SFsqrt prec emax x = S754_nan \/
  (exists s, SFsqrt prec emax x = S754_zero s) \/
  above (-74) (SFsqrt prec emax x).
Proof.
  intros Hx. destruct x as [s|[|]| |[|] m e]; cbn [SFsqrt]; eauto.
  - right. right. left. reflexivity.
  - cbn [valid_exponent] in Hx. right. right.
    unfold SFsqrt_core_binary. cbn [Zdigits2]. rewrite fexp_binary32, !Z.div2_div.
    set (d := Z.pos (digits2_pos m)) in *.
    assert (Hd : 1 <= d)
      by (pose proof (Zdigits2_pos (Z.pos m) ltac:(lia)) as Hd; exact Hd).
    set (e' := Z.min (Z.max ((d + e + 1) / 2 - 24) (-149)) (e / 2)).
    set (s := e - 2 * e').
    assert (Hs : 0 <= s)
      by (unfold s, e'; Z.to_euclidean_division_equations; lia).
    rewrite (shifted_mantissa m s) by exact Hs.
    pose proof (Z.sqrtrem_sqrt (Z.pos m * 2 ^ s)) as Hsqrt.
    destruct (Z.sqrtrem (Z.pos m * 2 ^ s)) as [q r]. cbn [fst] in Hsqrt.
    set (j := (d + s + 1) / 2).
    assert (Hj : 1 <= j) by (unfold j; Z.to_euclidean_division_equations; lia).
    assert (0 < 2 ^ s) by (apply Z.pow_pos_nonneg; lia).
    assert (Hpow : 2 ^ (j - 1) <= q).
    { rewrite Hsqrt. apply Z.sqrt_le_square; [lia | apply Z.pow_nonneg; lia |].
      rewrite <- Z.pow_add_r by lia.
      apply Z.le_trans with (2 ^ (d - 1) * 2 ^ s).
      - rewrite <- Z.pow_add_r by lia. apply Z.pow_le_mono_r; [lia|].
        unfold j. Z.to_euclidean_division_equations. lia.
      - pose proof (Zdigits2_lower (Z.pos m) ltac:(lia)) as Hm.
        cbn [Zdigits2] in Hm. fold d in Hm. nia. }
    assert (0 < 2 ^ (j - 1)) by (apply Z.pow_pos_nonneg; lia).
    apply binary_round_aux_above; [lia | lia |].
    pose proof (Zdigits2_above q (j - 1) ltac:(lia) Hpow).
    unfold j, s, e' in *. Z.to_euclidean_division_equations. lia.
Qed.

End Binary32Rounding.

(** ** The contrast factor is positive *)

(** The percentile loop returns [hmax * k / nbins] for a bin [k] of the
    loop, or nothing. *)
Lemma find_percentile_result {F : Type} `{FloatOps F}
    (hist : list Z) (hmax : F) (nthreshold nbins : Z) :
  match fst (find_percentile hist hmax nthreshold nbins) with
  | Some r => exists k, 1 <= k < nbins /\ r = hmax ⊗ f_of_Z k ⊘ f_of_Z nbins
  | None => True
  end.
Proof.
  unfold find_percentile.
  apply (for_loop_preserves
           (fun st : option F * Z =>
              match fst st with
              | Some r => exists k, 1 <= k < nbins /\ r = hmax ⊗ f_of_Z k ⊘ f_of_Z nbins
              | None => True
              end)); [exact I|].
  intros k [[r|] nelements] Hk Hst; cbn [fst] in *; [exact Hst|].
  destruct (nthreshold <=? nelements); cbn [fst]; [|exact I].
  exists k. split; [exact Hk | reflexivity].
Qed.

(** *** The histogram loop *)

Section Histogram.

(** One round of the histogram loop, on the bin number [b]. *)
Definition count_bin (hist : option (list Z)) (b : Z) : option (list Z) :=
  hist ← hist; count ← arr_at hist b; arr_set hist b (count + 1).

Lemma count_bin_inside hist b :
  0 <= b < Z.of_nat (length hist) ->
  exists hist', count_bin (Some hist) b = Some hist' /\ length hist' = length hist.
Proof.
  intros Hb. unfold count_bin. cbn [mbind option_bind].
  rewrite arr_at_zget by exact Hb. cbn [mbind option_bind].
  rewrite arr_set_zset by exact Hb. eexists. split; [reflexivity | apply length_zset].
Qed.

Lemma count_bin_outside hist b :
  ~ 0 <= b < Z.of_nat (length hist) -> count_bin (Some hist) b = None.
Proof.
  intros Hb. unfold count_bin. cbn [mbind option_bind].
  rewrite arr_at_outside by exact Hb. reflexivity.
Qed.

Lemma count_bins_undefined bins : fold_left count_bin bins None = None.
Proof. induction bins as [|b bins IH]; [reflexivity | exact IH]. Qed.

(** The loop succeeds when every bin number is an index of the vector ... *)
Lemma count_bins_inside bins : forall hist,
  Forall (fun b => 0 <= b < Z.of_nat (length hist)) bins ->
  exists hist',
    fold_left count_bin bins (Some hist) = Some hist' /\ length hist' = length hist.
Proof.
  induction bins as [|b bins IH]; intros hist Hall; [eexists; split; reflexivity|].
  apply Forall_cons in Hall as [Hb Hall]. cbn [fold_left].
  destruct (count_bin_inside hist b Hb) as (hist1 & -> & Hlen).
  destruct (IH hist1) as (hist' & Hrun & Hlen'); [now rewrite Hlen|].
  exists hist'. split; [exact Hrun | congruence].
Qed.

(** ... and only then. *)
Lemma count_bins_outside bins : forall hist,
  ~ Forall (fun b => 0 <= b < Z.of_nat (length hist)) bins ->
  fold_left count_bin bins (Some hist) = None.
Proof.
  induction bins as [|b bins IH]; intros hist Hnot; [contradiction Hnot; constructor|].
  cbn [fold_left].
  destruct (decide (0 <= b < Z.of_nat (length hist))) as [Hb | Hb].
  - destruct (count_bin_inside hist b Hb) as (hist1 & -> & Hlen).
    apply IH. rewrite Hlen. intros Hall. apply Hnot. now constructor.
  - rewrite count_bin_outside by exact Hb. apply count_bins_undefined.
Qed.

End Histogram.

Section HistogramBins.
Context {F : Type} `{FloatOps F}.
Variable fresh : nat -> list F.

(** The bin numbers [(int)modg[i]] that the histogram loop of
    [compute_kcontrast] uses as indices, in the order of the loop. *)
Definition histogram_bins (Lx Ly : Mat F) (nbins : Z) : list Z :=
  let modgs := mkMat (rows Lx - 2) (cols Lx - 2)
                 (fresh (Z.to_nat ((rows Lx - 2) * (cols Lx - 2)))) in
  let total := cols modgs * rows modgs in
  let '(modgs, _, hmax) := gradient_magnitudes Lx Ly modgs in
  let modgs := Mat_scale modgs (f_of_Z (nbins - 1) ⊘ hmax) in
  (fun i => f_to_Z (Mat_flat modgs i)) <$> seqZ 0 total.

(** The call stays within the histogram: it returns before the loop, or
    every bin number is one of the [nbins] bins. *)
Definition histogram_defined (Lx Ly : Mat F) (nbins : Z) : Prop :=
  (kcontrast_hmax fresh Lx Ly ==. fzero) = true \/
  Forall (fun b => 0 <= b < nbins) (histogram_bins Lx Ly nbins).

Lemma count_histogram_fold (modgs : Mat F) (total nbins : Z) :
  count_histogram modgs total nbins =
  fold_left count_bin ((fun i => f_to_Z (Mat_flat modgs i)) <$> seqZ 0 total)
    (Some (repeat 0 (Z.to_nat nbins))).
Proof.
  unfold count_histogram.
  rewrite (for_loop_fold_map 0 total _ count_bin (fun i => f_to_Z (Mat_flat modgs i)));
    [rewrite Z.sub_0_r; reflexivity|].
  intros i hist Hi. reflexivity.
Qed.

(** Once its two assertions hold, [compute_kcontrast] returns exactly when
    it stays within the histogram, and what it returns is the constant
    0.03f or [hmax * k / nbins] for a bin [k] of the percentile loop. *)
Lemma compute_kcontrast_cases (Lx Ly : Mat F) (perc : F) (nbins : Z) :
  2 < nbins -> Mat_empty Lx = false ->
  (histogram_defined Lx Ly nbins ->
   exists r,
     compute_kcontrast fresh Lx Ly perc nbins = Ok r /\
     (r = flit 3 100 \/
      exists k, 1 <= k < nbins /\
        (kcontrast_hmax fresh Lx Ly ==. fzero) = false /\
        r = kcontrast_hmax fresh Lx Ly ⊗ f_of_Z k ⊘ f_of_Z nbins)) /\
  (~ histogram_defined Lx Ly nbins ->
   compute_kcontrast fresh Lx Ly perc nbins = Undefined).
Proof.
  intros Hbins Hne. unfold histogram_defined, histogram_bins, compute_kcontrast, kcontrast_hmax.
  destruct (Z.ltb_spec 2 nbins) as [_|?]; [|lia]. cbn [negb]. rewrite Hne. cbv zeta.
  destruct (gradient_magnitudes _ _ _) as [[modgs p] hmax]. cbn [snd rows cols].
  destruct (hmax ==. fzero) eqn:Hzero.
  { split; [|intros Hnot; contradiction Hnot; now left].
    intros _. eexists. split; [reflexivity | left; reflexivity]. }
  rewrite count_histogram_fold.
  set (bins := (fun i => f_to_Z (Mat_flat (Mat_scale modgs (f_of_Z (nbins - 1) ⊘ hmax)) i))
               <$> seqZ 0 ((cols Lx - 2) * (rows Lx - 2))).
  assert (Hlen : Z.of_nat (length (repeat 0 (Z.to_nat nbins))) = nbins)
    by (rewrite repeat_length; lia).
  split.
  - intros [Habs | Hall]; [discriminate Habs|].
    destruct (count_bins_inside bins (repeat 0 (Z.to_nat nbins))) as (hist & -> & _);
      [rewrite Hlen; exact Hall|].
    match goal with
    | |- context [find_percentile hist hmax ?nt nbins] =>
        pose proof (find_percentile_result hist hmax nt nbins) as Hres;
        destruct (fst (find_percentile hist hmax nt nbins)) as [r|]
    end.
    + destruct Hres as (k & Hk & ->). eexists. split; [reflexivity|].
      right. exists k. split; [exact Hk|]. split; reflexivity.
    + eexists. split; [reflexivity | left; reflexivity].
  - intros Hnot. rewrite count_bins_outside; [reflexivity|].
    rewrite Hlen. intros Hall. apply Hnot. right. exact Hall.
Qed.

End HistogramBins.

Section ContrastPositive.
Import B32.

Variable fresh : nat -> list binary32.

(** The running maximum is [+0] or a positive number. *)
Definition hmax_class (h : binary32) : Prop := h = S754_zero false \/ above (-74) h.

Lemma gradient_magnitude_cases (lx ly : binary32) :
  let dist := fsqrt (lx ⊗ lx ⊕ ly ⊗ ly) in
  dist = S754_nan \/ (exists s, dist = S754_zero s) \/ above (-74) dist.
Proof.
  apply SFsqrt_cases, SFadd_exponent; apply SFmul_exponent.
Qed.

Lemma fmax_class (hmax dist : binary32) :
  hmax_class hmax ->
  dist = S754_nan \/ (exists s, dist = S754_zero s) \/ above (-74) dist ->
  hmax_class (fmax hmax dist).
Proof.
  intros Hh [-> | [[s ->] | Hd]]; unfold fmax.
  - replace (hmax <. S754_nan) with false; [exact Hh|].
    destruct hmax as [|[|]| |]; reflexivity.
  - replace (hmax <. S754_zero s) with false; [exact Hh|].
    destruct Hh as [-> | [-> | (m & e & -> & _)]]; reflexivity.
  - destruct (hmax <. dist); [right; exact Hd | exact Hh].
Qed.

Lemma gradient_magnitudes_hmax (Lx Ly modgs : Mat binary32) :
  hmax_class (snd (gradient_magnitudes Lx Ly modgs)).
Proof.
  unfold gradient_magnitudes.
  apply (for_loop_preserves (fun st : Mat binary32 * Z * binary32 => hmax_class (snd st)));
    [left; reflexivity|].
  intros i st Hi Hst.
  apply (for_loop_preserves (fun st : Mat binary32 * Z * binary32 => hmax_class (snd st)));
    [exact Hst|].
  intros j [[m p] hmax] Hj Hh. cbn [snd] in *.
  apply fmax_class; [exact Hh | apply gradient_magnitude_cases].
Qed.

Lemma hmax_class_nonzero (h : binary32) :
  hmax_class h -> (h ==. fzero) = false -> above (-74) h.
Proof. intros [-> | Hh] Hne; [discriminate Hne | exact Hh]. Qed.

(** [hmax * k / nbins] does not underflow to zero. *)
Lemma scaled_hmax_above (hmax : binary32) (k nbins : Z) :
  above (-74) hmax -> 1 <= k -> 1 <= nbins < 2 ^ 31 ->
  above (-106) (hmax ⊗ f_of_Z k ⊘ f_of_Z nbins).
Proof.
  intros Hh Hk Hn.
  apply (SFdiv_above (-74) 32); [|apply of_Z_below; exact Hn | lia].
  apply (SFmul_above (-74) 1); [exact Hh | apply of_Z_above; exact Hk | lia].
Qed.

End ContrastPositive.


(** *** The contrast factor along the levels *)

Section OctaveChanges.
Context {F : Type} `{FloatOps F}.

(** The test of the level loop: level [i] opens a new octave. *)
Definition octave_increase (evolution : list (Evolution F)) (i : Z) : bool :=
  ev_octave (zget empty_evolution evolution (i - 1))
  <? ev_octave (zget empty_evolution evolution i).

(** The number of new octaves among the [n] levels from [i] on. *)
Fixpoint octave_increases (evolution : list (Evolution F)) (n : nat) (i : Z) : Z :=
  match n with
  | O => 0
  | Datatypes.S n =>
      (if octave_increase evolution i then 1 else 0)
      + octave_increases evolution n (i + 1)
  end.

Lemma octave_increases_nonneg evolution (n : nat) : forall i,
  0 <= octave_increases evolution n i.
Proof.
  induction n as [|n IH]; intros i; cbn [octave_increases]; [lia|].
  specialize (IH (i + 1)). destruct (octave_increase evolution i); lia.
Qed.

Lemma octave_increases_ext ev ev' (n : nat) : forall i,
  (forall j, ev_octave (zget empty_evolution ev' j) = ev_octave (zget empty_evolution ev j)) ->
  octave_increases ev' n i = octave_increases ev n i.
Proof.
  induction n as [|n IH]; intros i Hoct; cbn [octave_increases]; [reflexivity|].
  rewrite (IH (i + 1) Hoct). unfold octave_increase. rewrite !Hoct. reflexivity.
Qed.

Lemma ev_octave_zset (ev : list (Evolution F)) i e j :
  ev_octave e = ev_octave (zget empty_evolution ev i) ->
  ev_octave (zget empty_evolution (zset ev i e) j) = ev_octave (zget empty_evolution ev j).
Proof.
  intros He. destruct (Z.eq_dec i j) as [<- | Hne]; [|rewrite zget_zset_ne by exact Hne; reflexivity].
  destruct (Z_lt_ge_dec i 0) as [Hneg | Hpos].
  - unfold zset. destruct (Z.ltb_spec i 0); [reflexivity | lia].
  - destruct (Z_lt_ge_dec i (Z.of_nat (length ev))) as [Hin | Hout].
    + rewrite zget_zset_eq by lia. exact He.
    + unfold zset. destruct (Z.ltb_spec i 0); [reflexivity|].
      rewrite list_insert_ge by lia. reflexivity.
Qed.

End OctaveChanges.

Section ContrastAttenuation.
Import B32.
Variable fresh : nat -> list binary32.
Variable sched : Z -> Z -> list (Z * Z).
Variable GaussianBlur : Mat binary32 -> Z -> binary32 -> Mat binary32.
Variable Scharr resize : Mat binary32 -> Z -> Z -> Mat binary32.
Variable pm_g1 pm_g2 weickert_diffusivity charbonnier_diffusivity :
  Mat binary32 -> Mat binary32 -> binary32 -> Mat binary32.

Let evolve_one :=
  evolve_level fresh sched GaussianBlur Scharr resize pm_g1 pm_g2
    weickert_diffusivity charbonnier_diffusivity.
Let evolve :=
  evolve_levels fresh sched GaussianBlur Scharr resize pm_g1 pm_g2
    weickert_diffusivity charbonnier_diffusivity.

(** One round: the contrast factor is multiplied by 0.75f when the level
    opens an octave, and the octaves of the levels stay as they are. *)
Lemma evolve_level_contrast self i ev k Lstep :
  let '(ev', k', _, _) := evolve_one self i (ev, k, Lstep) in
  k' = (if octave_increase ev i then k ⊗ flit 3 4 else k) /\
  forall j, ev_octave (zget empty_evolution ev' j) = ev_octave (zget empty_evolution ev j).
Proof.
  unfold evolve_one, evolve_level, octave_increase.
  destruct (ev_octave _ <? ev_octave _);
    destruct (compute_diffusivity _ _ _ _ _ _ _ _) as [Lflow|ex|];
    try destruct (fold_left _ _ _) as [Lt' Lstep'];
    (split; [reflexivity|]); intros j;
    rewrite ?ev_octave_zset; try reflexivity;
    rewrite ?ev_octave_zset; reflexivity.
Qed.

Lemma attenuation_above (t : Z) (k : binary32) :
  above t k -> -148 <= t - 1 -> above (t - 1) (k ⊗ flit 3 4).
Proof.
  intros Hk Ht. replace (t - 1) with (t + 0 - 1) by lia.
  apply SFmul_above; [exact Hk | | lia].
  right. eexists. eexists. split; [reflexivity|]. vm_compute. discriminate.
Qed.

(** After [n] rounds the contrast factor has lost at most one binary order
    of magnitude for every octave opened. *)
Lemma evolve_levels_contrast self (n : nat) : forall i ev k Lstep t,
  above t k -> -148 <= t - octave_increases ev n i ->
  let '(_, k', _, _) := evolve self n i (ev, k, Lstep) in
  above (t - octave_increases ev n i) k'.
Proof.
  induction n as [|n IH]; intros i ev k Lstep t Hk Ht.
  - cbn. replace (t - 0) with t by lia. exact Hk.
  - unfold evolve in *. cbn [evolve_levels octave_increases] in *.
    pose proof (evolve_level_contrast self i ev k Lstep) as Hone.
    unfold evolve_one in Hone.
    pose proof (octave_increases_nonneg ev n (i + 1)) as Hrest.
    assert (Hstop : above (t - ((if octave_increase ev i then 1 else 0)
                                + octave_increases ev n (i + 1)))
                      (if octave_increase ev i then k ⊗ flit 3 4 else k)).
    { apply (above_weaken (t - (if octave_increase ev i then 1 else 0))); [lia|].
      destruct (octave_increase ev i).
      - apply attenuation_above; [exact Hk | lia].
      - replace (t - 0) with t by lia. exact Hk. }
    destruct (evolve_level _ _ _ _ _ _ _ _ _ self i (ev, k, Lstep))
      as [[[ev' k'] Lstep'] [[]|ex|]]; destruct Hone as [Hk' Hoct].
    + specialize (IH (i + 1) ev' k' Lstep' (t - (if octave_increase ev i then 1 else 0))).
      rewrite (octave_increases_ext ev ev' n (i + 1) Hoct) in IH.
      replace (t - ((if octave_increase ev i then 1 else 0) + octave_increases ev n (i + 1)))
        with (t - (if octave_increase ev i then 1 else 0) - octave_increases ev n (i + 1))
        by lia.
      apply IH.
      * rewrite Hk'. destruct (octave_increase ev i).
        -- apply attenuation_above; [exact Hk | lia].
        -- replace (t - 0) with t by lia. exact Hk.
      * lia.
    + rewrite Hk'. exact Hstop.
    + rewrite Hk'. exact Hstop.
Qed.

End ContrastAttenuation.

Section ContrastFactor.
Import B32.
Variable fresh : nat -> list binary32.

Lemma fallback_above : above (-106) (flit 3 100 : binary32).
Proof. right. eexists. eexists. split; [reflexivity|]. vm_compute. discriminate. Qed.

(** When [compute_kcontrast] stays within its histogram, what it returns is
    far above the smallest positive number. *)
Lemma compute_kcontrast_above (Lx Ly : Mat binary32) (perc : binary32) (nbins : Z) :
  2 < nbins < 2 ^ 31 -> Mat_empty Lx = false ->
  histogram_defined fresh Lx Ly nbins ->
  exists r,
    compute_kcontrast fresh Lx Ly perc nbins = Ok r /\
    above (-106) r /\
    (r = flit 3 100 \/
     exists k, 1 <= k < nbins /\
       (fzero <. kcontrast_hmax fresh Lx Ly) = true /\
       r = kcontrast_hmax fresh Lx Ly ⊗ f_of_Z k ⊘ f_of_Z nbins).
Proof.
  intros Hbins Hne Hdef.
  destruct (compute_kcontrast_cases fresh Lx Ly perc nbins ltac:(lia) Hne) as [Hret _].
  destruct (Hret Hdef) as (r & Hr & Hform). exists r. split; [exact Hr|].
  pose proof (gradient_magnitudes_hmax Lx Ly
                (mkMat (rows Lx - 2) (cols Lx - 2)
                   (fresh (Z.to_nat ((rows Lx - 2) * (cols Lx - 2)))))) as Hclass.
  fold (kcontrast_hmax fresh Lx Ly) in Hclass.
  destruct Hform as [-> | (k & Hk & Hzero & ->)].
  - split; [exact fallback_above | left; reflexivity].
  - pose proof (hmax_class_nonzero _ Hclass Hzero) as Habove. split.
    + apply scaled_hmax_above; [exact Habove | lia | lia].
    + right. exists k. split; [exact Hk|]. split; [|reflexivity].
      apply (above_positive (-74)). exact Habove.
Qed.

End ContrastFactor.

(** C10, amended: for a non-empty [Lx] and a number of bins above 2 (an
    [int]), [compute_kcontrast] returns exactly when it stays within its
    histogram, that is when the maximum magnitude [hmax] is zero or every
    scaled magnitude converts to a bin number in [0, nbins); otherwise the
    store [hist[(int)modg[i]]++] lies outside the vector and the behaviour
    is undefined.  When it returns, the value is strictly positive in
    binary32: the constant 0.03f, or [hmax * k / nbins] for a bin
    [1 <= k < nbins] and [hmax > 0], a product and a quotient that do not
    underflow to zero.  In the level loop that starts from this value the
    contrast factor handed to [compute_diffusivity] stays strictly positive
    through its attenuations by 0.75f, for up to 42 new octaves. *)
Theorem compute_kcontrast_positive
    (fresh : nat -> list B32.binary32) (Lx Ly : Mat B32.binary32)
    (perc : B32.binary32) (nbins : Z) :
  2 < nbins < 2 ^ 31 -> Mat_empty Lx = false ->
  (~ histogram_defined fresh Lx Ly nbins ->
   compute_kcontrast fresh Lx Ly perc nbins = Undefined) /\
  (histogram_defined fresh Lx Ly nbins ->
   exists r,
     compute_kcontrast fresh Lx Ly perc nbins = Ok r /\
     (fzero <. r) = true /\
     (r = flit 3 100 \/
      exists k, 1 <= k < nbins /\
        (fzero <. kcontrast_hmax fresh Lx Ly) = true /\
        r = kcontrast_hmax fresh Lx Ly ⊗ f_of_Z k ⊘ f_of_Z nbins) /\
     forall sched GaussianBlur Scharr resize pm_g1 pm_g2 weickert_diffusivity
            charbonnier_diffusivity self (n : nat) i evolution Lstep,
       octave_increases evolution n i <= 42 ->
       let '(_, kcontrast, _, _) :=
         evolve_levels fresh sched GaussianBlur Scharr resize pm_g1 pm_g2
           weickert_diffusivity charbonnier_diffusivity self n i (evolution, r, Lstep) in
       (fzero <. kcontrast) = true).
Proof.
  intros Hbins Hne. split.
  { apply (compute_kcontrast_cases fresh Lx Ly perc nbins); [lia | exact Hne]. }
  intros Hdef.
  destruct (compute_kcontrast_above fresh Lx Ly perc nbins Hbins Hne Hdef)
    as (r & Hr & Habove & Hform).
  exists r. split; [exact Hr|]. split; [exact (above_positive _ _ Habove)|].
  split; [exact Hform|].
  intros sched GaussianBlur Scharr resize pm_g1 pm_g2 weickert_diffusivity
         charbonnier_diffusivity self n i evolution Lstep Hoct.
  pose proof (evolve_levels_contrast fresh sched GaussianBlur Scharr resize pm_g1 pm_g2
                weickert_diffusivity charbonnier_diffusivity self n i evolution r Lstep
                (-106) Habove ltac:(lia)) as Hk.
  destruct (evolve_levels _ _ _ _ _ _ _ _ _ _ _ _ _) as [[[ev' k'] Lstep'] ex].
  exact (above_positive _ _ Hk).
Qed.

(** The one bin number of the 3x3 sample pair is 299. *)
Lemma sample_histogram_bins :
  histogram_bins Samples.nan_storage Samples.sample_image Samples.sample_flow 300 = [299].
Proof. vm_compute. reflexivity. Defined.

(** A 3x3 gradient pair with the single interior pixel (5, 1): the maximum
    magnitude is the rounded square root of 26, the pixel falls into bin
    299, and the first bin of the percentile loop returns the maximum
    divided by 300. *)
Lemma compute_kcontrast_positive_witness :
  exists r,
    compute_kcontrast Samples.nan_storage Samples.sample_image Samples.sample_flow
      (flit 7 10) 300 = Ok r /\
    (fzero <. r) = true.
Proof.
  destruct (compute_kcontrast_positive Samples.nan_storage Samples.sample_image
              Samples.sample_flow (flit 7 10) 300) as [_ Hret].
  - lia.
  - reflexivity.
  - destruct Hret as (r & Hr & Hpos & _).
    + right. rewrite sample_histogram_bins. constructor; [lia | constructor].
    + exists r. split; [exact Hr | exact Hpos].
Defined.

Lemma compute_kcontrast_sample :
  compute_kcontrast Samples.nan_storage Samples.sample_image Samples.sample_flow
    (flit 7 10) 300 = Ok (S754_finite false 9125051 (-29)) /\
  kcontrast_hmax Samples.nan_storage Samples.sample_image Samples.sample_flow
    = S754_finite false 10693419 (-21).
Proof. split; vm_compute; reflexivity. Qed.

(** C10 as stated: on every non-empty gradient pair with more than two bins
    the estimation returns a strictly positive value. *)
Definition contrast_factor_claim : Prop :=
  forall (fresh : nat -> list B32.binary32) (Lx Ly : Mat B32.binary32)
         (perc : B32.binary32) (nbins : Z),
    2 < nbins < 2 ^ 31 -> Mat_empty Lx = false ->
    exists r, compute_kcontrast fresh Lx Ly perc nbins = Ok r /\ (fzero <. r) = true.

(** A 3x3 gradient pair whose one interior pixel is [2^70] in [Lx] and 0 in
    [Ly]. *)
Definition overflowing_Lx : Mat B32.binary32 :=
  mkMat 3 3 (repeat (B32.of_Z 0) 4 ++ [B32.pow (B32.of_Z 2) (B32.of_Z 70)]
             ++ repeat (B32.of_Z 0) 4).
Definition overflowing_Ly : Mat B32.binary32 := mkMat 3 3 (repeat (B32.of_Z 0) 9).

(** C10, counterexample: the square of [2^70] overflows, the magnitude and
    [hmax] are [+inf], the scale [(nbins - 1) / hmax] is 0 and the scaled
    magnitude [inf * 0] is NaN, which converts to no bin: the histogram is
    indexed outside its 300 bins and nothing is returned. *)
Lemma contrast_factor_counterexample : ~ contrast_factor_claim.
Proof.
  intros Hclaim.
  destruct (Hclaim Samples.nan_storage overflowing_Lx overflowing_Ly (flit 7 10) 300)
    as (r & Hr & _); [lia | reflexivity |].
  vm_compute in Hr. discriminate Hr.
Qed.

Lemma overflowing_gradient_undefined :
  kcontrast_hmax Samples.nan_storage overflowing_Lx overflowing_Ly = S754_infinity false /\
  histogram_bins Samples.nan_storage overflowing_Lx overflowing_Ly 300 = [- 2 ^ 31] /\
  compute_kcontrast Samples.nan_storage overflowing_Lx overflowing_Ly (flit 7 10) 300
    = Undefined.
Proof. repeat split; vm_compute; reflexivity. Qed.

(** ** Counting sort by quantized keys *)

Section KeyCounts.

(** The keys are given by a function of the index. *)
Variable key : Z -> Z.

(** Number of indices [i < m] whose key satisfies [P]. *)
Fixpoint count_keys (P : Z -> bool) (m : nat) : Z :=
  match m with
  | O => 0
  | Datatypes.S m' => count_keys P m' + (if P (key (Z.of_nat m')) then 1 else 0)
  end.

Definition count_eq (k : Z) := count_keys (Z.eqb k).
Definition count_le (k : Z) := count_keys (fun x => x <=? k).
Definition count_lt (k : Z) := count_keys (fun x => x <? k).

Lemma count_keys_bounds P m : 0 <= count_keys P m <= Z.of_nat m.
Proof. induction m as [|m IH]; cbn [count_keys]; [lia|]. destruct (P _); lia. Qed.

Lemma count_keys_S P m :
  count_keys P (Datatypes.S m) =
  count_keys P m + (if P (key (Z.of_nat m)) then 1 else 0).
Proof. reflexivity. Qed.

Lemma count_keys_mono P m m' : (m <= m')%nat -> count_keys P m <= count_keys P m'.
Proof.
  induction 1 as [|m' Hle IH]; [lia|]. rewrite count_keys_S. destruct (P _); lia.
Qed.

Lemma count_keys_ext P Q m :
  (forall i, (i < m)%nat -> P (key (Z.of_nat i)) = Q (key (Z.of_nat i))) ->
  count_keys P m = count_keys Q m.
Proof.
  induction m as [|m IH]; intros Hext; [reflexivity|].
  rewrite !count_keys_S, IH, Hext by (intros; auto with lia). reflexivity.
Qed.

Lemma count_keys_none P m :
  (forall i, (i < m)%nat -> P (key (Z.of_nat i)) = false) -> count_keys P m = 0.
Proof.
  induction m as [|m IH]; intros Hno; [reflexivity|].
  rewrite count_keys_S, IH, Hno by (intros; auto with lia). reflexivity.
Qed.

Lemma count_keys_all P m :
  (forall i, (i < m)%nat -> P (key (Z.of_nat i)) = true) ->
  count_keys P m = Z.of_nat m.
Proof.
  induction m as [|m IH]; intros Hall; [reflexivity|].
  rewrite count_keys_S, IH, Hall by (intros; auto with lia). lia.
Qed.

(** A member raises the count. *)
Lemma count_keys_member P m i :
  (i < m)%nat -> P (key (Z.of_nat i)) = true ->
  count_keys P i + 1 <= count_keys P m.
Proof.
  intros Hi HP.
  pose proof (count_keys_mono P (Datatypes.S i) m ltac:(lia)) as Hmono.
  rewrite count_keys_S, HP in Hmono. exact Hmono.
Qed.

Lemma count_le_split k m : count_le k m = count_lt k m + count_eq k m.
Proof.
  unfold count_le, count_lt, count_eq.
  induction m as [|m IH]; [reflexivity|]. rewrite !count_keys_S, IH.
  destruct (Z.leb_spec (key (Z.of_nat m)) k), (Z.ltb_spec (key (Z.of_nat m)) k),
    (Z.eqb_spec k (key (Z.of_nat m))); lia.
Qed.

Lemma count_lt_pred k m : count_lt k m = count_le (k - 1) m.
Proof.
  apply count_keys_ext. intros i _.
  destruct (Z.ltb_spec (key (Z.of_nat i)) k), (Z.leb_spec (key (Z.of_nat i)) (k - 1));
    lia.
Qed.

Lemma count_le_lt_mono k1 k2 m : k1 < k2 -> count_le k1 m <= count_lt k2 m.
Proof.
  intros Hk. unfold count_le, count_lt.
  induction m as [|m IH]; [reflexivity|]. rewrite !count_keys_S.
  destruct (Z.leb_spec (key (Z.of_nat m)) k1), (Z.ltb_spec (key (Z.of_nat m)) k2); lia.
Qed.

End KeyCounts.

Lemma u8_range z : 0 <= u8 z < 256.
Proof. unfold u8. apply Z.mod_pos_bound. lia. Qed.

Lemma u8_small z : 0 <= z < 256 -> u8 z = z.
Proof. unfold u8. apply Z.mod_small. Qed.

Lemma u8_succ z : u8 (u8 z + 1) = u8 (z + 1).
Proof. unfold u8. apply Zplus_mod_idemp_l. Qed.

Lemma u8_pred z : u8 (u8 z - 1) = u8 (z - 1).
Proof. unfold u8. apply Zminus_mod_idemp_l. Qed.

Lemma u8_add a b : u8 (u8 a + u8 b) = u8 (a + b).
Proof. unfold u8. symmetry. apply Zplus_mod. Qed.

Section CountingSortRun.
Context {F : Type} `{FloatOps F}.

(** The values that the arrays of [quantized_counting_sort] go through when
    every access is inside its array: the loops of [counting_prefix_sums]
    and of [quantized_counting_sort] on the arrays themselves. *)
Definition prefix_sums_run (a : list F) (n : Z) (quantum max : F)
    (cum : list Z) : list Z :=
  let nkeys := f_to_Z (max ⊘ quantum) in
  let cum := for_loop 0 (nkeys + 1) (fun i cum => zset cum i 0) cum in
  let cum :=
    for_loop 0 n
      (fun i cum =>
         let k := quantized_key a quantum i in
         zset cum k (u8 (zget 0 cum k + 1)))
      cum in
  for_loop 1 (nkeys + 1)
    (fun i cum => zset cum i (u8 (zget 0 cum i + zget 0 cum (i - 1))))
    cum.

Definition counting_sort_run (a : list F) (n : Z) (quantum max : F)
    (idx cum : list Z) : list Z * list Z :=
  let cum := prefix_sums_run a n quantum max cum in
  for_loop 0 n
    (fun i st =>
       let '(idx, cum) := st in
       let k := quantized_key a quantum i in
       let c := u8 (zget 0 cum k - 1) in
       let cum := zset cum k c in
       (zset idx c (u8 i), cum))
    (idx, cum).

End CountingSortRun.

Section CountingSortFacts.
Context {F : Type} `{FloatOps F}.

Variables (a : list F) (n : Z) (quantum max : F).

Let nkeys := f_to_Z (max ⊘ quantum).
Let key := quantized_key a quantum.

Hypothesis n_pos : 0 <= n.
Hypothesis key_range : forall i, 0 <= i < n -> 0 <= key i <= nkeys.

Let N : nat := Z.to_nat n.

Lemma nkeys_nonneg : 0 < n -> 0 <= nkeys.
Proof. intros Hn. specialize (key_range 0 ltac:(lia)). lia. Qed.

Lemma count_le_all k : nkeys <= k -> count_le key k N = n.
Proof.
  intros Hk. unfold count_le. rewrite count_keys_all; [lia|].
  intros i Hi. apply Z.leb_le. specialize (key_range (Z.of_nat i) ltac:(lia)). lia.
Qed.

Lemma count_lt_zero k : k <= 0 -> count_lt key k N = 0.
Proof.
  intros Hk. unfold count_lt. apply count_keys_none.
  intros i Hi. apply Z.ltb_ge. specialize (key_range (Z.of_nat i) ltac:(lia)). lia.
Qed.

(** After the three first loops [cum[k]] is the number of keys up to [k],
    as a byte. *)
Lemma prefix_sums_run_spec cum :
  nkeys + 1 <= Z.of_nat (length cum) ->
  let cum' := prefix_sums_run a n quantum max cum in
  length cum' = length cum /\
  forall k, 0 <= k <= nkeys -> zget 0 cum' k = u8 (count_le key k N).
Proof.
  intros Hlen cum'. subst cum'. unfold prefix_sums_run.
  fold nkeys. fold key.
  destruct (Z_lt_le_dec nkeys 0) as [Hneg|Hnk].
  { (* no keys at all: then [n = 0] and nothing is looked at *)
    assert (Hn0 : n = 0).
    { destruct (Z.eq_dec n 0); [assumption|]. pose proof (nkeys_nonneg ltac:(lia)). lia. }
    rewrite (for_loop_ge 0 (nkeys + 1)), (for_loop_ge 1 (nkeys + 1)) by lia.
    rewrite Hn0, for_loop_ge by lia. split; [reflexivity | intros; lia]. }
  (* memset *)
  set (c1 := for_loop 0 (nkeys + 1) (fun i cum => zset cum i 0) cum).
  assert (H1 : length c1 = length cum /\ forall k, 0 <= k <= nkeys -> zget 0 c1 k = 0).
  { set (P := fun (i : Z) (c : list Z) =>
                length c = length cum /\ forall k, 0 <= k < i -> zget 0 c k = 0).
    assert (HP : P (nkeys + 1) c1).
    { apply (for_loop_invariant P); [lia | split; [reflexivity | intros; lia] |].
      intros i c Hi [Hl Hz]. split; [now rewrite length_zset|].
      intros k Hk. destruct (Z.eq_dec k i) as [->|Hne].
      - apply zget_zset_eq. lia.
      - rewrite zget_zset_ne by lia. apply Hz. lia. }
    destruct HP as [Hl Hz]. split; [exact Hl | intros; apply Hz; lia]. }
  destruct H1 as [Hl1 Hz1].
  (* count *)
  set (c2 := for_loop 0 n _ c1).
  assert (H2 : length c2 = length cum /\
               forall k, 0 <= k <= nkeys -> zget 0 c2 k = u8 (count_eq key k N)).
  { set (P := fun (i : Z) (c : list Z) =>
                length c = length cum /\
                forall k, 0 <= k <= nkeys ->
                  zget 0 c k = u8 (count_eq key k (Z.to_nat i))).
    assert (HP : P n c2).
    { apply (for_loop_invariant P); [lia | split; [exact Hl1|] |].
      - intros k Hk. rewrite Hz1 by exact Hk. reflexivity.
      - intros i c Hi [Hl Hc]. split; [now rewrite length_zset|].
        intros k Hk. fold key.
        replace (Z.to_nat (i + 1)) with (Datatypes.S (Z.to_nat i)) by lia.
        unfold count_eq. rewrite count_keys_S, Z2Nat.id by lia.
        pose proof (key_range i Hi) as Hki.
        destruct (Z.eqb_spec k (key i)) as [->|Hne].
        + rewrite zget_zset_eq by lia. rewrite Hc by lia. apply u8_succ.
        + rewrite zget_zset_ne by lia. rewrite Hc by lia.
          unfold count_eq. f_equal. lia. }
    exact HP. }
  destruct H2 as [Hl2 Hc2].
  (* prefix sums *)
  set (P := fun (i : Z) (c : list Z) =>
              length c = length cum /\
              (forall k, 0 <= k < i -> zget 0 c k = u8 (count_le key k N)) /\
              (forall k, i <= k <= nkeys -> zget 0 c k = u8 (count_eq key k N))).
  match goal with |- context [for_loop 1 (nkeys + 1) ?body c2] =>
    assert (HP : P (nkeys + 1) (for_loop 1 (nkeys + 1) body c2))
  end.
  { apply (for_loop_invariant P); [lia | |].
    - split; [exact Hl2 | split].
      + intros k Hk. assert (k = 0) as -> by lia. rewrite Hc2 by lia.
        rewrite count_le_split, count_lt_zero by lia. reflexivity.
      + intros k Hk. apply Hc2. lia.
    - intros i c Hi (Hl & Hle & Heq). split; [now rewrite length_zset | split].
      + intros k Hk. destruct (Z.eq_dec k i) as [->|Hne].
        * rewrite zget_zset_eq by lia. rewrite (Heq i), (Hle (i - 1)) by lia.
          rewrite u8_add. f_equal.
          rewrite (count_le_split key i), count_lt_pred. lia.
        * rewrite zget_zset_ne by lia. apply Hle. lia.
      + intros k Hk. rewrite zget_zset_ne by lia. apply Heq. lia. }
  destruct HP as (Hl & Hle & _). split; [exact Hl | intros; apply Hle; lia].
Qed.

(** The position that the final loop gives index [i]. *)
Definition sorted_position (i : Z) : Z :=
  count_le key (key i) N - 1 - count_eq key (key i) (Z.to_nat i).

Lemma count_eq_self i (m : nat) :
  (Z.to_nat i < m)%nat -> 0 <= i ->
  count_eq key (key i) (Z.to_nat i) + 1 <= count_eq key (key i) m.
Proof.
  intros Hi Hi0. unfold count_eq. apply count_keys_member; [exact Hi|].
  rewrite Z2Nat.id by lia. apply Z.eqb_refl.
Qed.

Lemma sorted_position_range i :
  0 <= i < n ->
  count_lt key (key i) N <= sorted_position i < count_le key (key i) N.
Proof.
  intros Hi. unfold sorted_position.
  pose proof (count_eq_self i N ltac:(lia) ltac:(lia)).
  pose proof (count_keys_bounds key (Z.eqb (key i)) (Z.to_nat i)) as Hb.
  fold (count_eq key (key i) (Z.to_nat i)) in Hb.
  rewrite (count_le_split key (key i) N). lia.
Qed.

Lemma sorted_position_bounds i : 0 <= i < n -> 0 <= sorted_position i < n.
Proof.
  intros Hi. pose proof (sorted_position_range i Hi) as Hr.
  pose proof (count_keys_bounds key (fun x => x <? key i) N) as Hlt.
  pose proof (count_keys_bounds key (fun x => x <=? key i) N) as Hle.
  fold (count_lt key (key i) N) in Hlt. fold (count_le key (key i) N) in Hle. lia.
Qed.

Lemma sorted_position_inj i j :
  0 <= i < n -> 0 <= j < n -> sorted_position i = sorted_position j -> i = j.
Proof.
  intros Hi Hj Heq.
  pose proof (sorted_position_range i Hi) as Hri.
  pose proof (sorted_position_range j Hj) as Hrj.
  destruct (Z.lt_trichotomy (key i) (key j)) as [Hlt | [Hk | Hgt]].
  - pose proof (count_le_lt_mono key (key i) (key j) N Hlt). lia.
  - unfold sorted_position in Heq. rewrite Hk in Heq.
    destruct (Z.lt_trichotomy i j) as [Hij | [Hij | Hij]]; [|exact Hij|].
    + pose proof (count_eq_self i (Z.to_nat j) ltac:(lia) ltac:(lia)) as Hs.
      rewrite Hk in Hs. lia.
    + pose proof (count_eq_self j (Z.to_nat i) ltac:(lia) ltac:(lia)) as Hs. lia.
  - pose proof (count_le_lt_mono key (key j) (key i) N Hgt). lia.
Qed.

Hypothesis n_positive : 0 < n.
Hypothesis a_length : Z.of_nat (length a) = n.

Lemma float_at_key i :
  0 <= i < n -> float_at a i = Some (zget fzero a i).
Proof. intros Hi. apply float_at_zget. lia. Qed.

(** Within the key range every access of the first three loops is inside
    its array. *)
Lemma counting_prefix_sums_runs cum :
  nkeys + 1 <= Z.of_nat (length cum) ->
  counting_prefix_sums a n quantum max cum = Some (prefix_sums_run a n quantum max cum).
Proof.
  intros Hlcum. pose proof (nkeys_nonneg n_positive) as Hnk.
  unfold counting_prefix_sums, prefix_sums_run. fold nkeys.
  destruct (Z.ltb_spec (nkeys + 1) 0) as [?|_]; [lia|].
  set (P := fun (_ : Z) (c : list Z) => length c = length cum).
  destruct (for_loop_total P 0 (nkeys + 1)
              (fun i cum => cum ← cum; arr_set cum i 0)
              (fun i cum => zset cum i 0) cum) as [-> Hl1]; [lia | reflexivity | |].
  { intros i c Hi Hc. unfold P in *. cbn [mbind option_bind].
    rewrite arr_set_zset by lia. split; [reflexivity | now rewrite length_zset]. }
  rewrite bind_Some_head.
  destruct (for_loop_total P 0 n
              (fun i cum =>
                 cum ← cum;
                 x ← float_at a i;
                 count ← arr_at cum (f_to_Z (x ⊘ quantum));
                 arr_set cum (f_to_Z (x ⊘ quantum)) (u8 (count + 1)))
              (fun i cum =>
                 zset cum (quantized_key a quantum i)
                   (u8 (zget 0 cum (quantized_key a quantum i) + 1)))
              (for_loop 0 (nkeys + 1) (fun i cum => zset cum i 0) cum))
    as [-> Hl2]; [lia | exact Hl1 | |].
  { intros i c Hi Hc. unfold P in *. cbn [mbind option_bind].
    rewrite float_at_key by exact Hi. cbn [mbind option_bind].
    fold (quantized_key a quantum i). fold key.
    pose proof (key_range i Hi) as Hk.
    rewrite arr_at_zget by lia. cbn [mbind option_bind].
    rewrite arr_set_zset by lia. split; [reflexivity | now rewrite length_zset]. }
  rewrite bind_Some_head.
  apply (for_loop_total P); [lia | exact Hl2 |].
  intros i c Hi Hc. unfold P in *. cbn [mbind option_bind].
  rewrite (arr_at_zget c i) by lia. cbn [mbind option_bind].
  rewrite (arr_at_zget c (i - 1)) by lia. cbn [mbind option_bind].
  rewrite arr_set_zset by lia. split; [reflexivity | now rewrite length_zset].
Qed.

(** The final loop puts every index at its position and leaves in [cum[k]]
    the number of smaller keys, as a byte; every access is inside its
    array. *)
Lemma quantized_counting_sort_spec idx cum :
  n <= 256 ->
  Z.of_nat (length idx) = n ->
  nkeys + 1 <= Z.of_nat (length cum) ->
  let out := counting_sort_run a n quantum max idx cum in
  quantized_counting_sort a n quantum max idx cum = Some out /\
  length (fst out) = length idx /\
  (forall i, 0 <= i < n -> zget 0 (fst out) (sorted_position i) = i) /\
  (forall k, 0 <= k <= nkeys -> zget 0 (snd out) k = u8 (count_lt key k N)).
Proof.
  intros Hn Hlidx Hlcum out. subst out.
  unfold quantized_counting_sort, counting_sort_run.
  rewrite counting_prefix_sums_runs by exact Hlcum. rewrite bind_Some_head.
  destruct (prefix_sums_run_spec cum Hlcum) as [Hl0 Hc0].
  set (c0 := prefix_sums_run a n quantum max cum) in *.
  fold key.
  set (P := fun (m : Z) (st : list Z * list Z) =>
              length (fst st) = length idx /\ length (snd st) = length cum /\
              (forall i, 0 <= i < m -> zget 0 (fst st) (sorted_position i) = i) /\
              (forall k, 0 <= k <= nkeys ->
                 zget 0 (snd st) k =
                 u8 (count_le key k N - count_eq key k (Z.to_nat m)))).
  match goal with
  | |- for_loop 0 n ?body (Some (idx, c0)) = Some (for_loop 0 n ?run (idx, c0)) /\ _ =>
      assert (HP : for_loop 0 n body (Some (idx, c0)) = Some (for_loop 0 n run (idx, c0)) /\
                   P n (for_loop 0 n run (idx, c0)))
  end.
  { apply (for_loop_total P); [lia | |].
    - split; [reflexivity | split; [exact Hl0 | split]].
      + intros; lia.
      + intros k Hk. cbn [snd]. rewrite Hc0 by exact Hk. f_equal.
        change (Z.to_nat 0) with 0%nat. unfold count_eq. cbn [count_keys]. lia.
    - intros m [ix c] Hm (Hli & Hlc & Hpos & Hcum). cbv beta iota.
      cbn [fst snd] in *.
      pose proof (key_range m Hm) as Hkm.
      pose proof (sorted_position_bounds m Hm) as Hpm.
      assert (Hc : u8 (zget 0 c (key m) - 1) = sorted_position m).
      { rewrite Hcum by lia. rewrite u8_pred. unfold sorted_position.
        replace (count_le key (key m) N - count_eq key (key m) (Z.to_nat m) - 1)
          with (count_le key (key m) N - 1 - count_eq key (key m) (Z.to_nat m)) by lia.
        apply u8_small. unfold sorted_position in Hpm. lia. }
      split.
      { cbn [mbind option_bind]. rewrite float_at_key by exact Hm.
        cbn [mbind option_bind]. cbv zeta.
        fold (quantized_key a quantum m). fold key.
        rewrite arr_at_zget by lia. cbn [mbind option_bind].
        rewrite arr_set_zset by lia. cbn [mbind option_bind].
        rewrite Hc. rewrite arr_set_zset by lia. reflexivity. }
      rewrite Hc. unfold P. cbn [fst snd].
      split; [now rewrite length_zset | split; [now rewrite length_zset | split]].
      + intros i Hi. destruct (Z.eq_dec i m) as [->|Hne].
        * rewrite zget_zset_eq by lia. apply u8_small. lia.
        * rewrite zget_zset_ne; [apply Hpos; lia|].
          intros Heq. apply Hne. symmetry.
          apply sorted_position_inj; [lia | lia | exact Heq].
      + intros k Hk.
        replace (Z.to_nat (m + 1)) with (Datatypes.S (Z.to_nat m)) by lia.
        unfold count_eq at 1. rewrite count_keys_S, Z2Nat.id by lia.
        fold (count_eq key k (Z.to_nat m)).
        destruct (Z.eqb_spec k (key m)) as [->|Hne].
        * rewrite zget_zset_eq by lia. rewrite <- Hc, Hcum by lia.
          rewrite u8_pred. f_equal. lia.
        * rewrite zget_zset_ne by lia. rewrite Hcum by lia. f_equal. lia. }
  destruct HP as (Hrun & Hli & _ & Hpos & Hcum).
  split; [exact Hrun|].
  split; [exact Hli | split; [exact Hpos|]].
  intros k Hk. rewrite Hcum by exact Hk. f_equal.
  rewrite (count_le_split key k N). unfold N. lia.
Qed.

End CountingSortFacts.

Section CountingSortUndefined.
Context {F : Type} `{FloatOps F}.
Variables (a : list F) (n : Z) (quantum max : F).

(** A key that is no index of [cum] takes the counting loop outside the
    array. *)
Lemma counting_prefix_sums_outside cum i :
  Z.of_nat (length a) = n -> 0 <= i < n ->
  ~ 0 <= quantized_key a quantum i < Z.of_nat (length cum) ->
  counting_prefix_sums a n quantum max cum = None.
Proof.
  intros Hla Hi Hout. unfold counting_prefix_sums.
  destruct (f_to_Z (max ⊘ quantum) + 1 <? 0); [reflexivity|].
  set (Q := fun c : list Z => length c = length cum).
  match goal with
  | |- context [for_loop 0 ?hi ?body (Some cum)] =>
      assert (Hset : match for_loop 0 hi body (Some cum) with
                     | Some c => Q c | None => True end);
      [|destruct (for_loop 0 hi body (Some cum)) as [c1|]; [|reflexivity]]
  end.
  { apply (for_loop_preserves
             (fun st => match st with Some c => Q c | None => True end)); [reflexivity|].
    intros j [c|] _ Hc; [|exact I]. cbn [mbind option_bind].
    destruct (arr_set c j 0) as [c'|] eqn:Hs; [|exact I].
    unfold Q in *. rewrite (arr_set_length _ _ _ _ Hs). exact Hc. }
  rewrite bind_Some_head.
  rewrite (for_loop_fails Q 0 n _ c1 i); [reflexivity | exact Hi | exact Hset | | |].
  - intros j c c' Hc. cbn [mbind option_bind].
    destruct (float_at a j) as [x|]; [|discriminate]. cbn [mbind option_bind].
    destruct (arr_at c _) as [count|]; [|discriminate]. cbn [mbind option_bind].
    intros Hs. unfold Q in *. rewrite (arr_set_length _ _ _ _ Hs). exact Hc.
  - intros j. reflexivity.
  - intros c Hc. cbn [mbind option_bind].
    rewrite (float_at_zget a fzero i) by lia. cbn [mbind option_bind].
    fold (quantized_key a quantum i).
    rewrite arr_at_outside; [reflexivity|]. unfold Q in Hc. rewrite Hc. exact Hout.
Qed.

End CountingSortUndefined.

Lemma NoDup_index_list (m : nat) : List.NoDup (map Z.of_nat (seq 0 m)).
Proof.
  apply Finite.Injective_map_NoDup; [|apply List.seq_NoDup].
  intros x y Hxy. lia.
Qed.

Lemma In_index_list (m : nat) (z : Z) :
  List.In z (map Z.of_nat (seq 0 m)) <-> 0 <= z < Z.of_nat m.
Proof.
  rewrite in_map_iff. split.
  - intros (x & <- & Hx). apply in_seq in Hx. lia.
  - intros Hz. exists (Z.to_nat z). split; [lia | apply in_seq; lia].
Qed.

(** C9, amended: for [0 < n <= 256] values whose keys are within
    [0, nkeys], [quantized_counting_sort] stays inside its arrays; the index
    array that it writes is a permutation of [0 .. n-1] along which the keys
    do not decrease, and [cum[k]] holds the start of the run of key [k]
    modulo 256: the start itself whenever [n <= 255].  Before the last loop
    [cum[nkeys]] is [n] modulo 256.  A key that is no index of [cum] takes
    the counting loop outside the array: the behaviour is undefined. *)
Theorem quantized_counting_sort_sorts {F : Type} `{FloatOps F}
    (a : list F) (n : Z) (quantum max : F) (idx cum : list Z) :
  let nkeys := f_to_Z (max ⊘ quantum) in
  let key := quantized_key a quantum in
  let start := fun k => count_lt key k (Z.to_nat n) in
  (0 < n <= 256 ->
   Z.of_nat (length a) = n ->
   Z.of_nat (length idx) = n ->
   nkeys + 1 <= Z.of_nat (length cum) ->
   (forall i, 0 <= i < n -> 0 <= key i <= nkeys) ->
   exists idx' cum' sums,
     quantized_counting_sort a n quantum max idx cum = Some (idx', cum') /\
     counting_prefix_sums a n quantum max cum = Some sums /\
     Permutation idx' (map Z.of_nat (seq 0 (Z.to_nat n))) /\
     (forall p q, 0 <= p <= q -> q < n ->
        key (zget 0 idx' p) <= key (zget 0 idx' q)) /\
     (forall k, 0 <= k <= nkeys -> zget 0 cum' k = start k mod 256) /\
     zget 0 sums nkeys = n mod 256 /\
     (n <= 255 ->
        (forall k, 0 <= k <= nkeys -> zget 0 cum' k = start k) /\
        zget 0 sums nkeys = n)) /\
  (Z.of_nat (length a) = n ->
   forall i, 0 <= i < n -> ~ 0 <= key i < Z.of_nat (length cum) ->
     quantized_counting_sort a n quantum max idx cum = None).
Proof.
  intros nkeys key start. split.
  2: { intros Hla i Hi Hout. unfold quantized_counting_sort.
       rewrite (counting_prefix_sums_outside a n quantum max cum i Hla Hi Hout).
       reflexivity. }
  intros Hn Hla Hlidx Hlcum Hkeys.
  assert (Hn0 : 0 <= n) by lia. assert (Hnp : 0 < n) by lia.
  destruct (quantized_counting_sort_spec a n quantum max Hn0 Hkeys Hnp Hla idx cum)
    as (Hrun & Hlen & Hpos & Hcum); [lia | exact Hlidx | exact Hlcum |].
  pose proof (counting_prefix_sums_runs a n quantum max Hn0 Hkeys Hnp Hla cum Hlcum)
    as Hsums.
  set (out := counting_sort_run a n quantum max idx cum) in *.
  exists (fst out), (snd out), (prefix_sums_run a n quantum max cum).
  split; [rewrite Hrun; destruct out; reflexivity|]. split; [exact Hsums|].
  fold key in Hpos, Hcum. fold nkeys in Hcum.
  set (pos := sorted_position a n quantum) in *.
  assert (Hposb : forall i, 0 <= i < n -> 0 <= pos i < n)
    by (intros i Hi; apply sorted_position_bounds; assumption).
  (* the indices all occur in the output *)
  assert (Hperm : Permutation (map Z.of_nat (seq 0 (Z.to_nat n))) (fst out)).
  { apply NoDup_Permutation_bis; [apply NoDup_index_list | |].
    - rewrite length_map, length_seq. lia.
    - intros z Hz. apply In_index_list in Hz.
      rewrite <- (Hpos z) by lia. unfold zget.
      destruct (Z.ltb_spec (pos z) 0) as [Hneg|_]; [specialize (Hposb z); lia|].
      apply nth_In. specialize (Hposb z). lia. }
  assert (Hnodup : List.NoDup (fst out))
    by (eapply Permutation_NoDup; [exact Hperm | apply NoDup_index_list]).
  (* every position is the position of the index it holds *)
  assert (Hinv : forall p, 0 <= p < n ->
            0 <= zget 0 (fst out) p < n /\ pos (zget 0 (fst out) p) = p).
  { intros p Hp.
    assert (Hin : List.In (zget 0 (fst out) p) (fst out)).
    { unfold zget. destruct (Z.ltb_spec p 0); [lia|]. apply nth_In. lia. }
    apply (Permutation_in _ (Permutation_sym Hperm)), In_index_list in Hin.
    split; [lia|].
    pose proof (proj1 (NoDup_nth (fst out) 0) Hnodup
                  (Z.to_nat (pos (zget 0 (fst out) p))) (Z.to_nat p)) as Hinj.
    specialize (Hposb (zget 0 (fst out) p) ltac:(lia)).
    assert (Heq : Z.to_nat (pos (zget 0 (fst out) p)) = Z.to_nat p); [|lia].
    apply Hinj; [lia | lia |].
    pose proof (Hpos (zget 0 (fst out) p) ltac:(lia)) as Hpp.
    unfold zget in Hpp at 1.
    destruct (Z.ltb_spec (pos (zget 0 (fst out) p)) 0); [lia|].
    rewrite Hpp. unfold zget. destruct (Z.ltb_spec p 0); [lia | reflexivity]. }
  destruct (prefix_sums_run_spec a n quantum max Hn0 Hkeys cum Hlcum)
    as [_ Hprefix].
  fold nkeys key in Hprefix.
  assert (Hnk : 0 <= nkeys) by (specialize (Hkeys 0 ltac:(lia)); lia).
  assert (Htotal : zget 0 (prefix_sums_run a n quantum max cum) nkeys = n mod 256).
  { rewrite Hprefix by lia. unfold u8. f_equal.
    apply (count_le_all a n quantum max); solve [exact Hn0 | exact Hkeys | lia]. }
  split; [apply Permutation_sym, Hperm|]. split; [|split; [|split]].
  - intros p q Hpq Hqn.
    destruct (Hinv p ltac:(lia)) as [Hip Hpp]. destruct (Hinv q ltac:(lia)) as [Hiq Hqq].
    destruct (Z_le_gt_dec (key (zget 0 (fst out) p)) (key (zget 0 (fst out) q)))
      as [Hle|Hgt]; [exact Hle|].
    pose proof (sorted_position_range a n quantum max _ Hip) as Hrp.
    pose proof (sorted_position_range a n quantum max _ Hiq) as Hrq.
    pose proof (count_le_lt_mono key (key (zget 0 (fst out) q))
                  (key (zget 0 (fst out) p)) (Z.to_nat n) ltac:(lia)) as Hmono.
    fold key pos in Hrp, Hrq. lia.
  - intros k Hk. rewrite Hcum by exact Hk. reflexivity.
  - exact Htotal.
  - intros Hsmall. split.
    + intros k Hk. rewrite Hcum by exact Hk. apply u8_small.
      pose proof (count_keys_bounds key (fun x => x <? k) (Z.to_nat n)) as Hb.
      unfold start, count_lt. lia.
    + rewrite Htotal. apply Z.mod_small. lia.
Qed.

(** Four angles with quantum 1 below 3: the keys are 2, 0, 1, 0. *)
Lemma quantized_counting_sort_sorts_witness :
  exists cum',
    quantized_counting_sort Samples.four_angles 4 (B32.of_Z 1) (B32.of_Z 3)
      [0; 0; 0; 0] [7; 7; 7; 7] = Some ([3; 1; 2; 0], cum') /\
    zget 0 cum' 0 = 0 /\ zget 0 cum' 1 = 2 /\ zget 0 cum' 2 = 3 /\ zget 0 cum' 3 = 4.
Proof.
  destruct (quantized_counting_sort_sorts Samples.four_angles 4 (B32.of_Z 1)
              (B32.of_Z 3) [0; 0; 0; 0] [7; 7; 7; 7]) as [Hsort _].
  cbv zeta in Hsort.
  assert (Hkeys : forall i, 0 <= i < 4 ->
            0 <= quantized_key Samples.four_angles (B32.of_Z 1) i
              <= f_to_Z (B32.of_Z 3 ⊘ B32.of_Z 1)).
  { intros i Hi. assert (Hc : i = 0 \/ i = 1 \/ i = 2 \/ i = 3) by lia.
    destruct Hc as [-> | [-> | [-> | ->]]]; vm_compute; split; discriminate. }
  destruct (Hsort ltac:(lia) eq_refl eq_refl ltac:(vm_compute; discriminate) Hkeys)
    as (idx' & cum' & sums & Hrun & _ & _ & _ & _ & _ & Hsmall).
  destruct (Hsmall ltac:(lia)) as [Hstart _].
  assert (Hidx : idx' = [3; 1; 2; 0]).
  { assert (Hval : quantized_counting_sort Samples.four_angles 4 (B32.of_Z 1)
                     (B32.of_Z 3) [0; 0; 0; 0] [7; 7; 7; 7]
                   = Some ([3; 1; 2; 0], [0; 2; 3; 4])) by (vm_compute; reflexivity).
    rewrite Hval in Hrun. now injection Hrun as <- _. }
  exists cum'. rewrite <- Hidx. split; [exact Hrun|].
  rewrite (Hstart 0), (Hstart 1), (Hstart 2), (Hstart 3)
    by (vm_compute; split; discriminate).
  repeat split; vm_compute; reflexivity.
Defined.

(** C9 as stated, with [n] up to 256 and at most 255 occurrences of a key;
    [cum] has room for the keys [0 .. nkeys]. *)
Definition counting_sort_claim_as_stated : Prop :=
  forall (a : list B32.binary32) (n : Z) (quantum max : B32.binary32)
         (idx cum : list Z),
    let nkeys := f_to_Z (max ⊘ quantum) in
    let key := quantized_key a quantum in
    0 < n <= 256 ->
    Z.of_nat (length a) = n ->
    Z.of_nat (length idx) = n ->
    nkeys + 1 <= Z.of_nat (length cum) ->
    forallb (fun x => (fzero <=. x) && (x <. max)) a = true ->
    (forall k, count_eq key k (Z.to_nat n) <= 255) ->
    exists idx' cum' sums,
      quantized_counting_sort a n quantum max idx cum = Some (idx', cum') /\
      counting_prefix_sums a n quantum max cum = Some sums /\
      Permutation idx' (map Z.of_nat (seq 0 (Z.to_nat n))) /\
      (forall p q, 0 <= p <= q -> q < n ->
         key (zget 0 idx' p) <= key (zget 0 idx' q)) /\
      (forall k, 0 <= k <= nkeys ->
         zget 0 cum' k = count_lt key k (Z.to_nat n)) /\
      zget 0 sums nkeys = n.

(** The part of it that says that the call returns. *)
Definition counting_sort_defined_claim : Prop :=
  forall (a : list B32.binary32) (n : Z) (quantum max : B32.binary32)
         (idx cum : list Z),
    let nkeys := f_to_Z (max ⊘ quantum) in
    0 < n <= 256 ->
    Z.of_nat (length a) = n ->
    Z.of_nat (length idx) = n ->
    nkeys + 1 <= Z.of_nat (length cum) ->
    forallb (fun x => (fzero <=. x) && (x <. max)) a = true ->
    (forall k, count_eq (quantized_key a quantum) k (Z.to_nat n) <= 255) ->
    exists out, quantized_counting_sort a n quantum max idx cum = Some out.

(** The value 0.5 with the quantum [2^-40] below the bound 1. *)
Definition tiny_quantum : B32.binary32 := B32.pow (B32.of_Z 2) (B32.of_Z (-40)).

Lemma tiny_quantum_keys :
  f_to_Z (B32.of_Z 1 ⊘ tiny_quantum) = - 2 ^ 31 /\
  quantized_key [flit 1 2] tiny_quantum 0 = - 2 ^ 31 /\
  quantized_counting_sort [flit 1 2] 1 tiny_quantum (B32.of_Z 1) [0] [0; 0] = None.
Proof. repeat split; vm_compute; reflexivity. Qed.

(** C9, counterexample.  With 256 values, 255 of key 0 and one of key 1,
    the total 256 does not fit the byte [cum[nkeys]], which holds 0 before
    the last loop.  And values in [0, max) need not have keys in
    [0, nkeys]: for the value 0.5 and the quantum [2^-40] below the bound 1
    the quotients [2^39] and [2^40] are beyond the range of [int], and the
    counting loop is left outside [cum]. *)
Lemma counting_sort_claim_counterexample :
  ~ counting_sort_claim_as_stated /\ ~ counting_sort_defined_claim.
Proof.
  split.
  - intros Hclaim.
    specialize (Hclaim Samples.many_angles 256 (B32.of_Z 1) (B32.of_Z 3)
                  (repeat 0 256) (repeat 0 4)).
    cbv zeta in Hclaim.
    assert (Hcount : forall k,
              count_eq (quantized_key Samples.many_angles (B32.of_Z 1)) k
                (Z.to_nat 256) <= 255).
    { intros k.
      assert (Hc : k = 0 \/ k = 1 \/ (k <> 0 /\ k <> 1)) by lia.
      destruct Hc as [-> | [-> | [H0 H1]]]; [vm_compute; discriminate ..|].
      unfold count_eq. rewrite count_keys_none; [lia|].
      intros i Hi. apply Z.eqb_neq. intros ->.
      assert (Hi' : (i < 255 \/ i = 255)%nat) by lia.
      destruct Hi' as [Hlt | ->].
      - apply H0. unfold quantized_key, Samples.many_angles.
        rewrite zget_nat, app_nth1 by (rewrite repeat_length; lia).
        rewrite nth_repeat_lt by lia. reflexivity.
      - apply H1. reflexivity. }
    destruct (Hclaim ltac:(lia) eq_refl eq_refl ltac:(vm_compute; discriminate)
                eq_refl Hcount) as (idx' & cum' & sums & _ & Hsums & _ & _ & _ & Htotal).
    assert (Hval : counting_prefix_sums Samples.many_angles 256 (B32.of_Z 1)
                     (B32.of_Z 3) (repeat 0 4) = Some [255; 0; 0; 0])
      by (vm_compute; reflexivity).
    rewrite Hval in Hsums. injection Hsums as <-.
    vm_compute in Htotal. discriminate Htotal.
  - intros Hclaim.
    destruct (Hclaim [flit 1 2] 1 tiny_quantum (B32.of_Z 1) [0] [0; 0]) as [out Hout].
    + lia.
    + reflexivity.
    + reflexivity.
    + destruct tiny_quantum_keys as [-> _]. cbn. lia.
    + reflexivity.
    + intros k. pose proof (count_keys_bounds (quantized_key [flit 1 2] tiny_quantum)
                              (Z.eqb k) (Z.to_nat 1)) as Hb.
      unfold count_eq. lia.
    + destruct tiny_quantum_keys as (_ & _ & Hnone). rewrite Hnone in Hout.
      discriminate Hout.
Qed.

(** ** Subpixel refinement *)

Section SubpixelFacts.
Context {F : Type} `{FloatOps F}.

Variable fRound : F -> Z.
Variable fastpow : Z -> Z -> Z.
Variable solve : F * F * F * F -> F * F -> F * F -> F * F.
Variable evolution : list (Evolution F).

(** Every candidate with its integer position and the offset that [solve]
    leaves for it; [dst] is handed from one candidate to the next, as the
    variable of the source is. *)
Fixpoint solved_offsets (dst : F * F) (kpts : list (KeyPoint F))
    : list (KeyPoint F * Z * Z * (F * F)) :=
  match kpts with
  | [] => []
  | kp :: rest =>
      let '(x, y, d) := subpixel_offset fRound fastpow solve evolution kp dst in
      (kp, x, y, d) :: solved_offsets d rest
  end.

Definition accepted_entry (c : KeyPoint F * Z * Z * (F * F)) : bool :=
  offset_accepted (snd c).

Definition refined_entry (c : KeyPoint F * Z * Z * (F * F)) : KeyPoint F :=
  let '(kp, x, y, d) := c in refined fastpow evolution kp x y d.

Definition refine_all (dst : F * F) (kpts : list (KeyPoint F)) : list (KeyPoint F) :=
  map refined_entry (List.filter accepted_entry (solved_offsets dst kpts)).

Lemma size_t_wrap_small z : 0 <= z < 2 ^ 64 -> size_t_wrap z = z.
Proof. apply Z.mod_small. Qed.

(** [i--] followed by the [i++] of the loop header gives [i] back, also at
    [i = 0], where the decrement wraps around. *)
Lemma size_t_dec_inc i :
  0 <= i < 2 ^ 64 -> size_t_wrap (size_t_wrap (i - 1) + 1) = i.
Proof.
  intros Hi. unfold size_t_wrap.
  rewrite Zplus_mod_idemp_l. replace (i - 1 + 1) with i by lia.
  now apply Z.mod_small.
Qed.

Lemma zget_middle (d : KeyPoint F) (done rest : list (KeyPoint F)) kp :
  zget d (done ++ kp :: rest) (Z.of_nat (length done)) = kp.
Proof. rewrite zget_nat. apply nth_middle. Qed.

Lemma zset_middle (done rest : list (KeyPoint F)) kp kp' :
  zset (done ++ kp :: rest) (Z.of_nat (length done)) kp' = (done ++ [kp']) ++ rest.
Proof.
  unfold zset. destruct (Z.ltb_spec (Z.of_nat (length done)) 0); [lia|].
  rewrite Nat2Z.id.
  replace (length done) with (length done + 0)%nat at 1 by lia.
  rewrite insert_app_r. cbn. now rewrite <- app_assoc.
Qed.

(** The loop with the candidates [done] already treated and [todo] left:
    enough fuel treats them all. *)
Lemma Do_Subpixel_Refinement_loop_spec fuel done todo dst :
  (length todo <= fuel)%nat ->
  Z.of_nat (length done + length todo) < 2 ^ 64 ->
  Do_Subpixel_Refinement_loop fRound fastpow solve fuel evolution (done ++ todo)
    (Z.of_nat (length done)) dst
  = done ++ refine_all dst todo.
Proof.
  revert done todo dst.
  induction fuel as [|fuel IH]; intros done todo dst Hfuel Hsize.
  - destruct todo; [reflexivity | cbn in Hfuel; lia].
  - destruct todo as [|kp rest].
    + cbn [Do_Subpixel_Refinement_loop]. unfold refine_all.
      cbn [solved_offsets List.filter map].
      rewrite !app_nil_r, Z.ltb_irrefl. reflexivity.
    + cbn [Do_Subpixel_Refinement_loop].
      destruct (Z.ltb_spec (Z.of_nat (length done))
                  (Z.of_nat (length (done ++ kp :: rest)))) as [_|Hge];
        [|rewrite length_app in Hge; cbn in Hge; lia].
      rewrite zget_middle. unfold refine_all. cbn [solved_offsets].
      destruct (subpixel_offset fRound fastpow solve evolution kp dst)
        as [[x y] d] eqn:Hoff.
      cbn [List.filter]. unfold accepted_entry at 1. cbn [snd].
      cbn [length] in Hfuel, Hsize.
      destruct (offset_accepted d).
      * rewrite zset_middle.
        rewrite size_t_wrap_small by lia.
        replace (Z.of_nat (length done) + 1)
          with (Z.of_nat (length (done ++ [refined fastpow evolution kp x y d])))
          by (rewrite length_app; cbn; lia).
        rewrite IH by (try rewrite length_app; cbn; lia).
        unfold refine_all. cbn [map refined_entry]. now rewrite <- app_assoc.
      * rewrite Nat2Z.id, delete_middle.
        rewrite size_t_dec_inc by lia.
        rewrite IH by lia. reflexivity.
Qed.

End SubpixelFacts.

(** C4: [Do_Subpixel_Refinement] keeps exactly the candidates whose solved
    offset has both components of magnitude at most 1, each rewritten by the
    accepting branch, in their order; a rejected candidate is dropped and
    the candidates after it are still treated. *)
Theorem Do_Subpixel_Refinement_filter {F : Type} `{FloatOps F}
    (fRound : F -> Z) (fastpow : Z -> Z -> Z)
    (solve : F * F * F * F -> F * F -> F * F -> F * F)
    (evolution : list (Evolution F)) (kpts : list (KeyPoint F)) :
  Z.of_nat (length kpts) < 2 ^ 64 ->
  let offsets := solved_offsets fRound fastpow solve evolution (fzero, fzero) kpts in
  map fst (map fst (map fst offsets)) = kpts /\
  Do_Subpixel_Refinement fRound fastpow solve evolution kpts =
    map (refined_entry fastpow evolution)
      (List.filter
         (fun c => (fabs (fst (snd c)) <=. fone) && (fabs (snd (snd c)) <=. fone))
         offsets).
Proof.
  intros Hsize offsets. split.
  - subst offsets. generalize (fzero, fzero) as dst.
    induction kpts as [|kp rest IH]; intros dst; [reflexivity|].
    cbn [solved_offsets].
    destruct (subpixel_offset fRound fastpow solve evolution kp dst) as [[x y] d].
    cbn [map fst]. f_equal. apply IH. cbn in Hsize. lia.
  - unfold Do_Subpixel_Refinement.
    exact (Do_Subpixel_Refinement_loop_spec fRound fastpow solve evolution
             (length kpts) [] kpts (fzero, fzero) (le_n _) Hsize).
Qed.

(** Of the three sample candidates the middle one has a Newton step of
    about 50 pixels: it is dropped and the third one is still refined. *)
Lemma Do_Subpixel_Refinement_filter_witness :
  map pt_x
    (Do_Subpixel_Refinement Samples.sample_fRound Samples.sample_fastpow
       Samples.sample_solve [Samples.response_level] Samples.three_candidates)
  = [B32.of_Z 1; B32.of_Z 5].
Proof.
  destruct (Do_Subpixel_Refinement_filter Samples.sample_fRound Samples.sample_fastpow
              Samples.sample_solve [Samples.response_level] Samples.three_candidates)
    as [_ Heq].
  - cbn. lia.
  - rewrite Heq. vm_compute. reflexivity.
Defined.

(** ** Duplicate resolution in extrema detection *)

Section ExtremaFacts.
Context {F : Type} `{FloatOps F}.
Implicit Types (point pt k : KeyPoint F) (aux rest : list (KeyPoint F)).

(** [k] is a duplicate of the new candidate [point] for the first pass: it
    is of the level of [point] or of the level below and lies within the
    radius of [point]. *)
Definition lower_scale_duplicate point (ratio : F) k : Prop :=
  (class_id k = class_id point - 1 \/ class_id k = class_id point) /\
  overlaps_scaled point ratio k = true.

Lemma lower_scale_duplicate_test point ratio k :
  ((class_id point - 1 =? class_id k) || (class_id point =? class_id k))
  && overlaps_scaled point ratio k = true <->
  lower_scale_duplicate point ratio k.
Proof.
  unfold lower_scale_duplicate.
  rewrite andb_true_iff, orb_true_iff, !Z.eqb_eq. intuition lia.
Qed.

(** The loop of the first pass is decided by the first duplicate in
    [kpts_aux]. *)
Lemma compare_lower_scale_none point ratio aux ik id0 :
  (forall k, List.In k aux -> ~ lower_scale_duplicate point ratio k) ->
  compare_lower_scale point ratio aux ik id0 = (true, false, id0).
Proof.
  revert ik. induction aux as [|k rest IH]; intros ik Hnone; [reflexivity|].
  cbn [compare_lower_scale].
  assert (Hk : ~ lower_scale_duplicate point ratio k) by (apply Hnone; now left).
  rewrite <- lower_scale_duplicate_test in Hk.
  destruct ((class_id point - 1 =? class_id k) || (class_id point =? class_id k));
    [destruct (overlaps_scaled point ratio k); [exfalso; now apply Hk|]|];
    apply IH; intros k' Hin; apply Hnone; now right.
Qed.

Lemma compare_lower_scale_first point ratio aux ik id0 (j : nat) k :
  aux !! j = Some k ->
  lower_scale_duplicate point ratio k ->
  (forall j' k', (j' < j)%nat -> aux !! j' = Some k' ->
                 ~ lower_scale_duplicate point ratio k') ->
  compare_lower_scale point ratio aux ik id0 =
  if response point >. response k
  then (true, true, ik + Z.of_nat j)
  else (false, false, id0).
Proof.
  revert ik j. induction aux as [|k0 rest IH]; intros ik j Hj Hdup Hfirst;
    [discriminate|].
  cbn [compare_lower_scale]. destruct j as [|j].
  - cbn in Hj. injection Hj as ->.
    apply lower_scale_duplicate_test, andb_true_iff in Hdup as [-> ->].
    rewrite Z.add_0_r. reflexivity.
  - assert (Hk0 : ~ lower_scale_duplicate point ratio k0)
      by (apply (Hfirst 0%nat); [lia | reflexivity]).
    rewrite <- lower_scale_duplicate_test in Hk0.
    assert (Hrest : compare_lower_scale point ratio rest (ik + 1) id0 =
                    if response point >. response k
                    then (true, true, ik + Z.of_nat (Datatypes.S j))
                    else (false, false, id0)).
    { rewrite (IH (ik + 1) j Hj Hdup).
      - replace (ik + 1 + Z.of_nat j) with (ik + Z.of_nat (Datatypes.S j)) by lia.
        reflexivity.
      - intros j' k' Hlt Hj'. apply (Hfirst (Datatypes.S j')); [lia | exact Hj']. }
    destruct ((class_id point - 1 =? class_id k0) || (class_id point =? class_id k0));
      [destruct (overlaps_scaled point ratio k0); [exfalso; now apply Hk0|]|];
      exact Hrest.
Qed.

(** [k] makes [pt] a repeated point for the second pass: it is one level
    up, within the radius of [pt], and has the larger response. *)
Lemma repeated_upper_scale_level pt k :
  repeated_upper_scale pt k = true -> class_id k = class_id pt + 1.
Proof.
  unfold repeated_upper_scale. rewrite !andb_true_iff, Z.eqb_eq. intuition lia.
Qed.

(** The second pass keeps entry [i] exactly when no later entry makes it a
    repeated point, and keeps the order. *)
Lemma filter_upper_scale_In aux pt :
  List.In pt (filter_upper_scale aux) <->
  exists i : nat, aux !! i = Some pt /\
    forall (j : nat) k, (i < j)%nat -> aux !! j = Some k ->
      repeated_upper_scale pt k = false.
Proof.
  induction aux as [|p rest IH]; cbn [filter_upper_scale].
  - split; [intros [] | intros (i & Hi & _); discriminate].
  - assert (Hhead : existsb (repeated_upper_scale p) rest = false <->
              forall (j : nat) k, (0 < j)%nat -> (p :: rest) !! j = Some k ->
                repeated_upper_scale p k = false).
    { split.
      - intros Hex j k Hj Hk. destruct j as [|j]; [lia|]. cbn in Hk.
        destruct (repeated_upper_scale p k) eqn:Hrep; [|reflexivity].
        assert (Htrue : existsb (repeated_upper_scale p) rest = true).
        { apply existsb_exists. exists k. split; [|exact Hrep].
          apply list_elem_of_In, list_elem_of_lookup. eauto. }
        congruence.
      - intros Hall. destruct (existsb (repeated_upper_scale p) rest) eqn:Hex;
          [|reflexivity].
        apply existsb_exists in Hex as (k & Hin & Hrep).
        apply list_elem_of_In, list_elem_of_lookup in Hin as [j Hj].
        rewrite (Hall (Datatypes.S j) k) in Hrep; [discriminate Hrep | lia | exact Hj]. }
    assert (Htail : (exists i : nat, rest !! i = Some pt /\
                       forall (j : nat) k, (i < j)%nat -> rest !! j = Some k ->
                         repeated_upper_scale pt k = false) <->
                    (exists i : nat, (0 < i)%nat /\ (p :: rest) !! i = Some pt /\
                       forall (j : nat) k, (i < j)%nat -> (p :: rest) !! j = Some k ->
                         repeated_upper_scale pt k = false)).
    { split.
      - intros (i & Hi & Hlater). exists (Datatypes.S i).
        split; [lia | split; [exact Hi|]].
        intros j k Hj Hk. destruct j as [|j]; [lia|].
        apply (Hlater j); [lia | exact Hk].
      - intros (i & Hpos & Hi & Hlater). destruct i as [|i]; [lia|].
        exists i. split; [exact Hi|].
        intros j k Hj Hk. apply (Hlater (Datatypes.S j)); [lia | exact Hk]. }
    destruct (existsb (repeated_upper_scale p) rest) eqn:Hex.
    + rewrite IH, Htail. split.
      * intros (i & _ & Hi & Hl). eauto.
      * intros (i & Hi & Hl). destruct i as [|i].
        -- cbn in Hi. injection Hi as ->.
           destruct Hhead as [_ Hh]. discriminate (Hh Hl).
        -- exists (Datatypes.S i). split; [lia | auto].
    + cbn [List.In]. rewrite IH, Htail. split.
      * intros [-> | (i & _ & Hi & Hl)]; [|eauto].
        exists 0%nat. split; [reflexivity | now apply Hhead].
      * intros (i & Hi & Hl). destruct i as [|i].
        -- left. cbn in Hi. now injection Hi.
        -- right. exists (Datatypes.S i). split; [lia | auto].
Qed.

Lemma filter_upper_scale_sublist aux : sublist (filter_upper_scale aux) aux.
Proof.
  induction aux as [|p rest IH]; cbn [filter_upper_scale]; [constructor|].
  destruct (existsb (repeated_upper_scale p) rest); now constructor.
Qed.

End ExtremaFacts.

(** [k] makes [pt] a repeated point in the second pass. *)
Definition upper_scale_duplicate {F : Type} `{FloatOps F} (pt k : KeyPoint F) : Prop :=
  class_id k = class_id pt + 1 /\
  (let distx := pt_x pt ⊖ pt_x k in
   let disty := pt_y pt ⊖ pt_y k in
   distx ⊗ distx ⊕ disty ⊗ disty <=. size pt ⊗ size pt) = true /\
  (response pt <. response k) = true.

Lemma repeated_upper_scale_spec {F : Type} `{FloatOps F} (pt k : KeyPoint F) :
  repeated_upper_scale pt k = true <-> upper_scale_duplicate pt k.
Proof.
  unfold repeated_upper_scale, upper_scale_duplicate.
  rewrite !andb_true_iff, Z.eqb_eq. cbv zeta. intuition lia.
Qed.

Lemma repeated_upper_scale_false {F : Type} `{FloatOps F} (pt k : KeyPoint F) :
  repeated_upper_scale pt k = false <-> ~ upper_scale_duplicate pt k.
Proof.
  rewrite <- repeated_upper_scale_spec.
  destruct (repeated_upper_scale pt k); intuition congruence.
Qed.

Section FirstPass.
Context {F : Type} `{FloatOps F}.
Variable fRound : F -> Z.
Variable fastpow : Z -> Z -> Z.
Variable options_ : AKAZEOptions F.
Variable evolution : list (Evolution F).

(** The test "Filter the points with the detector threshold" on pixel
    [(ix, jx)] of a response map. *)
Definition passes_detector (Ldet : Mat F) (ix jx : Z) : bool :=
  let prev := fun j => Mat_at Ldet (ix - 1) j in
  let curr := fun j => Mat_at Ldet ix j in
  let next := fun j => Mat_at Ldet (ix + 1) j in
  let value := Mat_at Ldet ix jx in
  (value >. dthreshold options_) &&& (value >=. min_dthreshold options_) &&&
  (value >. curr (jx - 1)) &&& (value >. curr (jx + 1)) &&&
  (value >. prev (jx - 1)) &&& (value >. prev jx) &&& (value >. prev (jx + 1)) &&&
  (value >. next (jx - 1)) &&& (value >. next jx) &&& (value >. next (jx + 1)).

(** The candidate that the first pass makes of pixel [(ix, jx)] of level
    [i], in the coordinates of the level, and the factor to those of the
    image. *)
Definition candidate_point (i ix jx : Z) : KeyPoint F :=
  let e := ev_at evolution i in
  mkKeyPoint (f_of_Z jx) (f_of_Z ix) (esigma e ⊗ derivative_factor options_)
    (angle KeyPoint_default) (fabs (Mat_at (Mdet e) ix jx)) (ev_octave e) i.

Definition candidate_ratio (point : KeyPoint F) : F := f_of_Z (fastpow 2 (octave point)).

(** "Check out of bounds": the window of the descriptor around the
    candidate leaves the response map [Ldet]. *)
Definition out_of_bounds (Ldet : Mat F) (point : KeyPoint F) : bool :=
  let sigma_size_ := fRound (size point ⊘ candidate_ratio point) in
  let smax := smax_of options_ in
  let left_x := fRound (pt_x point ⊖ smax ⊗ f_of_Z sigma_size_) - 1 in
  let right_x := fRound (pt_x point ⊕ smax ⊗ f_of_Z sigma_size_) + 1 in
  let up_y := fRound (pt_y point ⊖ smax ⊗ f_of_Z sigma_size_) - 1 in
  let down_y := fRound (pt_y point ⊕ smax ⊗ f_of_Z sigma_size_) + 1 in
  (left_x <? 0) || (cols Ldet <=? right_x) || (up_y <? 0) || (rows Ldet <=? down_y).

(** The candidate as it is stored, in the coordinates of the image. *)
Definition stored_point (point : KeyPoint F) : KeyPoint F :=
  let ratio := candidate_ratio point in
  mkKeyPoint
    (pt_x point ⊗ ratio ⊕ flit 1 2 ⊗ (ratio ⊖ fone))
    (pt_y point ⊗ ratio ⊕ flit 1 2 ⊗ (ratio ⊖ fone))
    (size point) (angle point) (response point) (octave point) (class_id point).

(** The body of the pixel loop, read with these names. *)
Lemma extremum_at_unfold i ix jx aux id0 :
  extremum_at fRound fastpow options_ evolution i ix jx (aux, id0) =
  let Ldet := Mdet (ev_at evolution i) in
  let point := candidate_point i ix jx in
  if passes_detector Ldet ix jx then
    let '(is_extremum, is_repeated, id_repeated) :=
      compare_lower_scale point (candidate_ratio point) aux 0 id0 in
    if is_extremum then
      if out_of_bounds Ldet point then (aux, id_repeated)
      else if is_repeated
           then (zset aux id_repeated (stored_point point), id_repeated)
           else (aux ++ [stored_point point], id_repeated)
    else (aux, id_repeated)
  else (aux, id0).
Proof. reflexivity. Qed.

(** A pixel that fails the detector test leaves the vector as it is. *)
Lemma extremum_at_rejected i ix jx aux id0 :
  passes_detector (Mdet (ev_at evolution i)) ix jx = false ->
  fst (extremum_at fRound fastpow options_ evolution i ix jx (aux, id0)) = aux.
Proof. intros Hno. rewrite extremum_at_unfold. cbv zeta. rewrite Hno. reflexivity. Qed.

(** A candidate without a duplicate among the accepted keypoints is
    appended, unless its window leaves the map. *)
Lemma extremum_at_new i ix jx aux id0 :
  let Ldet := Mdet (ev_at evolution i) in
  let point := candidate_point i ix jx in
  passes_detector Ldet ix jx = true ->
  (forall k, List.In k aux -> ~ lower_scale_duplicate point (candidate_ratio point) k) ->
  fst (extremum_at fRound fastpow options_ evolution i ix jx (aux, id0)) =
  if out_of_bounds Ldet point then aux else aux ++ [stored_point point].
Proof.
  intros Ldet point Hyes Hnone. rewrite extremum_at_unfold. cbv zeta.
  fold Ldet point. rewrite Hyes.
  rewrite (compare_lower_scale_none point (candidate_ratio point) aux 0 id0 Hnone).
  destruct (out_of_bounds Ldet point); reflexivity.
Qed.

(** A candidate with a duplicate is compared with the first one: it takes
    its place when its response is strictly larger and its window stays
    within the map, and is dropped otherwise. *)
Lemma extremum_at_duplicate i ix jx aux id0 (j : nat) k :
  let Ldet := Mdet (ev_at evolution i) in
  let point := candidate_point i ix jx in
  passes_detector Ldet ix jx = true ->
  aux !! j = Some k ->
  lower_scale_duplicate point (candidate_ratio point) k ->
  (forall j' k', (j' < j)%nat -> aux !! j' = Some k' ->
                 ~ lower_scale_duplicate point (candidate_ratio point) k') ->
  fst (extremum_at fRound fastpow options_ evolution i ix jx (aux, id0)) =
  if (response point >. response k) && negb (out_of_bounds Ldet point)
  then <[j := stored_point point]> aux
  else aux.
Proof.
  intros Ldet point Hyes Hj Hdup Hfirst. rewrite extremum_at_unfold. cbv zeta.
  fold Ldet point. rewrite Hyes.
  rewrite (compare_lower_scale_first point (candidate_ratio point) aux 0 id0 j k
             Hj Hdup Hfirst).
  destruct (response point >. response k); [|reflexivity].
  destruct (out_of_bounds Ldet point); [reflexivity|].
  cbn [andb negb fst]. unfold zset.
  destruct (Z.ltb_spec (0 + Z.of_nat j) 0); [lia|].
  replace (Z.to_nat (0 + Z.of_nat j)) with j by lia. reflexivity.
Qed.

(** The pixels in the order of the first pass: by level, by row, by column,
    the border left out. *)
Definition scan_order : list (Z * Z * Z) :=
  i ← seqZ 0 (Z.of_nat (length evolution));
  ix ← seqZ 1 (rows (Mdet (ev_at evolution i)) - 1 - 1);
  (fun jx => (i, ix, jx)) <$> seqZ 1 (cols (Mdet (ev_at evolution i)) - 1 - 1).

Lemma accumulate_extrema_scan :
  accumulate_extrema fRound fastpow options_ evolution =
  fold_left
    (fun st p => extremum_at fRound fastpow options_ evolution p.1.1 p.1.2 p.2 st)
    scan_order ([], 0).
Proof.
  unfold accumulate_extrema, scan_order.
  rewrite (for_loop_fold_bind 0 (Z.of_nat (length evolution)) _
             (fun st p => extremum_at fRound fastpow options_ evolution p.1.1 p.1.2 p.2 st)
             (fun i => ix ← seqZ 1 (rows (Mdet (ev_at evolution i)) - 1 - 1);
                       (fun jx => (i, ix, jx))
                         <$> seqZ 1 (cols (Mdet (ev_at evolution i)) - 1 - 1)));
    [rewrite Z.sub_0_r; reflexivity|].
  intros i st Hi. cbv zeta.
  apply (for_loop_fold_bind 1 (rows (Mdet (ev_at evolution i)) - 1) _
           (fun st p => extremum_at fRound fastpow options_ evolution p.1.1 p.1.2 p.2 st)
           (fun ix => (fun jx => (i, ix, jx))
                        <$> seqZ 1 (cols (Mdet (ev_at evolution i)) - 1 - 1))).
  intros ix st' Hix.
  apply (for_loop_fold_map 1 (cols (Mdet (ev_at evolution i)) - 1) _
           (fun st p => extremum_at fRound fastpow options_ evolution p.1.1 p.1.2 p.2 st)
           (fun jx => (i, ix, jx))).
  intros jx st'' Hjx. reflexivity.
Qed.

End FirstPass.



(** C1 as stated.  A level is coarser when its index is larger (the scale
    [esigma] grows with the index).  First pass: a previously accepted
    keypoint that the new candidate replaces is of a level coarser than or
    equal to the candidate's.  Second pass: a keypoint is dropped only for a
    candidate of a strictly finer level. *)
Definition accumulation_claim : Prop :=
  forall (point : KeyPoint B32.binary32) (ratio : B32.binary32)
         (aux : list (KeyPoint B32.binary32)) (id0 j : Z) k,
    compare_lower_scale point ratio aux 0 id0 = (true, true, j) ->
    aux !! Z.to_nat j = Some k ->
    class_id point <= class_id k.

Definition second_pass_claim : Prop :=
  forall (pt : KeyPoint B32.binary32) (rest : list (KeyPoint B32.binary32)),
    existsb (repeated_upper_scale pt) rest = true ->
    exists k, List.In k rest /\ class_id k < class_id pt.


(** The first pass on the two-level sample pyramid: the peak of level 1
    has taken the place of the peak of level 0. *)
Lemma accumulate_extrema_two_peaks :
  accumulate_extrema Samples.sample_fRound Samples.sample_fastpow
    Samples.two_sublevel_options Samples.two_peaks = ([Samples.peak_B], 0).
Proof. vm_compute. reflexivity. Qed.

Lemma Find_Scale_Space_Extrema_two_peaks :
  Find_Scale_Space_Extrema Samples.sample_fRound Samples.sample_fastpow
    Samples.two_sublevel_options Samples.two_peaks = [Samples.peak_B].
Proof.
  unfold Find_Scale_Space_Extrema. rewrite accumulate_extrema_two_peaks. reflexivity.
Qed.

(** ** Rounding in binary32

    The values of the binary32 operations as real numbers: an operation
    whose exact result lies in the normal range returns a normal number
    within the relative distance [2^-24] of it. *)

Section PowersOfTwo.
#[local] Open Scope R_scope.

(** [2^e] for an integer exponent. *)
Definition pow2 (e : Z) : R := Rpower 2 (IZR e).

Lemma pow2_pos e : 0 < pow2 e.
Proof. apply exp_pos. Qed.

Lemma pow2_add a b : pow2 (a + b) = pow2 a * pow2 b.
Proof. unfold pow2. rewrite plus_IZR. apply Rpower_plus. Qed.

Lemma pow2_0 : pow2 0 = 1.
Proof. unfold pow2. apply Rpower_O. lra. Qed.

Lemma pow2_1 : pow2 1 = 2.
Proof. unfold pow2. apply Rpower_1. lra. Qed.

Lemma pow2_succ a : pow2 (a + 1) = 2 * pow2 a.
Proof. rewrite pow2_add, pow2_1. lra. Qed.

Lemma pow2_opp a : pow2 (- a) = / pow2 a.
Proof.
  pose proof (pow2_pos a) as Hpos.
  apply (Rmult_eq_reg_l (pow2 a)); [|lra].
  rewrite <- pow2_add, Z.add_opp_diag_r, pow2_0. field. lra.
Qed.

Lemma pow2_sub a b : pow2 (a - b) = pow2 a / pow2 b.
Proof. unfold Z.sub. rewrite pow2_add, pow2_opp. reflexivity. Qed.

Lemma pow2_lt a b : (a < b)%Z -> pow2 a < pow2 b.
Proof. intros Hab. apply Rpower_lt; [lra | apply IZR_lt; exact Hab]. Qed.

Lemma pow2_le a b : (a <= b)%Z -> pow2 a <= pow2 b.
Proof.
  intros Hab. destruct (Z.eq_dec a b) as [-> | Hne]; [lra|].
  left. apply pow2_lt. lia.
Qed.

Lemma pow2_lt_inv a b : pow2 a < pow2 b -> (a < b)%Z.
Proof.
  intros Hlt. destruct (Z_lt_le_dec a b) as [Hab | Hab]; [exact Hab|].
  pose proof (pow2_le b a Hab). lra.
Qed.

Lemma pow2_IZR (n : Z) : (0 <= n)%Z -> pow2 n = IZR (2 ^ n).
Proof.
  intros Hn. pattern n. apply natlike_ind; [| |exact Hn].
  - rewrite pow2_0. reflexivity.
  - intros k Hk IH. rewrite Z.pow_succ_r by exact Hk. unfold Z.succ.
    rewrite pow2_succ, IH, mult_IZR. reflexivity.
Qed.

End PowersOfTwo.

Section Digits.

Lemma digits2_pos_size p : digits2_pos p = Pos.size p.
Proof. induction p as [p IH | p IH |]; cbn; rewrite ?IH; reflexivity. Qed.

(** [Zdigits2 m] is the number of binary digits of [m]. *)
Lemma Zdigits2_bounds m :
  0 < m -> 2 ^ (Zdigits2 m - 1) <= m < 2 ^ Zdigits2 m.
Proof.
  destruct m as [|p|p]; try lia. intros _. cbn [Zdigits2].
  rewrite digits2_pos_size.
  pose proof (Pos.size_gt p) as Hgt. pose proof (Pos.size_le p) as Hle.
  assert (Hpow : Z.pos (2 ^ Pos.size p) = 2 ^ Z.pos (Pos.size p))
    by apply Pos2Z.inj_pow.
  split.
  - assert (H2 : 2 ^ Z.pos (Pos.size p) = 2 * 2 ^ (Z.pos (Pos.size p) - 1)).
    { rewrite <- Z.pow_succ_r by lia. f_equal. lia. }
    assert (Z.pos (2 ^ Pos.size p) <= Z.pos p~0) by exact Hle.
    lia.
  - assert (Z.pos p < Z.pos (2 ^ Pos.size p)) by exact Hgt. lia.
Qed.

Lemma Zdigits2_unique m d :
  2 ^ (d - 1) <= m < 2 ^ d -> 0 < d -> Zdigits2 m = d.
Proof.
  intros [Hlo Hhi] Hd.
  assert (Hm : 0 < m) by (pose proof (Z.pow_pos_nonneg 2 (d - 1)); lia).
  destruct (Zdigits2_bounds m Hm) as [Hlo' Hhi'].
  assert (Hdm : 0 < Zdigits2 m) by (destruct m; cbn; lia).
  destruct (Z.lt_trichotomy (Zdigits2 m) d) as [Hlt | [Heq | Hgt]]; [|exact Heq|].
  - assert (2 ^ Zdigits2 m <= 2 ^ (d - 1)) by (apply Z.pow_le_mono_r; lia). lia.
  - assert (2 ^ d <= 2 ^ (Zdigits2 m - 1)) by (apply Z.pow_le_mono_r; lia). lia.
Qed.

End Digits.

Section ShiftRight.
#[local] Open Scope R_scope.

(** The real [x] lies where the record says: at the integer [shr_m], in
    the first half of the unit interval after it, at the middle, or in the
    second half. *)
Definition inbetween (x : R) (mrs : shr_record) : Prop :=
  match shr_r mrs, shr_s mrs with
  | false, false => x = IZR (shr_m mrs)
  | false, true => IZR (shr_m mrs) < x < IZR (shr_m mrs) + / 2
  | true, false => x = IZR (shr_m mrs) + / 2
  | true, true => IZR (shr_m mrs) + / 2 < x < IZR (shr_m mrs) + 1
  end.

Lemma inbetween_bounds x mrs :
  inbetween x mrs -> IZR (shr_m mrs) <= x < IZR (shr_m mrs) + 1.
Proof. unfold inbetween. destruct (shr_r mrs), (shr_s mrs); lra. Qed.

Lemma shr_1_inbetween x mrs :
  (0 <= shr_m mrs)%Z -> inbetween x mrs ->
  inbetween (x / 2) (shr_1 mrs) /\ shr_m (shr_1 mrs) = (shr_m mrs / 2)%Z.
Proof.
  destruct mrs as [m r s]. cbn [shr_m]. intros Hm Hx.
  destruct m as [|p|p]; [| |lia].
  - unfold inbetween in *. cbn in *. destruct r, s; cbn; split; try reflexivity; lra.
  - destruct p as [p|p|].
    + assert (Hp : IZR (Z.pos p~1) = 2 * IZR (Z.pos p) + 1)
        by (rewrite Pos2Z.inj_xI, plus_IZR, mult_IZR; reflexivity).
      split.
      * unfold inbetween in *. cbn [shr_1 shr_m shr_r shr_s] in *. rewrite Hp in Hx.
        destruct r, s; cbn [orb]; lra.
      * cbn [shr_1 shr_m]. apply (Z.div_unique _ _ _ 1); lia.
    + assert (Hp : IZR (Z.pos p~0) = 2 * IZR (Z.pos p))
        by (rewrite Pos2Z.inj_xO, mult_IZR; reflexivity).
      split.
      * unfold inbetween in *. cbn [shr_1 shr_m shr_r shr_s] in *. rewrite Hp in Hx.
        destruct r, s; cbn [orb]; lra.
      * cbn [shr_1 shr_m]. apply (Z.div_unique _ _ _ 0); lia.
    + split; [|reflexivity].
      unfold inbetween in *. cbn [shr_1 shr_m shr_r shr_s] in *.
      destruct r, s; cbn [orb]; lra.
Qed.

Lemma iter_pos_shr_inbetween p : forall x mrs,
  (0 <= shr_m mrs)%Z -> inbetween x mrs ->
  inbetween (x / pow2 (Z.pos p)) (SpecFloat.iter_pos shr_1 p mrs) /\
  shr_m (SpecFloat.iter_pos shr_1 p mrs) = (shr_m mrs / 2 ^ Z.pos p)%Z.
Proof.
  assert (Htwice : forall q x mrs,
            (forall x mrs, (0 <= shr_m mrs)%Z -> inbetween x mrs ->
               inbetween (x / pow2 (Z.pos q)) (SpecFloat.iter_pos shr_1 q mrs) /\
               shr_m (SpecFloat.iter_pos shr_1 q mrs) = (shr_m mrs / 2 ^ Z.pos q)%Z) ->
            (0 <= shr_m mrs)%Z -> inbetween x mrs ->
            inbetween (x / pow2 (Z.pos q~0)) (SpecFloat.iter_pos shr_1 q (SpecFloat.iter_pos shr_1 q mrs)) /\
            shr_m (SpecFloat.iter_pos shr_1 q (SpecFloat.iter_pos shr_1 q mrs))
              = (shr_m mrs / 2 ^ Z.pos q~0)%Z).
  { intros q x mrs IH Hm Hx.
    destruct (IH x mrs Hm Hx) as [Hx1 Hm1].
    assert (Hpos : (0 < 2 ^ Z.pos q)%Z) by (apply Z.pow_pos_nonneg; lia).
    assert (Hm1' : (0 <= shr_m (SpecFloat.iter_pos shr_1 q mrs))%Z)
      by (rewrite Hm1; apply Z.div_pos; lia).
    destruct (IH _ _ Hm1' Hx1) as [Hx2 Hm2].
    replace (Z.pos q~0) with (Z.pos q + Z.pos q)%Z by lia.
    rewrite pow2_add, Z.pow_add_r by lia.
    pose proof (pow2_pos (Z.pos q)) as Hp.
    split.
    - replace (x / (pow2 (Z.pos q) * pow2 (Z.pos q)))
        with (x / pow2 (Z.pos q) / pow2 (Z.pos q)) by (field; lra).
      exact Hx2.
    - rewrite Hm2, Hm1. apply Z.div_div; lia. }
  induction p as [p IH | p IH |]; intros x mrs Hm Hx.
  - cbn [SpecFloat.iter_pos].
    destruct (shr_1_inbetween x mrs Hm Hx) as [Hx1 Hm1].
    assert (Hm1' : (0 <= shr_m (shr_1 mrs))%Z)
      by (rewrite Hm1; apply Z.div_pos; lia).
    destruct (Htwice p _ _ IH Hm1' Hx1) as [Hx2 Hm2].
    replace (Z.pos p~1) with (1 + Z.pos p~0)%Z by lia.
    rewrite pow2_add, pow2_1, Z.pow_add_r by lia.
    pose proof (pow2_pos (Z.pos p~0)) as Hp.
    split.
    + replace (x / (2 * pow2 (Z.pos p~0))) with (x / 2 / pow2 (Z.pos p~0))
        by (field; lra).
      exact Hx2.
    + rewrite Hm2, Hm1. apply Z.div_div; [lia|]. apply Z.pow_pos_nonneg; lia.
  - cbn [SpecFloat.iter_pos]. apply Htwice; assumption.
  - cbn [SpecFloat.iter_pos]. rewrite pow2_1. apply shr_1_inbetween; assumption.
Qed.

(** [shr] divides by [2^n] and keeps track of the position. *)
Lemma shr_inbetween x mrs e n :
  (0 <= shr_m mrs)%Z -> (0 <= n)%Z -> inbetween x mrs ->
  inbetween (x / pow2 n) (fst (shr mrs e n)) /\
  shr_m (fst (shr mrs e n)) = (shr_m mrs / 2 ^ n)%Z /\
  snd (shr mrs e n) = (e + n)%Z /\
  (n = 0%Z -> fst (shr mrs e n) = mrs).
Proof.
  intros Hm Hn Hx. destruct n as [|p|p]; [| |lia].
  - cbn. rewrite pow2_0, Z.div_1_r, Z.add_0_r.
    replace (x / 1) with x by field. auto.
  - cbn [shr fst snd]. destruct (iter_pos_shr_inbetween p x mrs Hm Hx).
    repeat split; try assumption. discriminate.
Qed.

Lemma round_nearest_even_near x mrs :
  inbetween x mrs ->
  let m' := round_nearest_even (shr_m mrs) (loc_of_shr_record mrs) in
  Rabs (IZR m' - x) <= / 2 /\ (shr_m mrs <= m' <= shr_m mrs + 1)%Z /\
  (shr_r mrs = false -> shr_s mrs = false -> m' = shr_m mrs).
Proof.
  destruct mrs as [m r s]. unfold inbetween. cbn [shr_m shr_r shr_s].
  intros Hx. cbv zeta.
  destruct r, s; cbn [loc_of_shr_record round_nearest_even];
    try destruct (Z.even m); rewrite ?plus_IZR;
    (split; [apply Rabs_le; lra | split; [lia | congruence || reflexivity]]).
Qed.

Lemma inbetween_of_loc_exact m : inbetween (IZR m) (shr_record_of_loc m loc_Exact).
Proof. reflexivity. Qed.

End ShiftRight.

Section Binary32Values.
#[local] Open Scope R_scope.

(** The real value of a finite number; [0] for the others. *)
Definition B2R (x : spec_float) : R :=
  match x with
  | S754_finite s m e => (if s then -1 else 1) * IZR (Z.pos m) * pow2 e
  | _ => 0
  end.

(** The positive normal numbers of binary32: 24 digits, and an exponent of
    the format. *)
Definition pnormal (x : spec_float) : Prop :=
  match x with
  | S754_finite false m e => (2 ^ 23 <= Z.pos m < 2 ^ 24)%Z /\ (-149 <= e <= 104)%Z
  | _ => False
  end.

Lemma fexp_normal e : (-125 <= e)%Z -> fexp 24 128 e = (e - 24)%Z.
Proof. intros He. unfold fexp, emin. lia. Qed.

Lemma pnormal_valid x : pnormal x -> valid_binary 24 128 x = true.
Proof.
  destruct x as [| | |[] m e]; try contradiction. intros [Hm He].
  cbn [valid_binary]. unfold bounded, canonical_mantissa.
  change (Z.pos (digits2_pos m)) with (Zdigits2 (Z.pos m)).
  rewrite (Zdigits2_unique (Z.pos m) 24) by lia.
  rewrite fexp_normal by lia.
  apply andb_true_intro. split; [apply Z.eqb_eq | apply Z.leb_le]; lia.
Qed.

Lemma pnormal_bounds x : pnormal x -> pow2 (-126) <= B2R x < pow2 128.
Proof.
  destruct x as [| | |[] m e]; try contradiction. intros [[Hlo Hhi] He].
  cbn [B2R]. rewrite Rmult_1_l.
  pose proof (pow2_pos e) as Hpos.
  apply IZR_le in Hlo. apply IZR_lt in Hhi.
  rewrite <- pow2_IZR in Hlo, Hhi by lia.
  split.
  - apply Rle_trans with (pow2 23 * pow2 e).
    + rewrite <- pow2_add. apply pow2_le. lia.
    + apply Rmult_le_compat_r; lra.
  - apply Rlt_le_trans with (pow2 24 * pow2 e).
    + apply Rmult_lt_compat_r; lra.
    + rewrite <- pow2_add. apply pow2_le. lia.
Qed.

(** The core of every operation: a positive mantissa [mx] of at least 24
    digits at exponent [ex], with the position [l] of the exact value [x]
    between [mx] and [mx + 1], is rounded to a normal number within
    [2^-24] of the exact value, as long as that value is in the normal
    range. *)
Lemma binary_round_aux_normal s mx ex l x :
  (0 < mx)%Z ->
  inbetween x (shr_record_of_loc mx l) ->
  (24 <= Zdigits2 mx)%Z ->
  pow2 (-126) <= x * pow2 ex < pow2 127 ->
  exists m e,
    binary_round_aux 24 128 s mx ex l = S754_finite s m e /\
    (2 ^ 23 <= Z.pos m < 2 ^ 24)%Z /\ (-149 <= e <= 104)%Z /\
    Rabs (IZR (Z.pos m) * pow2 e - x * pow2 ex) <= pow2 (-24) * (x * pow2 ex) /\
    (l = loc_Exact -> Zdigits2 mx = 24%Z -> Z.pos m = mx /\ e = ex).
Proof.
  intros Hmx Hx Hd24 [Hlow Hhigh].
  set (d := Zdigits2 mx) in *.
  destruct (Zdigits2_bounds mx Hmx) as [Hdlo Hdhi]. fold d in Hdlo, Hdhi.
  pose proof (inbetween_bounds _ _ Hx) as Hxb. rewrite shr_m_of_loc in Hxb.
  pose proof (pow2_pos ex) as Hpex.
  assert (Hxlo : pow2 (d - 1) <= x).
  { rewrite pow2_IZR by lia. apply Rle_trans with (IZR mx); [apply IZR_le; lia | lra]. }
  assert (Hxhi : x < pow2 d).
  { rewrite pow2_IZR by lia. apply Rlt_le_trans with (IZR mx + 1); [lra|].
    rewrite <- plus_IZR. apply IZR_le. lia. }
  assert (Hde_lo : (-126 < d + ex)%Z).
  { apply pow2_lt_inv. apply Rle_lt_trans with (x * pow2 ex); [exact Hlow|].
    rewrite pow2_add. apply Rmult_lt_compat_r; lra. }
  assert (Hde_hi : (d - 1 + ex < 127)%Z).
  { apply pow2_lt_inv. apply Rle_lt_trans with (x * pow2 ex); [|exact Hhigh].
    rewrite pow2_add. apply Rmult_le_compat_r; lra. }
  set (n := (d - 24)%Z).
  assert (Hshift : (fexp 24 128 (Zdigits2 mx + ex) - ex = n)%Z).
  { fold d. rewrite fexp_normal by lia. unfold n. lia. }
  unfold binary_round_aux, shr_fexp. rewrite Hshift.
  destruct (shr_inbetween x (shr_record_of_loc mx l) ex n)
    as (Hx1 & Hm1 & He1 & Hsame);
    [rewrite shr_m_of_loc; lia | unfold n; lia | exact Hx |].
  destruct (shr (shr_record_of_loc mx l) ex n) as [mrs1 e1].
  cbn [fst snd] in Hx1, Hm1, He1, Hsame. rewrite shr_m_of_loc in Hm1.
  set (m1 := shr_m mrs1) in *.
  assert (Hpn : (0 < 2 ^ n)%Z) by (apply Z.pow_pos_nonneg; unfold n; lia).
  assert (Hm1b : (2 ^ 23 <= m1 < 2 ^ 24)%Z).
  { rewrite Hm1. split.
    - apply Z.div_le_lower_bound; [exact Hpn|].
      rewrite <- Z.pow_add_r by (unfold n; lia).
      replace (n + 23)%Z with (d - 1)%Z by (unfold n; lia). exact Hdlo.
    - apply Z.div_lt_upper_bound; [exact Hpn|].
      rewrite <- Z.pow_add_r by (unfold n; lia).
      replace (n + 24)%Z with d by (unfold n; lia). exact Hdhi. }
  destruct (round_nearest_even_near _ _ Hx1) as (Hnear & Hm2b & Hexact).
  fold m1 in Hnear, Hm2b, Hexact.
  set (m2 := round_nearest_even m1 (loc_of_shr_record mrs1)) in *.
  pose proof (pow2_pos n) as Hpn'. pose proof (pow2_pos e1) as Hpe1.
  assert (Hvalue : x * pow2 ex = x / pow2 n * pow2 e1).
  { rewrite He1, pow2_add. field. lra. }
  assert (Hx1lo : pow2 23 <= x / pow2 n).
  { pose proof (inbetween_bounds _ _ Hx1) as Hb. fold m1 in Hb.
    rewrite pow2_IZR by lia. apply Rle_trans with (IZR m1); [apply IZR_le; lia | lra]. }
  assert (Herr : Rabs (IZR m2 * pow2 e1 - x * pow2 ex) <= pow2 (-24) * (x * pow2 ex)).
  { rewrite Hvalue.
    replace (IZR m2 * pow2 e1 - x / pow2 n * pow2 e1)
      with ((IZR m2 - x / pow2 n) * pow2 e1) by ring.
    rewrite Rabs_mult, (Rabs_pos_eq (pow2 e1)) by lra.
    apply Rle_trans with (/ 2 * pow2 e1); [apply Rmult_le_compat_r; lra|].
    rewrite <- Rmult_assoc. apply Rmult_le_compat_r; [lra|].
    apply Rle_trans with (pow2 (-24) * pow2 23).
    - rewrite <- pow2_add. change (-24 + 23)%Z with (- (1))%Z.
      rewrite pow2_opp, pow2_1. lra.
    - apply Rmult_le_compat_l; [left; apply pow2_pos | exact Hx1lo]. }
  assert (Hexact' : l = loc_Exact -> d = 24%Z -> m2 = mx /\ e1 = ex).
  { intros -> Hd. assert (Hn : n = 0%Z) by (unfold n; lia).
    split; [|lia]. rewrite (Hsame Hn) in Hexact.
    rewrite (Hexact eq_refl eq_refl). unfold m1. rewrite (Hsame Hn). reflexivity. }
  assert (He1b : (-149 <= e1 <= 103)%Z) by (unfold n in He1; lia).
  assert (Hm2cases : (m2 < 2 ^ 24)%Z \/ m2 = 16777216%Z) by lia.
  destruct Hm2cases as [Hlt | Heq].
  - assert (Hd2 : Zdigits2 m2 = 24%Z) by (apply Zdigits2_unique; lia).
    rewrite Hd2, fexp_normal by lia.
    replace (24 + e1 - 24 - e1)%Z with 0%Z by lia.
    cbn [shr shr_record_of_loc shr_m].
    destruct m2 as [|p|p] eqn:Hp; try lia.
    assert (Hle : (e1 <=? 128 - 24)%Z = true) by (apply Z.leb_le; lia).
    rewrite Hle. exists p, e1.
    split; [reflexivity|]. split; [lia|]. split; [lia|]. split; [exact Herr|].
    exact Hexact'.
  - rewrite Heq in *.
    change (Zdigits2 16777216) with 25%Z. rewrite fexp_normal by lia.
    replace (25 + e1 - 24 - e1)%Z with 1%Z by lia.
    cbn [shr shr_record_of_loc shr_m SpecFloat.iter_pos shr_1 orb].
    assert (Hle : (e1 + 1 <=? 128 - 24)%Z = true) by (apply Z.leb_le; lia).
    rewrite Hle. exists 8388608%positive, (e1 + 1)%Z.
    split; [reflexivity|]. split; [lia|]. split; [lia|]. split.
    + replace (IZR (Z.pos 8388608) * pow2 (e1 + 1)) with (IZR 16777216 * pow2 e1);
        [exact Herr|].
      rewrite pow2_succ. rewrite <- Rmult_assoc. f_equal.
      rewrite <- mult_IZR. reflexivity.
    + intros Hl Hd. destruct (Hexact' Hl Hd) as [Hmx' _].
      fold d in Hdhi. rewrite Hd in Hdhi. lia.
Qed.

Lemma Zdigits2_ge m k : (2 ^ (k - 1) <= m)%Z -> (0 < k)%Z -> (k <= Zdigits2 m)%Z.
Proof.
  intros Hm Hk.
  assert (Hpos : (0 < m)%Z) by (pose proof (Z.pow_pos_nonneg 2 (k - 1)); lia).
  destruct (Zdigits2_bounds m Hpos) as [_ Hhi].
  destruct (Z_lt_le_dec (Zdigits2 m) k) as [Hlt | Hle]; [|exact Hle].
  assert (2 ^ Zdigits2 m <= 2 ^ (k - 1))%Z.
  { apply Z.pow_le_mono_r; [lia|]. lia. }
  lia.
Qed.

(** The same for the result as a number. *)
Lemma binary_round_aux_value mx ex l x v :
  (0 < mx)%Z ->
  inbetween x (shr_record_of_loc mx l) ->
  (24 <= Zdigits2 mx)%Z ->
  v = x * pow2 ex ->
  pow2 (-126) <= v < pow2 127 ->
  let r := binary_round_aux 24 128 false mx ex l in
  pnormal r /\ Rabs (B2R r - v) <= pow2 (-24) * v /\
  (l = loc_Exact -> Zdigits2 mx = 24%Z -> B2R r = v).
Proof.
  intros Hmx Hx Hd -> Hrange.
  destruct (binary_round_aux_normal false mx ex l x Hmx Hx Hd Hrange)
    as (m & e & -> & Hm & He & Herr & Hexact).
  cbv zeta. cbn [pnormal B2R]. rewrite Rmult_1_l.
  split; [split; assumption|]. split; [exact Herr|].
  intros Hl Hd'. destruct (Hexact Hl Hd') as [-> ->]. subst l.
  unfold inbetween in Hx. cbn in Hx. rewrite Hx. reflexivity.
Qed.

Lemma SFmul_normal x y :
  pnormal x -> pnormal y ->
  pow2 (-126) <= B2R x * B2R y < pow2 127 ->
  pnormal (SFmul 24 128 x y) /\
  Rabs (B2R (SFmul 24 128 x y) - B2R x * B2R y) <= pow2 (-24) * (B2R x * B2R y).
Proof.
  destruct x as [| | |[] mx ex]; try contradiction.
  destruct y as [| | |[] my ey]; try contradiction.
  intros [Hmx Hex] [Hmy Hey] Hrange. cbn [SFmul xorb].
  destruct (binary_round_aux_value (Z.pos (mx * my)) (ex + ey) loc_Exact
              (IZR (Z.pos (mx * my))) (B2R (S754_finite false mx ex) * B2R (S754_finite false my ey)))
    as (Hn & Herr & _).
  - lia.
  - apply inbetween_of_loc_exact.
  - apply Zdigits2_ge; [|lia]. rewrite Pos2Z.inj_mul.
    change (2 ^ (24 - 1))%Z with (2 ^ 11 * 2 ^ 12)%Z. apply Z.mul_le_mono_nonneg; lia.
  - cbn [B2R]. rewrite Pos2Z.inj_mul, mult_IZR, pow2_add. ring.
  - exact Hrange.
  - split; assumption.
Qed.

Lemma iter_xO m k : Z.pos (Pos.iter xO m k) = (Z.pos m * 2 ^ Z.pos k)%Z.
Proof.
  induction k as [|k IH] using Pos.peano_ind.
  - cbn [Pos.iter]. lia.
  - rewrite Pos.iter_succ, Pos2Z.inj_xO, IH, Pos2Z.inj_succ, Z.pow_succ_r by lia. lia.
Qed.

Lemma fst_shl_align m ex ez :
  (ez <= ex)%Z -> Z.pos (fst (shl_align m ex ez)) = (Z.pos m * 2 ^ (ex - ez))%Z.
Proof.
  intros Hle. unfold shl_align. destruct (ez - ex)%Z as [|d|d] eqn:Hd; cbn [fst]; try lia.
  - replace (ex - ez)%Z with 0%Z by lia. lia.
  - rewrite iter_xO. f_equal. f_equal. lia.
Qed.

Lemma binary_round_normal (m : positive) e :
  pow2 (-126) <= IZR (Z.pos m) * pow2 e < pow2 127 ->
  let r := binary_round 24 128 false m e in
  pnormal r /\
  Rabs (B2R r - IZR (Z.pos m) * pow2 e) <= pow2 (-24) * (IZR (Z.pos m) * pow2 e) /\
  ((Z.pos m < 2 ^ 24)%Z -> B2R r = IZR (Z.pos m) * pow2 e).
Proof.
  intros [Hlow Hhigh]. cbv zeta. unfold binary_round.
  change (Z.pos (digits2_pos m)) with (Zdigits2 (Z.pos m)).
  set (d := Zdigits2 (Z.pos m)).
  destruct (Zdigits2_bounds (Z.pos m)) as [Hdlo Hdhi]; [lia|]. fold d in Hdlo, Hdhi.
  assert (Hdpos : (0 < d)%Z) by (unfold d; cbn; lia).
  pose proof (pow2_pos e) as Hpe.
  assert (Hde : (-126 < d + e)%Z).
  { apply pow2_lt_inv. apply Rle_lt_trans with (IZR (Z.pos m) * pow2 e); [exact Hlow|].
    rewrite pow2_add. apply Rmult_lt_compat_r; [lra|].
    rewrite pow2_IZR by lia. apply IZR_lt. exact Hdhi. }
  rewrite fexp_normal by lia.
  unfold shl_align. destruct (d + e - 24 - e)%Z as [|k|k] eqn:Hk.
  - destruct (binary_round_aux_value (Z.pos m) e loc_Exact (IZR (Z.pos m))
                (IZR (Z.pos m) * pow2 e)) as (Hn & Herr & Hexact);
      [lia | apply inbetween_of_loc_exact | fold d; lia | reflexivity | lra |].
    split; [exact Hn|]. split; [exact Herr|].
    intros _. apply Hexact; [reflexivity | fold d; lia].
  - destruct (binary_round_aux_value (Z.pos m) e loc_Exact (IZR (Z.pos m))
                (IZR (Z.pos m) * pow2 e)) as (Hn & Herr & Hexact);
      [lia | apply inbetween_of_loc_exact | fold d; lia | reflexivity | lra |].
    split; [exact Hn|]. split; [exact Herr|].
    intros Hsmall. exfalso.
    assert (2 ^ 24 <= 2 ^ (d - 1))%Z by (apply Z.pow_le_mono_r; lia). lia.
  - assert (Hmz : Z.pos (Pos.iter xO m k) = (Z.pos m * 2 ^ Z.pos k)%Z) by apply iter_xO.
    assert (Hkd : (Z.pos k = 24 - d)%Z) by lia.
    assert (Hpk : (0 < 2 ^ Z.pos k)%Z) by (apply Z.pow_pos_nonneg; lia).
    assert (Hsplit : (2 ^ 24 = 2 ^ d * 2 ^ Z.pos k)%Z)
      by (rewrite <- Z.pow_add_r by lia; f_equal; lia).
    assert (Hsplit' : (2 ^ 23 = 2 ^ (d - 1) * 2 ^ Z.pos k)%Z)
      by (rewrite <- Z.pow_add_r by lia; f_equal; lia).
    assert (Hmzb : (2 ^ 23 <= Z.pos (Pos.iter xO m k) < 2 ^ 24)%Z).
    { rewrite Hmz, Hsplit, Hsplit'. split.
      - apply Z.mul_le_mono_nonneg_r; lia.
      - apply Z.mul_lt_mono_pos_r; lia. }
    assert (Hval : IZR (Z.pos (Pos.iter xO m k)) * pow2 (d + e - 24)
                   = IZR (Z.pos m) * pow2 e).
    { rewrite Hmz, mult_IZR, <- pow2_IZR by lia.
      rewrite Rmult_assoc, <- pow2_add. f_equal. f_equal. lia. }
    destruct (binary_round_aux_value (Z.pos (Pos.iter xO m k)) (d + e - 24) loc_Exact
                (IZR (Z.pos (Pos.iter xO m k))) (IZR (Z.pos m) * pow2 e))
      as (Hn & Herr & Hexact);
      [lia | apply inbetween_of_loc_exact
       | rewrite (Zdigits2_unique _ 24); lia | symmetry; exact Hval | lra |].
    split; [exact Hn|]. split; [exact Herr|].
    intros _. apply Hexact; [reflexivity | apply Zdigits2_unique; lia].
Qed.

(** [(float)z] for a positive integer. *)
Lemma of_Z_normal z :
  (0 < z < 2 ^ 127)%Z ->
  pnormal (B32.of_Z z) /\
  Rabs (B2R (B32.of_Z z) - IZR z) <= pow2 (-24) * IZR z /\
  ((z < 2 ^ 24)%Z -> B2R (B32.of_Z z) = IZR z).
Proof.
  intros [Hpos Hlt]. destruct z as [|m|m]; try lia.
  unfold B32.of_Z, binary_normalize.
  destruct (binary_round_normal m 0) as (Hn & Herr & Hexact).
  - rewrite pow2_0, Rmult_1_r. split.
    + apply Rle_trans with (pow2 0); [apply pow2_le; lia|].
      rewrite pow2_0. apply IZR_le. lia.
    + rewrite pow2_IZR by lia. apply IZR_lt. exact Hlt.
  - rewrite pow2_0, Rmult_1_r in Herr, Hexact. auto.
Qed.

(** The sum of two positive normal numbers. *)
Lemma SFadd_normal x y :
  pnormal x -> pnormal y ->
  B2R x + B2R y < pow2 127 ->
  pnormal (SFadd 24 128 x y) /\
  Rabs (B2R (SFadd 24 128 x y) - (B2R x + B2R y)) <= pow2 (-24) * (B2R x + B2R y).
Proof.
  intros Hx Hy Hhigh.
  pose proof (pnormal_bounds x Hx) as Hbx. pose proof (pnormal_bounds y Hy) as Hby.
  destruct x as [| | |[] mx ex]; try contradiction.
  destruct y as [| | |[] my ey]; try contradiction.
  cbn [SFadd cond_Zopp]. cbn [B2R] in *. rewrite !Rmult_1_l in *.
  set (ez := Z.min ex ey).
  assert (Hsum : (Z.pos (fst (shl_align mx ex ez)) + Z.pos (fst (shl_align my ey ez))
                  = Z.pos (fst (shl_align mx ex ez) + fst (shl_align my ey ez)))%Z)
    by reflexivity.
  rewrite Hsum. cbn [binary_normalize].
  set (M := (fst (shl_align mx ex ez) + fst (shl_align my ey ez))%positive).
  assert (Hval : IZR (Z.pos M) * pow2 ez = IZR (Z.pos mx) * pow2 ex + IZR (Z.pos my) * pow2 ey).
  { unfold M. rewrite Pos2Z.inj_add, !fst_shl_align by (unfold ez; lia).
    rewrite plus_IZR, !mult_IZR, <- !pow2_IZR by (unfold ez; lia).
    rewrite Rmult_plus_distr_r, !Rmult_assoc, <- !pow2_add.
    replace (ex - ez + ez)%Z with ex by lia. replace (ey - ez + ez)%Z with ey by lia.
    reflexivity. }
  destruct (binary_round_normal M ez) as (Hn & Herr & _).
  - rewrite Hval. pose proof (pow2_pos (-126)). lra.
  - rewrite Hval in Herr. auto.
Qed.

(** The position of a quotient between two consecutive integers. *)
Lemma new_location_inbetween q r b :
  (0 < b)%Z -> (0 <= r < b)%Z ->
  inbetween (IZR q + IZR r / IZR b) (shr_record_of_loc q (new_location b r)).
Proof.
  intros Hb Hr.
  assert (Hb' : 0 < IZR b) by (apply IZR_lt; exact Hb).
  set (f := IZR r / IZR b).
  assert (Hf : IZR r = f * IZR b) by (unfold f; field; lra).
  assert (Hlt : forall k, (2 * r < k)%Z -> (k <= b)%Z -> f < / 2).
  { intros k H1 H2. assert (2 * IZR r < IZR b)
      by (rewrite <- mult_IZR; apply IZR_lt; lia). nra. }
  assert (Hgt : (b < 2 * r)%Z -> / 2 < f).
  { intros H1. assert (IZR b < 2 * IZR r) by (rewrite <- mult_IZR; apply IZR_lt; lia). nra. }
  assert (Hf1 : f < 1).
  { assert (IZR r < IZR b) by (apply IZR_lt; lia). nra. }
  assert (Hf0 : (0 < r)%Z -> 0 < f).
  { intros H1. assert (0 < IZR r) by (apply IZR_lt; lia). nra. }
  unfold new_location. destruct (Z.even b) eqn:Heven.
  - unfold new_location_even. destruct (Z.eqb_spec r 0) as [-> | Hne].
    + unfold inbetween, f. cbn. lra.
    + destruct (Z.compare_spec (2 * r) b) as [Heq | Hl | Hg];
        unfold inbetween; cbn [shr_record_of_loc shr_r shr_s shr_m].
      * assert (2 * IZR r = IZR b) by (rewrite <- mult_IZR; f_equal; exact Heq).
        assert (f = / 2) by nra. lra.
      * pose proof (Hlt b Hl ltac:(lia)). pose proof (Hf0 ltac:(lia)). lra.
      * pose proof (Hgt Hg). lra.
  - unfold new_location_odd. destruct (Z.eqb_spec r 0) as [-> | Hne].
    + unfold inbetween, f. cbn. lra.
    + assert (Hodd : (2 * r <> b)%Z).
      { intros <-. rewrite Z.even_mul in Heven. discriminate Heven. }
      destruct (Z.compare_spec (2 * r + 1) b) as [Heq | Hl | Hg];
        unfold inbetween; cbn [shr_record_of_loc shr_r shr_s shr_m].
      * pose proof (Hlt b ltac:(lia) ltac:(lia)). pose proof (Hf0 ltac:(lia)). lra.
      * pose proof (Hlt b ltac:(lia) ltac:(lia)). pose proof (Hf0 ltac:(lia)). lra.
      * pose proof (Hgt ltac:(lia)). lra.
Qed.

(** The quotient of two positive normal numbers. *)
Lemma SFdiv_normal x y :
  pnormal x -> pnormal y ->
  pow2 (-125) <= B2R x / B2R y < pow2 127 ->
  pnormal (SFdiv 24 128 x y) /\
  Rabs (B2R (SFdiv 24 128 x y) - B2R x / B2R y) <= pow2 (-24) * (B2R x / B2R y).
Proof.
  destruct x as [| | |[] mx ex]; try contradiction.
  destruct y as [| | |[] my ey]; try contradiction.
  intros [Hmx Hex] [Hmy Hey] Hrange.
  cbn [B2R] in Hrange. rewrite !Rmult_1_l in Hrange.
  cbn [SFdiv xorb B2R]. rewrite !Rmult_1_l.
  unfold SFdiv_core_binary.
  rewrite (Zdigits2_unique (Z.pos mx) 24), (Zdigits2_unique (Z.pos my) 24) by lia.
  pose proof (pow2_pos ex) as Hpex. pose proof (pow2_pos ey) as Hpey.
  assert (Hmx' : pow2 23 <= IZR (Z.pos mx) < pow2 24)
    by (rewrite !pow2_IZR by lia; split; [apply IZR_le | apply IZR_lt]; lia).
  assert (Hmy' : pow2 23 <= IZR (Z.pos my) < pow2 24)
    by (rewrite !pow2_IZR by lia; split; [apply IZR_le | apply IZR_lt]; lia).
  pose proof (pow2_pos 23) as Hp23.
  assert (Hquot : IZR (Z.pos mx) * pow2 ex / (IZR (Z.pos my) * pow2 ey)
                  = IZR (Z.pos mx) / IZR (Z.pos my) * pow2 (ex - ey)).
  { rewrite pow2_sub. field. lra. }
  assert (Hratio : IZR (Z.pos mx) / IZR (Z.pos my) < 2).
  { apply (Rmult_lt_reg_r (IZR (Z.pos my))); [lra|].
    replace (IZR (Z.pos mx) / IZR (Z.pos my) * IZR (Z.pos my)) with (IZR (Z.pos mx))
      by (field; lra).
    replace (pow2 24) with (2 * pow2 23) in Hmx' by (rewrite <- pow2_succ; reflexivity).
    lra. }
  assert (Hdiff : (-125 <= ex - ey)%Z).
  { assert (Hlt : pow2 (-125) < pow2 (ex - ey + 1)).
    { apply Rle_lt_trans with (IZR (Z.pos mx) / IZR (Z.pos my) * pow2 (ex - ey));
        [rewrite <- Hquot; apply Hrange|].
      rewrite pow2_succ. apply Rmult_lt_compat_r; [apply pow2_pos | exact Hratio]. }
    apply pow2_lt_inv in Hlt. lia. }
  replace (24 + ex - (24 + ey))%Z with (ex - ey)%Z by lia.
  rewrite fexp_normal by lia.
  rewrite Z.min_l by lia.
  replace (ex - ey - (ex - ey - 24))%Z with 24%Z by lia.
  rewrite Z.shiftl_mul_pow2 by lia.
  pose proof (Z_div_mod (Z.pos mx * 2 ^ 24) (Z.pos my) ltac:(lia)) as Hdm.
  destruct (Z.div_eucl (Z.pos mx * 2 ^ 24) (Z.pos my)) as [q r].
  destruct Hdm as [Hdm Hr].
  assert (Hq : (2 ^ 23 <= q)%Z) by nia.
  assert (Hx : IZR q + IZR r / IZR (Z.pos my)
               = IZR (Z.pos mx) * pow2 24 / IZR (Z.pos my)).
  { rewrite pow2_IZR by lia. rewrite <- mult_IZR, Hdm, plus_IZR, mult_IZR. field. lra. }
  destruct (binary_round_aux_value q (ex - ey - 24) (new_location (Z.pos my) r)
              (IZR q + IZR r / IZR (Z.pos my))
              (IZR (Z.pos mx) * pow2 ex / (IZR (Z.pos my) * pow2 ey)))
    as (Hn & Herr & _).
  - lia.
  - apply new_location_inbetween; lia.
  - apply Zdigits2_ge; lia.
  - rewrite Hx, Hquot, (pow2_sub (ex - ey) 24).
    pose proof (pow2_pos 24). field. lra.
  - pose proof (pow2_le (-126) (-125) ltac:(lia)). lra.
  - auto.
Qed.

(** Comparison of positive normal numbers. *)
Lemma SFltb_normal x y :
  pnormal x -> pnormal y -> B2R x < B2R y -> SFltb x y = true.
Proof.
  destruct x as [| | |[] mx ex]; try contradiction.
  destruct y as [| | |[] my ey]; try contradiction.
  intros [Hmx Hex] [Hmy Hey] Hlt. cbn [B2R] in Hlt. rewrite !Rmult_1_l in Hlt.
  unfold SFltb, SFcompare.
  assert (Hmx' : pow2 23 <= IZR (Z.pos mx) < pow2 24)
    by (rewrite !pow2_IZR by lia; split; [apply IZR_le | apply IZR_lt]; lia).
  assert (Hmy' : pow2 23 <= IZR (Z.pos my) < pow2 24)
    by (rewrite !pow2_IZR by lia; split; [apply IZR_le | apply IZR_lt]; lia).
  pose proof (pow2_pos ex) as Hpex. pose proof (pow2_pos ey) as Hpey.
  destruct (Z.compare_spec ex ey) as [Heq | Hl | Hg].
  - subst ey. fold (Pos.compare mx my).
    assert (Hm : IZR (Z.pos mx) < IZR (Z.pos my)) by nra.
    apply lt_IZR in Hm. rewrite (proj2 (Pos.compare_lt_iff mx my)); [reflexivity | lia].
  - reflexivity.
  - exfalso.
    assert (Hle : pow2 24 * pow2 ey <= pow2 23 * pow2 ex).
    { rewrite <- !pow2_add. apply pow2_le. lia. }
    assert (IZR (Z.pos my) * pow2 ey < pow2 24 * pow2 ey)
      by (apply Rmult_lt_compat_r; lra).
    assert (pow2 23 * pow2 ex <= IZR (Z.pos mx) * pow2 ex)
      by (apply Rmult_le_compat_r; lra).
    lra.
Qed.

(** A binary32 number of at least [2^-126] is a positive normal number. *)
Lemma valid_pnormal x :
  valid_binary 24 128 x = true -> pow2 (-126) <= B2R x -> pnormal x.
Proof.
  intros Hvalid Hlow. pose proof (pow2_pos (-126)) as Hp.
  destruct x as [| | |s m e]; cbn [B2R] in Hlow; try lra.
  pose proof (pow2_pos e) as Hpe.
  assert (Hm : 0 < IZR (Z.pos m)) by (apply IZR_lt; lia).
  destruct s; [nra|]. rewrite Rmult_1_l in Hlow.
  cbn [valid_binary] in Hvalid. unfold bounded, canonical_mantissa in Hvalid.
  apply andb_prop in Hvalid. destruct Hvalid as [Hcanon Hmax].
  apply Z.eqb_eq in Hcanon. apply Z.leb_le in Hmax.
  change (Z.pos (digits2_pos m)) with (Zdigits2 (Z.pos m)) in Hcanon.
  destruct (Zdigits2_bounds (Z.pos m)) as [Hdlo Hdhi]; [lia|].
  set (d := Zdigits2 (Z.pos m)) in *.
  assert (Hdpos : (0 < d)%Z) by (unfold d; cbn; lia).
  assert (Hde : (-126 < d + e)%Z).
  { apply pow2_lt_inv. apply Rle_lt_trans with (IZR (Z.pos m) * pow2 e); [exact Hlow|].
    rewrite pow2_add. apply Rmult_lt_compat_r; [lra|].
    rewrite pow2_IZR by lia. apply IZR_lt. exact Hdhi. }
  rewrite fexp_normal in Hcanon by lia.
  assert (Hd : d = 24%Z) by lia. rewrite Hd in *.
  cbn [pnormal]. split; [lia|]. lia.
Qed.

(** [(int)x] of a positive normal number below 80. *)
Lemma to_Z_small x : pnormal x -> B2R x < 80 -> (B32.to_Z x < 80)%Z.
Proof.
  destruct x as [| | |[] m e]; try contradiction.
  intros [Hm He] Hlt. cbn [B2R] in Hlt. rewrite Rmult_1_l in Hlt.
  unfold B32.to_Z, B32.int_indefinite.
  assert (Hmag : (match e with
                  | 0 => Z.pos m
                  | Z.pos p => Z.pos m * 2 ^ Z.pos p
                  | Z.neg p => Z.pos m / 2 ^ Z.pos p
                  end < 80)%Z).
  { destruct e as [|p|p].
    - rewrite pow2_0, Rmult_1_r in Hlt. apply lt_IZR. exact Hlt.
    - rewrite pow2_IZR, <- mult_IZR in Hlt by lia. apply lt_IZR. exact Hlt.
    - assert (Hpp : (0 < 2 ^ Z.pos p)%Z) by (apply Z.pow_pos_nonneg; lia).
      apply Z.div_lt_upper_bound; [exact Hpp|].
      apply lt_IZR. rewrite mult_IZR, <- pow2_IZR by lia.
      change (Z.neg p) with (- Z.pos p)%Z in Hlt. rewrite pow2_opp in Hlt.
      pose proof (pow2_pos (Z.pos p)) as Hp.
      apply (Rmult_lt_compat_r (pow2 (Z.pos p))) in Hlt; [|exact Hp].
      rewrite Rmult_assoc, Rinv_l in Hlt by lra. lra. }
  destruct (_ && _); lia.
Qed.

(** The results that carry a minus sign, and NaN. *)
Definition negative_or_nan (x : spec_float) : Prop :=
  match x with
  | S754_zero true | S754_infinity true | S754_finite true _ _ | S754_nan => True
  | _ => False
  end.

Lemma binary_round_aux_negative mx ex l :
  negative_or_nan (binary_round_aux 24 128 true mx ex l).
Proof.
  unfold binary_round_aux.
  destruct (shr_fexp 24 128 mx ex l) as [mrs1 e1].
  destruct (shr_fexp 24 128 _ e1 loc_Exact) as [mrs2 e2].
  destruct (shr_m mrs2); [exact I | | exact I].
  destruct (e2 <=? 128 - 24)%Z; exact I.
Qed.

Lemma of_Z_negative z : (z < 0)%Z -> negative_or_nan (B32.of_Z z).
Proof.
  destruct z as [|p|p]; try lia. intros _.
  unfold B32.of_Z, binary_normalize, binary_round.
  destruct (shl_align _ _ _) as [mz ez]. apply binary_round_aux_negative.
Qed.

Lemma SFmul_negative x m e :
  negative_or_nan x -> negative_or_nan (SFmul 24 128 x (S754_finite false m e)).
Proof.
  destruct x as [[]|[]| |[] mx ex]; try contradiction; intros _; cbn [SFmul xorb];
    try exact I.
  apply binary_round_aux_negative.
Qed.

Lemma to_Z_negative x : negative_or_nan x -> (B32.to_Z x <= 0)%Z.
Proof.
  destruct x as [[]|[]| |[] m e]; try contradiction; intros _;
    unfold B32.to_Z, B32.int_indefinite; try lia.
  assert (Hmag : (0 <= match e with
                       | 0 => Z.pos m
                       | Z.pos p => Z.pos m * 2 ^ Z.pos p
                       | Z.neg p => Z.pos m / 2 ^ Z.pos p
                       end)%Z).
  { destruct e as [|p|p]; [lia | |].
    - apply Z.mul_nonneg_nonneg; [lia|]. apply Z.pow_nonneg. lia.
    - apply Z.div_pos; [lia|]. apply Z.pow_pos_nonneg; lia. }
  destruct (_ && _); lia.
Qed.

End Binary32Values.

Section RealBounds.
#[local] Open Scope R_scope.

(** [x^] is [x] up to a factor between [l] and [h]. *)
Definition within (l h x' x : R) : Prop := x * l <= x' <= x * h.

Lemma within_close a x' x : Rabs (x' - x) <= a * x -> within (1 - a) (1 + a) x' x.
Proof.
  intros Hclose. unfold within.
  assert (- (a * x) <= x' - x <= a * x).
  { split.
    - pose proof (Rle_abs (- (x' - x))) as Hle. rewrite Rabs_Ropp in Hle. lra.
    - pose proof (Rle_abs (x' - x)). lra. }
  lra.
Qed.

Lemma close_within a x' x : within (1 - a) (1 + a) x' x -> Rabs (x' - x) <= a * x.
Proof. unfold within. intros [Hlo Hhi]. apply Rabs_le. lra. Qed.

Lemma within_weaken l h l' h' x' x :
  within l h x' x -> 0 <= x -> l' <= l -> h <= h' -> within l' h' x' x.
Proof.
  unfold within. intros [Hlo Hhi] Hx Hl Hh. split.
  - apply Rle_trans with (x * l); [apply Rmult_le_compat_l; assumption | exact Hlo].
  - apply Rle_trans with (x * h); [exact Hhi | apply Rmult_le_compat_l; assumption].
Qed.

Lemma within_mul l1 h1 l2 h2 x' x y' y :
  within l1 h1 x' x -> within l2 h2 y' y ->
  0 <= x -> 0 <= y -> 0 <= l1 -> 0 <= l2 ->
  within (l1 * l2) (h1 * h2) (x' * y') (x * y).
Proof.
  unfold within. intros [Hxl Hxh] [Hyl Hyh] Hx Hy Hl1 Hl2.
  assert (0 <= x * l1) by (apply Rmult_le_pos; assumption).
  assert (0 <= y * l2) by (apply Rmult_le_pos; assumption).
  split.
  - replace (x * y * (l1 * l2)) with (x * l1 * (y * l2)) by ring.
    apply Rmult_le_compat; assumption.
  - replace (x * y * (h1 * h2)) with (x * h1 * (y * h2)) by ring.
    apply Rmult_le_compat; lra.
Qed.

Lemma within_trans l1 h1 l2 h2 z x' x :
  within l1 h1 z x' -> within l2 h2 x' x ->
  0 <= x -> 0 <= l1 -> 0 <= l2 -> 0 <= h1 ->
  within (l2 * l1) (h2 * h1) z x.
Proof.
  unfold within. intros [Hzl Hzh] [Hxl Hxh] Hx Hl1 Hl2 Hh1.
  assert (0 <= x * l2) by (apply Rmult_le_pos; assumption).
  split.
  - apply Rle_trans with (x' * l1); [|exact Hzl].
    rewrite <- Rmult_assoc. apply Rmult_le_compat_r; assumption.
  - apply Rle_trans with (x' * h1); [exact Hzh|].
    rewrite <- Rmult_assoc. apply Rmult_le_compat_r; assumption.
Qed.

Lemma ln_2_lt_1 : ln 2 < 1.
Proof.
  rewrite <- (ln_exp 1). apply ln_increasing; [lra|].
  pose proof (exp_ineq1 1). lra.
Qed.

(** Bounds of [2^x] for a small exponent. *)
Lemma Rpower_2_lower x : 0 <= x -> 1 + x / 2 <= Rpower 2 x.
Proof.
  intros Hx. unfold Rpower. pose proof ln_lt_2 as Hln.
  destruct (Req_dec x 0) as [-> | Hne].
  - rewrite Rmult_0_l, exp_0. lra.
  - assert (x * ln 2 <> 0) by nra.
    pose proof (exp_ineq1 (x * ln 2)). nra.
Qed.

Lemma Rpower_2_upper x : 0 <= x <= / 2 -> Rpower 2 x <= 1 + 2 * x.
Proof.
  intros Hx. unfold Rpower. pose proof ln_lt_2 as Hln. pose proof ln_2_lt_1 as Hln'.
  set (y := x * ln 2). assert (Hy : 0 <= y <= / 2) by (unfold y; nra).
  assert (Hyx : y <= x) by (unfold y; nra).
  destruct (Req_dec y 0) as [-> | Hne]; [rewrite exp_0; lra|].
  assert (Hinv : 1 - y < / exp y).
  { rewrite <- exp_Ropp. pose proof (exp_ineq1 (- y)). lra. }
  pose proof (exp_pos y) as Hpos.
  assert (Hprod : (1 - y) * exp y < 1).
  { apply (Rmult_lt_compat_r (exp y)) in Hinv; [|exact Hpos].
    rewrite Rinv_l in Hinv by lra. exact Hinv. }
  assert (exp y <= 1 + 2 * y); [|lra].
  destruct (Rle_dec (exp y) (1 + 2 * y)) as [Hle | Hgt]; [exact Hle|].
  exfalso. nra.
Qed.

Lemma pow2_pos_eval p : pow2 (Z.pos p) = IZR (2 ^ Z.pos p).
Proof. apply pow2_IZR. lia. Qed.

Lemma pow2_neg_eval p : pow2 (Z.neg p) = / IZR (2 ^ Z.pos p).
Proof. change (Z.neg p) with (- Z.pos p)%Z. rewrite pow2_opp, pow2_pos_eval. reflexivity. Qed.

Lemma Rpower_2_IZR z : Rpower 2 (IZR z) = pow2 z.
Proof. reflexivity. Qed.

End RealBounds.

(** The powers of two with a literal exponent, as numerals. *)
Ltac pow2_eval :=
  repeat match goal with
  | |- context [pow2 (Z.neg ?p)] =>
      let c := eval vm_compute in (2 ^ Z.pos p)%Z in
      replace (pow2 (Z.neg p)) with (/ IZR c)%R by (symmetry; apply (pow2_neg_eval p))
  | |- context [pow2 (Z.pos ?p)] =>
      let c := eval vm_compute in (2 ^ Z.pos p)%Z in
      replace (pow2 (Z.pos p)) with (IZR c) by (symmetry; apply (pow2_pos_eval p))
  | |- context [pow2 0] => rewrite pow2_0
  | H : context [pow2 (Z.neg ?p)] |- _ =>
      let c := eval vm_compute in (2 ^ Z.pos p)%Z in
      replace (pow2 (Z.neg p)) with (/ IZR c)%R in H
        by (symmetry; apply (pow2_neg_eval p))
  | H : context [pow2 (Z.pos ?p)] |- _ =>
      let c := eval vm_compute in (2 ^ Z.pos p)%Z in
      replace (pow2 (Z.pos p)) with (IZR c) in H by (symmetry; apply (pow2_pos_eval p))
  | H : context [pow2 0] |- _ => rewrite pow2_0 in H
  end.

(** ** The levels of the pyramid *)

Section SortedFacts.
Context {A : Type} (R : A -> A -> Prop).

Lemma StronglySorted_append (l1 l2 : list A) :
  StronglySorted R l1 -> StronglySorted R l2 ->
  (forall a b, List.In a l1 -> List.In b l2 -> R a b) ->
  StronglySorted R (l1 ++ l2).
Proof.
  induction l1 as [|x l1 IH]; intros H1 H2 Hcross; [exact H2|].
  apply StronglySorted_inv in H1. destruct H1 as [H1 Hx].
  cbn [app]. constructor.
  - apply IH; [exact H1 | exact H2 |].
    intros a b Ha Hb. apply Hcross; [right; exact Ha | exact Hb].
  - apply List.Forall_app. split; [exact Hx|].
    apply List.Forall_forall. intros b Hb. apply Hcross; [left; reflexivity | exact Hb].
Qed.

Lemma StronglySorted_at (l : list A) (p q : nat) a b :
  StronglySorted R l -> (p < q)%nat ->
  l !! p = Some a -> l !! q = Some b -> R a b.
Proof.
  intros Hs. revert p q. induction Hs as [|x l Hs IH Hx]; intros p q Hpq Hp Hq.
  - discriminate Hp.
  - destruct q as [|q]; [lia|]. cbn in Hq.
    destruct p as [|p]; cbn in Hp.
    + injection Hp as ->.
      rewrite List.Forall_forall in Hx. apply Hx.
      apply list_elem_of_In. apply (list_elem_of_lookup_2 _ q). exact Hq.
    + apply (IH p q); [lia | exact Hp | exact Hq].
Qed.

Lemma StronglySorted_map_seq (f : nat -> A) (s n : nat) :
  (forall p q, (s <= p < q)%nat -> (q < s + n)%nat -> R (f p) (f q)) ->
  StronglySorted R (map f (seq s n)).
Proof.
  revert s. induction n as [|n IH]; intros s Hf; cbn; constructor.
  - apply IH. intros p q Hpq Hq. apply Hf; lia.
  - apply List.Forall_forall. intros b Hb.
    apply List.in_map_iff in Hb. destruct Hb as (q & <- & Hq).
    apply List.in_seq in Hq. apply Hf; lia.
Qed.

End SortedFacts.

Section AllocationFacts.
Context {F : Type} `{FloatOps F}.
Variable fRound : F -> Z.
Variable powf : F -> F -> F.

(** The order in which the levels are pushed: by octave, then by sublevel. *)
Definition level_before (a b : Evolution F) : Prop :=
  ev_octave a < ev_octave b \/
  (ev_octave a = ev_octave b /\ sublevel a < sublevel b).

(** A level of octave [lo] or later, with the scale and the evolution time
    that [Allocate_Memory_Evolution] gives it. *)
Definition level_of (o : AKAZEOptions F) (lo : Z) (e : Evolution F) : Prop :=
  lo <= ev_octave e /\
  0 <= sublevel e < nsublevels o /\
  esigma e =
    soffset o ⊗ powf (f_of_Z 2)
                  (f_of_Z (sublevel e) ⊘ f_of_Z (nsublevels o) ⊕ f_of_Z (ev_octave e)) /\
  etime e = flit 1 2 ⊗ (esigma e ⊗ esigma e).

Lemma level_of_weaken o lo lo' e : lo' <= lo -> level_of o lo e -> level_of o lo' e.
Proof. unfold level_of. intuition lia. Qed.

(** The sublevels of one octave. *)
Definition octave_levels (o : AKAZEOptions F) (w h i power : Z) : list (Evolution F) :=
  map (fun j : nat => evolution_step fRound powf o w h i power (Z.of_nat j))
      (seq 0 (Z.to_nat (nsublevels o))).

Lemma push_sublevels o w h i power (n : nat) ev :
  for_loop 0 (Z.of_nat n)
    (fun j ev => ev ++ [evolution_step fRound powf o w h i power j]) ev =
  ev ++ map (fun j : nat => evolution_step fRound powf o w h i power (Z.of_nat j)) (seq 0 n).
Proof.
  induction n as [|n IH].
  - cbn. rewrite List.app_nil_r. reflexivity.
  - rewrite for_loop_last by lia.
    replace (Z.of_nat (Datatypes.S n) - 1) with (Z.of_nat n) by lia.
    rewrite IH, List.seq_S, List.map_app, List.app_assoc. reflexivity.
Qed.

Lemma push_octave o w h i power ev :
  for_loop 0 (nsublevels o)
    (fun j ev => ev ++ [evolution_step fRound powf o w h i power j]) ev =
  ev ++ octave_levels o w h i power.
Proof.
  unfold octave_levels.
  destruct (Z_le_gt_dec 0 (nsublevels o)) as [Hn | Hn].
  - rewrite <- (Z2Nat.id (nsublevels o)) at 1 by exact Hn. apply push_sublevels.
  - unfold for_loop. replace (Z.to_nat (nsublevels o - 0)) with 0%nat by lia.
    replace (Z.to_nat (nsublevels o)) with 0%nat by lia.
    cbn. rewrite List.app_nil_r. reflexivity.
Qed.

Lemma octave_levels_level_of o w h i power :
  Forall (level_of o i) (octave_levels o w h i power).
Proof.
  apply List.Forall_forall. intros e He.
  apply List.in_map_iff in He. destruct He as (j & <- & Hj).
  apply List.in_seq in Hj.
  unfold level_of, evolution_step. cbn. repeat split; try lia; reflexivity.
Qed.

Lemma octave_levels_sorted o w h i power :
  StronglySorted level_before (octave_levels o w h i power).
Proof.
  apply StronglySorted_map_seq. intros p q Hpq Hq.
  right. cbn. lia.
Qed.

Lemma octave_levels_length o w h i power :
  length (octave_levels o w h i power) = Z.to_nat (nsublevels o).
Proof. unfold octave_levels. rewrite List.length_map, List.length_seq. reflexivity. Qed.

Lemma octave_levels_octave o w h i power e :
  List.In e (octave_levels o w h i power) -> ev_octave e = i.
Proof.
  intros He. apply List.in_map_iff in He. destruct He as (j & <- & _). reflexivity.
Qed.

(** The test "Smallest possible octave and allow one scale if the image is
    small" for octave [i]. *)
Definition octave_too_small (o : AKAZEOptions F) (i power : Z) : bool :=
  let rfactor := fone ⊘ f_of_Z power in
  let level_height := f_to_Z (f_of_Z (img_height o) ⊗ rfactor) in
  let level_width := f_to_Z (f_of_Z (img_width o) ⊗ rfactor) in
  ((level_width <? 80) || (level_height <? 40)) && negb (i =? 0).

(** A level of an octave before [hi] that the loop, started at octave [lo]
    with [power], has reached: no octave up to its own was too small. *)
Definition level_reached (o : AKAZEOptions F) (lo hi power : Z) (e : Evolution F)
    : Prop :=
  ev_octave e < hi /\
  forall k, lo <= k <= ev_octave e -> octave_too_small o k (power * 2 ^ (k - lo)) = false.

(** The first loop only appends: levels of octave [i] and later, in order. *)
Lemma allocate_octaves_levels (n : nat) : forall i power o ev,
  exists levels,
    snd (allocate_octaves fRound powf n i power o ev) = ev ++ levels /\
    Forall (level_of o i) levels /\
    StronglySorted level_before levels /\
    Forall (level_reached o i (i + Z.of_nat n) power) levels.
Proof.
  induction n as [|n IH]; intros i power o ev.
  - exists []. cbn. rewrite List.app_nil_r. repeat split; constructor.
  - cbn [allocate_octaves]. cbv zeta.
    fold (octave_too_small o i power).
    destruct (octave_too_small o i power) eqn:Hsmall.
    + exists []. cbn. rewrite List.app_nil_r. repeat split; constructor.
    + rewrite push_octave.
      match goal with
      | |- context [octave_levels o ?w ?h i power] =>
          set (first := octave_levels o w h i power);
          assert (Hof : Forall (level_of o i) first) by apply octave_levels_level_of;
          assert (Hso : StronglySorted level_before first) by apply octave_levels_sorted;
          assert (Hoct : forall e, List.In e first -> ev_octave e = i)
            by apply octave_levels_octave
      end.
      destruct (IH (i + 1) (power * 2) o (ev ++ first))
        as (rest & Heq & Hrest & Hsorted & Hreached).
      exists (first ++ rest). split; [|split; [|split]].
      * rewrite Heq, List.app_assoc. reflexivity.
      * apply List.Forall_app. split; [exact Hof|].
        eapply List.Forall_impl; [|exact Hrest].
        intros e. apply level_of_weaken. lia.
      * apply StronglySorted_append; [exact Hso | exact Hsorted |].
        intros a b Ha Hb. left.
        rewrite (Hoct a Ha).
        rewrite List.Forall_forall in Hrest. destruct (Hrest b Hb) as [Hlo _]. lia.
      * apply List.Forall_app. split.
        -- apply List.Forall_forall. intros e He. unfold level_reached.
           rewrite (Hoct e He). split; [lia|]. intros k Hk. replace k with i by lia.
           rewrite Z.sub_diag, Z.mul_1_r. exact Hsmall.
        -- eapply List.Forall_impl; [|exact Hreached].
           intros e [Hhi Hk]. split; [lia|].
           intros k Hrange. destruct (Z.eq_dec k i) as [-> | Hne].
           ++ rewrite Z.sub_diag, Z.mul_1_r. exact Hsmall.
           ++ specialize (Hk k ltac:(lia)).
              replace (power * 2 ^ (k - i)) with (power * 2 * 2 ^ (k - (i + 1)));
                [exact Hk|].
              replace (k - i) with (Z.succ (k - (i + 1))) by lia.
              rewrite Z.pow_succ_r by lia. lia.
Qed.

(** The first octave is never skipped. *)
Lemma allocate_octaves_first (n : nat) power o ev :
  (Z.to_nat (nsublevels o) <=
   length (snd (allocate_octaves fRound powf (Datatypes.S n) 0 power o ev)))%nat.
Proof.
  cbn [allocate_octaves]. cbv zeta.
  rewrite Z.eqb_refl, andb_false_r. rewrite push_octave.
  destruct (allocate_octaves_levels n (0 + 1) (power * 2) o
              (ev ++ octave_levels o
                       (f_to_Z (f_of_Z (img_width o) ⊗ (fone ⊘ f_of_Z power)))
                       (f_to_Z (f_of_Z (img_height o) ⊗ (fone ⊘ f_of_Z power)))
                       0 power))
    as (rest & Heq & _).
  rewrite Heq, !List.length_app, octave_levels_length. lia.
Qed.

Variable fed_tau_by_process_time : F -> Z -> F -> bool -> Z * list F.

Lemma Allocate_Memory_Evolution_evolution self :
  evolution_ (Allocate_Memory_Evolution fRound powf fed_tau_by_process_time self) =
  snd (allocate_octaves fRound powf (Z.to_nat (omax (options_ self))) 0 1
         (options_ self) (evolution_ self)).
Proof.
  unfold Allocate_Memory_Evolution.
  destruct (allocate_octaves _ _ _ _ _ _ _) as [o evolution].
  destruct (allocate_time_steps _ _ _) as [[ncycles nsteps] tsteps].
  reflexivity.
Qed.

Variable fceil : F -> F.
Variable rand : Z -> Z.
Variable uninit : Z.

(** The pyramid of a constructed object is the one allocated from no level. *)
Lemma AKAZEFeatures_new_evolution options self :
  AKAZEFeatures_new fRound powf fed_tau_by_process_time fceil rand uninit options
    = Ok self ->
  evolution_ self =
  snd (allocate_octaves fRound powf (Z.to_nat (omax options)) 0 1 options []).
Proof.
  unfold AKAZEFeatures_new.
  destruct (_ && _).
  - destruct (generateDescriptorSubsample _ _ _ _ _ _) as [[samples bits] | e |];
      [|discriminate ..].
    intros Heq. injection Heq as <-.
    apply Allocate_Memory_Evolution_evolution.
  - intros Heq. injection Heq as <-.
    apply Allocate_Memory_Evolution_evolution.
Qed.

End AllocationFacts.

(** In exact arithmetic the evolution time grows with the octave and, inside
    an octave, with the sublevel. *)
Lemma Exact_etime_increasing (o : AKAZEOptions R) lo (a b : Evolution R) :
  (0 < soffset o)%R -> 1 <= nsublevels o ->
  level_of Exact.pow o lo a -> level_of Exact.pow o lo b ->
  level_before a b ->
  (0 < esigma a < esigma b)%R /\ (etime a < etime b)%R.
Proof.
  intros Hs Hn (_ & Hja & Hsa & Hta) (_ & Hjb & Hsb & Htb) Hab.
  unfold flit in Hta, Htb. cbn in Hsa, Hsb, Hta, Htb. unfold Exact.pow in Hsa, Hsb.
  set (ta := (IZR (sublevel a) / IZR (nsublevels o) + IZR (ev_octave a))%R) in *.
  set (tb := (IZR (sublevel b) / IZR (nsublevels o) + IZR (ev_octave b))%R) in *.
  assert (Hns : (0 < IZR (nsublevels o))%R) by (apply IZR_lt; lia).
  assert (Hfrac : forall j, 0 <= j < nsublevels o ->
                            (0 <= IZR j / IZR (nsublevels o) < 1)%R).
  { intros j Hj. split.
    - apply Rmult_le_pos; [apply IZR_le; lia | left; apply Rinv_0_lt_compat; exact Hns].
    - apply (Rmult_lt_reg_r (IZR (nsublevels o))); [exact Hns|].
      unfold Rdiv. rewrite Rmult_assoc, Rinv_l, Rmult_1_r, Rmult_1_l by lra.
      apply IZR_lt. lia. }
  assert (Ht : (ta < tb)%R).
  { unfold ta, tb. destruct Hab as [Hoct | [Hoct Hsub]].
    - assert (IZR (ev_octave a) + 1 <= IZR (ev_octave b))%R
        by (rewrite <- plus_IZR; apply IZR_le; lia).
      pose proof (Hfrac _ Hja). pose proof (Hfrac _ Hjb). lra.
    - rewrite Hoct. apply Rplus_lt_compat_r.
      unfold Rdiv. apply Rmult_lt_compat_r; [apply Rinv_0_lt_compat; exact Hns|].
      apply IZR_lt. exact Hsub. }
  assert (Hpow : (0 < Rpower 2 ta < Rpower 2 tb)%R).
  { split; [apply exp_pos | apply Rpower_lt; [lra | exact Ht]]. }
  assert (Hsig : (0 < esigma a < esigma b)%R).
  { rewrite Hsa, Hsb. split.
    - apply Rmult_lt_0_compat; [exact Hs | apply Hpow].
    - apply Rmult_lt_compat_l; [exact Hs | apply Hpow]. }
  split; [exact Hsig|].
  rewrite Hta, Htb. nra.
Qed.

Section Binary32Levels.
#[local] Open Scope R_scope.

(** The exponent [(float)j / (float)nsublevels + i] of a level. *)
Definition level_exponent (n i j : Z) : B32.binary32 :=
  f_of_Z j ⊘ f_of_Z n ⊕ f_of_Z i.

Lemma of_Z_cases z :
  (0 <= z < 2 ^ 24)%Z ->
  (z = 0%Z /\ B32.of_Z z = S754_zero false) \/
  ((0 < z)%Z /\ pnormal (B32.of_Z z) /\ B2R (B32.of_Z z) = IZR z).
Proof.
  intros Hz. destruct (Z.eq_dec z 0%Z) as [-> | Hne].
  - left. split; reflexivity.
  - right. destruct (of_Z_normal z) as (Hn & _ & Hv); [lia|].
    split; [lia|]. split; [exact Hn | apply Hv; lia].
Qed.

(** The exponent is within [2^-19] of [j / nsublevels + i]. *)
Lemma level_exponent_value n i j :
  (1 <= n <= 2 ^ 16)%Z -> (0 <= j < n)%Z -> (0 <= i <= 24)%Z ->
  0 <= B2R (level_exponent n i j) /\
  Rabs (B2R (level_exponent n i j) - (IZR j / IZR n + IZR i)) <= pow2 (-19).
Proof.
  intros Hn Hj Hi.
  assert (Hsign : forall x, pnormal x -> 0 <= B2R x).
  { intros y Hy. pose proof (pnormal_bounds y Hy). pose proof (pow2_pos (-126)). lra. }
  unfold level_exponent. cbn [fdiv fadd f_of_Z B32.ops]. unfold B32.prec, B32.emax.
  destruct (of_Z_cases n) as [[Hn0 _] | (_ & Hnn & Hnv)]; [lia | lia |].
  assert (HnR : 1 <= IZR n <= 65536) by (split; apply IZR_le; lia).
  assert (HiR : 0 <= IZR i <= 24) by (split; apply IZR_le; lia).
  assert (HjR : 0 <= IZR j <= IZR n - 1)
    by (split; [apply IZR_le; lia | rewrite <- minus_IZR; apply IZR_le; lia]).
  set (x := IZR j / IZR n).
  assert (Hxn : IZR j = x * IZR n) by (unfold x; field; lra).
  assert (Hx : 0 <= x < 1) by (split; nra).
  set (q := SFdiv 24 128 (B32.of_Z j) (B32.of_Z n)).
  assert (Hq : (q = S754_zero false /\ x = 0) \/
               (pnormal q /\ Rabs (B2R q - x) <= pow2 (-24) * x /\ 0 < x)).
  { destruct (of_Z_cases j) as [[Hj0 Hjz] | (Hjpos & Hjn & Hjv)]; [lia | |].
    - left. unfold q. rewrite Hjz.
      destruct (B32.of_Z n) as [| | |[] mn en]; try contradiction.
      split; [reflexivity|]. unfold x. rewrite Hj0. lra.
    - right. assert (Hj1 : 1 <= IZR j) by (apply IZR_le; lia).
      assert (Hxlo : / 65536 <= x).
      { unfold x. apply Rle_trans with (1 / IZR n).
        - unfold Rdiv. rewrite Rmult_1_l. apply Rinv_le_contravar; lra.
        - apply Rmult_le_compat_r; [left; apply Rinv_0_lt_compat; lra | exact Hj1]. }
      destruct (SFdiv_normal (B32.of_Z j) (B32.of_Z n) Hjn Hnn) as [Hqn Hqe].
      + rewrite Hjv, Hnv. fold x. pow2_eval. lra.
      + rewrite Hjv, Hnv in Hqe. fold x in Hqe. fold q in Hqn, Hqe.
        split; [exact Hqn|]. split; [exact Hqe | lra]. }
  destruct (of_Z_cases i) as [[Hi0 Hiz] | (Hipos & Hin & Hiv)]; [lia | |].
  - rewrite Hiz. destruct Hq as [[-> Hx0] | (Hqn & Hqe & Hxpos)].
    + cbn. rewrite Hi0, Hx0. split; [lra|]. rewrite Rabs_pos_eq by lra.
      pose proof (pow2_pos (-19)). lra.
    + assert (Hsame : SFadd 24 128 q (S754_zero false) = q)
        by (destruct q as [| | |[] mq eq]; try contradiction; reflexivity).
      rewrite Hsame, Hi0. split; [apply Hsign; exact Hqn|].
      replace (B2R q - (x + 0)) with (B2R q - x) by ring.
      apply Rle_trans with (pow2 (-24) * x); [exact Hqe|].
      pow2_eval. lra.
  - destruct Hq as [[-> Hx0] | (Hqn & Hqe & Hxpos)].
    + assert (Hsame : SFadd 24 128 (S754_zero false) (B32.of_Z i) = B32.of_Z i)
        by (destruct (B32.of_Z i) as [| | |[] mi ei]; try contradiction; reflexivity).
      rewrite Hsame, Hiv, Hx0. split; [lra|].
      replace (IZR i - (0 + IZR i)) with 0 by ring.
      rewrite Rabs_R0. left. apply pow2_pos.
    + apply within_close in Hqe. unfold within in Hqe.
      destruct (SFadd_normal q (B32.of_Z i) Hqn Hin) as [Htn Hte].
      * rewrite Hiv. pow2_eval. lra.
      * split; [apply Hsign; exact Htn|].
        rewrite Hiv in Hte. apply within_close in Hte. unfold within in Hte.
        pow2_eval. apply Rabs_le. lra.
Qed.

(** [pow(2.f, t)] is accurate: the result is a binary32 number within the
    relative distance [2^-22], two units in the last place, of [2^t]. *)
Definition pow_accurate (powf : B32.binary32 -> B32.binary32 -> B32.binary32)
    (t : B32.binary32) : Prop :=
  valid_binary 24 128 (powf (B32.of_Z 2) t) = true /\
  Rabs (B2R (powf (B32.of_Z 2) t) - Rpower 2 (B2R t))
    <= pow2 (-22) * Rpower 2 (B2R t).

Lemma half_value : @flit B32.binary32 B32.ops 1 2 = S754_finite false 8388608 (-24).
Proof. reflexivity. Qed.

(** The scale and the evolution time of a level whose exponent is [t]:
    [esigma] is within [2^-21] of [soffset * 2^t], and [etime] within
    [2^-22] of [esigma^2 / 2] and within [2^-19] of [soffset^2 * 2^(2t) / 2]. *)
Lemma level_values powf (s t : B32.binary32) :
  pnormal s -> pow2 (-32) <= B2R s <= pow2 32 ->
  0 <= B2R t <= 25 ->
  pow_accurate powf t ->
  let sigma := s ⊗ powf (f_of_Z 2) t in
  let time := flit 1 2 ⊗ (sigma ⊗ sigma) in
  pnormal sigma /\ pnormal time /\
  Rabs (B2R sigma - B2R s * Rpower 2 (B2R t))
    <= pow2 (-21) * (B2R s * Rpower 2 (B2R t)) /\
  Rabs (B2R time - / 2 * (B2R sigma * B2R sigma))
    <= pow2 (-22) * (/ 2 * (B2R sigma * B2R sigma)) /\
  within (1 - pow2 (-19)) (1 + pow2 (-19)) (B2R time)
    (/ 2 * (B2R s * B2R s) * Rpower 2 (2 * B2R t)).
Proof.
  intros Hs Hsb Ht [Hvalid Hacc]. cbv zeta.
  rewrite half_value. cbn [fmul f_of_Z B32.ops]. unfold B32.prec, B32.emax.
  set (P := powf (B32.of_Z 2) t) in *.
  set (T := B2R t) in *. set (S := B2R s) in *.
  assert (HT : 1 <= Rpower 2 T <= pow2 25).
  { split.
    - rewrite <- (Rpower_O 2) by lra. apply Rle_Rpower; lra.
    - unfold pow2. apply Rle_Rpower; lra. }
  set (E := Rpower 2 T) in *.
  apply within_close in Hacc. unfold within in Hacc.
  pow2_eval.
  assert (HP : pnormal P).
  { apply valid_pnormal; [exact Hvalid|]. pow2_eval. lra. }
  assert (HSE : / 4294967296 <= S * E <= 4294967296 * 33554432).
  { split.
    - apply Rle_trans with (/ 4294967296 * 1); [lra|].
      apply Rmult_le_compat; lra.
    - apply Rmult_le_compat; lra. }
  assert (HSP : within (1 - / 4194304) (1 + / 4194304) (S * B2R P) (S * E)).
  { unfold within. split.
    - rewrite Rmult_assoc. apply Rmult_le_compat_l; lra.
    - rewrite Rmult_assoc. apply Rmult_le_compat_l; lra. }
  destruct (SFmul_normal s P Hs HP) as [Hsig Hsige].
  { fold S. unfold within in HSP. pow2_eval. split; [|lra].
    apply Rle_trans with (S * E * (1 - / 4194304)); [|lra]. nra. }
  fold S in Hsige. set (sigma := SFmul 24 128 s P) in *.
  apply within_close in Hsige. pow2_eval.
  assert (HSPpos : 0 <= S * B2R P) by (unfold within in HSP; nra).
  assert (Hsigma : within ((1 - / 4194304) * (1 - / 16777216))
                     ((1 + / 4194304) * (1 + / 16777216)) (B2R sigma) (S * E)).
  { apply (within_trans _ _ _ _ _ (S * B2R P)); [exact Hsige | exact HSP | lra ..]. }
  assert (Hsigma_b : / 8589934592 <= B2R sigma <= 288230376151711744).
  { unfold within in Hsigma. split.
    - apply Rle_trans with (S * E * ((1 - / 4194304) * (1 - / 16777216))); [|lra]. nra.
    - apply Rle_trans with (S * E * ((1 + / 4194304) * (1 + / 16777216))); [lra|]. nra. }
  destruct (SFmul_normal sigma sigma Hsig Hsig) as [Hsq Hsqe].
  { pow2_eval. split; nra. }
  set (sq := SFmul 24 128 sigma sigma) in *.
  apply within_close in Hsqe. pow2_eval.
  assert (Hsq_b : / 73786976294838206464 * (1 - / 16777216) <= B2R sq
                  <= 83076749736557242056487941267521536 * (1 + / 16777216)).
  { unfold within in Hsqe. split; nra. }
  assert (Hhalf : pnormal (S754_finite false 8388608 (-24))) by (cbn; lia).
  assert (Hhalfv : B2R (S754_finite false 8388608 (-24)) = / 2).
  { cbn [B2R]. pow2_eval. lra. }
  destruct (SFmul_normal _ sq Hhalf Hsq) as [Htime Htimee].
  { rewrite Hhalfv. pow2_eval. split; lra. }
  rewrite Hhalfv in Htimee.
  set (time := SFmul 24 128 (S754_finite false 8388608 (-24)) sq) in *.
  apply within_close in Htimee. pow2_eval.
  assert (Hsqpos : 0 <= B2R sigma * B2R sigma) by nra.
  assert (Htime_sq : within ((1 - / 16777216) * (1 - / 16777216))
                       ((1 + / 16777216) * (1 + / 16777216))
                       (B2R time) (/ 2 * (B2R sigma * B2R sigma))).
  { unfold within in *. split; nra. }
  split; [exact Hsig|]. split; [exact Htime|]. split; [|split].
  - apply close_within. apply (within_weaken _ _ _ _ _ _ Hsigma); [nra | lra | lra].
  - apply close_within. apply (within_weaken _ _ _ _ _ _ Htime_sq); [lra | lra | lra].
  - assert (HEE : Rpower 2 (2 * T) = E * E).
    { unfold E. rewrite <- Rpower_plus. f_equal. ring. }
    rewrite HEE.
    replace (/ 2 * (S * S) * (E * E)) with (/ 2 * ((S * E) * (S * E))) by ring.
    assert (Hsq2 : within (((1 - / 4194304) * (1 - / 16777216))
                           * ((1 - / 4194304) * (1 - / 16777216)))
                     (((1 + / 4194304) * (1 + / 16777216))
                      * ((1 + / 4194304) * (1 + / 16777216)))
                     (B2R sigma * B2R sigma) ((S * E) * (S * E)))
      by (apply within_mul; try exact Hsigma; nra).
    assert (Hsq3 : within (((1 - / 4194304) * (1 - / 16777216))
                           * ((1 - / 4194304) * (1 - / 16777216)))
                     (((1 + / 4194304) * (1 + / 16777216))
                      * ((1 + / 4194304) * (1 + / 16777216)))
                     (/ 2 * (B2R sigma * B2R sigma)) (/ 2 * ((S * E) * (S * E)))).
    { unfold within in *. lra. }
    pose proof (within_trans _ _ _ _ _ _ _ Htime_sq Hsq3) as Hall.
    eapply within_weaken; [apply Hall; try lra; nra | nra | lra | lra].
Qed.

(** Two exponents within [2^-19] of each other give powers of two within
    [2^-18]. *)
Lemma Rpower_2_near x y :
  Rabs (x - y) <= / 524288 ->
  within (1 - / 262144) (1 + / 262144) (Rpower 2 x) (Rpower 2 y).
Proof.
  intros Hxy. replace x with (y + (x - y)) by ring. rewrite Rpower_plus.
  set (d := x - y) in *. set (E := Rpower 2 y).
  assert (HE : 0 < E) by apply exp_pos.
  assert (Hd : - / 524288 <= d <= / 524288).
  { split.
    - pose proof (Rle_abs (- d)) as Hle. rewrite Rabs_Ropp in Hle. lra.
    - pose proof (Rle_abs d). lra. }
  unfold within. destruct (Rle_dec 0 d) as [Hpos | Hneg].
  - pose proof (Rpower_2_upper d ltac:(lra)).
    pose proof (Rpower_2_lower d Hpos). split; nra.
  - assert (Hinv : Rpower 2 d = / Rpower 2 (- d)).
    { rewrite Rpower_Ropp, Rinv_inv. reflexivity. }
    pose proof (Rpower_2_upper (- d) ltac:(lra)) as Hup.
    pose proof (Rpower_2_lower (- d) ltac:(lra)) as Hlo.
    set (G := Rpower 2 (- d)) in *. rewrite Hinv.
    assert (HG : 0 < G) by apply exp_pos.
    assert (Hprod : G * / G = 1) by (apply Rinv_r; lra).
    assert (HiG : 0 < / G) by (apply Rinv_0_lt_compat; exact HG).
    split; nra.
Qed.

(** An image of at most [2^31 - 1] columns has no octave 25: its width
    there is less than 80. *)
Lemma octave_25_too_small (o : AKAZEOptions B32.binary32) :
  (img_width o < 2 ^ 31)%Z -> octave_too_small o 25 (2 ^ 25) = true.
Proof.
  intros Hw. unfold octave_too_small. cbv zeta.
  assert (Hr : @fdiv B32.binary32 B32.ops fone (f_of_Z (2 ^ 25))
               = S754_finite false 8388608 (-48)) by reflexivity.
  rewrite Hr. cbn [fmul f_of_Z f_to_Z B32.ops]. unfold B32.prec, B32.emax.
  assert (Hsmall : (B32.to_Z (SFmul 24 128 (B32.of_Z (img_width o))
                                (S754_finite false 8388608 (-48))) < 80)%Z).
  { destruct (Z.lt_trichotomy (img_width o) 0) as [Hneg | [Hzero | Hpos]].
    - pose proof (to_Z_negative _ (SFmul_negative _ 8388608 (-48)
                                     (of_Z_negative _ Hneg))). lia.
    - rewrite Hzero. vm_compute. reflexivity.
    - destruct (of_Z_normal (img_width o)) as (Hn & Herr & _); [lia|].
      assert (Hc : pnormal (S754_finite false 8388608 (-48))) by (cbn; lia).
      assert (Hcv : B2R (S754_finite false 8388608 (-48)) = / 33554432).
      { cbn [B2R]. pow2_eval. lra. }
      assert (Hwr : 1 <= IZR (img_width o) <= 2147483648)
        by (split; apply IZR_le; lia).
      apply within_close in Herr. unfold within in Herr. pow2_eval.
      destruct (SFmul_normal _ _ Hn Hc) as [Hpn Hpe].
      + rewrite Hcv. pow2_eval. lra.
      + rewrite Hcv in Hpe. apply within_close in Hpe. unfold within in Hpe.
        pow2_eval. apply to_Z_small; [exact Hpn | lra]. }
  apply Z.ltb_lt in Hsmall. rewrite Hsmall. reflexivity.
Qed.

(** The evolution time of the later of two levels is the larger one. *)
Lemma level_etime_increasing powf (s : B32.binary32) n ia ja ib jb :
  pnormal s -> pow2 (-32) <= B2R s <= pow2 32 ->
  (1 <= n <= 2 ^ 16)%Z ->
  (0 <= ja < n)%Z -> (0 <= jb < n)%Z -> (0 <= ia <= 24)%Z -> (0 <= ib <= 24)%Z ->
  (ia < ib \/ (ia = ib /\ ja < jb))%Z ->
  pow_accurate powf (level_exponent n ia ja) ->
  pow_accurate powf (level_exponent n ib jb) ->
  let time := fun t : B32.binary32 =>
    flit 1 2 ⊗ (s ⊗ powf (f_of_Z 2) t ⊗ (s ⊗ powf (f_of_Z 2) t)) in
  (time (level_exponent n ia ja) <. time (level_exponent n ib jb)) = true.
Proof.
  intros Hs Hsb Hn Hja Hjb Hia Hib Horder Hpa Hpb time.
  destruct (level_exponent_value n ia ja Hn Hja Hia) as [Ha0 Ha].
  destruct (level_exponent_value n ib jb Hn Hjb Hib) as [Hb0 Hb].
  set (ta := level_exponent n ia ja) in *. set (tb := level_exponent n ib jb) in *.
  assert (HnR : 1 <= IZR n <= 65536) by (split; apply IZR_le; lia).
  assert (Hfrac : forall j, (0 <= j < n)%Z -> 0 <= IZR j / IZR n <= 1 - / 65536).
  { intros j Hj. set (x := IZR j / IZR n).
    assert (Hxn : IZR j = x * IZR n) by (unfold x; field; lra).
    assert (0 <= IZR j <= IZR n - 1)
      by (split; [apply IZR_le; lia | rewrite <- minus_IZR; apply IZR_le; lia]).
    assert (Hinv : / 65536 <= / IZR n) by (apply Rinv_le_contravar; lra).
    assert (Hin : IZR n * / IZR n = 1) by (apply Rinv_r; lra).
    split; [nra|].
    assert (x <= 1 - / IZR n); [|lra].
    assert (Hx : x = IZR j * / IZR n) by reflexivity.
    rewrite Hx. nra. }
  assert (Hgap : / 65536 <= IZR jb / IZR n + IZR ib - (IZR ja / IZR n + IZR ia)).
  { assert (Hint : (n * ia + ja + 1 <= n * ib + jb)%Z) by nia.
    apply IZR_le in Hint. rewrite !plus_IZR, !mult_IZR in Hint.
    assert (Hinv : / 65536 <= / IZR n) by (apply Rinv_le_contravar; lra).
    assert (Hin : IZR n * / IZR n = 1) by (apply Rinv_r; lra).
    assert (Hdiff : IZR jb / IZR n + IZR ib - (IZR ja / IZR n + IZR ia)
                    = (IZR n * IZR ib + IZR jb - (IZR n * IZR ia + IZR ja)) * / IZR n)
      by (field; lra).
    rewrite Hdiff.
    apply Rle_trans with (1 * / IZR n); [lra|].
    apply Rmult_le_compat_r; [|lra]. left. apply Rinv_0_lt_compat. lra. }
  pose proof (Hfrac ja Hja) as Hfa. pose proof (Hfrac jb Hjb) as Hfb.
  assert (HiaR : 0 <= IZR ia <= 24) by (split; apply IZR_le; lia).
  assert (HibR : 0 <= IZR ib <= 24) by (split; apply IZR_le; lia).
  assert (Ha' : - / 524288 <= B2R ta - (IZR ja / IZR n + IZR ia) <= / 524288).
  { pow2_eval. split.
    - pose proof (Rle_abs (- (B2R ta - (IZR ja / IZR n + IZR ia)))) as Hle.
      rewrite Rabs_Ropp in Hle. lra.
    - pose proof (Rle_abs (B2R ta - (IZR ja / IZR n + IZR ia))). lra. }
  assert (Hb' : - / 524288 <= B2R tb - (IZR jb / IZR n + IZR ib) <= / 524288).
  { pow2_eval. split.
    - pose proof (Rle_abs (- (B2R tb - (IZR jb / IZR n + IZR ib)))) as Hle.
      rewrite Rabs_Ropp in Hle. lra.
    - pose proof (Rle_abs (B2R tb - (IZR jb / IZR n + IZR ib))). lra. }
  destruct (level_values powf s ta Hs Hsb ltac:(lra) Hpa)
    as (_ & Hna & _ & _ & Hwa).
  destruct (level_values powf s tb Hs Hsb ltac:(lra) Hpb)
    as (_ & Hnb & _ & _ & Hwb).
  fold (time ta) in Hna, Hwa. fold (time tb) in Hnb, Hwb.
  apply SFltb_normal; [exact Hna | exact Hnb |].
  unfold within in Hwa, Hwb. pow2_eval.
  set (D := B2R tb - B2R ta).
  assert (HD : 3 / 262144 <= D) by (unfold D; lra).
  assert (Hsplit : Rpower 2 (2 * B2R tb) = Rpower 2 (2 * B2R ta) * Rpower 2 (2 * D)).
  { rewrite <- Rpower_plus. f_equal. unfold D. ring. }
  pose proof (Rpower_2_lower (2 * D) ltac:(lra)) as Hgrow.
  rewrite Hsplit in Hwb.
  set (K := / 2 * (B2R s * B2R s) * Rpower 2 (2 * B2R ta)) in *.
  assert (HK : 0 < K).
  { unfold K. apply Rmult_lt_0_compat; [|apply exp_pos].
    assert (0 < B2R s) by lra. nra. }
  replace (/ 2 * (B2R s * B2R s) * (Rpower 2 (2 * B2R ta) * Rpower 2 (2 * D)))
    with (K * Rpower 2 (2 * D)) in Hwb by (unfold K; ring).
  set (G := Rpower 2 (2 * D)) in *.
  assert (HKG : K * (1 + 3 / 262144) <= K * G)
    by (apply Rmult_le_compat_l; lra).
  lra.
Qed.

End Binary32Levels.


(** The value of [pow] at an integral exponent is exact. *)
Lemma pow_accurate_at_0_and_1 (i j : Z) :
  0 <= i < 2 -> 0 <= j < 1 -> pow_accurate B32.pow (level_exponent 1 i j).
Proof.
  intros Hi Hj. assert (Hj0 : j = 0) by lia. subst j.
  assert (Hcases : i = 0 \/ i = 1) by lia.
  destruct Hcases as [-> | ->].
  - assert (Ht : level_exponent 1 0 0 = S754_zero false) by reflexivity.
    assert (Hp : B32.pow (B32.of_Z 2) (S754_zero false) = S754_finite false 8388608 (-23))
      by reflexivity.
    unfold pow_accurate. rewrite Ht, Hp. split; [reflexivity|].
    cbn [B2R]. rewrite Rpower_O by lra. pow2_eval.
    replace (1 * 8388608 * / 8388608 - 1)%R with 0%R by lra.
    rewrite Rabs_R0. lra.
  - assert (Ht : level_exponent 1 1 0 = S754_finite false 8388608 (-23)) by reflexivity.
    assert (Hp : B32.pow (B32.of_Z 2) (S754_finite false 8388608 (-23))
                 = S754_finite false 8388608 (-22)) by reflexivity.
    unfold pow_accurate. rewrite Ht, Hp. split; [reflexivity|].
    cbn [B2R]. pow2_eval.
    replace (1 * 8388608 * / 8388608)%R with 1%R by lra.
    rewrite Rpower_1 by lra.
    replace (1 * 8388608 * / 4194304 - 2)%R with 0%R by lra.
    rewrite Rabs_R0. lra.
Qed.


(** C6 as stated, for the binary32 numbers of the code. *)
Definition etime_increasing_claim : Prop :=
  forall (o : AKAZEOptions B32.binary32) (self : AKAZEFeatures B32.binary32),
    (fzero <. soffset o) = true -> 1 <= nsublevels o ->
    Samples.sample_new o = Ok self ->
    forall (p q : nat) a b, (p < q)%nat ->
      evolution_ self !! p = Some a -> evolution_ self !! q = Some b ->
      (etime a <. etime b) = true.

(** The two levels allocated for a base scale of [2^100]: the square of
    [esigma] overflows, and both evolution times are [+inf]. *)
Lemma huge_offset_etimes :
  exists self,
    Samples.sample_new Samples.huge_offset_options = Ok self /\
    map etime (evolution_ self) = [S754_infinity false; S754_infinity false] /\
    map esigma (evolution_ self) =
      [B32.pow (B32.of_Z 2) (B32.of_Z 100); B32.pow (B32.of_Z 2) (B32.of_Z 101)].
Proof. eexists. split; [reflexivity|]. split; vm_compute; reflexivity. Qed.

(** The two levels allocated for a base scale of [2^-100]: the square of
    [esigma] underflows, and both evolution times are [0]. *)
Lemma tiny_offset_etimes :
  exists self,
    Samples.sample_new
      (Samples.with_soffset Samples.default_options
         (B32.pow (B32.of_Z 2) (B32.of_Z (-100)))) = Ok self /\
    map etime (evolution_ self) = [S754_zero false; S754_zero false].
Proof. eexists. split; [reflexivity|]. vm_compute. reflexivity. Qed.

(** With [2^25] sublevels the exponent of sublevel 1 is [2^-25], where
    [2^x] is within [2^-24] of 1, so that a correctly rounded [pow] returns
    [1.0f] there as it does at the exponent 0 of sublevel 0: the two levels
    get the same scale and the same evolution time. *)
Lemma many_sublevels_same_etime :
  let n := 2 ^ 25 in
  level_exponent n 0 0 = S754_zero false /\
  level_exponent n 0 1 = S754_finite false 8388608 (-48) /\
  (Rabs (1 - Rpower 2 (B2R (level_exponent n 0 1))) <= pow2 (-24))%R /\
  forall (fRound : B32.binary32 -> Z)
         (powf : B32.binary32 -> B32.binary32 -> B32.binary32)
         (o : AKAZEOptions B32.binary32) (w h : Z),
    nsublevels o = n ->
    powf (f_of_Z 2) (level_exponent n 0 0) = fone ->
    powf (f_of_Z 2) (level_exponent n 0 1) = fone ->
    etime (evolution_step fRound powf o w h 0 1 0)
    = etime (evolution_step fRound powf o w h 0 1 1).
Proof.
  cbv zeta.
  assert (Ht0 : level_exponent (2 ^ 25) 0 0 = S754_zero false) by reflexivity.
  assert (Ht1 : level_exponent (2 ^ 25) 0 1 = S754_finite false 8388608 (-48))
    by reflexivity.
  split; [exact Ht0|]. split; [exact Ht1|]. split.
  - rewrite Ht1. cbn [B2R]. pow2_eval.
    replace (1 * 8388608 * / 281474976710656)%R with (/ 33554432)%R by lra.
    pose proof (Rpower_2_upper (/ 33554432) ltac:(lra)) as Hup.
    pose proof (Rpower_2_lower (/ 33554432) ltac:(lra)) as Hlo.
    apply Rabs_le. lra.
  - intros fRound powf o w h Hn H0 H1. unfold evolution_step. cbn [etime].
    rewrite Hn. fold (level_exponent (2 ^ 25) 0 0). fold (level_exponent (2 ^ 25) 0 1).
    rewrite H0, H1. reflexivity.
Qed.


(** ** Configuration errors *)

Lemma full_descriptor_bits_162 (nchannels : Z) :
  full_descriptor_bits nchannels = 162 * nchannels.
Proof. reflexivity. Qed.

Section ConfigurationFacts.
Context {F : Type} `{FloatOps F}.
Variable fresh : nat -> list F.
Variable sched : Z -> Z -> list (Z * Z).
Variable fRound : F -> Z.
Variable powf : F -> F -> F.
Variable fed_tau_by_process_time : F -> Z -> F -> bool -> Z * list F.
Variable fceil : F -> F.
Variable rand : Z -> Z.
Variable uninit : Z.
Variable GaussianBlur : Mat F -> Z -> F -> Mat F.
Variable Scharr : Mat F -> Z -> Z -> Mat F.
Variable resize : Mat F -> Z -> Z -> Mat F.
Variable compute_derivative_kernels : Z -> Z -> Z -> Mat F * Mat F.
Variable sepFilter2D : Mat F -> Mat F -> Mat F -> Mat F.
Variable pm_g1 pm_g2 weickert_diffusivity charbonnier_diffusivity :
  Mat F -> Mat F -> F -> Mat F.
Variable getGaussianKernelSize : F -> Z.

Let new := AKAZEFeatures_new fRound powf fed_tau_by_process_time fceil rand uninit.
Let create :=
  Create_Nonlinear_Scale_Space fresh sched GaussianBlur Scharr resize
    compute_derivative_kernels sepFilter2D pm_g1 pm_g2 weickert_diffusivity
    charbonnier_diffusivity getGaussianKernelSize.
Let diffuse := compute_diffusivity pm_g1 pm_g2 weickert_diffusivity charbonnier_diffusivity.

(** The assertion of the constructor. *)
Lemma AKAZEFeatures_new_throws o :
  0 < descriptor_size o -> DESCRIPTOR_MLDB_UPRIGHT <= descriptor o ->
  162 * descriptor_channels o < descriptor_size o ->
  new o = Throw (StsAssert "nbits <= ssz"%string).
Proof.
  intros Hsize Hdesc Hbits. unfold new, AKAZEFeatures_new.
  destruct (Z.ltb_spec 0 (descriptor_size o)) as [_|?]; [|lia].
  destruct (Z.leb_spec DESCRIPTOR_MLDB_UPRIGHT (descriptor o)) as [_|?]; [|lia].
  cbn [andb]. unfold generateDescriptorSubsample.
  rewrite full_descriptor_bits_162.
  destruct (Z.leb_spec (descriptor_size o) (162 * descriptor_channels o)) as [?|_]; [lia|].
  reflexivity.
Qed.

(** It is the only exception of the constructor. *)
Lemma AKAZEFeatures_new_throw o e :
  new o = Throw e ->
  e = StsAssert "nbits <= ssz"%string /\
  0 < descriptor_size o /\ DESCRIPTOR_MLDB_UPRIGHT <= descriptor o /\
  162 * descriptor_channels o < descriptor_size o.
Proof.
  unfold new, AKAZEFeatures_new.
  destruct (Z.ltb_spec 0 (descriptor_size o)) as [Hsize|?]; [|discriminate].
  destruct (Z.leb_spec DESCRIPTOR_MLDB_UPRIGHT (descriptor o)) as [Hdesc|?];
    [|discriminate].
  cbn [andb]. unfold generateDescriptorSubsample.
  rewrite full_descriptor_bits_162.
  destruct (Z.leb_spec (descriptor_size o) (162 * descriptor_channels o)) as [?|Hbits].
  - cbn [negb]. destruct (select_subsample _ _ _ _ _ _) as [[samples bits]|];
      discriminate.
  - cbn [negb]. intros [= <-]. auto.
Qed.

(** Without a request for a subsampled descriptor the constructor returns. *)
Lemma AKAZEFeatures_new_returns o :
  descriptor_size o <= 0 \/ descriptor o < DESCRIPTOR_MLDB_UPRIGHT ->
  new o =
    Ok (Allocate_Memory_Evolution fRound powf fed_tau_by_process_time
          (mkAKAZEFeatures o [] 0 true [] [] [] [])).
Proof.
  intros Hok. unfold new, AKAZEFeatures_new.
  destruct (Z.ltb_spec 0 (descriptor_size o)) as [Hsize|?]; [|reflexivity].
  destruct (Z.leb_spec DESCRIPTOR_MLDB_UPRIGHT (descriptor o)) as [Hdesc|?];
    [lia | reflexivity].
Qed.

Lemma compute_diffusivity_invalid Lx Ly kcontrast d :
  ~ 0 <= d <= 3 ->
  diffuse Lx Ly kcontrast d = Throw (CvError d "Diffusivity is not supported"%string).
Proof.
  intros Hd. unfold diffuse, compute_diffusivity,
    DIFF_PM_G1, DIFF_PM_G2, DIFF_WEICKERT, DIFF_CHARBONNIER.
  destruct (Z.eqb_spec d 0); [lia|]. destruct (Z.eqb_spec d 1); [lia|].
  destruct (Z.eqb_spec d 2); [lia|]. destruct (Z.eqb_spec d 3); [lia|].
  reflexivity.
Qed.

Lemma compute_diffusivity_valid Lx Ly kcontrast d :
  0 <= d <= 3 -> exists Lflow, diffuse Lx Ly kcontrast d = Ok Lflow.
Proof.
  intros Hd. unfold diffuse, compute_diffusivity,
    DIFF_PM_G1, DIFF_PM_G2, DIFF_WEICKERT, DIFF_CHARBONNIER.
  destruct (Z.eqb_spec d 0); [eexists; reflexivity|].
  destruct (Z.eqb_spec d 1); [eexists; reflexivity|].
  destruct (Z.eqb_spec d 2); [eexists; reflexivity|].
  destruct (Z.eqb_spec d 3); [eexists; reflexivity|]. lia.
Qed.

(** [compute_kcontrast] returns once its two assertions hold and it stays
    within its histogram. *)
Lemma compute_kcontrast_returns Lx Ly perc nbins :
  2 < nbins -> Mat_empty Lx = false -> histogram_defined fresh Lx Ly nbins ->
  exists k, compute_kcontrast fresh Lx Ly perc nbins = Ok k.
Proof.
  intros Hbins Hne Hdef.
  destruct (compute_kcontrast_cases fresh Lx Ly perc nbins Hbins Hne) as [Hret _].
  destruct (Hret Hdef) as (k & Hk & _). eauto.
Qed.

Let evolve :=
  evolve_levels fresh sched GaussianBlur Scharr resize pm_g1 pm_g2
    weickert_diffusivity charbonnier_diffusivity.
Let evolve_one :=
  evolve_level fresh sched GaussianBlur Scharr resize pm_g1 pm_g2
    weickert_diffusivity charbonnier_diffusivity.

(** One round with an invalid selector: level [i] has received its [Lt] and
    [Lsmooth], the other levels are untouched, and the round throws. *)
Lemma evolve_level_invalid self i evolution kcontrast Lstep :
  ~ 0 <= diffusivity (options_ self) <= 3 ->
  exists e k,
    evolve_one self i (evolution, kcontrast, Lstep) =
    (zset evolution i e, k, Lstep,
     Throw (CvError (diffusivity (options_ self)) "Diffusivity is not supported"%string)).
Proof.
  intros Hd. unfold evolve_one, evolve_level.
  destruct (ev_octave _ <? ev_octave _);
    rewrite (compute_diffusivity_invalid _ _ _ _ Hd); eexists; eexists; reflexivity.
Qed.

Lemma evolve_level_valid self i st :
  0 <= diffusivity (options_ self) <= 3 ->
  snd (evolve_one self i st) = Ok tt.
Proof.
  intros Hd. destruct st as [[evolution kcontrast] Lstep].
  unfold evolve_one, evolve_level.
  destruct (ev_octave _ <? ev_octave _);
    match goal with
    | |- context [compute_diffusivity ?a ?b ?c ?d ?Lx ?Ly ?k ?s] =>
        destruct (compute_diffusivity_valid Lx Ly k s Hd) as [Lflow HLflow];
        unfold diffuse in HLflow; rewrite HLflow
    end;
    destruct (fold_left _ _ _); reflexivity.
Qed.

Lemma evolve_levels_valid self (n : nat) : forall i st,
  0 <= diffusivity (options_ self) <= 3 ->
  snd (evolve self n i st) = Ok tt.
Proof.
  induction n as [|n IH]; intros i st Hd; [reflexivity|].
  unfold evolve in *. cbn [evolve_levels].
  pose proof (evolve_level_valid self i st Hd) as Hone. unfold evolve_one in Hone.
  destruct (evolve_level _ _ _ _ _ _ _ _ _ self i st) as [st' [[]|ex|]];
    [|discriminate Hone ..].
  apply IH. exact Hd.
Qed.

(** An invalid selector is found by the first round of the level loop, after
    level 0 has been computed. *)
Lemma Create_Nonlinear_Scale_Space_invalid self img :
  ~ 0 <= diffusivity (options_ self) <= 3 ->
  (2 <= length (evolution_ self))%nat ->
  2 < kcontrast_nbins (options_ self) ->
  Mat_empty (Scharr (GaussianBlur img 5 fone) 1 0) = false ->
  histogram_defined fresh (Scharr (GaussianBlur img 5 fone) 1 0)
    (Scharr (GaussianBlur img 5 fone) 0 1) (kcontrast_nbins (options_ self)) ->
  exists self',
    create self img =
      (self', Throw (CvError (diffusivity (options_ self))
                       "Diffusivity is not supported"%string)) /\
    let first := GaussianBlur img (getGaussianKernelSize (soffset (options_ self)))
                   (soffset (options_ self)) in
    Lsmooth (zget empty_evolution (evolution_ self') 0) = first /\
    Lt (zget empty_evolution (evolution_ self') 0) = first.
Proof.
  intros Hd Hlen Hbins Hne Hdef. unfold create, Create_Nonlinear_Scale_Space.
  destruct (Z.ltb_spec 0 (Z.of_nat (length (evolution_ self)))) as [_|?]; [|lia].
  cbn [negb]. cbv zeta. rewrite length_zset.
  destruct (Z.eqb_spec (Z.of_nat (length (evolution_ self))) 1) as [?|_]; [lia|].
  destruct (compute_kcontrast_returns (Scharr (GaussianBlur img 5 fone) 1 0)
              (Scharr (GaussianBlur img 5 fone) 0 1)
              (kcontrast_percentile (options_ self)) (kcontrast_nbins (options_ self))
              Hbins Hne Hdef) as [k Hk].
  rewrite Hk.
  destruct (length (evolution_ self)) as [|[|n]] eqn:Hn; [lia | lia |].
  replace (Datatypes.S (Datatypes.S n) - 1)%nat with (Datatypes.S n) by lia.
  cbn [evolve_levels].
  match goal with
  | |- context [evolve_level _ _ _ _ _ _ _ _ _ self 1 (?ev, k, released)] =>
      destruct (evolve_level_invalid self 1 ev k released Hd) as (e & k' & Hone);
      unfold evolve_one in Hone; rewrite Hone
  end.
  eexists. split; [reflexivity|].
  cbn [evolution_ set_evolution]. cbv zeta.
  rewrite zget_zset_ne by lia. rewrite zget_zset_eq by lia.
  split; reflexivity.
Qed.

(** A pyramid of one level never calls [compute_diffusivity]. *)
Lemma Create_Nonlinear_Scale_Space_one_level self img :
  length (evolution_ self) = 1%nat -> snd (create self img) = Ok tt.
Proof.
  intros Hlen. unfold create, Create_Nonlinear_Scale_Space.
  rewrite Hlen. cbn [negb Z.ltb Z.of_nat Z.compare Pos.of_succ_nat]. cbv zeta.
  rewrite length_zset, Hlen. reflexivity.
Qed.

(** With a valid selector the call returns; the number of channels plays no
    part. *)
Lemma Create_Nonlinear_Scale_Space_valid self img :
  0 <= diffusivity (options_ self) <= 3 ->
  (1 <= length (evolution_ self))%nat ->
  2 < kcontrast_nbins (options_ self) ->
  Mat_empty (Scharr (GaussianBlur img 5 fone) 1 0) = false ->
  histogram_defined fresh (Scharr (GaussianBlur img 5 fone) 1 0)
    (Scharr (GaussianBlur img 5 fone) 0 1) (kcontrast_nbins (options_ self)) ->
  snd (create self img) = Ok tt.
Proof.
  intros Hd Hlen Hbins Hne Hdef. unfold create, Create_Nonlinear_Scale_Space.
  destruct (Z.ltb_spec 0 (Z.of_nat (length (evolution_ self)))) as [_|?]; [|lia].
  cbn [negb]. cbv zeta. rewrite length_zset.
  destruct (Z.eqb_spec (Z.of_nat (length (evolution_ self))) 1) as [?|_]; [reflexivity|].
  destruct (compute_kcontrast_returns (Scharr (GaussianBlur img 5 fone) 1 0)
              (Scharr (GaussianBlur img 5 fone) 0 1)
              (kcontrast_percentile (options_ self)) (kcontrast_nbins (options_ self))
              Hbins Hne Hdef) as [k Hk].
  rewrite Hk.
  match goal with
  | |- context [evolve_levels _ _ _ _ _ _ _ _ _ self ?n 1 ?st] =>
      pose proof (evolve_levels_valid self n 1 st Hd) as Hall; unfold evolve in Hall;
      destruct (evolve_levels _ _ _ _ _ _ _ _ _ self n 1 st)
        as [[[ev k'] Lstep] [[]|ex|]]
  end; [reflexivity | discriminate Hall ..].
Qed.

End ConfigurationFacts.


(** The object that the constructor builds for the sample options, with a
    diffusivity selector and a number of channels. *)
Definition sample_object (d channels : Z) : AKAZEFeatures B32.binary32 :=
  Allocate_Memory_Evolution Samples.sample_fRound B32.pow Samples.no_cycles
    (mkAKAZEFeatures
       (Samples.with_descriptor (Samples.with_diffusivity Samples.default_options d)
          DESCRIPTOR_MLDB 0 channels)
       [] 0 true [] [] [] []).

Lemma sample_new_object d channels :
  Samples.sample_new
    (Samples.with_descriptor (Samples.with_diffusivity Samples.default_options d)
       DESCRIPTOR_MLDB 0 channels) = Ok (sample_object d channels).
Proof. reflexivity. Qed.

Lemma sample_object_levels d channels :
  length (evolution_ (sample_object d channels)) = 2%nat /\
  Lt (zget empty_evolution (evolution_ (sample_object d channels)) 0) = released.
Proof. split; vm_compute; reflexivity. Qed.

Lemma sample_object_options d channels :
  diffusivity (options_ (sample_object d channels)) = d /\
  kcontrast_nbins (options_ (sample_object d channels)) = 300.
Proof. split; vm_compute; reflexivity. Qed.

Lemma blank_image_not_empty :
  Mat_empty (Samples.sample_scharr (Samples.sample_blur Samples.blank_image 5 fone) 1 0)
  = false.
Proof. reflexivity. Qed.

(** The gradient of the black image is zero: the contrast factor is
    estimated without a look at the histogram. *)
Lemma blank_image_histogram :
  histogram_defined Samples.nan_storage
    (Samples.sample_scharr (Samples.sample_blur Samples.blank_image 5 fone) 1 0)
    (Samples.sample_scharr (Samples.sample_blur Samples.blank_image 5 fone) 0 1) 300.
Proof.
  left. unfold kcontrast_hmax. rewrite gradient_magnitudes_blank; [reflexivity|].
  intros i j _ _.
  assert (Hzero : Mat_at Samples.blank_image i j = B32.of_Z 0).
  { unfold Mat_at, zget, Samples.blank_image. cbn [data cols].
    destruct (_ <? 0); [reflexivity|]. apply nth_repeat. }
  unfold Samples.sample_scharr, Samples.sample_blur. rewrite Hzero. split; reflexivity.
Qed.


(** C5 as stated: a configuration with one of the three errors is reported
    by the constructor or by [Create_Nonlinear_Scale_Space], and in the
    latter case the levels are as the constructor left them. *)
Definition configuration_error (o : AKAZEOptions B32.binary32) : Prop :=
  ~ 0 <= diffusivity o <= 3 \/
  ~ 1 <= descriptor_channels o <= 3 \/
  162 * descriptor_channels o < descriptor_size o.

Definition reported_before_pyramid (o : AKAZEOptions B32.binary32)
    (img : Mat B32.binary32) : Prop :=
  match Samples.sample_new o with
  | Throw _ => True
  | Undefined => False
  | Ok self =>
      exists e, snd (Samples.sample_create self img) = Throw e /\
                evolution_ (fst (Samples.sample_create self img)) = evolution_ self
  end.

Definition configuration_errors_claim : Prop :=
  forall o img, configuration_error o -> reported_before_pyramid o img.

(** A selector of 7 on a two-level pyramid: the error is reported, but level
    0 holds the blurred image by then. *)
Lemma invalid_diffusivity_throw :
  exists self',
    Samples.sample_create (sample_object 7 3) Samples.blank_image =
      (self', Throw (CvError 7 "Diffusivity is not supported"%string)) /\
    Lt (zget empty_evolution (evolution_ self') 0) = Samples.blank_image.
Proof.
  destruct (sample_object_options 7 3) as [Hd Hbins].
  destruct (sample_object_levels 7 3) as [Hlen _].
  destruct (Create_Nonlinear_Scale_Space_invalid Samples.nan_storage Samples.one_stripe
              Samples.sample_blur Samples.sample_scharr Samples.sample_resize
              Samples.sample_kernels Samples.shift_filter Samples.sample_conductivity
              Samples.sample_conductivity Samples.sample_conductivity
              Samples.sample_conductivity Samples.sample_ksize
              (sample_object 7 3) Samples.blank_image)
    as (self' & Hthrow & _ & Hfirst).
  - rewrite Hd. lia.
  - rewrite Hlen. lia.
  - rewrite Hbins. lia.
  - exact blank_image_not_empty.
  - rewrite Hbins. exact blank_image_histogram.
  - exists self'. rewrite Hd in Hthrow. split; [exact Hthrow | exact Hfirst].
Qed.

Lemma invalid_diffusivity_reported_late :
  let o := Samples.with_descriptor
             (Samples.with_diffusivity Samples.default_options 7) DESCRIPTOR_MLDB 0 3 in
  configuration_error o /\ ~ reported_before_pyramid o Samples.blank_image.
Proof.
  intros o. split; [left; cbn; lia|].
  unfold reported_before_pyramid. subst o. rewrite sample_new_object.
  intros (e & _ & Hsame).
  destruct invalid_diffusivity_throw as (self' & Hthrow & Hfirst).
  destruct (sample_object_levels 7 3) as [_ Hreleased].
  rewrite Hthrow in Hsame. cbn [fst] in Hsame.
  rewrite Hsame, Hreleased in Hfirst.
  assert (Hrows : rows (@released B32.binary32) = rows Samples.blank_image)
    by (rewrite Hfirst; reflexivity).
  discriminate Hrows.
Qed.

(** Four channels: neither the constructor nor the construction of the
    pyramid reports anything. *)
Lemma channel_count_not_checked :
  let o := Samples.with_descriptor
             (Samples.with_diffusivity Samples.default_options DIFF_PM_G2)
             DESCRIPTOR_MLDB 0 4 in
  configuration_error o /\
  Samples.sample_new o = Ok (sample_object DIFF_PM_G2 4) /\
  snd (Samples.sample_create (sample_object DIFF_PM_G2 4) Samples.blank_image) = Ok tt.
Proof.
  intros o. split; [right; left; cbn; lia|]. split; [reflexivity|].
  destruct (sample_object_options DIFF_PM_G2 4) as [Hd Hbins].
  destruct (sample_object_levels DIFF_PM_G2 4) as [Hlen _].
  apply Create_Nonlinear_Scale_Space_valid.
  - rewrite Hd. unfold DIFF_PM_G2. lia.
  - rewrite Hlen. lia.
  - rewrite Hbins. lia.
  - exact blank_image_not_empty.
  - rewrite Hbins. exact blank_image_histogram.
Qed.


(** * Further properties *)

(** ** The response pass over the pyramid *)

Section ResponsePass.
Context {F : Type} `{FloatOps F}.
Variable fresh : nat -> list F.
Variable compute_derivative_kernels : Z -> Z -> Z -> Mat F * Mat F.
Variable sepFilter2D : Mat F -> Mat F -> Mat F -> Mat F.

Let level := DeterminantHessianResponse_level fresh compute_derivative_kernels sepFilter2D.

(** What one level keeps and what it loses. *)
Lemma DeterminantHessianResponse_level_fields e :
  Lsmooth (level e) = released /\ Lt (level e) = Lt e /\
  Mx (level e) = Mx e /\ My (level e) = My e /\ Mt (level e) = Mt e /\
  Mdet (level e) = Mdet e /\
  ev_width (level e) = ev_width e /\ ev_height (level e) = ev_height e /\
  etime (level e) = etime e /\ esigma (level e) = esigma e /\
  ev_octave (level e) = ev_octave e /\ sublevel (level e) = sublevel e /\
  sigma_size (level e) = sigma_size e /\ octave_ratio (level e) = octave_ratio e.
Proof.
  unfold level, DeterminantHessianResponse_level.
  destruct (compute_derivative_kernels 1 0 (sigma_size e)) as [DxKx DxKy].
  destruct (compute_derivative_kernels 0 1 (sigma_size e)) as [DyKx DyKy].
  destruct (second_derivatives _ _ e) as [[Lxx Lxy] Lyy].
  repeat split.
Qed.

Lemma Compute_Determinant_Hessian_Response_map sched evolution :
  (forall lo hi, Range_split lo hi (sched lo hi)) ->
  Compute_Determinant_Hessian_Response fresh compute_derivative_kernels sepFilter2D
    sched evolution = map level evolution.
Proof.
  intros Hsplit. apply list_eq. intros i.
  rewrite (Compute_Determinant_Hessian_Response_lookup fresh compute_derivative_kernels
             sepFilter2D sched Hsplit evolution i).
  rewrite list_lookup_fmap. reflexivity.
Qed.

End ResponsePass.

(** X1: whatever stripes [parallel_for_] makes of the levels,
    [Compute_Determinant_Hessian_Response] treats every level exactly once:
    the result is the same for all schedules, the pyramid keeps its length,
    and each level comes out with [Lsmooth] released and with its [Lt], its
    size, scale, octave and window size as they were. *)
Theorem Compute_Determinant_Hessian_Response_levels {F : Type} `{FloatOps F}
    (fresh : nat -> list F)
    (compute_derivative_kernels : Z -> Z -> Z -> Mat F * Mat F)
    (sepFilter2D : Mat F -> Mat F -> Mat F -> Mat F)
    (sched sched' : Z -> Z -> list (Z * Z))
    (evolution : list (Evolution F)) :
  (forall lo hi, Range_split lo hi (sched lo hi)) ->
  (forall lo hi, Range_split lo hi (sched' lo hi)) ->
  let out :=
    Compute_Determinant_Hessian_Response fresh compute_derivative_kernels sepFilter2D
      sched evolution in
  out = Compute_Determinant_Hessian_Response fresh compute_derivative_kernels
          sepFilter2D sched' evolution /\
  length out = length evolution /\
  forall (i : nat) e, evolution !! i = Some e ->
    exists e', out !! i = Some e' /\
      Lsmooth e' = released /\ Lt e' = Lt e /\
      ev_width e' = ev_width e /\ ev_height e' = ev_height e /\
      esigma e' = esigma e /\ etime e' = etime e /\
      ev_octave e' = ev_octave e /\ sublevel e' = sublevel e /\
      sigma_size e' = sigma_size e.
Proof.
  intros Hs Hs' out. subst out.
  rewrite !Compute_Determinant_Hessian_Response_map by assumption.
  split; [reflexivity|]. split; [apply List.length_map|].
  intros i e Hi. eexists. split.
  - rewrite list_lookup_fmap, Hi. reflexivity.
  - pose proof (DeterminantHessianResponse_level_fields fresh compute_derivative_kernels
                  sepFilter2D e) as Hf.
    cbv zeta in Hf. intuition.
Qed.

Lemma unit_stripes_from (n : nat) : forall lo,
  Range_split lo (lo + Z.of_nat n)
    (map (fun k : nat => (lo + Z.of_nat k, lo + Z.of_nat k + 1)) (seq 0 n)).
Proof.
  induction n as [|n IH]; intros lo.
  - apply Range_split_nil. lia.
  - cbn [seq map]. rewrite <- List.seq_shift, List.map_map.
    replace (lo + Z.of_nat 0) with lo by lia.
    apply Range_split_cons; [lia | lia |].
    replace (lo + Z.of_nat (Datatypes.S n)) with (lo + 1 + Z.of_nat n) by lia.
    erewrite List.map_ext; [apply (IH (lo + 1))|].
    intros k. cbv beta. f_equal; lia.
Defined.

Lemma unit_stripes_split lo hi : Range_split lo hi (Samples.unit_stripes lo hi).
Proof.
  unfold Samples.unit_stripes. destruct (Z_le_gt_dec hi lo) as [Hle | Hgt].
  - replace (Z.to_nat (hi - lo)) with 0%nat by lia. apply Range_split_nil. exact Hle.
  - replace hi with (lo + Z.of_nat (Z.to_nat (hi - lo))) at 1 by lia.
    apply unit_stripes_from.
Defined.

(** One stripe per level of a two-level pyramid against a single stripe. *)
Lemma Compute_Determinant_Hessian_Response_levels_witness :
  Compute_Determinant_Hessian_Response Samples.nan_storage Samples.sample_kernels
    Samples.shift_filter Samples.one_stripe [Samples.sample_level; Samples.sample_level]
  = Compute_Determinant_Hessian_Response Samples.nan_storage Samples.sample_kernels
      Samples.shift_filter Samples.unit_stripes
      [Samples.sample_level; Samples.sample_level].
Proof.
  exact (proj1 (Compute_Determinant_Hessian_Response_levels Samples.nan_storage
                  Samples.sample_kernels Samples.shift_filter Samples.one_stripe
                  Samples.unit_stripes [Samples.sample_level; Samples.sample_level]
                  one_stripe_split unit_stripes_split)).
Defined.

(** ** The layout of the pyramid *)

Section PyramidLayout.
Context {F : Type} `{FloatOps F}.
Variable fRound : F -> Z.
Variable powf : F -> F -> F.

Lemma set_omax_same (o : AKAZEOptions F) : set_omax o (omax o) = o.
Proof. destruct o. reflexivity. Qed.

Lemma set_omax_twice (o : AKAZEOptions F) a b : set_omax (set_omax o a) b = set_omax o b.
Proof. destruct o. reflexivity. Qed.

Lemma octave_levels_lookup o w h i power (j : nat) :
  (j < Z.to_nat (nsublevels o))%nat ->
  octave_levels fRound powf o w h i power !! j =
  Some (evolution_step fRound powf o w h i power (Z.of_nat j)).
Proof.
  intros Hj. unfold octave_levels.
  rewrite list_lookup_fmap, lookup_seq_lt by exact Hj. reflexivity.
Qed.

(** The first loop in closed form: [m] octaves are pushed, a whole number of
    times [nsublevels] levels, and [omax] is lowered to the octave at which
    the loop was left, if it was. *)
Lemma allocate_octaves_layout (n : nat) : forall i power o ev,
  exists m : nat,
    (m <= n)%nat /\
    ((1 <= n)%nat -> i = 0 -> (1 <= m)%nat) /\
    fst (allocate_octaves fRound powf n i power o ev) =
      (if (m <? n)%nat then set_omax o (i + Z.of_nat m) else o) /\
    length (snd (allocate_octaves fRound powf n i power o ev)) =
      (length ev + m * Z.to_nat (nsublevels o))%nat /\
    forall k j : nat, (k < m)%nat -> (j < Z.to_nat (nsublevels o))%nat ->
      exists e,
        snd (allocate_octaves fRound powf n i power o ev)
          !! (length ev + k * Z.to_nat (nsublevels o) + j)%nat = Some e /\
        ev_octave e = i + Z.of_nat k /\ sublevel e = Z.of_nat j /\
        octave_ratio e = f_of_Z (power * 2 ^ Z.of_nat k).
Proof.
  induction n as [|n IH]; intros i power o ev.
  - exists 0%nat. cbn. repeat split; lia.
  - cbn [allocate_octaves]. cbv zeta.
    match goal with |- context [if ?c then _ else _] => destruct c eqn:Hbreak end.
    + exists 0%nat. cbn [fst snd]. split; [lia|]. split.
      * intros _ ->. rewrite Z.eqb_refl, andb_false_r in Hbreak. discriminate Hbreak.
      * split; [cbn; f_equal; lia|]. split; [lia|]. intros k j Hk. lia.
    + rewrite push_octave.
      match goal with
      | |- context [octave_levels fRound powf o ?w ?h i power] =>
          set (first := octave_levels fRound powf o w h i power);
          assert (Hlen : length first = Z.to_nat (nsublevels o))
            by apply octave_levels_length;
          assert (Hfirst : forall j : nat, (j < Z.to_nat (nsublevels o))%nat ->
                    first !! j = Some (evolution_step fRound powf o w h i power (Z.of_nat j)))
            by (intros j Hj; apply octave_levels_lookup; exact Hj)
      end.
      destruct (IH (i + 1) (power * 2) o (ev ++ first))
        as (m & Hm & _ & Hopt & Hlength & Hlevels).
      destruct (allocate_octaves_levels fRound powf n (i + 1) (power * 2) o (ev ++ first))
        as (rest & Heq & _).
      exists (Datatypes.S m). split; [lia|]. split; [lia|]. split; [|split].
      * rewrite Hopt. change (Datatypes.S m <? Datatypes.S n)%nat with (m <? n)%nat.
        destruct (m <? n)%nat; [f_equal; lia | reflexivity].
      * rewrite Hlength, List.length_app, Hlen. lia.
      * intros k j Hk Hj. destruct k as [|k].
        -- exists (evolution_step fRound powf o
                     (f_to_Z (f_of_Z (img_width o) ⊗ (fone ⊘ f_of_Z power)))
                     (f_to_Z (f_of_Z (img_height o) ⊗ (fone ⊘ f_of_Z power)))
                     i power (Z.of_nat j)).
           split.
           ++ rewrite Heq, <- List.app_assoc.
              rewrite lookup_app_r by lia.
              replace (length ev + 0 * Z.to_nat (nsublevels o) + j - length ev)%nat
                with j by lia.
              rewrite lookup_app_l by (rewrite Hlen; exact Hj).
              apply Hfirst. exact Hj.
           ++ cbn. repeat split; try lia. f_equal. lia.
        -- destruct (Hlevels k j ltac:(lia) Hj) as (e & He & Hoct & Hsub & Hratio).
           exists e. split.
           ++ rewrite <- He. f_equal. rewrite List.length_app, Hlen. lia.
           ++ split; [lia|]. split; [exact Hsub|]. rewrite Hratio. f_equal.
              rewrite Nat2Z.inj_succ, Z.pow_succ_r by lia. lia.
Qed.

Variable fed_tau_by_process_time : F -> Z -> F -> bool -> Z * list F.

(** The second loop pushes one FED cycle per level after the first. *)
Lemma allocate_time_steps_layout reordering (evolution : list (Evolution F)) :
  let '(ncycles, nsteps, tsteps) :=
    allocate_time_steps fed_tau_by_process_time reordering evolution in
  ncycles = Z.of_nat (length evolution - 1) /\
  length nsteps = (length evolution - 1)%nat /\
  length tsteps = (length evolution - 1)%nat /\
  forall i : nat, (1 <= i < length evolution)%nat ->
    let cycle :=
      fed_tau_by_process_time
        (etime (zget empty_evolution evolution (Z.of_nat i))
         ⊖ etime (zget empty_evolution evolution (Z.of_nat i - 1)))
        1 (flit 1 4) reordering in
    nsteps !! (i - 1)%nat = Some (fst cycle) /\
    tsteps !! (i - 1)%nat = Some (snd cycle).
Proof.
  unfold allocate_time_steps.
  destruct (Nat.eq_dec (length evolution) 0%nat) as [Hzero | Hpos].
  - rewrite Hzero. cbn. repeat split; intros; lia.
  - set (P := fun (i : Z) (st : Z * list Z * list (list F)) =>
        let '(ncycles, nsteps, tsteps) := st in
        ncycles = i - 1 /\ Z.of_nat (length nsteps) = i - 1 /\
        Z.of_nat (length tsteps) = i - 1 /\
        forall k : nat, (1 <= k)%nat -> Z.of_nat k < i ->
          let cycle :=
            fed_tau_by_process_time
              (etime (zget empty_evolution evolution (Z.of_nat k))
               ⊖ etime (zget empty_evolution evolution (Z.of_nat k - 1)))
              1 (flit 1 4) reordering in
          nsteps !! (k - 1)%nat = Some (fst cycle) /\
          tsteps !! (k - 1)%nat = Some (snd cycle)).
    match goal with
    | |- context [for_loop 1 ?hi ?body ?s0] =>
        assert (HP : P hi (for_loop 1 hi body s0))
    end.
    { apply (for_loop_invariant P); [lia | |].
      - unfold P. repeat split; intros; lia.
      - intros i [[ncycles nsteps] tsteps] Hi (Hc & Hn & Ht & Hcontent).
        unfold P. cbv beta iota zeta.
        destruct (fed_tau_by_process_time _ 1 (flit 1 4) reordering) as [naux tau] eqn:Hfed.
        split; [lia|]. rewrite !List.length_app. cbn [length].
        split; [lia|]. split; [lia|].
        intros k Hk Hlt. destruct (Z.eq_dec (Z.of_nat k) i) as [Heq | Hne].
        + rewrite Heq, Hfed. cbn [fst snd].
          rewrite !lookup_app_r by lia.
          replace (k - 1 - length nsteps)%nat with 0%nat by lia.
          replace (k - 1 - length tsteps)%nat with 0%nat by lia.
          split; reflexivity.
        + destruct (Hcontent k Hk ltac:(lia)) as [H1 H2].
          rewrite !lookup_app_l by lia. split; assumption. }
    unfold P in HP.
    destruct (for_loop 1 _ _ _) as [[ncycles nsteps] tsteps].
    destruct HP as (Hc & Hn & Ht & Hcontent).
    split; [lia|]. split; [lia|]. split; [lia|].
    intros i Hi. apply Hcontent; lia.
Qed.

End PyramidLayout.

Section ConstructedObject.
Context {F : Type} `{FloatOps F}.
Variable fRound : F -> Z.
Variable powf : F -> F -> F.
Variable fed_tau_by_process_time : F -> Z -> F -> bool -> Z * list F.
Variable fceil : F -> F.
Variable rand : Z -> Z.
Variable uninit : Z.

Lemma Allocate_Memory_Evolution_fields self :
  let r := allocate_octaves fRound powf (Z.to_nat (omax (options_ self))) 0 1
             (options_ self) (evolution_ self) in
  let t := allocate_time_steps fed_tau_by_process_time (reordering_ self) (snd r) in
  let self' := Allocate_Memory_Evolution fRound powf fed_tau_by_process_time self in
  options_ self' = fst r /\ evolution_ self' = snd r /\
  ncycles_ self' = ncycles_ self + fst (fst t) /\
  nsteps_ self' = nsteps_ self ++ snd (fst t) /\
  tsteps_ self' = tsteps_ self ++ snd t.
Proof.
  cbv zeta. unfold Allocate_Memory_Evolution.
  destruct (allocate_octaves _ _ _ _ _ _ _) as [o evolution]. cbn [fst snd].
  destruct (allocate_time_steps _ _ _) as [[ncycles nsteps] tsteps].
  repeat split.
Qed.

(** The object that the constructor returns is the allocation from an empty
    pyramid with [reordering_ = true]. *)
Lemma AKAZEFeatures_new_fields options self :
  AKAZEFeatures_new fRound powf fed_tau_by_process_time fceil rand uninit options
    = Ok self ->
  let r := allocate_octaves fRound powf (Z.to_nat (omax options)) 0 1 options [] in
  let t := allocate_time_steps fed_tau_by_process_time true (snd r) in
  options_ self = fst r /\ evolution_ self = snd r /\
  ncycles_ self = fst (fst t) /\ nsteps_ self = snd (fst t) /\ tsteps_ self = snd t.
Proof.
  unfold AKAZEFeatures_new.
  destruct (_ && _).
  - destruct (generateDescriptorSubsample _ _ _ _ _ _) as [[samples bits] | e |];
      [|discriminate ..].
    intros Heq. injection Heq as <-.
    apply (Allocate_Memory_Evolution_fields
             (mkAKAZEFeatures options [] 0 true [] [] samples bits)).
  - intros Heq. injection Heq as <-.
    apply (Allocate_Memory_Evolution_fields (mkAKAZEFeatures options [] 0 true [] [] [] [])).
Qed.

End ConstructedObject.

(** X2: the pyramid of a constructed object is a grid of octaves and
    sublevels.  The constructor changes nothing in the options but [omax],
    which it may lower to the number of octaves it allocated (never below 1
    when at least one was asked for); the pyramid has [omax * nsublevels]
    levels, and level [k * nsublevels + j] is sublevel [j] of octave [k],
    with [octave_ratio = 2^k]. *)
Theorem pyramid_layout {F : Type} `{FloatOps F}
    (fRound : F -> Z) (powf : F -> F -> F)
    (fed_tau_by_process_time : F -> Z -> F -> bool -> Z * list F)
    (fceil : F -> F) (rand : Z -> Z) (uninit : Z)
    (o : AKAZEOptions F) (self : AKAZEFeatures F) :
  AKAZEFeatures_new fRound powf fed_tau_by_process_time fceil rand uninit o = Ok self ->
  let octaves := Z.to_nat (omax (options_ self)) in
  let ns := Z.to_nat (nsublevels o) in
  options_ self = set_omax o (omax (options_ self)) /\
  (0 <= omax o -> omax (options_ self) <= omax o) /\
  (1 <= omax o -> 1 <= omax (options_ self)) /\
  length (evolution_ self) = (octaves * ns)%nat /\
  forall k j : nat, (k < octaves)%nat -> (j < ns)%nat ->
    exists e,
      evolution_ self !! (k * ns + j)%nat = Some e /\
      ev_octave e = Z.of_nat k /\ sublevel e = Z.of_nat j /\
      octave_ratio e = f_of_Z (2 ^ Z.of_nat k).
Proof.
  intros Hnew.
  destruct (AKAZEFeatures_new_fields fRound powf fed_tau_by_process_time fceil rand
              uninit o self Hnew) as (Hopt & Hev & _).
  destruct (allocate_octaves_layout fRound powf (Z.to_nat (omax o)) 0 1 o [])
    as (m & Hm & Hone & Hfst & Hlen & Hlevels).
  rewrite <- Hopt in Hfst. rewrite <- Hev in Hlen, Hlevels. cbn [length] in Hlen, Hlevels.
  assert (Homax : omax (options_ self) = if (m <? Z.to_nat (omax o))%nat
                                         then Z.of_nat m else omax o).
  { rewrite Hfst. destruct (m <? Z.to_nat (omax o))%nat; [|reflexivity].
    destruct o. reflexivity. }
  assert (Hoct : Z.to_nat (omax (options_ self)) = m).
  { rewrite Homax. destruct (Nat.ltb_spec m (Z.to_nat (omax o))); lia. }
  cbv zeta. rewrite Hoct.
  split; [|split; [|split; [|split]]].
  - rewrite Hfst. destruct (m <? Z.to_nat (omax o))%nat eqn:Hlt.
    + destruct o. reflexivity.
    + symmetry. apply set_omax_same.
  - intros Hpos. rewrite Homax. destruct (Nat.ltb_spec m (Z.to_nat (omax o))); lia.
  - intros Hpos. specialize (Hone ltac:(lia) eq_refl).
    rewrite Homax. destruct (Nat.ltb_spec m (Z.to_nat (omax o))); lia.
  - exact Hlen.
  - intros k j Hk Hj. destruct (Hlevels k j Hk Hj) as (e & He & Ho & Hs & Hr).
    exists e. repeat split; try assumption.
    + rewrite Hr. f_equal. lia.
Qed.

(** The sample options give two octaves of one sublevel. *)
Lemma pyramid_layout_witness :
  length (evolution_ (sample_object DIFF_PM_G2 3)) = 2%nat /\
  omax (options_ (sample_object DIFF_PM_G2 3)) = 2.
Proof.
  destruct (pyramid_layout Samples.sample_fRound B32.pow Samples.no_cycles
              sample_ceil sample_rand 0 _ _ (sample_new_object DIFF_PM_G2 3))
    as (_ & Hle & Hge & Hlen & _).
  assert (Homax : omax (options_ (sample_object DIFF_PM_G2 3)) = 2).
  { vm_compute. reflexivity. }
  split; [|exact Homax].
  rewrite Hlen, Homax. reflexivity.
Defined.

(** X3: a constructed object holds one FED cycle per level after the first:
    [ncycles_] is the number of levels minus one, [nsteps_] and [tsteps_]
    have that many entries, and entry [i - 1], the one the level loop reads
    for level [i], is the cycle for the time between levels [i - 1] and
    [i]. *)
Theorem fed_cycles_layout {F : Type} `{FloatOps F}
    (fRound : F -> Z) (powf : F -> F -> F)
    (fed_tau_by_process_time : F -> Z -> F -> bool -> Z * list F)
    (fceil : F -> F) (rand : Z -> Z) (uninit : Z)
    (o : AKAZEOptions F) (self : AKAZEFeatures F) :
  AKAZEFeatures_new fRound powf fed_tau_by_process_time fceil rand uninit o = Ok self ->
  let levels := length (evolution_ self) in
  ncycles_ self = Z.of_nat (levels - 1) /\
  length (nsteps_ self) = (levels - 1)%nat /\
  length (tsteps_ self) = (levels - 1)%nat /\
  forall i : nat, (1 <= i < levels)%nat ->
    let cycle :=
      fed_tau_by_process_time
        (etime (zget empty_evolution (evolution_ self) (Z.of_nat i))
         ⊖ etime (zget empty_evolution (evolution_ self) (Z.of_nat i - 1)))
        1 (flit 1 4) true in
    nsteps_ self !! (i - 1)%nat = Some (fst cycle) /\
    tsteps_ self !! (i - 1)%nat = Some (snd cycle).
Proof.
  intros Hnew.
  destruct (AKAZEFeatures_new_fields fRound powf fed_tau_by_process_time fceil rand
              uninit o self Hnew) as (_ & Hev & Hc & Hn & Ht).
  rewrite <- Hev in Hc, Hn, Ht.
  pose proof (allocate_time_steps_layout fed_tau_by_process_time true (evolution_ self))
    as Hlayout.
  destruct (allocate_time_steps fed_tau_by_process_time true (evolution_ self))
    as [[ncycles nsteps] tsteps].
  cbn [fst snd] in Hc, Hn, Ht. rewrite Hc, Hn, Ht. exact Hlayout.
Qed.

Lemma fed_cycles_layout_witness :
  ncycles_ (sample_object DIFF_PM_G2 3) = 1 /\
  length (tsteps_ (sample_object DIFF_PM_G2 3)) = 1%nat.
Proof.
  destruct (fed_cycles_layout Samples.sample_fRound B32.pow Samples.no_cycles
              sample_ceil sample_rand 0 _ _ (sample_new_object DIFF_PM_G2 3))
    as (Hc & _ & Ht & _).
  assert (Hlen : length (evolution_ (sample_object DIFF_PM_G2 3)) = 2%nat)
    by (vm_compute; reflexivity).
  rewrite Hlen in Hc, Ht. split; [exact Hc | exact Ht].
Defined.

(** ** The outcome of the scale-space construction *)

Section ScaleSpaceOutcome.
Context {F : Type} `{FloatOps F}.
Variable fresh : nat -> list F.
Variable sched : Z -> Z -> list (Z * Z).
Variable GaussianBlur : Mat F -> Z -> F -> Mat F.
Variable Scharr : Mat F -> Z -> Z -> Mat F.
Variable resize : Mat F -> Z -> Z -> Mat F.
Variable compute_derivative_kernels : Z -> Z -> Z -> Mat F * Mat F.
Variable sepFilter2D : Mat F -> Mat F -> Mat F -> Mat F.
Variable pm_g1 pm_g2 weickert_diffusivity charbonnier_diffusivity :
  Mat F -> Mat F -> F -> Mat F.
Variable getGaussianKernelSize : F -> Z.

Let create :=
  Create_Nonlinear_Scale_Space fresh sched GaussianBlur Scharr resize
    compute_derivative_kernels sepFilter2D pm_g1 pm_g2 weickert_diffusivity
    charbonnier_diffusivity getGaussianKernelSize.
Let evolve :=
  evolve_levels fresh sched GaussianBlur Scharr resize pm_g1 pm_g2
    weickert_diffusivity charbonnier_diffusivity.
Let evolve_one :=
  evolve_level fresh sched GaussianBlur Scharr resize pm_g1 pm_g2
    weickert_diffusivity charbonnier_diffusivity.

(** The fields of a level that say where it sits in the pyramid. *)
Definition level_geometry (e : Evolution F) : Z * Z * F * F * Z * Z * Z * F :=
  (ev_width e, ev_height e, etime e, esigma e, ev_octave e, sublevel e,
   sigma_size e, octave_ratio e).

Lemma level_geometry_zset (ev : list (Evolution F)) i e :
  level_geometry e = level_geometry (zget empty_evolution ev i) ->
  map level_geometry (zset ev i e) = map level_geometry ev.
Proof.
  intros He. unfold zset. destruct (Z.ltb_spec i 0) as [Hneg|Hpos]; [reflexivity|].
  destruct (Nat.lt_ge_cases (Z.to_nat i) (length ev)) as [Hin|Hout].
  - rewrite list_fmap_insert, He. apply list_insert_id.
    rewrite list_lookup_fmap.
    rewrite (zget_in_range empty_evolution ev i) by lia. reflexivity.
  - rewrite list_insert_ge by lia. reflexivity.
Qed.

Lemma level_geometry_zget_zset (ev : list (Evolution F)) i e j :
  level_geometry e = level_geometry (zget empty_evolution ev i) ->
  level_geometry (zget empty_evolution (zset ev i e) j) =
  level_geometry (zget empty_evolution ev j).
Proof.
  intros He. destruct (Z.eq_dec i j) as [<- | Hne];
    [|rewrite zget_zset_ne by exact Hne; reflexivity].
  destruct (Z_lt_ge_dec i 0) as [Hneg | Hpos].
  - unfold zset. destruct (Z.ltb_spec i 0); [reflexivity | lia].
  - destruct (Z_lt_ge_dec i (Z.of_nat (length ev))) as [Hin | Hout].
    + rewrite zget_zset_eq by lia. exact He.
    + unfold zset. destruct (Z.ltb_spec i 0); [reflexivity|].
      rewrite list_insert_ge by lia. reflexivity.
Qed.

Lemma level_geometry_length (a b : list (Evolution F)) :
  map level_geometry a = map level_geometry b -> length a = length b.
Proof. intros Heq. apply (f_equal (@length _)) in Heq. now rewrite !List.length_map in Heq. Qed.

(** A round of the level loop rewrites matrices of level [i] only. *)
Lemma evolve_level_geometry self i ev k Lstep :
  map level_geometry (fst (fst (fst (evolve_one self i (ev, k, Lstep))))) =
  map level_geometry ev.
Proof.
  unfold evolve_one, evolve_level.
  destruct (ev_octave _ <? ev_octave _);
    destruct (compute_diffusivity _ _ _ _ _ _ _ _) as [Lflow|ex|];
    try destruct (fold_left _ _ _) as [Lt' Lstep'];
    cbn [fst];
    repeat first [ reflexivity
                 | rewrite level_geometry_zset
                 | rewrite level_geometry_zget_zset ].
Qed.

Lemma evolve_levels_geometry self (n : nat) : forall i ev k Lstep,
  map level_geometry (fst (fst (fst (evolve self n i (ev, k, Lstep))))) =
  map level_geometry ev.
Proof.
  induction n as [|n IH]; intros i ev k Lstep; [reflexivity|].
  unfold evolve in *. cbn [evolve_levels].
  pose proof (evolve_level_geometry self i ev k Lstep) as Hone. unfold evolve_one in Hone.
  destruct (evolve_level _ _ _ _ _ _ _ _ _ self i (ev, k, Lstep))
    as [[[ev' k'] Lstep'] [[]|ex|]]; cbn [fst] in *; [|exact Hone ..].
  rewrite IH. exact Hone.
Qed.

Lemma downloadPyramid_map (ev : list (Evolution F)) : downloadPyramid ev = map download ev.
Proof.
  unfold downloadPyramid. apply list_eq. intros i.
  rewrite for_loop_alter_lookup by lia. rewrite list_lookup_fmap.
  destruct (in_range_spec 0 (Z.of_nat (length ev)) i) as [_|Hout]; [reflexivity|].
  rewrite (lookup_ge_None_2 ev i) by lia. reflexivity.
Qed.

Hypothesis sched_split : forall lo hi, Range_split lo hi (sched lo hi).

(** The last two statements of the function: response, then download. *)
Lemma finished_pyramid (ev : list (Evolution F)) :
  let out :=
    downloadPyramid
      (Compute_Determinant_Hessian_Response fresh compute_derivative_kernels
         sepFilter2D sched ev) in
  map level_geometry out = map level_geometry ev /\
  Forall (fun e => Lsmooth e = released /\ Mx e = Lx e /\ My e = Ly e /\
                   Mt e = Lt e /\ Mdet e = Ldet e) out.
Proof.
  cbv zeta.
  rewrite downloadPyramid_map, Compute_Determinant_Hessian_Response_map by exact sched_split.
  rewrite List.map_map. split.
  - rewrite List.map_map. apply List.map_ext. intros e. cbv beta.
    pose proof (DeterminantHessianResponse_level_fields fresh compute_derivative_kernels
                  sepFilter2D e) as Hf.
    cbv zeta in Hf. unfold level_geometry, download. cbn.
    destruct Hf as (_ & _ & _ & _ & _ & _ & -> & -> & -> & -> & -> & -> & -> & ->).
    reflexivity.
  - apply List.Forall_forall. intros e' He'.
    apply List.in_map_iff in He'. destruct He' as (e1 & Heq & He1). subst e'.
    apply List.in_map_iff in He1. destruct He1 as (e & Heq & _). subst e1.
    pose proof (DeterminantHessianResponse_level_fields fresh compute_derivative_kernels
                  sepFilter2D e) as Hf.
    cbv zeta in Hf. destruct Hf as (Hsm & _).
    unfold download. cbn.
    split; [exact Hsm | repeat split].
Qed.

(** Every way out of the function, in the order in which the code meets
    them. *)
Lemma Create_Nonlinear_Scale_Space_result self img :
  let outcome := snd (create self img) in
  let Lx := Scharr (GaussianBlur img 5 fone) 1 0 in
  let Ly := Scharr (GaussianBlur img 5 fone) 0 1 in
  let nbins := kcontrast_nbins (options_ self) in
  match length (evolution_ self) with
  | 0%nat => outcome = Throw (StsAssert "evolution_.size() > 0"%string)
  | 1%nat => outcome = Ok tt
  | _ =>
      if negb (2 <? nbins) then outcome = Throw (StsAssert "nbins > 2"%string)
      else if Mat_empty Lx then outcome = Throw (StsAssert "!Lx.empty()"%string)
      else
        (~ histogram_defined fresh Lx Ly nbins -> outcome = Undefined) /\
        (histogram_defined fresh Lx Ly nbins ->
         outcome =
           if (0 <=? diffusivity (options_ self)) && (diffusivity (options_ self) <=? 3)
           then Ok tt
           else Throw (CvError (diffusivity (options_ self))
                         "Diffusivity is not supported"%string))
  end.
Proof.
  cbv zeta.
  destruct (length (evolution_ self)) as [|[|n]] eqn:Hlen.
  { unfold create, Create_Nonlinear_Scale_Space. rewrite Hlen. reflexivity. }
  { apply Create_Nonlinear_Scale_Space_one_level. exact Hlen. }
  assert (Hstart : snd (create self img) =
            match compute_kcontrast fresh (Scharr (GaussianBlur img 5 fone) 1 0)
                    (Scharr (GaussianBlur img 5 fone) 0 1)
                    (kcontrast_percentile (options_ self))
                    (kcontrast_nbins (options_ self)) with
            | Ok _ => snd (create self img)
            | Throw ex => Throw ex
            | Undefined => Undefined
            end).
  { unfold create, Create_Nonlinear_Scale_Space. rewrite Hlen.
    cbn [negb Z.ltb Z.of_nat Z.compare]. cbv zeta. rewrite length_zset, Hlen.
    destruct (Z.eqb_spec (Z.of_nat (Datatypes.S (Datatypes.S n))) 1) as [?|_]; [lia|].
    destruct (compute_kcontrast _ _ _ _ _); reflexivity. }
  destruct (Z.ltb_spec 2 (kcontrast_nbins (options_ self))) as [Hbins | Hbins]; cbn [negb].
  2: { rewrite Hstart. unfold compute_kcontrast.
       destruct (Z.ltb_spec 2 (kcontrast_nbins (options_ self))) as [?|_]; [lia|].
       reflexivity. }
  destruct (Mat_empty (Scharr (GaussianBlur img 5 fone) 1 0)) eqn:Hempty.
  { rewrite Hstart. unfold compute_kcontrast.
    destruct (Z.ltb_spec 2 (kcontrast_nbins (options_ self))) as [_|?]; [|lia].
    cbn [negb]. rewrite Hempty. reflexivity. }
  split.
  { intros Hnot. rewrite Hstart.
    destruct (compute_kcontrast_cases fresh _ (Scharr (GaussianBlur img 5 fone) 0 1)
                (kcontrast_percentile (options_ self)) _ Hbins Hempty) as [_ Hund].
    rewrite (Hund Hnot). reflexivity. }
  intros Hdef.
  destruct (Z.leb_spec 0 (diffusivity (options_ self))) as [Hlo | Hlo];
    destruct (Z.leb_spec (diffusivity (options_ self)) 3) as [Hhi | Hhi]; cbn [andb];
    try (apply Create_Nonlinear_Scale_Space_valid;
         [lia | lia | exact Hbins | exact Hempty | exact Hdef]);
    destruct (Create_Nonlinear_Scale_Space_invalid fresh sched GaussianBlur Scharr resize
                compute_derivative_kernels sepFilter2D pm_g1 pm_g2 weickert_diffusivity
                charbonnier_diffusivity getGaussianKernelSize self img)
      as (self' & Hthrow & _); try lia; try assumption;
    unfold create; rewrite Hthrow; reflexivity.
Qed.

(** The object after the call, whichever way the call ended. *)
Lemma Create_Nonlinear_Scale_Space_object self img :
  let self' := fst (create self img) in
  options_ self' = options_ self /\ ncycles_ self' = ncycles_ self /\
  nsteps_ self' = nsteps_ self /\ tsteps_ self' = tsteps_ self /\
  map level_geometry (evolution_ self') = map level_geometry (evolution_ self) /\
  (snd (create self img) = Ok tt ->
   Forall (fun e => Lsmooth e = released /\ Mx e = Lx e /\ My e = Ly e /\
                    Mt e = Lt e /\ Mdet e = Ldet e) (evolution_ self')).
Proof.
  cbv zeta. unfold create, Create_Nonlinear_Scale_Space.
  destruct (Z.ltb_spec 0 (Z.of_nat (length (evolution_ self)))) as [Hpos|Hzero]; cbn [negb].
  2: { cbn [fst snd]. repeat split. intros Hc. discriminate Hc. }
  cbv zeta.
  set (ev0 := zset (evolution_ self) 0 _).
  assert (Hg0 : map level_geometry ev0 = map level_geometry (evolution_ self)).
  { subst ev0. apply level_geometry_zset. reflexivity. }
  destruct (Z.of_nat (length ev0) =? 1).
  { cbn [fst snd set_evolution options_ ncycles_ nsteps_ tsteps_ evolution_].
    destruct (finished_pyramid ev0) as [Hg Hm]. cbv zeta in Hg, Hm.
    repeat split; try (intros _; exact Hm). rewrite Hg. exact Hg0. }
  destruct (compute_kcontrast _ _ _ _ _) as [k | ex |].
  2, 3: cbn [fst snd set_evolution options_ ncycles_ nsteps_ tsteps_ evolution_];
        repeat split; try exact Hg0; intros Hc; discriminate Hc.
  pose proof (evolve_levels_geometry self (length ev0 - 1) 1 ev0 k released) as Hg1.
  unfold evolve in Hg1.
  destruct (evolve_levels _ _ _ _ _ _ _ _ _ self (length ev0 - 1) 1 (ev0, k, released))
    as [[[ev1 k1] Lstep1] [[]|ex|]]; cbn [fst] in Hg1;
    cbn [fst snd set_evolution options_ ncycles_ nsteps_ tsteps_ evolution_].
  - destruct (finished_pyramid ev1) as [Hg Hm]. cbv zeta in Hg, Hm.
    repeat split; try (intros _; exact Hm). rewrite Hg, Hg1. exact Hg0.
  - repeat split; try (rewrite Hg1; exact Hg0). intros Hc. discriminate Hc.
  - repeat split; try (rewrite Hg1; exact Hg0). intros Hc. discriminate Hc.
Qed.

End ScaleSpaceOutcome.

(** X4: what [Create_Nonlinear_Scale_Space] leaves behind.  However the call
    ends, the options and the FED tables of the object are untouched and
    every level keeps its size, its times, its octave and its window size:
    the call only fills images in.  When it returns normally every level,
    not only the last one, has its [Lsmooth] released and carries in [Mx],
    [My], [Mt] and [Mdet] the downloaded copies of [Lx], [Ly], [Lt] and
    [Ldet]. *)
Theorem Create_Nonlinear_Scale_Space_leaves {F : Type} `{FloatOps F}
    (fresh : nat -> list F) (sched : Z -> Z -> list (Z * Z))
    (GaussianBlur : Mat F -> Z -> F -> Mat F)
    (Scharr resize : Mat F -> Z -> Z -> Mat F)
    (compute_derivative_kernels : Z -> Z -> Z -> Mat F * Mat F)
    (sepFilter2D : Mat F -> Mat F -> Mat F -> Mat F)
    (pm_g1 pm_g2 weickert_diffusivity charbonnier_diffusivity :
       Mat F -> Mat F -> F -> Mat F)
    (getGaussianKernelSize : F -> Z)
    (self : AKAZEFeatures F) (img : Mat F) :
  (forall lo hi, Range_split lo hi (sched lo hi)) ->
  let run :=
    Create_Nonlinear_Scale_Space fresh sched GaussianBlur Scharr resize
      compute_derivative_kernels sepFilter2D pm_g1 pm_g2 weickert_diffusivity
      charbonnier_diffusivity getGaussianKernelSize self img in
  options_ (fst run) = options_ self /\
  ncycles_ (fst run) = ncycles_ self /\
  nsteps_ (fst run) = nsteps_ self /\
  tsteps_ (fst run) = tsteps_ self /\
  length (evolution_ (fst run)) = length (evolution_ self) /\
  (forall (i : nat) e, evolution_ self !! i = Some e ->
     exists e', evolution_ (fst run) !! i = Some e' /\
       level_geometry e' = level_geometry e) /\
  (snd run = Ok tt ->
   forall e', In e' (evolution_ (fst run)) ->
     Lsmooth e' = released /\ Mx e' = Lx e' /\ My e' = Ly e' /\
     Mt e' = Lt e' /\ Mdet e' = Ldet e').
Proof.
  intros Hsplit run.
  destruct (Create_Nonlinear_Scale_Space_object fresh sched GaussianBlur Scharr resize
              compute_derivative_kernels sepFilter2D pm_g1 pm_g2 weickert_diffusivity
              charbonnier_diffusivity getGaussianKernelSize Hsplit self img)
    as (Ho & Hn & Hs & Ht & Hg & Hready).
  fold run in Ho, Hn, Hs, Ht, Hg, Hready.
  repeat (split; [assumption|]).
  split; [exact (level_geometry_length _ _ Hg)|]. split.
  - intros i e Hi.
    assert (Hlook : map level_geometry (evolution_ (fst run)) !! i
                    = Some (level_geometry e)).
    { rewrite Hg, list_lookup_fmap, Hi. reflexivity. }
    rewrite list_lookup_fmap in Hlook.
    destruct (evolution_ (fst run) !! i) as [e'|]; [|discriminate Hlook].
    exists e'. split; [reflexivity|]. cbn in Hlook. congruence.
  - intros Hok e' He'. exact (proj1 (List.Forall_forall _ _) (Hready Hok) e' He').
Qed.

(** The two-level pyramid of the black 160x124 image, built with Perona-Malik g2:
    the call returns, the levels keep their octaves and both are ready for
    detection. *)
Lemma Create_Nonlinear_Scale_Space_leaves_witness :
  options_ (fst (Samples.sample_create (sample_object DIFF_PM_G2 3) Samples.blank_image))
    = options_ (sample_object DIFF_PM_G2 3) /\
  length (evolution_ (fst (Samples.sample_create (sample_object DIFF_PM_G2 3)
                             Samples.blank_image)))
    = length (evolution_ (sample_object DIFF_PM_G2 3)) /\
  forall e',
    In e' (evolution_ (fst (Samples.sample_create (sample_object DIFF_PM_G2 3)
                              Samples.blank_image))) ->
    Lsmooth e' = released /\ Mdet e' = Ldet e'.
Proof.
  unfold Samples.sample_create.
  destruct (Create_Nonlinear_Scale_Space_leaves Samples.nan_storage Samples.one_stripe
              Samples.sample_blur Samples.sample_scharr Samples.sample_resize
              Samples.sample_kernels Samples.shift_filter Samples.sample_conductivity
              Samples.sample_conductivity Samples.sample_conductivity
              Samples.sample_conductivity Samples.sample_ksize
              (sample_object DIFF_PM_G2 3) Samples.blank_image one_stripe_split)
    as (Ho & _ & _ & _ & Hlen & _ & Hready).
  split; [exact Ho|]. split; [exact Hlen|].
  intros e' He'.
  enough (Hall : Lsmooth e' = released /\ Mx e' = Lx e' /\ My e' = Ly e' /\
                 Mt e' = Lt e' /\ Mdet e' = Ldet e')
    by (split; [exact (proj1 Hall) | exact (proj2 (proj2 (proj2 (proj2 Hall))))]).
  apply (Hready); [|exact He'].
  { destruct (sample_object_options DIFF_PM_G2 3) as [Hd Hbins].
    destruct (sample_object_levels DIFF_PM_G2 3) as [Hl _].
    apply Create_Nonlinear_Scale_Space_valid.
    - rewrite Hd. unfold DIFF_PM_G2. lia.
    - rewrite Hl. lia.
    - rewrite Hbins. lia.
    - exact blank_image_not_empty.
    - rewrite Hbins. exact blank_image_histogram. }
Defined.


(** ** Every cell of the diffusion step *)

Section DiffusionCells.
Context {F : Type} `{FloatOps F}.
Implicit Types (m : Mat F).

Variables (Lt Lf : Mat F) (step_size : F).

(** The value written at the inner cell [1 + j] of the top row, of a middle
    row and of the bottom row, and at the two ends of a middle row. *)
Definition top_value (j : Z) : F :=
  let lt_c := fun j => Mat_at Lt 0 (1 + j) in
  let lf_c := fun j => Mat_at Lf 0 (1 + j) in
  let lt_b := fun j => Mat_at Lt 1 (1 + j) in
  let lf_b := fun j => Mat_at Lf 1 (1 + j) in
  ((lf_c j ⊕ lf_c (j + 1)) ⊗ (lt_c (j + 1) ⊖ lt_c j) ⊕
   (lf_c j ⊕ lf_c (j - 1)) ⊗ (lt_c (j - 1) ⊖ lt_c j) ⊕
   (lf_c j ⊕ lf_b j) ⊗ (lt_b j ⊖ lt_c j)) ⊗ step_size.

Definition bottom_value (row j : Z) : F :=
  let lt_a := fun j => Mat_at Lt (row - 1) (1 + j) in
  let lf_a := fun j => Mat_at Lf (row - 1) (1 + j) in
  let lt_c := fun j => Mat_at Lt row (1 + j) in
  let lf_c := fun j => Mat_at Lf row (1 + j) in
  ((lf_c j ⊕ lf_c (j + 1)) ⊗ (lt_c (j + 1) ⊖ lt_c j) ⊕
   (lf_c j ⊕ lf_c (j - 1)) ⊗ (lt_c (j - 1) ⊖ lt_c j) ⊕
   (lf_c j ⊕ lf_a j) ⊗ (lt_a j ⊖ lt_c j)) ⊗ step_size.

Definition left_value (row : Z) : F :=
  let lt_a := fun j => Mat_at Lt (row - 1) j in
  let lf_a := fun j => Mat_at Lf (row - 1) j in
  let lt_c := fun j => Mat_at Lt row j in
  let lf_c := fun j => Mat_at Lf row j in
  let lt_b := fun j => Mat_at Lt (row + 1) j in
  let lf_b := fun j => Mat_at Lf (row + 1) j in
  ((lf_c 0 ⊕ lf_c 1) ⊗ (lt_c 1 ⊖ lt_c 0) ⊕
   (lf_c 0 ⊕ lf_b 0) ⊗ (lt_b 0 ⊖ lt_c 0) ⊕
   (lf_c 0 ⊕ lf_a 0) ⊗ (lt_a 0 ⊖ lt_c 0)) ⊗ step_size.

Definition middle_value (row j : Z) : F :=
  let lt_a := fun j => Mat_at Lt (row - 1) (1 + j) in
  let lf_a := fun j => Mat_at Lf (row - 1) (1 + j) in
  let lt_c := fun j => Mat_at Lt row (1 + j) in
  let lf_c := fun j => Mat_at Lf row (1 + j) in
  let lt_b := fun j => Mat_at Lt (row + 1) (1 + j) in
  let lf_b := fun j => Mat_at Lf (row + 1) (1 + j) in
  ((lf_c j ⊕ lf_c (j + 1)) ⊗ (lt_c (j + 1) ⊖ lt_c j) ⊕
   (lf_c j ⊕ lf_c (j - 1)) ⊗ (lt_c (j - 1) ⊖ lt_c j) ⊕
   (lf_c j ⊕ lf_b j) ⊗ (lt_b j ⊖ lt_c j) ⊕
   (lf_c j ⊕ lf_a j) ⊗ (lt_a j ⊖ lt_c j)) ⊗ step_size.

Definition right_value (row : Z) : F :=
  let cols_ := cols Lt - 2 in
  let lt_a := fun j => Mat_at Lt (row - 1) (1 + j) in
  let lf_a := fun j => Mat_at Lf (row - 1) (1 + j) in
  let lt_c := fun j => Mat_at Lt row (1 + j) in
  let lf_c := fun j => Mat_at Lf row (1 + j) in
  let lt_b := fun j => Mat_at Lt (row + 1) (1 + j) in
  let lf_b := fun j => Mat_at Lf (row + 1) (1 + j) in
  ((lf_c cols_ ⊕ lf_c (cols_ - 1)) ⊗ (lt_c (cols_ - 1) ⊖ lt_c cols_) ⊕
   (lf_c cols_ ⊕ lf_b cols_) ⊗ (lt_b cols_ ⊖ lt_c cols_) ⊕
   (lf_c cols_ ⊕ lf_a cols_) ⊗ (lt_a cols_ ⊖ lt_c cols_)) ⊗ step_size.

Lemma nld_top_row_values Lstep :
  nld_top_row Lt Lf Lstep step_size
  = row_fill 0 (cols Lt - 2) fzero fzero top_value Lstep.
Proof. reflexivity. Qed.

Lemma nld_bottom_row_values Lstep row :
  nld_bottom_row Lt Lf Lstep step_size row
  = row_fill row (cols Lt - 2) fzero fzero (bottom_value row) Lstep.
Proof. reflexivity. Qed.

Lemma nld_middle_row_values row Lstep :
  nld_middle_row Lt Lf step_size row Lstep
  = row_fill row (cols Lt - 2) (left_value row) (right_value row) (middle_value row) Lstep.
Proof. reflexivity. Qed.

(** The value that the step leaves in cell [(r, c)]. *)
Definition nld_cell (r c : Z) : F :=
  let ends v0 v1 (v : Z -> F) :=
    if c =? 0 then v0 else if c =? cols Lt - 1 then v1 else v (c - 1) in
  if r =? 0 then ends fzero fzero top_value
  else if r =? rows Lt - 1 then ends fzero fzero (bottom_value r)
  else ends (left_value r) (right_value r) (middle_value r).

(** A buffer of the size of [Lt] whose rows [lo, hi) hold their final
    values. *)
Definition rows_done (lo hi : Z) m : Prop :=
  Mat_wf m /\ rows m = rows Lt /\ cols m = cols Lt /\
  forall r c, lo <= r < hi -> 0 <= c < cols Lt -> Mat_at m r c = nld_cell r c.

(** All the cells of the row that [row_fill] writes. *)
Lemma row_fill_cells row cols_ v0 v1 v m c :
  0 <= cols_ -> cols m = cols_ + 2 -> Mat_wf m -> 0 <= row < rows m ->
  0 <= c < cols m ->
  Mat_at (row_fill row cols_ v0 v1 v m) row c =
  if c =? 0 then v0 else if c =? cols_ + 1 then v1 else v (c - 1).
Proof.
  intros Hc Hcols Hwf Hrow Hcc.
  destruct (row_fill_ends row cols_ v0 v1 v m Hc Hcols Hwf Hrow) as [H0 H1].
  destruct (Z.eqb_spec c 0) as [-> | Hn0]; [exact H0|].
  destruct (Z.eqb_spec c (cols_ + 1)) as [-> | Hn1].
  { rewrite Z.add_comm. exact H1. }
  unfold row_fill.
  set (m0 := Mat_set m row 0 v0).
  set (body := fun j L => Mat_set L row (1 + j) (v j)).
  assert (Hinv : forall hi, 0 <= hi <= cols_ ->
            let L := for_loop 0 hi body m0 in
            Mat_wf L /\ rows L = rows m /\ cols L = cols m /\
            forall j, 0 <= j < hi -> Mat_at L row (1 + j) = v j).
  { intros hi Hhi.
    apply (for_loop_invariant
             (fun i L => Mat_wf L /\ rows L = rows m /\ cols L = cols m /\
                         forall j, 0 <= j < i -> Mat_at L row (1 + j) = v j)).
    - lia.
    - split; [apply Mat_set_wf, Hwf|]. repeat split. intros j Hj. lia.
    - intros i L Hi (HwfL & HrL & HcL & Hdone). subst body. cbv beta.
      split; [apply Mat_set_wf, HwfL|]. split; [exact HrL|]. split; [exact HcL|].
      intros j Hj. destruct (Z.eq_dec j i) as [-> | Hne].
      + apply Mat_at_set_eq; [exact HwfL | lia | lia].
      + rewrite Mat_at_set_ne; [apply Hdone; lia | lia | lia |].
        intros Heq. injection Heq. lia. }
  destruct (Hinv cols_ ltac:(lia)) as (HwfL & HrL & HcL & Hdone).
  rewrite Mat_at_set_ne; [| lia | lia | intros Heq; injection Heq; lia].
  replace c with (1 + (c - 1)) at 1 by lia. apply Hdone. lia.
Qed.

Hypothesis rows_Lt : 2 <= rows Lt.
Hypothesis cols_Lt : 2 <= cols Lt.

(** Writing row [r] extends the finished rows by one. *)
Lemma rows_done_fill lo r v0 v1 v m :
  rows_done lo r m -> 0 <= lo <= r -> r < rows Lt ->
  (forall c, 0 <= c < cols Lt ->
     (if c =? 0 then v0 else if c =? cols Lt - 1 then v1 else v (c - 1)) = nld_cell r c) ->
  rows_done lo (r + 1) (row_fill r (cols Lt - 2) v0 v1 v m).
Proof.
  intros (Hwf & Hr & Hc & Hdone) Hlo Hrr Hvals.
  assert (Hframe : row_frame (eq r) m (row_fill r (cols Lt - 2) v0 v1 v m))
    by (apply row_fill_frame; lia).
  split; [eapply row_frame_wf; eauto|].
  destruct Hframe as (Hr' & Hc' & _ & Hsame).
  split; [congruence|]. split; [congruence|].
  intros r' c Hr'' Hcc. destruct (Z.eq_dec r' r) as [-> | Hne].
  - rewrite row_fill_cells by (try assumption; lia).
    replace (cols Lt - 2 + 1) with (cols Lt - 1) by lia. apply Hvals. exact Hcc.
  - rewrite Hsame by (try lia; congruence). apply Hdone; lia.
Qed.

Lemma rows_done_empty lo m :
  Mat_wf m -> rows m = rows Lt -> cols m = cols Lt -> rows_done lo lo m.
Proof.
  intros Hwf Hr Hc. split; [exact Hwf|]. split; [exact Hr|]. split; [exact Hc|].
  intros r c Hrr. lia.
Qed.

Lemma rows_done_frame (R : Z -> Prop) lo hi m m' :
  rows_done lo hi m -> row_frame R m m' -> (forall r, lo <= r < hi -> ~ R r) ->
  rows_done lo hi m'.
Proof.
  intros (Hwf & Hr & Hc & Hdone) Hframe Hout.
  split; [eapply row_frame_wf; eauto|].
  destruct Hframe as (Hr' & Hc' & _ & Hsame).
  split; [congruence|]. split; [congruence|].
  intros r c Hrr Hcc. rewrite Hsame; [apply Hdone; assumption | lia | auto].
Qed.

Lemma rows_done_join lo mid hi m :
  rows_done lo mid m -> rows_done mid hi m -> rows_done lo hi m.
Proof.
  intros (Hwf & Hr & Hc & Hdone) (_ & _ & _ & Hdone').
  split; [exact Hwf|]. split; [exact Hr|]. split; [exact Hc|].
  intros r c Hrr Hcc. destruct (Z_lt_ge_dec r mid); [apply Hdone | apply Hdone']; lia.
Qed.

Variable fresh : nat -> list F.

(** One stripe finishes its rows. *)
Lemma nld_step_scalar_one_lane_cells Lstep a b :
  Mat_wf Lstep -> rows Lstep = rows Lt -> cols Lstep = cols Lt ->
  0 <= a < b -> b <= rows Lt ->
  rows_done a b (nld_step_scalar_one_lane fresh Lt Lf Lstep step_size a b).
Proof.
  intros Hwf Hr Hc Hab Hb. unfold nld_step_scalar_one_lane.
  assert (Hcreate : Mat_create fresh (rows Lt) (cols Lt) Lstep = Lstep).
  { unfold Mat_create. rewrite Hr, Hc, !Z.eqb_refl. reflexivity. }
  rewrite Hcreate.
  (* the top block *)
  set (top := if a =? 0 then (nld_top_row Lt Lf Lstep step_size, a + 1) else (Lstep, a)).
  assert (Htop : rows_done a (snd top) (fst top) /\ snd top = Z.max a 1).
  { subst top. destruct (Z.eqb_spec a 0) as [-> | Hne]; cbn [fst snd].
    - split; [|lia]. rewrite nld_top_row_values.
      apply (rows_done_fill 0 0); [now apply rows_done_empty | lia | lia |].
      intros c Hcc. unfold nld_cell. reflexivity.
    - split; [now apply rows_done_empty | lia]. }
  destruct top as [m1 row1]. cbn [fst snd] in Htop. destruct Htop as [Hd1 Hrow1].
  (* the middle rows *)
  set (me := Z.min (rows Lt - 1) b).
  assert (Hd2 : rows_done a (Z.max row1 me)
                  (for_loop row1 me (nld_middle_row Lt Lf step_size) m1)).
  { destruct (Z_le_gt_dec row1 me) as [Hle | Hgt].
    - replace (Z.max row1 me) with me by lia.
      apply (for_loop_invariant (fun i L => rows_done a i L)); [exact Hle | exact Hd1|].
      intros i L Hi Hd. rewrite nld_middle_row_values.
      apply rows_done_fill; [exact Hd | lia | lia |].
      intros c Hcc. unfold nld_cell.
      destruct (Z.eqb_spec i 0) as [?|_]; [lia|].
      destruct (Z.eqb_spec i (rows Lt - 1)) as [?|_]; [lia|]. reflexivity.
    - rewrite for_loop_ge by lia. replace (Z.max row1 me) with row1 by lia. exact Hd1. }
  set (m2 := for_loop row1 me (nld_middle_row Lt Lf step_size) m1) in *.
  (* the bottom row *)
  destruct (Z.eqb_spec b (rows Lt)) as [Hbe | Hbne].
  - replace (Z.max row1 me) with (rows Lt - 1) in * by lia.
    rewrite nld_bottom_row_values. subst b.
    replace (rows Lt) with (rows Lt - 1 + 1) at 1 by lia.
    apply rows_done_fill; [exact Hd2 | lia | lia |].
    intros c Hcc. unfold nld_cell.
    destruct (Z.eqb_spec (rows Lt - 1) 0) as [?|_]; [lia|].
    rewrite Z.eqb_refl. reflexivity.
  - replace (Z.max row1 me) with b in Hd2 by lia. exact Hd2.
Qed.

(** The stripes of [lo, rows) finish these rows and keep the rows before. *)
Lemma stripes_cells stripes lo Lstep :
  rows_done 0 lo Lstep -> 0 <= lo <= rows Lt -> Range_split lo (rows Lt) stripes ->
  rows_done 0 (rows Lt)
    (parallel_for_ stripes
       (fun a b L => nld_step_scalar_one_lane fresh Lt Lf L step_size a b) Lstep).
Proof.
  intros Hd Hlo Hsplit.
  remember (rows Lt) as hi eqn:Hhi in Hsplit.
  revert Lstep Hd Hlo.
  induction Hsplit as [lo hi Hle | lo mid hi rest Hlt Hmid Hrest IH];
    intros Lstep Hd Hlo; subst hi.
  - cbn. replace (rows Lt) with lo by lia. exact Hd.
  - unfold parallel_for_. cbn [fold_left fst snd].
    apply (IH eq_refl); [|lia].
    pose proof Hd as (Hwf & Hr & Hc & _).
    apply (rows_done_join 0 lo mid).
    + eapply rows_done_frame; [exact Hd | |].
      * apply (nld_step_scalar_one_lane_spec fresh Lt Lf Lstep step_size lo mid);
          (assumption || lia).
      * intros r Hrr. cbv beta. lia.
    + apply nld_step_scalar_one_lane_cells; (assumption || lia).
Qed.

End DiffusionCells.

Section DiffusionStep.
Context {F : Type} `{FloatOps F}.

(** Two well-formed matrices of one size with the same cells are equal. *)
Lemma Mat_cells_eq (a b : Mat F) :
  Mat_wf a -> Mat_wf b -> rows b = rows a -> cols b = cols a ->
  (forall r c, 0 <= r < rows a -> 0 <= c < cols a -> Mat_at b r c = Mat_at a r c) ->
  b = a.
Proof.
  intros (Hra & Hca & Hla) (Hrb & Hcb & Hlb) Hr Hc Hcells.
  destruct a as [ra ca da], b as [rb cb db]. cbn in *. subst rb cb. f_equal.
  apply list_eq_same_length with (n := length da); [reflexivity | lia |].
  intros i x y Hi Hx Hy.
  assert (Hca0 : 0 < ca) by nia.
  specialize (Hcells (Z.of_nat i / ca) (Z.of_nat i mod ca)).
  unfold Mat_at in Hcells. cbn in Hcells.
  replace (Z.of_nat i / ca * ca + Z.of_nat i mod ca) with (Z.of_nat i) in Hcells
    by (rewrite Z.mul_comm; apply Z.div_mod; lia).
  rewrite (zget_lookup fzero db (Z.of_nat i) x),
          (zget_lookup fzero da (Z.of_nat i) y) in Hcells;
    try lia; try (rewrite Nat2Z.id; assumption).
  apply Hcells.
  - split; [apply Z.div_pos; lia|]. apply Z.div_lt_upper_bound; lia.
  - apply Z.mod_pos_bound. lia.
Qed.

Lemma non_linear_diffusion_step_done fresh sched (Lt Lf Lstep : Mat F) step_size :
  (forall n, length (fresh n) = n) ->
  (forall lo hi, Range_split lo hi (sched lo hi)) ->
  2 <= rows Lt -> 2 <= cols Lt -> Mat_wf Lstep ->
  rows_done Lt Lf step_size 0 (rows Lt)
    (non_linear_diffusion_step fresh sched Lt Lf Lstep step_size).
Proof.
  intros Hfresh Hsched Hrows Hcols Hwf. unfold non_linear_diffusion_step.
  apply (stripes_cells Lt Lf step_size Hrows Hcols fresh (sched 0 (rows Lt)) 0);
    [| lia | apply Hsched].
  apply rows_done_empty.
  - apply Mat_create_wf; (assumption || lia).
  - apply Mat_create_rows.
  - apply Mat_create_cols.
Qed.

End DiffusionStep.

(** X6: [non_linear_diffusion_step] writes every cell of the increment.  For
    an image of at least two rows and two columns the result has the size of
    [Lt] and does not depend on how [parallel_for_] cuts the rows into
    stripes, on what the buffer [Lstep] held before, or on what the
    allocator hands out; away from the border a cell holds the sum of the
    four flows to its neighbours, each the difference of the image values
    weighted by the sum of the two conductivities, times the step size. *)
Theorem non_linear_diffusion_step_cells {F : Type} `{FloatOps F}
    (fresh fresh' : nat -> list F) (sched sched' : Z -> Z -> list (Z * Z))
    (Lt Lf Lstep Lstep' : Mat F) (step_size : F) :
  (forall n, length (fresh n) = n) -> (forall n, length (fresh' n) = n) ->
  (forall lo hi, Range_split lo hi (sched lo hi)) ->
  (forall lo hi, Range_split lo hi (sched' lo hi)) ->
  2 <= rows Lt -> 2 <= cols Lt -> Mat_wf Lstep -> Mat_wf Lstep' ->
  let out := non_linear_diffusion_step fresh sched Lt Lf Lstep step_size in
  out = non_linear_diffusion_step fresh' sched' Lt Lf Lstep' step_size /\
  Mat_wf out /\ rows out = rows Lt /\ cols out = cols Lt /\
  forall r c, 1 <= r < rows Lt - 1 -> 1 <= c < cols Lt - 1 ->
    Mat_at out r c =
    ((Mat_at Lf r c ⊕ Mat_at Lf r (c + 1)) ⊗ (Mat_at Lt r (c + 1) ⊖ Mat_at Lt r c) ⊕
     (Mat_at Lf r c ⊕ Mat_at Lf r (c - 1)) ⊗ (Mat_at Lt r (c - 1) ⊖ Mat_at Lt r c) ⊕
     (Mat_at Lf r c ⊕ Mat_at Lf (r + 1) c) ⊗ (Mat_at Lt (r + 1) c ⊖ Mat_at Lt r c) ⊕
     (Mat_at Lf r c ⊕ Mat_at Lf (r - 1) c) ⊗ (Mat_at Lt (r - 1) c ⊖ Mat_at Lt r c))
    ⊗ step_size.
Proof.
  intros Hfresh Hfresh' Hsched Hsched' Hrows Hcols Hwf Hwf' out.
  destruct (non_linear_diffusion_step_done fresh sched Lt Lf Lstep step_size)
    as (Hwo & Hro & Hco & Hcells); try assumption.
  destruct (non_linear_diffusion_step_done fresh' sched' Lt Lf Lstep' step_size)
    as (Hwo' & Hro' & Hco' & Hcells'); try assumption.
  fold out in Hwo, Hro, Hco, Hcells.
  split; [|split; [exact Hwo | split; [exact Hro | split; [exact Hco|]]]].
  - symmetry. apply Mat_cells_eq; try assumption; try congruence.
    intros r c Hr Hc. rewrite Hcells, Hcells' by lia. reflexivity.
  - intros r c Hr Hc. rewrite Hcells by lia. unfold nld_cell.
    destruct (Z.eqb_spec r 0) as [?|_]; [lia|].
    destruct (Z.eqb_spec r (rows Lt - 1)) as [?|_]; [lia|].
    destruct (Z.eqb_spec c 0) as [?|_]; [lia|].
    destruct (Z.eqb_spec c (cols Lt - 1)) as [?|_]; [lia|].
    unfold middle_value. cbv zeta beta.
    replace (1 + (c - 1)) with c by lia.
    replace (1 + (c - 1 + 1)) with (c + 1) by lia.
    replace (1 + (c - 1 - 1)) with (c - 1) by lia.
    reflexivity.
Qed.

(** The 3x3 sample image: a stripe per row and NaN-filled storage give what
    one stripe and a reused buffer give. *)
Lemma non_linear_diffusion_step_cells_witness :
  non_linear_diffusion_step Samples.nan_storage Samples.one_stripe Samples.sample_image
    Samples.sample_flow released (flit 1 2)
  = non_linear_diffusion_step Samples.nan_storage Samples.unit_stripes
      Samples.sample_image Samples.sample_flow Samples.sample_flow (flit 1 2).
Proof.
  refine (proj1 (non_linear_diffusion_step_cells Samples.nan_storage Samples.nan_storage
                   Samples.one_stripe Samples.unit_stripes Samples.sample_image
                   Samples.sample_flow released Samples.sample_flow (flit 1 2)
                   length_nan_storage length_nan_storage one_stripe_split
                   unit_stripes_split _ _ _ _)).
  - cbn. lia.
  - cbn. lia.
  - unfold Mat_wf. cbn. lia.
  - unfold Mat_wf. cbn. lia.
Defined.
(** ** The keypoints of the detector *)

Section DetectedKeypoints.
Context {F : Type} `{FloatOps F}.
Implicit Types (k point : KeyPoint F) (aux : list (KeyPoint F)).

Variable fRound : F -> Z.
Variable fastpow : Z -> Z -> Z.
Variable solve : F * F * F * F -> F * F -> F * F -> F * F.
Variable options_ : AKAZEOptions F.
Variable evolution : list (Evolution F).

(** Pixel [(ix, jx)] of a response map passes the two thresholds and is
    strictly larger than its eight neighbours. *)
Definition detector_peak (Ldet : Mat F) (ix jx : Z) : Prop :=
  let value := Mat_at Ldet ix jx in
  (value >. dthreshold options_) = true /\
  (value >=. min_dthreshold options_) = true /\
  forall di dj, -1 <= di <= 1 -> -1 <= dj <= 1 -> (di, dj) <> (0, 0) ->
    (value >. Mat_at Ldet (ix + di) (jx + dj)) = true.

(** What the detector guarantees of a keypoint: it names a level of the
    pyramid, carries the octave of that level, and its response is the
    magnitude of a peak of that level's response map away from the border. *)
Definition detected k : Prop :=
  0 <= class_id k < Z.of_nat (length evolution) /\
  let e := ev_at evolution (class_id k) in
  octave k = ev_octave e /\
  exists ix jx,
    1 <= ix < rows (Mdet e) - 1 /\ 1 <= jx < cols (Mdet e) - 1 /\
    response k = fabs (Mat_at (Mdet e) ix jx) /\
    detector_peak (Mdet e) ix jx.

Lemma Forall_zset (P : KeyPoint F -> Prop) aux i k :
  Forall P aux -> P k -> Forall P (zset aux i k).
Proof.
  intros Haux Hk. unfold zset. destruct (i <? 0); [exact Haux|].
  apply Forall_insert; assumption.
Qed.

(** One pixel of the first pass: the vector is unchanged, or a keypoint of
    this pixel is stored over an earlier one or appended. *)
Lemma extremum_at_cases i ix jx aux id0 :
  let Ldet := Mdet (ev_at evolution i) in
  let st := extremum_at fRound fastpow options_ evolution i ix jx (aux, id0) in
  fst st = aux \/
  exists point id1,
    class_id point = i /\ octave point = ev_octave (ev_at evolution i) /\
    response point = fabs (Mat_at Ldet ix jx) /\
    detector_peak Ldet ix jx /\
    (fst st = zset aux id1 point \/ fst st = aux ++ [point]).
Proof.
  intros Ldet. unfold extremum_at. fold Ldet.
  set (value := Mat_at Ldet ix jx).
  destruct (value >. dthreshold options_) eqn:H1; [|left; reflexivity].
  destruct (value >=. min_dthreshold options_) eqn:H2; [|left; reflexivity].
  destruct (value >. Mat_at Ldet ix (jx - 1)) eqn:H3; [|left; reflexivity].
  destruct (value >. Mat_at Ldet ix (jx + 1)) eqn:H4; [|left; reflexivity].
  destruct (value >. Mat_at Ldet (ix - 1) (jx - 1)) eqn:H5; [|left; reflexivity].
  destruct (value >. Mat_at Ldet (ix - 1) jx) eqn:H6; [|left; reflexivity].
  destruct (value >. Mat_at Ldet (ix - 1) (jx + 1)) eqn:H7; [|left; reflexivity].
  destruct (value >. Mat_at Ldet (ix + 1) (jx - 1)) eqn:H8; [|left; reflexivity].
  destruct (value >. Mat_at Ldet (ix + 1) jx) eqn:H9; [|left; reflexivity].
  destruct (value >. Mat_at Ldet (ix + 1) (jx + 1)) eqn:H10; [|left; reflexivity].
  assert (Hpeak : detector_peak Ldet ix jx).
  { unfold detector_peak. fold value. split; [exact H1|]. split; [exact H2|].
    intros di dj Hdi Hdj Hne.
    assert (Hi : di = -1 \/ di = 0 \/ di = 1) by lia.
    assert (Hj : dj = -1 \/ dj = 0 \/ dj = 1) by lia.
    destruct Hi as [-> | [-> | ->]], Hj as [-> | [-> | ->]];
      rewrite ?Z.add_0_r; try assumption.
    contradiction Hne. reflexivity. }
  cbv zeta.
  destruct (compare_lower_scale _ _ aux 0 id0) as [[is_extremum is_repeated] id1].
  destruct is_extremum; [|left; reflexivity].
  match goal with |- context [if ?c then (aux, id1) else _] => destruct c end;
    [left; reflexivity|].
  right. eexists (mkKeyPoint _ _ _ _ (fabs value) (ev_octave (ev_at evolution i)) i), id1.
  split; [reflexivity|]. split; [reflexivity|]. split; [reflexivity|].
  split; [exact Hpeak|].
  destruct is_repeated; [left | right]; reflexivity.
Qed.

(** Storing a keypoint found at level [i] keeps the vector within the
    guarantee. *)
Lemma extremum_at_detected i ix jx st :
  0 <= i < Z.of_nat (length evolution) ->
  1 <= ix < rows (Mdet (ev_at evolution i)) - 1 ->
  1 <= jx < cols (Mdet (ev_at evolution i)) - 1 ->
  Forall detected (fst st) ->
  Forall detected (fst (extremum_at fRound fastpow options_ evolution i ix jx st)).
Proof.
  intros Hi Hix Hjx Hst. destruct st as [aux id0]. cbn [fst] in Hst.
  destruct (extremum_at_cases i ix jx aux id0)
    as [-> | (point & id1 & Hc & Ho & Hr & Hp & Hres)]; [exact Hst|].
  assert (Hpoint : detected point).
  { unfold detected. rewrite Hc. split; [exact Hi|]. cbv zeta.
    split; [exact Ho|]. exists ix, jx. auto. }
  destruct Hres as [-> | ->].
  - apply Forall_zset; assumption.
  - apply Forall_app. split; [exact Hst | constructor; [exact Hpoint | constructor]].
Qed.

Lemma accumulate_extrema_detected :
  Forall detected (fst (accumulate_extrema fRound fastpow options_ evolution)).
Proof.
  unfold accumulate_extrema.
  apply (for_loop_preserves (fun st => Forall detected (fst st))); [constructor|].
  intros i st Hi Hst. cbv zeta.
  apply (for_loop_preserves (fun st => Forall detected (fst st))); [exact Hst|].
  intros ix st1 Hix Hst1.
  apply (for_loop_preserves (fun st => Forall detected (fst st))); [exact Hst1|].
  intros jx st2 Hjx Hst2.
  apply extremum_at_detected; assumption.
Qed.

Lemma filter_upper_scale_detected aux :
  Forall detected aux -> Forall detected (filter_upper_scale aux).
Proof.
  intros Haux. apply List.Forall_forall. intros k Hk.
  apply (proj1 (List.Forall_forall _ _) Haux).
  apply list_elem_of_In.
  eapply elem_of_sublist; [apply list_elem_of_In; exact Hk|].
  apply filter_upper_scale_sublist.
Qed.

(** The accepting branch of the refinement keeps level, octave and
    response. *)
Lemma refined_detected k x y dst :
  detected k -> detected (refined fastpow evolution k x y dst).
Proof. intros Hk. exact Hk. Qed.

Lemma Do_Subpixel_Refinement_loop_detected fuel : forall kpts i dst,
  0 <= i -> Forall detected kpts ->
  Forall detected (Do_Subpixel_Refinement_loop fRound fastpow solve fuel evolution kpts i dst).
Proof.
  induction fuel as [|fuel IH]; intros kpts i dst Hi Hk; [exact Hk|].
  cbn [Do_Subpixel_Refinement_loop].
  destruct (Z.ltb_spec i (Z.of_nat (length kpts))) as [Hlt|_]; [|exact Hk].
  assert (Hcur : detected (zget KeyPoint_default kpts i)).
  { apply (proj1 (List.Forall_forall _ _) Hk).
    apply list_elem_of_In, list_elem_of_lookup. exists (Z.to_nat i).
    apply zget_in_range. lia. }
  destruct (subpixel_offset fRound fastpow solve evolution (zget KeyPoint_default kpts i) dst)
    as [[x y] d].
  destruct (offset_accepted d).
  - apply IH; [apply Z.mod_pos_bound; lia|].
    apply Forall_zset; [exact Hk | apply refined_detected, Hcur].
  - apply IH; [apply Z.mod_pos_bound; lia|].
    apply List.Forall_forall. intros k Hin.
    apply (proj1 (List.Forall_forall _ _) Hk).
    apply list_elem_of_In.
    eapply elem_of_sublist; [apply list_elem_of_In; exact Hin|].
    apply sublist_delete.
Qed.

Lemma Feature_Detection_detected :
  Forall detected (Feature_Detection fRound fastpow solve options_ evolution).
Proof.
  unfold Feature_Detection, Do_Subpixel_Refinement.
  apply Do_Subpixel_Refinement_loop_detected; [lia|].
  apply filter_upper_scale_detected, accumulate_extrema_detected.
Qed.

End DetectedKeypoints.

(** X7: every keypoint that [Feature_Detection] returns names a level of the
    pyramid and carries the octave of that level; its response is the
    magnitude of a pixel of that level's response map that lies off the
    border, passes both detector thresholds and is strictly larger than its
    eight neighbours.  Hence the assertion on [class_id] with which
    [Compute_Descriptors] starts holds for the keypoints of the detector,
    whatever the options: a descriptor matrix with one row per keypoint is
    made. *)
Theorem Feature_Detection_keypoints {F : Type} `{FloatOps F}
    (fRound : F -> Z) (fastpow : Z -> Z -> Z)
    (solve : F * F * F * F -> F * F -> F * F -> F * F)
    (options_ : AKAZEOptions F) (evolution : list (Evolution F)) :
  let kpts := Feature_Detection fRound fastpow solve options_ evolution in
  (forall k, In k kpts -> detected options_ evolution k) /\
  forall o : AKAZEOptions F,
    exists desc inv,
      Compute_Descriptors o (Z.of_nat (length evolution)) kpts = Some (desc, inv) /\
      d_rows desc = Z.of_nat (length kpts).
Proof.
  intros kpts.
  pose proof (Feature_Detection_detected fRound fastpow solve options_ evolution) as Hall.
  fold kpts in Hall. split; [apply List.Forall_forall; exact Hall|].
  intros o. unfold Compute_Descriptors.
  assert (Hids : forallb (fun k => (0 <=? class_id k)
                                   && (class_id k <? Z.of_nat (length evolution))) kpts
                 = true).
  { apply forallb_forall. intros k Hk.
    destruct (proj1 (List.Forall_forall _ _) Hall k Hk) as [Hid _].
    apply andb_true_iff. split; [apply Z.leb_le | apply Z.ltb_lt]; lia. }
  rewrite Hids. cbn [negb]. eexists _, _. split; [reflexivity|].
  cbv zeta.
  destruct (descriptor o <? DESCRIPTOR_MLDB_UPRIGHT); [reflexivity|].
  destruct (descriptor_size o =? 0); reflexivity.
Qed.

(** The sample pyramid of two levels: whatever the detector returns for it
    names level 0 or level 1. *)
Lemma Feature_Detection_keypoints_witness :
  Forall (fun k => 0 <= class_id k < 2)
    (Feature_Detection Samples.sample_fRound Samples.sample_fastpow
       Samples.sample_solve Samples.two_sublevel_options Samples.two_peaks).
Proof.
  apply List.Forall_forall. intros k Hk.
  exact (proj1 (proj1 (Feature_Detection_keypoints Samples.sample_fRound
                         Samples.sample_fastpow Samples.sample_solve
                         Samples.two_sublevel_options Samples.two_peaks) k Hk)).
Defined.
(** ** The second pass of the extrema search leaves nothing to do *)

Section SecondPass.
Context {F : Type} `{FloatOps F}.
Implicit Types (pt k : KeyPoint F) (aux : list (KeyPoint F)).

Lemma existsb_sublist (f : KeyPoint F -> bool) l1 l2 :
  sublist l1 l2 -> existsb f l1 = true -> existsb f l2 = true.
Proof.
  intros Hsub Hex. apply existsb_exists in Hex as (k & Hin & Hk).
  apply existsb_exists. exists k. split; [|exact Hk].
  apply list_elem_of_In. eapply elem_of_sublist; [apply list_elem_of_In; exact Hin|].
  exact Hsub.
Qed.

Lemma filter_upper_scale_kept pt aux :
  existsb (repeated_upper_scale pt) aux = false ->
  existsb (repeated_upper_scale pt) (filter_upper_scale aux) = false.
Proof.
  intros Hnone.
  destruct (existsb (repeated_upper_scale pt) (filter_upper_scale aux)) eqn:Hex;
    [|reflexivity].
  rewrite (existsb_sublist _ _ aux (filter_upper_scale_sublist aux) Hex) in Hnone.
  discriminate Hnone.
Qed.

Lemma filter_upper_scale_fixed aux :
  filter_upper_scale (filter_upper_scale aux) = filter_upper_scale aux.
Proof.
  induction aux as [|pt rest IH]; [reflexivity|].
  cbn [filter_upper_scale].
  destruct (existsb (repeated_upper_scale pt) rest) eqn:Hex; [exact IH|].
  cbn [filter_upper_scale]. rewrite (filter_upper_scale_kept pt rest Hex), IH.
  reflexivity.
Qed.

Lemma filter_upper_scale_pairs aux : forall (i j : nat) pt k,
  (i < j)%nat ->
  filter_upper_scale aux !! i = Some pt -> filter_upper_scale aux !! j = Some k ->
  repeated_upper_scale pt k = false.
Proof.
  induction aux as [|p rest IH]; intros i j pt k Hij Hi Hj; [discriminate Hi|].
  cbn [filter_upper_scale] in Hi, Hj.
  destruct (existsb (repeated_upper_scale p) rest) eqn:Hex; [eauto|].
  destruct i as [|i].
  - cbn in Hi. injection Hi as ->. destruct j as [|j]; [lia|]. cbn in Hj.
    pose proof (filter_upper_scale_kept pt rest Hex) as Hkept.
    destruct (repeated_upper_scale pt k) eqn:Hrep; [|reflexivity].
    assert (Htrue : existsb (repeated_upper_scale pt) (filter_upper_scale rest) = true).
    { apply existsb_exists. exists k. split; [|exact Hrep].
      apply list_elem_of_In, list_elem_of_lookup. eauto. }
    congruence.
  - destruct j as [|j]; [lia|]. cbn in Hi, Hj. apply (IH i j); [lia | assumption..].
Qed.

End SecondPass.

(** X8: after the second pass of [Find_Scale_Space_Extrema] no keypoint of
    the result is a repeated point of a keypoint that follows it: no later
    keypoint lies one level up, within its radius, with a larger response.
    Running the pass again changes nothing. *)
Theorem Find_Scale_Space_Extrema_stable {F : Type} `{FloatOps F}
    (fRound : F -> Z) (fastpow : Z -> Z -> Z)
    (options_ : AKAZEOptions F) (evolution : list (Evolution F)) :
  let kpts := Find_Scale_Space_Extrema fRound fastpow options_ evolution in
  filter_upper_scale kpts = kpts /\
  forall (i j : nat) pt k,
    (i < j)%nat -> kpts !! i = Some pt -> kpts !! j = Some k ->
    ~ upper_scale_duplicate pt k.
Proof.
  intros kpts. subst kpts. unfold Find_Scale_Space_Extrema.
  split; [apply filter_upper_scale_fixed|].
  intros i j pt k Hij Hi Hj. apply repeated_upper_scale_false.
  exact (filter_upper_scale_pairs _ i j pt k Hij Hi Hj).
Qed.

(** The sample pyramid with a peak on each of its two levels. *)
Lemma Find_Scale_Space_Extrema_stable_witness :
  filter_upper_scale
    (Find_Scale_Space_Extrema Samples.sample_fRound Samples.sample_fastpow
       Samples.two_sublevel_options Samples.two_peaks)
  = Find_Scale_Space_Extrema Samples.sample_fRound Samples.sample_fastpow
      Samples.two_sublevel_options Samples.two_peaks.
Proof.
  exact (proj1 (Find_Scale_Space_Extrema_stable Samples.sample_fRound
                  Samples.sample_fastpow Samples.two_sublevel_options Samples.two_peaks)).
Defined.
(** ** The sampling pattern stays within its matrices *)

Section IntMatrices.
Implicit Types (m : list (list Z)) (r c v : Z).

(** A matrix of [R] rows of [C] elements each. *)
Definition shape (R C : Z) m : Prop :=
  Z.of_nat (length m) = R /\ Forall (fun row => Z.of_nat (length row) = C) m.

(** The element [(r, c)] of a matrix, for stating what it holds. *)
Definition cell m r c : Z := nth (Z.to_nat c) (nth (Z.to_nat r) m []) 0.

Lemma shape_create R C v : 0 <= R -> 0 <= C -> shape R C (imat_create R C v).
Proof.
  intros HR HC. unfold shape, imat_create. rewrite repeat_length. split; [lia|].
  apply Forall_forall. intros row Hrow. apply list_elem_of_In, repeat_spec in Hrow.
  subst row. rewrite repeat_length. lia.
Qed.

Lemma shape_row R C m r :
  shape R C m -> 0 <= r < R ->
  exists row, m !! Z.to_nat r = Some row /\ Z.of_nat (length row) = C /\
              nth (Z.to_nat r) m [] = row.
Proof.
  intros [Hlen Hrows] Hr.
  destruct (lookup_lt_is_Some_2 m (Z.to_nat r)) as [row Hrow]; [lia|].
  exists row. split; [exact Hrow|]. split.
  - exact (proj1 (Forall_lookup _ _) Hrows _ _ Hrow).
  - apply nth_lookup_Some. exact Hrow.
Qed.

Lemma imat_at_in R C m r c :
  shape R C m -> 0 <= r < R -> 0 <= c < C -> imat_at m r c = Some (cell m r c).
Proof.
  intros Hm Hr Hc. unfold imat_at, cell.
  destruct (Z.ltb_spec r 0); [lia|]. destruct (Z.ltb_spec c 0); [lia|]. cbn [orb].
  destruct (shape_row R C m r Hm Hr) as (row & Hrow & Hlen & ->).
  rewrite Hrow. cbn.
  destruct (lookup_lt_is_Some_2 row (Z.to_nat c)) as [x Hx]; [lia|].
  rewrite Hx. f_equal. symmetry. apply nth_lookup_Some. exact Hx.
Qed.

Lemma cell_insert m (i : nat) row r c :
  (i < length m)%nat -> 0 <= r ->
  cell (<[i := row]> m) r c =
  if (Z.to_nat r =? i)%nat then nth (Z.to_nat c) row 0 else cell m r c.
Proof.
  intros Hi Hr. unfold cell. destruct (Nat.eqb_spec (Z.to_nat r) i) as [-> | Hne].
  - rewrite (nth_lookup_Some _ _ [] row); [reflexivity|].
    apply list_lookup_insert_eq. exact Hi.
  - f_equal. rewrite (nth_lookup (<[i := row]> m)), (nth_lookup m).
    rewrite list_lookup_insert_ne by lia. reflexivity.
Qed.

Lemma shape_insert R C m (i : nat) row :
  shape R C m -> Z.of_nat (length row) = C -> shape R C (<[i := row]> m).
Proof.
  intros [Hlen Hrows] Hrow. split; [rewrite length_insert; exact Hlen|].
  apply Forall_insert; assumption.
Qed.

Lemma imat_set_in R C m r c v :
  shape R C m -> 0 <= r < R -> 0 <= c < C ->
  exists m', imat_set m r c v = Some m' /\ shape R C m' /\
    forall r' c', 0 <= r' -> 0 <= c' ->
      cell m' r' c' = if (r' =? r) && (c' =? c) then v else cell m r' c'.
Proof.
  intros Hm Hr Hc. unfold imat_set.
  destruct (Z.ltb_spec r 0); [lia|]. destruct (Z.ltb_spec c 0); [lia|]. cbn [orb].
  destruct (shape_row R C m r Hm Hr) as (row & Hrow & Hlen & Hnth).
  rewrite Hrow. cbn -[Nat.ltb].
  destruct (Nat.ltb_spec (Z.to_nat c) (length row)); [|lia].
  eexists. split; [reflexivity|]. split.
  - apply shape_insert; [exact Hm|]. rewrite length_insert. exact Hlen.
  - intros r' c' Hr' Hc'. destruct Hm as [HR _].
    rewrite cell_insert by lia.
    destruct (Nat.eqb_spec (Z.to_nat r') (Z.to_nat r)) as [Heq | Hne].
    + assert (r' = r) by lia. subst r'. rewrite Z.eqb_refl. cbn [andb].
      destruct (Z.eqb_spec c' c) as [-> | Hnc].
      * apply nth_lookup_Some, list_lookup_insert_eq. lia.
      * unfold cell. rewrite Hnth, (nth_lookup (<[Z.to_nat c := v]> row)), (nth_lookup row).
        rewrite list_lookup_insert_ne by lia. reflexivity.
    + destruct (Z.eqb_spec r' r) as [-> | _]; [congruence | reflexivity].
Qed.

Lemma imat_copy_row_in R C m from to :
  shape R C m -> 0 <= from < R -> 0 <= to < R ->
  exists m', imat_copy_row m from to = Some m' /\ shape R C m' /\
    forall r' c', 0 <= r' ->
      cell m' r' c' = if r' =? to then cell m from c' else cell m r' c'.
Proof.
  intros Hm Hfrom Hto. unfold imat_copy_row.
  destruct (Z.ltb_spec from 0); [lia|]. destruct (Z.ltb_spec to 0); [lia|]. cbn [orb].
  destruct (shape_row R C m from Hm Hfrom) as (row & Hrow & Hlen & Hnth).
  rewrite Hrow. cbn -[Nat.ltb]. pose proof Hm as [HR _].
  destruct (Nat.ltb_spec (Z.to_nat to) (length m)); [|lia].
  eexists. split; [reflexivity|]. split; [apply shape_insert; assumption|].
  intros r' c' Hr'. rewrite cell_insert by lia.
  destruct (Nat.eqb_spec (Z.to_nat r') (Z.to_nat to)) as [Heq | Hne].
  - assert (r' = to) by lia. subst r'. rewrite Z.eqb_refl.
    unfold cell. rewrite Hnth. reflexivity.
  - destruct (Z.eqb_spec r' to) as [-> | _]; [congruence | reflexivity].
Qed.

Lemma imat_rowRange_in R C m n :
  shape R C m -> 0 <= n <= R ->
  imat_rowRange m n = Some (take (Z.to_nat n) m) /\
  length (take (Z.to_nat n) m) = Z.to_nat n.
Proof.
  intros [HR _] Hn. unfold imat_rowRange.
  destruct (Z.leb_spec 0 n); [|lia]. destruct (Z.leb_spec n (Z.of_nat (length m))); [|lia].
  split; [reflexivity|]. rewrite length_take. lia.
Qed.

(** A row of a matrix of two columns is the pair of its elements. *)
Lemma shape_row_two R m (r : nat) row :
  shape R 2 m -> m !! r = Some row ->
  row = [cell m (Z.of_nat r) 0; cell m (Z.of_nat r) 1].
Proof.
  intros [_ Hrows] Hrow.
  pose proof (proj1 (Forall_lookup _ _) Hrows _ _ Hrow) as Hlen.
  unfold cell. rewrite Nat2Z.id, (nth_lookup_Some _ _ [] row Hrow).
  destruct row as [|a [|b [|? ?]]]; cbn in Hlen; try lia. reflexivity.
Qed.

End IntMatrices.

Section SubsampleFacts.
Context {F : Type} `{FloatOps F}.
Variable fceil : F -> F.
Variable rand : Z -> Z.
Variable uninit : Z.

(** The sample in row [j] of the sampling list, and the sample in the
    columns [0], [c1], [c2] of row [k] of the comparison matrix. *)
Definition sample_at (s : list (list Z)) (j : Z) : Z * Z * Z :=
  (cell s j 0, cell s j 1, cell s j 2).
Definition corner_at (f : list (list Z)) (k c1 c2 : Z) : Z * Z * Z :=
  (cell f k 0, cell f k c1, cell f k c2).

(** The first [count] samples of the list. *)
Definition listed (s : list (list Z)) (count : Z) : list (Z * Z * Z) :=
  sample_at s <$> seqZ 0 count.

Lemma same_point_spec R s j f k c1 c2 :
  shape 29 3 s -> shape R 5 f -> 0 <= j < 29 -> 0 <= k < R ->
  0 <= c1 < 5 -> 0 <= c2 < 5 ->
  exists b, same_point s j f k c1 c2 = Some b /\
            (b = true <-> sample_at s j = corner_at f k c1 c2).
Proof.
  intros Hs Hf Hj Hk Hc1 Hc2. unfold same_point, sample_at, corner_at.
  rewrite (imat_at_in 29 3 s j 0), (imat_at_in 29 3 s j 1), (imat_at_in 29 3 s j 2)
    by (assumption || lia).
  rewrite (imat_at_in R 5 f k 0), (imat_at_in R 5 f k c1), (imat_at_in R 5 f k c2)
    by (assumption || lia).
  cbn [mbind option_bind].
  destruct (Z.eqb_spec (cell s j 0) (cell f k 0)) as [H0 | H0].
  - cbn [mbind option_bind].
    destruct (Z.eqb_spec (cell s j 1) (cell f k c1)) as [H1 | H1].
    + cbn [mbind option_bind]. eexists. split; [reflexivity|].
      rewrite Z.eqb_eq. split; [intros ->; congruence | intros Heq; congruence].
    + exists false. split; [reflexivity|]. split; [discriminate | congruence].
  - exists false. split; [reflexivity|]. split; [discriminate | congruence].
Qed.

Lemma find_point_spec R s f k c1 c2 (fuel : nat) : forall j,
  shape 29 3 s -> shape R 5 f -> 0 <= k < R -> 0 <= c1 < 5 -> 0 <= c2 < 5 ->
  0 <= j -> j + Z.of_nat fuel <= 29 ->
  exists res, find_point fuel j s f k c1 c2 = Some res /\
    match res with
    | Some j' => j <= j' < j + Z.of_nat fuel /\ sample_at s j' = corner_at f k c1 c2
    | None => forall j', j <= j' < j + Z.of_nat fuel ->
                sample_at s j' <> corner_at f k c1 c2
    end.
Proof.
  induction fuel as [|fuel IH]; intros j Hs Hf Hk Hc1 Hc2 Hj Hfuel.
  - exists None. split; [reflexivity|]. intros j' Hj'. lia.
  - cbn [find_point].
    destruct (same_point_spec R s j f k c1 c2) as (b & -> & Hb); try assumption; [lia|].
    cbn [mbind option_bind]. destruct b.
    + exists (Some j). split; [reflexivity|]. split; [lia | now apply Hb].
    + destruct (IH (j + 1)) as (res & -> & Hres); try assumption; try lia.
      exists res. split; [reflexivity|]. destruct res as [j'|].
      * split; [lia | apply Hres].
      * intros j' Hj'. destruct (Z.eq_dec j' j) as [-> | Hne].
        -- intros Heq. apply Hb in Heq. discriminate Heq.
        -- apply Hres. lia.
Qed.

Lemma store_comparison_spec N comps i col j :
  shape N 2 comps -> 0 <= i -> i * 3 + 2 < N -> 0 <= col < 2 ->
  exists comps', store_comparison comps i 3 col j = Some comps' /\
    shape N 2 comps' /\
    (forall r c, 0 <= r -> 0 <= c ->
       c <> col \/ r < i * 3 \/ i * 3 + 2 < r -> cell comps' r c = cell comps r c) /\
    (forall r, i * 3 <= r <= i * 3 + 2 ->
       cell comps' r col = 3 * j + (r - i * 3)).
Proof.
  intros Hc Hi HN Hcol. unfold store_comparison.
  destruct (imat_set_in N 2 comps (i * 3) col (3 * j)) as (c1 & -> & Hc1 & Hcell1);
    try assumption; try lia.
  cbn [mbind option_bind].
  destruct (imat_set_in N 2 c1 (i * 3 + 1) col (3 * j + 1)) as (c2 & -> & Hc2 & Hcell2);
    try assumption; try lia.
  cbn [mbind option_bind].
  destruct (imat_set_in N 2 c2 (i * 3 + 2) col (3 * j + 2)) as (c3 & -> & Hc3 & Hcell3);
    try assumption; try lia.
  exists c3. split; [reflexivity|]. split; [exact Hc3|]. split.
  - intros r c Hr Hcc Hout. rewrite Hcell3, Hcell2, Hcell1 by assumption.
    destruct (Z.eqb_spec r (i * 3 + 2)), (Z.eqb_spec r (i * 3 + 1)),
      (Z.eqb_spec r (i * 3)), (Z.eqb_spec c col); cbn [andb]; try reflexivity; lia.
  - intros r Hr. rewrite Hcell3, Hcell2, Hcell1 by lia. rewrite Z.eqb_refl.
    destruct (Z.eqb_spec r (i * 3 + 2)), (Z.eqb_spec r (i * 3 + 1)),
      (Z.eqb_spec r (i * 3)); cbn [andb]; lia.
Qed.

(** The samples that can occur: at most 29. *)
Variable G : list (Z * Z * Z).
Hypothesis G_size : (length G <= 29)%nat.

(** The sampling list holds [count] different samples of [G]. *)
Definition samples_ok (s : list (list Z)) (count : Z) : Prop :=
  shape 29 3 s /\ 0 <= count /\ NoDup (listed s count) /\
  forall p, p ∈ listed s count -> p ∈ G.

(** Every row of the comparison matrix compares two samples of [G]. *)
Definition rows_ok (R : Z) (f : list (list Z)) : Prop :=
  shape R 5 f /\
  forall k, 0 <= k < R -> corner_at f k 1 2 ∈ G /\ corner_at f k 3 4 ∈ G.

Lemma length_listed s count : 0 <= count -> Z.of_nat (length (listed s count)) = count.
Proof. intros Hc. unfold listed. rewrite length_fmap, length_seqZ. lia. Qed.

Lemma samples_ok_count s count : samples_ok s count -> 0 <= count <= 29.
Proof.
  intros (_ & Hc & Hnd & Hin). split; [exact Hc|].
  pose proof (submseteq_length _ _ (NoDup_submseteq _ _ Hnd Hin)) as Hle.
  pose proof (length_listed s count Hc). lia.
Qed.

Lemma listed_snoc s count :
  0 <= count -> listed s (count + 1) = listed s count ++ [sample_at s count].
Proof.
  intros Hc. unfold listed. rewrite seqZ_app by lia. rewrite fmap_app. f_equal.
Qed.

Lemma listed_ext s s' count :
  (forall j, 0 <= j < count -> sample_at s' j = sample_at s j) ->
  listed s' count = listed s count.
Proof.
  intros Hsame. unfold listed. apply list_fmap_ext. intros i j Hj.
  apply Hsame. apply lookup_seqZ in Hj. lia.
Qed.

(** A sample that is not yet listed finds a free row. *)
Lemma samples_ok_room s count p :
  samples_ok s count -> p ∈ G -> p ∉ listed s count -> count < 29.
Proof.
  intros (_ & Hc & Hnd & Hin) Hp Hnew.
  assert (Hnd' : NoDup (listed s count ++ [p])).
  { apply NoDup_app. split; [exact Hnd|]. split; [|apply NoDup_singleton].
    intros x Hx Hxp. apply list_elem_of_singleton in Hxp. subst x. contradiction. }
  assert (Hin' : forall x, x ∈ listed s count ++ [p] -> x ∈ G).
  { intros x Hx. apply elem_of_app in Hx as [Hx | Hx]; [auto|].
    apply list_elem_of_singleton in Hx. now subst x. }
  pose proof (submseteq_length _ _ (NoDup_submseteq _ _ Hnd' Hin')) as Hle.
  rewrite length_app in Hle. cbn in Hle.
  pose proof (length_listed s count Hc). lia.
Qed.

Lemma place_point_spec R N s comps count f i k c1 c2 col :
  samples_ok s count -> rows_ok R f -> shape N 2 comps ->
  0 <= k < R -> (c1 = 1 /\ c2 = 2) \/ (c1 = 3 /\ c2 = 4) ->
  0 <= i -> i * 3 + 2 < N -> 0 <= col < 2 ->
  exists s' comps' count',
    place_point (s, comps, count) f i k 3 c1 c2 col = Some (s', comps', count') /\
    samples_ok s' count' /\ count <= count' /\ shape N 2 comps' /\
    (forall r c, 0 <= r -> 0 <= c ->
       c <> col \/ r < i * 3 \/ i * 3 + 2 < r -> cell comps' r c = cell comps r c) /\
    (forall r, i * 3 <= r <= i * 3 + 2 -> 0 <= cell comps' r col < 3 * count').
Proof.
  intros Hs Hf Hc Hk Hcols Hi HN Hcol.
  pose proof (samples_ok_count s count Hs) as Hcount.
  pose proof Hs as (Hshape & _ & Hnd & Hin). pose proof Hf as (Hfs & Hrows).
  assert (Hc12 : 0 <= c1 < 5 /\ 0 <= c2 < 5) by lia.
  assert (HpG : corner_at f k c1 c2 ∈ G).
  { destruct (Hrows k Hk) as [H12 H34].
    destruct Hcols as [[-> ->] | [-> ->]]; assumption. }
  unfold place_point.
  destruct (find_point_spec R s f k c1 c2 (Z.to_nat count) 0)
    as (res & -> & Hres); try assumption; try lia.
  cbn [mbind option_bind]. rewrite Z2Nat.id in Hres by lia.
  destruct res as [j|].
  - destruct Hres as [Hj Hsame].
    destruct (store_comparison_spec N comps i col j) as (comps' & -> & Hc' & Hout & Hset);
      try assumption.
    cbn [mbind option_bind]. exists s, comps', count.
    split; [reflexivity|]. split; [exact Hs|]. split; [lia|]. split; [exact Hc'|].
    split; [exact Hout|]. intros r Hr. rewrite Hset by exact Hr. lia.
  - assert (Hnew : corner_at f k c1 c2 ∉ listed s count).
    { intros Hel. apply list_elem_of_fmap in Hel as (j & Heq & Hj).
      apply elem_of_seqZ in Hj. apply (Hres j); [lia | congruence]. }
    pose proof (samples_ok_room s count _ Hs HpG Hnew) as Hroom.
    rewrite (imat_at_in R 5 f k 0), (imat_at_in R 5 f k c1), (imat_at_in R 5 f k c2)
      by (assumption || lia).
    cbn [mbind option_bind].
    destruct (imat_set_in 29 3 s count 0 (cell f k 0)) as (s1 & -> & Hs1 & Hcell1);
      try assumption; try lia.
    cbn [mbind option_bind].
    destruct (imat_set_in 29 3 s1 count 1 (cell f k c1)) as (s2 & -> & Hs2 & Hcell2);
      try assumption; try lia.
    cbn [mbind option_bind].
    destruct (imat_set_in 29 3 s2 count 2 (cell f k c2)) as (s3 & -> & Hs3 & Hcell3);
      try assumption; try lia.
    cbn [mbind option_bind].
    destruct (store_comparison_spec N comps i col count)
      as (comps' & -> & Hc' & Hout & Hset); try assumption.
    cbn [mbind option_bind]. exists s3, comps', (count + 1).
    split; [reflexivity|].
    assert (Hat : sample_at s3 count = corner_at f k c1 c2).
    { unfold sample_at, corner_at.
      rewrite !Hcell3, !Hcell2, !Hcell1 by lia. rewrite !Z.eqb_refl. reflexivity. }
    assert (Hold : forall j, 0 <= j < count -> sample_at s3 j = sample_at s j).
    { intros j Hj. unfold sample_at. rewrite !Hcell3, !Hcell2, !Hcell1 by lia.
      destruct (Z.eqb_spec j count) as [?|_]; [lia | reflexivity]. }
    assert (Hlisted : listed s3 (count + 1) = listed s count ++ [corner_at f k c1 c2]).
    { rewrite listed_snoc by lia. rewrite Hat. f_equal. apply listed_ext. exact Hold. }
    split; [|split; [lia | split; [exact Hc' | split; [exact Hout|]]]].
    + split; [exact Hs3|]. split; [lia|]. rewrite Hlisted. split.
      * apply NoDup_app. split; [exact Hnd|]. split; [|apply NoDup_singleton].
        intros x Hx Hxp. apply list_elem_of_singleton in Hxp. subst x. contradiction.
      * intros x Hx. apply elem_of_app in Hx as [Hx | Hx]; [auto|].
        apply list_elem_of_singleton in Hx. now subst x.
    + intros r Hr. rewrite Hset by exact Hr. lia.
Qed.

End SubsampleFacts.

Section PickLoop.
Variable rand : Z -> Z.
Hypothesis rand_nonneg : forall i, 0 <= rand i.
Variable G : list (Z * Z * Z).
Hypothesis G_size : (length G <= 29)%nat.
Variable npicks : Z.
Hypothesis npicks_rows : npicks <= 162.

(** The state before round [i] of the pick loop: no access has left its
    matrix, and the rows of the comparisons written so far name listed
    samples. *)
Definition picked (i : Z)
    (st : option (list (list Z) * list (list Z) * Z * list (list Z))) : Prop :=
  exists s comps count f,
    st = Some (s, comps, count, f) /\
    samples_ok G s count /\ rows_ok G 162 f /\ shape (3 * npicks) 2 comps /\
    forall r c, 0 <= r < i * 3 -> 0 <= c < 2 -> 0 <= cell comps r c < 3 * count.

Lemma pick_spec i st :
  0 <= i < npicks -> picked i (Some st) -> picked (i + 1) (pick rand 3 162 i st).
Proof.
  intros Hi (s & comps & count & f & Hst & Hs & Hf & Hc & Hdone).
  injection Hst as ->. unfold pick.
  destruct (Z.eqb_spec (162 - i) 0) as [?|_]; [lia|].
  set (k := if i <? 6 then i else Z.rem (rand i) (162 - i)).
  assert (Hk : 0 <= k < 162).
  { subst k. destruct (Z.ltb_spec i 6); [lia|].
    pose proof (Z.rem_bound_pos (rand i) (162 - i) (rand_nonneg i)). lia. }
  destruct (place_point_spec G G_size 162 (3 * npicks) s comps count f i k 1 2 0)
    as (s1 & comps1 & count1 & -> & Hs1 & Hle1 & Hc1 & Hout1 & Hset1);
    try assumption; try lia.
  cbn [mbind option_bind].
  destruct (place_point_spec G G_size 162 (3 * npicks) s1 comps1 count1 f i k 3 4 1)
    as (s2 & comps2 & count2 & -> & Hs2 & Hle2 & Hc2 & Hout2 & Hset2);
    try assumption; try lia.
  cbn [mbind option_bind].
  pose proof Hf as (Hfs & Hrows). pose proof Hfs as [Hlen _]. rewrite Hlen.
  destruct (imat_copy_row_in 162 5 f (162 - i - 1) k) as (f' & -> & Hfs' & Hcell');
    try assumption; try lia.
  cbn [mbind option_bind].
  exists s2, comps2, count2, f'. split; [reflexivity|]. split; [exact Hs2|].
  split; [|split; [exact Hc2|]].
  - split; [exact Hfs'|]. intros k' Hk'. unfold corner_at.
    rewrite !Hcell' by lia. destruct (Z.eqb_spec k' k) as [_ | _].
    + apply (Hrows (162 - i - 1)). lia.
    + apply (Hrows k'). exact Hk'.
  - intros r c Hr Hcc.
    destruct (Z_lt_ge_dec r (i * 3)) as [Hold | Hnew].
    + rewrite Hout2, Hout1 by lia. specialize (Hdone r c). lia.
    + assert (Hcol : c = 0 \/ c = 1) by lia. destruct Hcol as [-> | ->].
      * rewrite Hout2 by lia. specialize (Hset1 r). lia.
      * specialize (Hset2 r). lia.
Qed.

Lemma pick_loop_spec f :
  0 <= npicks -> rows_ok G 162 f ->
  picked npicks
    (for_loop 0 npicks (fun i st => st ← st; pick rand 3 162 i st)
       (Some (imat_create 29 3 (-1), imat_create (3 * npicks) 2 1000, 0, f))).
Proof.
  intros Hn Hf.
  apply (for_loop_invariant picked); [exact Hn | |].
  - eexists _, _, _, _. split; [reflexivity|]. split; [|split; [exact Hf | split]].
    + split; [apply shape_create; lia|]. split; [lia|].
      unfold listed. rewrite seqZ_nil by lia. split; [constructor|].
      intros p Hp. apply elem_of_nil in Hp. contradiction.
    + apply shape_create; lia.
    + intros r c Hr. lia.
  - intros i st Hi Hst. pose proof Hst as (s & comps & count & f' & -> & _).
    cbn [mbind option_bind]. apply pick_spec; assumption.
Qed.

End PickLoop.

(** *** The comparison matrix *)

(** The cells of the three grids, and the pairs of cells of one grid in the
    order of the rows of [fullM]. *)
Definition grid_cells : list (Z * Z) :=
  i ← [0; 1; 2]; (fun t => (i, t)) <$> seqZ 0 ((i + 2) * (i + 2)).

Definition cell_pairs : list (Z * Z * Z) :=
  i ← [0; 1; 2];
  j ← seqZ 0 ((i + 2) * (i + 2));
  (fun k => (i, j, k)) <$> seqZ (j + 1) ((i + 2) * (i + 2) - (j + 1)).

Lemma cell_pairs_cells :
  Forall (fun p => (p.1.1, p.1.2) ∈ grid_cells /\ (p.1.1, p.2) ∈ grid_cells) cell_pairs.
Proof. refine (bool_decide_unpack _ _). vm_compute. exact I. Qed.

Section FullComparisons.
Context {F : Type} `{FloatOps F}.
Variable fceil : F -> F.
Variable uninit : Z.
Variable pattern_size : Z.

(** The corner of cell [t] of grid [i]. *)
Definition corner (c : Z * Z) : Z * Z * Z :=
  let gdiv := c.1 + 2 in
  let psz := f_to_Z (fceil ((f_of_Z 2 ⊗ f_of_Z pattern_size) ⊘ f_of_Z gdiv)) in
  (c.1, psz * (Z.rem c.2 gdiv) - pattern_size, psz * (Z.quot c.2 gdiv) - pattern_size).

Definition comparison_row (p : Z * Z * Z) : list Z :=
  let a := corner (p.1.1, p.1.2) in
  let b := corner (p.1.1, p.2) in
  [p.1.1; a.1.2; a.2; b.1.2; b.2].

(** All samples of the pattern. *)
Definition grid_points : list (Z * Z * Z) := corner <$> grid_cells.

Lemma length_grid_points : length grid_points = 29%nat.
Proof. unfold grid_points. rewrite length_fmap. reflexivity. Qed.

Lemma full_comparisons_rows :
  full_comparisons fceil uninit pattern_size 162 = Some (comparison_row <$> cell_pairs).
Proof. vm_compute. reflexivity. Qed.

Lemma comparison_rows_ok : rows_ok grid_points 162 (comparison_row <$> cell_pairs).
Proof.
  split.
  - split; [rewrite length_fmap; reflexivity|].
    apply Forall_fmap, Forall_forall. intros p _. reflexivity.
  - intros k Hk.
    destruct (lookup_lt_is_Some_2 cell_pairs (Z.to_nat k)) as [p Hp];
      [change (length cell_pairs) with 162%nat; lia|].
    pose proof (proj1 (Forall_lookup _ _) cell_pairs_cells _ _ Hp) as [Ha Hb].
    assert (Hrow : nth (Z.to_nat k) (comparison_row <$> cell_pairs) [] = comparison_row p).
    { apply nth_lookup_Some. rewrite list_lookup_fmap, Hp. reflexivity. }
    unfold corner_at, cell. rewrite Hrow. unfold grid_points. split.
    + apply (list_elem_of_fmap_2' _ _ (p.1.1, p.1.2)); [exact Ha | reflexivity].
    + apply (list_elem_of_fmap_2' _ _ (p.1.1, p.2)); [exact Hb | reflexivity].
Qed.

End FullComparisons.

Section SampleRows.

(** A sample as the row of the sampling list that holds it. *)
Definition sample_row (p : Z * Z * Z) : list Z := [p.1.1; p.1.2; p.2].

Lemma sample_row_inj : Inj (=) (=) sample_row.
Proof.
  intros [[a b] c] [[a' b'] c'] Heq. unfold sample_row in Heq. cbn in Heq.
  injection Heq as -> -> ->. reflexivity.
Qed.

Lemma take_listed s count :
  shape 29 3 s -> 0 <= count <= 29 ->
  take (Z.to_nat count) s = sample_row <$> listed s count.
Proof.
  intros [Hlen Hrows] Hcount. apply list_eq. intros i.
  unfold listed. rewrite !list_lookup_fmap.
  destruct (Nat.lt_ge_cases i (Z.to_nat count)) as [Hlt | Hge].
  - rewrite lookup_take_lt, lookup_seqZ_lt by lia. cbn.
    destruct (lookup_lt_is_Some_2 s i) as [row Hrow]; [lia|].
    pose proof (proj1 (Forall_lookup _ _) Hrows _ _ Hrow) as Hl.
    rewrite Hrow. f_equal. unfold sample_row, sample_at, cell. cbn.
    replace (Z.to_nat (0 + Z.of_nat i)) with i by lia.
    rewrite (nth_lookup_Some _ _ [] row Hrow).
    destruct row as [|a [|b [|c [|? ?]]]]; cbn in Hl; try lia. reflexivity.
  - rewrite lookup_take_ge, lookup_seqZ_ge by lia. reflexivity.
Qed.

End SampleRows.

Lemma grid_cells_grids : Forall (fun c => 0 <= c.1 < 3) grid_cells.
Proof. refine (bool_decide_unpack _ _). vm_compute. exact I. Qed.

(** What [generateDescriptorSubsample] returns for three channels. *)
Lemma select_subsample_tables {F : Type} `{FloatOps F}
    (fceil : F -> F) (rand : Z -> Z) (uninit nbits pattern_size : Z) :
  (forall i, 0 <= rand i) ->
  0 <= nbits ->
  0 <= f_to_Z (fceil (f_of_Z nbits ⊘ f_of_Z 3)) <= 162 ->
  nbits <= 3 * f_to_Z (fceil (f_of_Z nbits ⊘ f_of_Z 3)) ->
  exists samples comps,
    select_subsample fceil rand uninit nbits pattern_size 3 = Some (samples, comps) /\
    (length samples <= 29)%nat /\ NoDup samples /\
    (forall row, row ∈ samples -> exists g x y, row = [g; x; y] /\ 0 <= g < 3) /\
    length comps = Z.to_nat nbits /\
    forall row, row ∈ comps ->
      exists a b, row = [a; b] /\
        0 <= a < 3 * Z.of_nat (length samples) /\
        0 <= b < 3 * Z.of_nat (length samples).
Proof.
  intros Hrand Hbits Hpicks Hcover.
  set (npicks := f_to_Z (fceil (f_of_Z nbits ⊘ f_of_Z 3))) in *.
  unfold select_subsample. fold npicks.
  change (3 =? 0) with false. cbv iota.
  change (Z.quot (full_descriptor_bits 3) 3) with 162.
  rewrite full_comparisons_rows. cbn [mbind option_bind].
  replace (Z.of_nat (length (comparison_row fceil pattern_size <$> cell_pairs)))
    with 162 by (rewrite length_fmap; reflexivity).
  pose proof (length_grid_points fceil pattern_size) as HG.
  destruct (pick_loop_spec rand Hrand (grid_points fceil pattern_size)
              ltac:(rewrite HG; lia) npicks ltac:(lia)
              (comparison_row fceil pattern_size <$> cell_pairs)
              ltac:(lia) (comparison_rows_ok fceil pattern_size))
    as (s & comps & count & f & -> & Hs & _ & Hc & Hdone).
  cbn [mbind option_bind].
  assert (Hcount : 0 <= count <= 29).
  { apply (samples_ok_count (grid_points fceil pattern_size)) with (s := s);
      [rewrite HG; lia | exact Hs]. }
  destruct Hs as (Hshape & _ & Hnd & Hgrid).
  destruct (imat_rowRange_in 29 3 s count Hshape Hcount) as [-> Hlen].
  destruct (imat_rowRange_in (3 * npicks) 2 comps nbits Hc ltac:(lia)) as [-> Hlenc].
  cbn [mbind option_bind]. eexists _, _. split; [reflexivity|].
  rewrite Hlen. split; [lia|]. split; [|split; [|split; [exact Hlenc|]]].
  - rewrite take_listed by assumption.
    exact (@NoDup_fmap_2 _ _ sample_row sample_row_inj _ Hnd).
  - intros row Hrow. rewrite take_listed in Hrow by assumption.
    apply list_elem_of_fmap in Hrow as (p & -> & Hp).
    apply Hgrid, list_elem_of_fmap in Hp as (c & -> & Hc').
    exists c.1, (corner fceil pattern_size c).1.2, (corner fceil pattern_size c).2.
    split; [reflexivity|].
    exact (proj1 (Forall_forall _ _) grid_cells_grids c Hc').
  - intros row Hrow. apply list_elem_of_lookup in Hrow as [r Hr].
    apply lookup_take_Some in Hr as [Hr Hlt].
    exists (cell comps (Z.of_nat r) 0), (cell comps (Z.of_nat r) 1).
    split; [exact (shape_row_two _ comps r row Hc Hr)|].
    rewrite Z2Nat.id by lia.
    split; apply Hdone; lia.
Qed.

(** X9: with three channels [generateDescriptorSubsample] stays within its
    matrices.  When [rand] returns no negative number and the number of
    picks [(int)ceil(nbits / 3.f)] is at most 162 and covers the [nbits]
    requested rows, no element outside [fullM], [samples] or [comps] is
    read or written: the 29 rows of [samples] suffice, because no sample is
    listed twice and the three grids have 4 + 9 + 16 cells.  The sampling
    list returned has at most 29 rows, all different, each naming one of
    the grids 0, 1, 2; the comparisons have [nbits] rows, and both entries
    of each row are positions below three times the number of listed
    samples. *)
Theorem select_subsample_in_bounds {F : Type} `{FloatOps F}
    (fceil : F -> F) (rand : Z -> Z) (uninit nbits pattern_size : Z) :
  (forall i, 0 <= rand i) ->
  0 <= nbits ->
  0 <= f_to_Z (fceil (f_of_Z nbits ⊘ f_of_Z 3)) <= 162 ->
  nbits <= 3 * f_to_Z (fceil (f_of_Z nbits ⊘ f_of_Z 3)) ->
  exists samples comps,
    select_subsample fceil rand uninit nbits pattern_size 3 = Some (samples, comps) /\
    (length samples <= 29)%nat /\ NoDup samples /\
    (forall row, row ∈ samples -> exists g x y, row = [g; x; y] /\ 0 <= g < 3) /\
    length comps = Z.to_nat nbits /\
    forall row, row ∈ comps ->
      exists a b, row = [a; b] /\
        0 <= a < 3 * Z.of_nat (length samples) /\
        0 <= b < 3 * Z.of_nat (length samples).
Proof. apply select_subsample_tables. Qed.

(** The 256-bit descriptor of three channels: 86 picks. *)
Lemma select_subsample_in_bounds_witness :
  exists samples comps,
    select_subsample sample_ceil sample_rand 0 256 10 3 = Some (samples, comps) /\
    (length samples <= 29)%nat /\ length comps = 256%nat.
Proof.
  destruct (select_subsample_in_bounds sample_ceil sample_rand 0 256 10)
    as (samples & comps & Heq & Hlen & _ & _ & Hlenc & _).
  - intros i. apply Z.mod_pos_bound. reflexivity.
  - lia.
  - vm_compute. split; discriminate.
  - vm_compute. discriminate.
  - exists samples, comps. split; [exact Heq|]. split; [exact Hlen | exact Hlenc].
Defined.

(** *** Fewer than three channels *)

Section ComparisonsOverrun.
Variable rand : Z -> Z.
Implicit Types (m comps s f : list (list Z)).

Lemma imat_set_length m r c v m' : imat_set m r c v = Some m' -> length m' = length m.
Proof.
  unfold imat_set. destruct ((r <? 0) || (c <? 0)); [discriminate|].
  destruct (m !! Z.to_nat r) as [row|]; [|discriminate]. cbn -[Nat.ltb].
  destruct (Z.to_nat c <? length row)%nat; [|discriminate].
  intros Heq. injection Heq as <-. apply length_insert.
Qed.

Lemma imat_set_outside m r c v : Z.of_nat (length m) <= r -> imat_set m r c v = None.
Proof.
  intros Hr. unfold imat_set. destruct ((r <? 0) || (c <? 0)); [reflexivity|].
  rewrite lookup_ge_None_2 by lia. reflexivity.
Qed.

(** The third store of [store_comparison] goes to row [i * nchannels + 2]. *)
Lemma store_comparison_outside comps i nchannels col j :
  Z.of_nat (length comps) <= i * nchannels + 2 ->
  store_comparison comps i nchannels col j = None.
Proof.
  intros Hout. unfold store_comparison.
  destruct (imat_set comps (i * nchannels) col (nchannels * j)) as [c1|] eqn:H1;
    [|reflexivity].
  cbn [mbind option_bind].
  destruct (imat_set c1 (i * nchannels + 1) col (nchannels * j + 1)) as [c2|] eqn:H2;
    [|reflexivity].
  cbn [mbind option_bind]. apply imat_set_outside.
  rewrite (imat_set_length _ _ _ _ _ H2), (imat_set_length _ _ _ _ _ H1). exact Hout.
Qed.

Lemma store_comparison_length comps i nchannels col j comps' :
  store_comparison comps i nchannels col j = Some comps' -> length comps' = length comps.
Proof.
  unfold store_comparison.
  destruct (imat_set comps (i * nchannels) col (nchannels * j)) as [c1|] eqn:H1;
    [|discriminate].
  cbn [mbind option_bind].
  destruct (imat_set c1 (i * nchannels + 1) col (nchannels * j + 1)) as [c2|] eqn:H2;
    [|discriminate].
  cbn [mbind option_bind]. intros H3.
  rewrite (imat_set_length _ _ _ _ _ H3), (imat_set_length _ _ _ _ _ H2).
  exact (imat_set_length _ _ _ _ _ H1).
Qed.

Lemma place_point_length s comps count f i k nchannels c1 c2 col s' comps' count' :
  place_point (s, comps, count) f i k nchannels c1 c2 col = Some (s', comps', count') ->
  length comps' = length comps.
Proof.
  unfold place_point.
  destruct (find_point _ _ _ _ _ _ _) as [[j|]|]; cbn [mbind option_bind];
    [| |discriminate].
  - destruct (store_comparison comps i nchannels col j) as [c'|] eqn:Hst;
      [|discriminate].
    cbn [mbind option_bind]. intros Heq. injection Heq as <- <- <-.
    exact (store_comparison_length _ _ _ _ _ _ Hst).
  - destruct (imat_at f k 0) as [f0|]; [|discriminate]. cbn [mbind option_bind].
    destruct (imat_set s count 0 f0) as [s1|]; [|discriminate]. cbn [mbind option_bind].
    destruct (imat_at f k c1) as [f1|]; [|discriminate]. cbn [mbind option_bind].
    destruct (imat_set s1 count 1 f1) as [s2|]; [|discriminate]. cbn [mbind option_bind].
    destruct (imat_at f k c2) as [f2|]; [|discriminate]. cbn [mbind option_bind].
    destruct (imat_set s2 count 2 f2) as [s3|]; [|discriminate]. cbn [mbind option_bind].
    destruct (store_comparison comps i nchannels col count) as [c'|] eqn:Hst;
      [|discriminate].
    cbn [mbind option_bind]. intros Heq. injection Heq as <- <- <-.
    exact (store_comparison_length _ _ _ _ _ _ Hst).
Qed.

Lemma place_point_outside s comps count f i k nchannels c1 c2 col :
  Z.of_nat (length comps) <= i * nchannels + 2 ->
  place_point (s, comps, count) f i k nchannels c1 c2 col = None.
Proof.
  intros Hout. unfold place_point.
  destruct (find_point _ _ _ _ _ _ _) as [[j|]|]; cbn [mbind option_bind];
    [| |reflexivity].
  - rewrite store_comparison_outside by exact Hout. reflexivity.
  - destruct (imat_at f k 0) as [f0|]; [|reflexivity]. cbn [mbind option_bind].
    destruct (imat_set s count 0 f0) as [s1|]; [|reflexivity]. cbn [mbind option_bind].
    destruct (imat_at f k c1) as [f1|]; [|reflexivity]. cbn [mbind option_bind].
    destruct (imat_set s1 count 1 f1) as [s2|]; [|reflexivity]. cbn [mbind option_bind].
    destruct (imat_at f k c2) as [f2|]; [|reflexivity]. cbn [mbind option_bind].
    destruct (imat_set s2 count 2 f2) as [s3|]; [|reflexivity]. cbn [mbind option_bind].
    rewrite store_comparison_outside by exact Hout. reflexivity.
Qed.

(** The comparisons keep their number of rows through a round. *)
Definition comps_rows (N : nat)
    (st : option (list (list Z) * list (list Z) * Z * list (list Z))) : Prop :=
  match st with
  | Some (_, comps, _, _) => length comps = N
  | None => True
  end.

Lemma pick_rows nchannels nrows i st N :
  comps_rows N (Some st) -> comps_rows N (pick rand nchannels nrows i st).
Proof.
  destruct st as [[[s comps] count] f]. intros Hlen. cbn in Hlen. unfold pick.
  destruct (nrows - i =? 0); [exact I|].
  set (k := if i <? 6 then i else Z.rem (rand i) (nrows - i)).
  destruct (place_point (s, comps, count) f i k nchannels 1 2 0)
    as [[[s1 comps1] count1]|] eqn:H1; [|exact I].
  cbn [mbind option_bind].
  destruct (place_point (s1, comps1, count1) f i k nchannels 3 4 1)
    as [[[s2 comps2] count2]|] eqn:H2; [|exact I].
  cbn [mbind option_bind].
  destruct (imat_copy_row f _ k) as [f'|]; [|exact I].
  cbn [mbind option_bind comps_rows].
  rewrite (place_point_length _ _ _ _ _ _ _ _ _ _ _ _ _ H2),
          (place_point_length _ _ _ _ _ _ _ _ _ _ _ _ _ H1).
  exact Hlen.
Qed.

Lemma pick_outside nchannels nrows i s comps count f :
  Z.of_nat (length comps) <= i * nchannels + 2 ->
  pick rand nchannels nrows i (s, comps, count, f) = None.
Proof.
  intros Hout. unfold pick. destruct (nrows - i =? 0); [reflexivity|].
  rewrite place_point_outside by exact Hout. reflexivity.
Qed.

Lemma pick_loop_overrun nchannels nrows npicks init :
  1 <= nchannels <= 2 -> 1 <= npicks ->
  comps_rows (Z.to_nat (nchannels * npicks)) (Some init) ->
  for_loop 0 npicks (fun i st => st ← st; pick rand nchannels nrows i st) (Some init)
  = None.
Proof.
  intros Hch Hn Hinit. rewrite for_loop_last by lia.
  assert (Hprev : comps_rows (Z.to_nat (nchannels * npicks))
                    (for_loop 0 (npicks - 1)
                       (fun i st => st ← st; pick rand nchannels nrows i st)
                       (Some init))).
  { apply (for_loop_preserves (comps_rows (Z.to_nat (nchannels * npicks))));
      [exact Hinit|].
    intros i [st|] _ Hst; [|exact I]. cbn [mbind option_bind].
    apply pick_rows. exact Hst. }
  destruct (for_loop 0 (npicks - 1) _ (Some init)) as [[[[s comps] count] f]|];
    [|reflexivity].
  cbn [mbind option_bind]. cbn in Hprev. apply pick_outside. nia.
Qed.

End ComparisonsOverrun.

(** X10: with one or two channels [generateDescriptorSubsample] does not stay
    within [comps].  The matrix has [nchannels * npicks] rows, while every
    pick [i] stores to the rows [i * nchannels], [i * nchannels + 1] and
    [i * nchannels + 2]: as soon as there is one pick, the last pick
    reaches a row that the matrix does not have, whatever [rand] returns
    and whatever the pattern size. *)
Theorem select_subsample_overrun {F : Type} `{FloatOps F}
    (fceil : F -> F) (rand : Z -> Z) (uninit nbits pattern_size nchannels : Z) :
  1 <= nchannels <= 2 ->
  1 <= f_to_Z (fceil (f_of_Z nbits ⊘ f_of_Z nchannels)) ->
  select_subsample fceil rand uninit nbits pattern_size nchannels = None.
Proof.
  intros Hch Hpicks. unfold select_subsample.
  destruct (Z.eqb_spec nchannels 0) as [?|_]; [lia|].
  destruct (full_comparisons _ _ _ _) as [fullM|]; [|reflexivity].
  cbn [mbind option_bind].
  rewrite pick_loop_overrun; [reflexivity | exact Hch | exact Hpicks |].
  cbn [comps_rows]. unfold imat_create. apply repeat_length.
Qed.

(** A 64-bit descriptor of one channel: 64 picks on 64 rows. *)
Lemma select_subsample_overrun_witness :
  select_subsample sample_ceil sample_rand 0 64 10 1 = None.
Proof.
  apply select_subsample_overrun; [lia|]. vm_compute. discriminate.
Defined.
(** ** The bits of the full binary descriptor *)

Section ToggledValues.
Variable CV_TOGGLE_FLT : Z -> Z.

(** The first [n] values toggled, the others as they were. *)
Definition toggle_values (n : Z) (ivalues : list Z) : list Z :=
  (CV_TOGGLE_FLT <$> take (Z.to_nat n) ivalues) ++ drop (Z.to_nat n) ivalues.

Lemma length_toggle_values n ivalues :
  length (toggle_values n ivalues) = length ivalues.
Proof.
  unfold toggle_values. rewrite length_app, length_fmap, length_take, length_drop. lia.
Qed.

Lemma elt_toggle_values n ivalues i :
  0 <= i < n -> n <= Z.of_nat (length ivalues) ->
  elt (toggle_values n ivalues) i = CV_TOGGLE_FLT (elt ivalues i).
Proof.
  intros Hi Hn. unfold elt, toggle_values.
  destruct (lookup_lt_is_Some_2 ivalues (Z.to_nat i)) as [x Hx]; [lia|].
  rewrite (nth_lookup_Some _ _ 0 x Hx). apply nth_lookup_Some.
  rewrite lookup_app_l by (rewrite length_fmap, length_take; lia).
  rewrite list_lookup_fmap, lookup_take_lt, Hx by lia. reflexivity.
Qed.

Lemma toggle_loop n ivalues :
  0 <= n <= Z.of_nat (length ivalues) ->
  for_loop 0 n
    (fun i ivalues =>
       ivalues ← ivalues;
       x ← arr_at ivalues i;
       arr_set ivalues i (CV_TOGGLE_FLT x))
    (Some ivalues)
  = Some (toggle_values n ivalues).
Proof.
  intros Hn.
  enough (Hinv : 0 <= n <= n /\
                 for_loop 0 n
                   (fun i ivalues =>
                      ivalues ← ivalues;
                      x ← arr_at ivalues i;
                      arr_set ivalues i (CV_TOGGLE_FLT x))
                   (Some ivalues) = Some (toggle_values n ivalues))
    by apply Hinv.
  apply (for_loop_invariant
           (fun i st => 0 <= i <= n /\ st = Some (toggle_values i ivalues))); [lia | |].
  - split; [lia|]. unfold toggle_values. cbn. rewrite drop_0. reflexivity.
  - intros i st Hi [_ ->]. split; [lia|]. cbn [mbind option_bind].
    destruct (lookup_lt_is_Some_2 ivalues (Z.to_nat i)) as [x Hx]; [lia|].
    assert (Hat : elt (toggle_values i ivalues) i = x).
    { unfold elt, toggle_values. apply nth_lookup_Some.
      rewrite lookup_app_r by (rewrite length_fmap, length_take; lia).
      rewrite length_fmap, length_take, lookup_drop.
      replace (Z.to_nat i + (Z.to_nat i - Z.to_nat i `min` length ivalues))%nat
        with (Z.to_nat i) by lia.
      exact Hx. }
    rewrite arr_at_in by (rewrite length_toggle_values; lia).
    cbn [mbind option_bind]. rewrite Hat.
    rewrite arr_set_in by (rewrite length_toggle_values; lia). f_equal.
    unfold toggle_values.
    rewrite insert_app_r_alt by (rewrite length_fmap, length_take; lia).
    rewrite length_fmap, length_take.
    replace (Z.to_nat i - Z.to_nat i `min` length ivalues)%nat with 0%nat by lia.
    rewrite (drop_S _ _ _ Hx). cbn [insert list_insert].
    replace (Z.to_nat (i + 1)) with (Datatypes.S (Z.to_nat i)) by lia.
    rewrite (take_S_r _ _ _ Hx), fmap_app, <- app_assoc. reflexivity.
Qed.

End ToggledValues.

Section DescriptorBits.
Implicit Types (desc : list Z) (d dpos : Z) (b : bool).

(** A descriptor row: a list of bytes. *)
Definition bytes desc : Prop := Forall (fun x => 0 <= x < 256) desc.

(** Bit [d] of a descriptor row, least significant bit of a byte first. *)
Definition desc_bit desc d : bool := Z.testbit (elt desc (d / 8)) (d mod 8).

(** The store of the bit at [dpos] and the step to the next position. *)
Definition write_bit desc dpos b : option (list Z) :=
  byte ← arr_at desc (Z.shiftr dpos 3);
  arr_set desc (Z.shiftr dpos 3)
    (if b then u8 (Z.lor byte (Z.shiftl 1 (Z.land dpos 7)))
     else u8 (Z.land byte (Z.lnot (Z.shiftl 1 (Z.land dpos 7))))).

Definition write_step (st : option (list Z * Z)) b : option (list Z * Z) :=
  '(desc, dpos) ← st; desc ← write_bit desc dpos b; Some (desc, dpos + 1).

Lemma testbit_one k : Z.testbit 1 k = (k =? 0).
Proof. destruct k as [|p|p]; [reflexivity | destruct p; reflexivity | reflexivity]. Qed.

Lemma write_bit_spec desc dpos b :
  bytes desc -> 0 <= dpos < 8 * Z.of_nat (length desc) ->
  exists desc', write_bit desc dpos b = Some desc' /\
    length desc' = length desc /\ bytes desc' /\
    forall d, 0 <= d -> desc_bit desc' d = if d =? dpos then b else desc_bit desc d.
Proof.
  intros Hbytes Hpos. unfold write_bit.
  rewrite Z.shiftr_div_pow2 by lia. change (2 ^ 3) with 8.
  change 7 with (Z.ones 3). rewrite Z.land_ones by lia. change (2 ^ 3) with 8.
  set (k := dpos / 8). set (p := dpos mod 8).
  assert (Hk : 0 <= k < Z.of_nat (length desc)).
  { subst k. split; [apply Z.div_pos; lia | apply Z.div_lt_upper_bound; lia]. }
  assert (Hp : 0 <= p < 8) by (subst p; apply Z.mod_pos_bound; lia).
  rewrite arr_at_in by exact Hk. cbn [mbind option_bind].
  rewrite arr_set_in by exact Hk.
  eexists. split; [reflexivity|]. split; [apply length_insert|]. split.
  - apply Forall_insert; [exact Hbytes|]. destruct b; apply Z.mod_pos_bound; lia.
  - intros d Hd. unfold desc_bit. rewrite elt_insert by (try apply Z.div_pos; lia).
    assert (Hq : 0 <= d mod 8 < 8) by (apply Z.mod_pos_bound; lia).
    assert (Hdk : 0 <= d / 8) by (apply Z.div_pos; lia).
    destruct (Nat.eqb_spec (Z.to_nat (d / 8)) (Z.to_nat k)) as [Hsame | Hother].
    + assert (Hbyte : d / 8 = k) by lia.
      assert (Heq : (d =? dpos) = (d mod 8 - p =? 0)).
      { destruct (Z.eqb_spec d dpos) as [Hd' | Hne];
          destruct (Z.eqb_spec (d mod 8 - p) 0) as [H0 | H0]; try reflexivity.
        - subst p. rewrite Hd' in H0. lia.
        - exfalso. apply Hne.
          rewrite (Z.div_mod d 8), (Z.div_mod dpos 8) by lia.
          fold k p. rewrite Hbyte. lia. }
      rewrite Heq. unfold u8. change 256 with (2 ^ 8).
      destruct b; rewrite Z.mod_pow2_bits_low by lia.
      * rewrite Z.lor_spec, Z.shiftl_spec, testbit_one by lia.
        rewrite Hbyte. destruct (d mod 8 - p =? 0); [apply orb_true_r | apply orb_false_r].
      * rewrite Z.land_spec, Z.lnot_spec, Z.shiftl_spec, testbit_one by lia.
        rewrite Hbyte.
        destruct (d mod 8 - p =? 0); [apply andb_false_r | apply andb_true_r].
    + destruct (Z.eqb_spec d dpos) as [Hd' | _]; [|reflexivity].
      exfalso. apply Hother. subst k. rewrite Hd'. reflexivity.
Qed.

Lemma write_step_None bs : fold_left write_step bs None = None.
Proof. induction bs as [|b bs IH]; [reflexivity | exact IH]. Qed.

(** Writing a list of bits from [dpos] on. *)
Lemma write_bits_spec bs : forall desc dpos,
  bytes desc -> 0 <= dpos ->
  dpos + Z.of_nat (length bs) <= 8 * Z.of_nat (length desc) ->
  exists desc',
    fold_left write_step bs (Some (desc, dpos))
      = Some (desc', dpos + Z.of_nat (length bs)) /\
    length desc' = length desc /\ bytes desc' /\
    (forall d, 0 <= d -> d < dpos \/ dpos + Z.of_nat (length bs) <= d ->
       desc_bit desc' d = desc_bit desc d) /\
    (forall (n : nat) b, bs !! n = Some b -> desc_bit desc' (dpos + Z.of_nat n) = b).
Proof.
  induction bs as [|b bs IH]; intros desc dpos Hbytes Hpos Hroom.
  - exists desc. cbn. rewrite Z.add_0_r. repeat split; try assumption.
    intros n b Hn. discriminate Hn.
  - cbn [length] in Hroom. cbn [fold_left]. unfold write_step at 2.
    cbn [mbind option_bind].
    destruct (write_bit_spec desc dpos b Hbytes) as (desc1 & -> & Hlen1 & Hbytes1 & Hbit1);
      [lia|].
    cbn [mbind option_bind].
    destruct (IH desc1 (dpos + 1) Hbytes1) as (desc' & Hrun & Hlen & Hbytes' & Hout & Hin);
      [lia | rewrite Hlen1; lia |].
    exists desc'. split.
    { rewrite Hrun. cbn [length]. do 2 f_equal. lia. }
    split; [congruence|]. split; [exact Hbytes'|]. split.
    + intros d Hd Hrange. cbn [length] in Hrange. rewrite Hout by lia.
      rewrite Hbit1 by exact Hd. destruct (Z.eqb_spec d dpos); [lia | reflexivity].
    + intros n b' Hn. destruct n as [|n].
      * cbn in Hn. injection Hn as <-. rewrite Z.add_0_r.
        rewrite Hout by lia. rewrite Hbit1 by lia. now rewrite Z.eqb_refl.
      * cbn in Hn. replace (dpos + Z.of_nat (Datatypes.S n))
          with (dpos + 1 + Z.of_nat n) by lia.
        now apply Hin.
Qed.

End DescriptorBits.

Lemma seqZ_singleton (m : Z) : seqZ m 1 = [m].
Proof. rewrite seqZ_cons, seqZ_nil by lia. reflexivity. Qed.

Lemma seqZ_snoc (n : Z) : 0 <= n -> seqZ 0 (n + 1) = seqZ 0 n ++ [n].
Proof. intros Hn. rewrite seqZ_app by lia. now rewrite seqZ_singleton. Qed.

Lemma seqZ_split (i n : Z) :
  0 <= i < n -> seqZ 0 n = seqZ 0 i ++ i :: seqZ (i + 1) (n - i - 1).
Proof.
  intros Hi. replace n with (i + (1 + (n - i - 1))) at 1 by lia.
  rewrite seqZ_app by lia. f_equal. rewrite seqZ_app by lia.
  now rewrite seqZ_singleton.
Qed.

Section ComparisonOrder.
Variable chan count : Z.
Variable ivalues : list Z.

(** The comparison of the values [i] and [j] of channel [pos]. *)
Definition comparison (pos i j : Z) : bool :=
  elt ivalues (chan * i + pos) >? elt ivalues (chan * j + pos).

(** The comparisons of value [i] of channel [pos] with the values after it,
    those of one channel, and all of them, in the order of the loops. *)
Definition comparisons_from (pos i : Z) : list bool :=
  comparison pos i <$> seqZ (i + 1) (count - (i + 1)).
Definition comparisons_of (pos : Z) : list bool := seqZ 0 count ≫= comparisons_from pos.
Definition comparison_bits : list bool := seqZ 0 chan ≫= comparisons_of.

Lemma length_comparisons_from pos i :
  0 <= i < count -> Z.of_nat (length (comparisons_from pos i)) = count - (i + 1).
Proof. intros Hi. unfold comparisons_from. rewrite length_fmap, length_seqZ. lia. Qed.

(** The comparisons of the values before [n]: [n * (2 * count - n - 1) / 2]
    of them. *)
Lemma length_comparisons_before pos (n : nat) :
  Z.of_nat n <= count ->
  2 * Z.of_nat (length (seqZ 0 (Z.of_nat n) ≫= comparisons_from pos))
  = Z.of_nat n * (2 * count - Z.of_nat n - 1).
Proof.
  induction n as [|n IH]; intros Hn; [reflexivity|].
  replace (Z.of_nat (Datatypes.S n)) with (Z.of_nat n + 1) by lia.
  rewrite seqZ_snoc by lia. rewrite bind_app, length_app.
  rewrite bind_cons, length_app. cbn [mbind list_bind length].
  pose proof (length_comparisons_from pos (Z.of_nat n) ltac:(lia)) as Hrow.
  specialize (IH ltac:(lia)). nia.
Qed.

Definition pairs_before (i : Z) : Z := i * (2 * count - i - 1) / 2.

Lemma length_comparisons_before_eq pos i :
  0 <= i <= count ->
  Z.of_nat (length (seqZ 0 i ≫= comparisons_from pos)) = pairs_before i.
Proof.
  intros Hi. pose proof (length_comparisons_before pos (Z.to_nat i) ltac:(lia)) as Hlen.
  rewrite Z2Nat.id in Hlen by lia. unfold pairs_before.
  rewrite <- Hlen, Z.mul_comm, Z.div_mul by lia. reflexivity.
Qed.

Lemma length_comparisons_of pos :
  0 <= count -> Z.of_nat (length (comparisons_of pos)) = count * (count - 1) / 2.
Proof.
  intros Hc. unfold comparisons_of. rewrite length_comparisons_before_eq by lia.
  unfold pairs_before. f_equal. lia.
Qed.

Lemma lookup_comparisons_of pos i j :
  0 <= i < j -> j < count ->
  comparisons_of pos !! Z.to_nat (pairs_before i + (j - i - 1)) = Some (comparison pos i j).
Proof.
  intros Hi Hj. unfold comparisons_of.
  rewrite (seqZ_split i count) by lia. rewrite bind_app, bind_cons.
  pose proof (length_comparisons_before_eq pos i ltac:(lia)) as Hbefore.
  assert (Hnn : 0 <= pairs_before i) by lia.
  rewrite lookup_app_r by lia.
  replace (Z.to_nat (pairs_before i + (j - i - 1))
           - length (seqZ 0 i ≫= comparisons_from pos))%nat
    with (Z.to_nat (j - i - 1)) by lia.
  pose proof (length_comparisons_from pos i ltac:(lia)) as Hrow.
  rewrite lookup_app_l by lia.
  unfold comparisons_from. rewrite list_lookup_fmap, lookup_seqZ_lt by lia.
  cbn. do 2 f_equal. lia.
Qed.

Lemma length_comparison_bits_before (n : nat) :
  0 <= count ->
  Z.of_nat (length (seqZ 0 (Z.of_nat n) ≫= comparisons_of))
  = Z.of_nat n * (count * (count - 1) / 2).
Proof.
  intros Hc. induction n as [|n IH]; [reflexivity|].
  replace (Z.of_nat (Datatypes.S n)) with (Z.of_nat n + 1) by lia.
  rewrite seqZ_snoc by lia. rewrite bind_app, length_app.
  rewrite bind_cons, length_app. cbn [mbind list_bind length].
  pose proof (length_comparisons_of (Z.of_nat n) Hc). lia.
Qed.

Lemma length_comparison_bits :
  0 <= chan -> 0 <= count ->
  Z.of_nat (length comparison_bits) = chan * (count * (count - 1) / 2).
Proof.
  intros Hch Hc. unfold comparison_bits.
  pose proof (length_comparison_bits_before (Z.to_nat chan) Hc) as Hlen.
  rewrite Z2Nat.id in Hlen by lia. exact Hlen.
Qed.

Lemma lookup_comparison_bits pos i j :
  0 <= pos < chan -> 0 <= i < j -> j < count ->
  comparison_bits
    !! Z.to_nat (pos * (count * (count - 1) / 2) + (pairs_before i + (j - i - 1)))
  = Some (comparison pos i j).
Proof.
  intros Hpos Hi Hj. unfold comparison_bits.
  rewrite (seqZ_split pos chan) by lia. rewrite bind_app, bind_cons.
  pose proof (length_comparison_bits_before (Z.to_nat pos) ltac:(lia)) as Hbefore.
  rewrite Z2Nat.id in Hbefore by lia.
  pose proof (length_comparisons_before_eq pos i ltac:(lia)) as Hrow.
  assert (Hp : 0 <= pos * (count * (count - 1) / 2)) by lia.
  assert (Hnn : 0 <= pairs_before i) by lia.
  rewrite lookup_app_r by lia.
  replace (Z.to_nat (pos * (count * (count - 1) / 2) + (pairs_before i + (j - i - 1)))
           - length (seqZ 0 pos ≫= comparisons_of))%nat
    with (Z.to_nat (pairs_before i + (j - i - 1))) by lia.
  rewrite lookup_app_l.
  - apply lookup_comparisons_of; assumption.
  - apply lookup_lt_is_Some_1.
    rewrite lookup_comparisons_of by assumption. eauto.
Qed.

End ComparisonOrder.

Section BinaryComparisonsFacts.
Variable CV_TOGGLE_FLT : Z -> Z.

(** The bits [bs] stand in [desc] from position [lo] on. *)
Definition written (desc : list Z) (lo : Z) (bs : list bool) : Prop :=
  forall (n : nat) b, bs !! n = Some b -> desc_bit desc (lo + Z.of_nat n) = b.

Lemma MLDB_Binary_Comparisons_spec chan ivalues desc count dpos :
  0 <= chan -> 0 <= count -> count * chan <= Z.of_nat (length ivalues) ->
  bytes desc -> 0 <= dpos ->
  dpos + chan * (count * (count - 1) / 2) <= 8 * Z.of_nat (length desc) ->
  let toggled := toggle_values CV_TOGGLE_FLT (count * chan) ivalues in
  exists desc',
    MLDB_Binary_Comparisons CV_TOGGLE_FLT chan ivalues desc count dpos
      = Some (toggled, desc', dpos + chan * (count * (count - 1) / 2)) /\
    length desc' = length desc /\ bytes desc' /\
    (forall d, 0 <= d -> d < dpos \/ dpos + chan * (count * (count - 1) / 2) <= d ->
       desc_bit desc' d = desc_bit desc d) /\
    written desc' dpos (comparison_bits chan count toggled).
Proof.
  intros Hch Hc Hlen Hbytes Hpos Hroom toggled.
  unfold MLDB_Binary_Comparisons.
  rewrite toggle_loop by nia. cbn [mbind option_bind]. fold toggled.
  assert (Hlt : Z.of_nat (length toggled) = Z.of_nat (length ivalues))
    by (subst toggled; now rewrite length_toggle_values).
  rewrite (for_loop_fold_bind 0 chan _ write_step (comparisons_of chan count toggled)).
  2: { intros pos st Hp.
       rewrite (for_loop_fold_bind 0 count _ write_step
                  (comparisons_from chan count toggled pos));
         [rewrite Z.sub_0_r; reflexivity|].
       intros i st' Hi. destruct st' as [[d p]|].
       - cbn [mbind option_bind].
         assert (Hi' : chan * i <= chan * (count - 1))
           by (apply Z.mul_le_mono_nonneg_l; lia).
         assert (Hi0 : 0 <= chan * i) by (apply Z.mul_nonneg_nonneg; lia).
         rewrite (arr_at_in toggled) by lia. cbn [mbind option_bind].
         unfold comparisons_from. apply for_loop_fold_map.
         intros j st'' Hj. destruct st'' as [[d' p']|]; [|reflexivity].
         cbn [mbind option_bind].
         assert (Hj' : chan * j <= chan * (count - 1))
           by (apply Z.mul_le_mono_nonneg_l; lia).
         assert (Hj0 : 0 <= chan * j) by (apply Z.mul_nonneg_nonneg; lia).
         rewrite (arr_at_in toggled) by lia.
         unfold write_step, write_bit, comparison. cbn [mbind option_bind].
         destruct (arr_at d' (Z.shiftr p' 3)); reflexivity.
       - cbn [mbind option_bind]. symmetry. apply write_step_None. }
  rewrite Z.sub_0_r. fold (comparison_bits chan count toggled).
  pose proof (length_comparison_bits chan count toggled Hch Hc) as Hbits.
  destruct (write_bits_spec (comparison_bits chan count toggled) desc dpos Hbytes Hpos)
    as (desc' & -> & Hlen' & Hbytes' & Hout & Hin); [lia|].
  cbn [mbind option_bind fst snd]. rewrite Hbits. exists desc'.
  split; [reflexivity|]. split; [exact Hlen'|]. split; [exact Hbytes'|].
  split; [|exact Hin].
  intros d Hd Hrange. apply Hout; [exact Hd | lia].
Qed.

End BinaryComparisonsFacts.

(** X11: [MLDB_Binary_Comparisons] writes one bit per pair of values and
    channel, and nothing else.  With [count] values of [chan] channels each
    and room for the bits in the row, [dpos] advances by
    [chan * count * (count - 1) / 2]; the bits of [desc] before the old and
    from the new [dpos] on are unchanged, and so is the number of bytes; the
    bit for the values [i < j] of channel [pos] is bit
    [dpos + pos * count * (count - 1) / 2 + i * (2 * count - i - 1) / 2
     + (j - i - 1)], and it is set exactly when the toggled value [i] is
    larger than the toggled value [j], whatever the row held before.  The
    buffer of values is left with its first [count * chan] entries
    toggled. *)
Theorem MLDB_Binary_Comparisons_bits
    (CV_TOGGLE_FLT : Z -> Z) (chan count dpos : Z) (ivalues desc : list Z) :
  0 <= chan -> 0 <= count -> count * chan <= Z.of_nat (length ivalues) ->
  bytes desc -> 0 <= dpos ->
  dpos + chan * (count * (count - 1) / 2) <= 8 * Z.of_nat (length desc) ->
  exists desc',
    MLDB_Binary_Comparisons CV_TOGGLE_FLT chan ivalues desc count dpos
      = Some (toggle_values CV_TOGGLE_FLT (count * chan) ivalues, desc',
              dpos + chan * (count * (count - 1) / 2)) /\
    length desc' = length desc /\ bytes desc' /\
    (forall d, 0 <= d -> d < dpos \/ dpos + chan * (count * (count - 1) / 2) <= d ->
       desc_bit desc' d = desc_bit desc d) /\
    forall pos i j, 0 <= pos < chan -> 0 <= i < j -> j < count ->
      desc_bit desc'
        (dpos + pos * (count * (count - 1) / 2)
         + i * (2 * count - i - 1) / 2 + (j - i - 1))
      = (CV_TOGGLE_FLT (elt ivalues (chan * i + pos))
         >? CV_TOGGLE_FLT (elt ivalues (chan * j + pos))).
Proof.
  intros Hch Hc Hlen Hbytes Hpos Hroom.
  destruct (MLDB_Binary_Comparisons_spec CV_TOGGLE_FLT chan ivalues desc count dpos)
    as (desc' & Hrun & Hlen' & Hbytes' & Hout & Hin); try assumption.
  exists desc'. split; [exact Hrun|]. split; [exact Hlen'|]. split; [exact Hbytes'|].
  split; [exact Hout|].
  intros pos i j Hp Hi Hj.
  pose proof (lookup_comparison_bits chan count
                (toggle_values CV_TOGGLE_FLT (count * chan) ivalues) pos i j Hp Hi Hj)
    as Hbit.
  assert (Hnn : 0 <= pos * (count * (count - 1) / 2) + (pairs_before count i + (j - i - 1))).
  { assert (0 <= count * (count - 1) / 2) by (apply Z.div_pos; nia).
    assert (0 <= pairs_before count i) by (apply Z.div_pos; nia). nia. }
  apply Hin in Hbit. rewrite Z2Nat.id in Hbit by exact Hnn.
  unfold pairs_before in Hbit.
  replace (dpos + pos * (count * (count - 1) / 2) + i * (2 * count - i - 1) / 2
           + (j - i - 1))
    with (dpos + (pos * (count * (count - 1) / 2)
                  + (i * (2 * count - i - 1) / 2 + (j - i - 1)))) by lia.
  rewrite Hbit. unfold comparison.
  rewrite !elt_toggle_values by nia. reflexivity.
Qed.

(** Two values of one channel in one byte: the only bit written is bit 0,
    set because 5 is larger than 3. *)
Lemma MLDB_Binary_Comparisons_bits_witness :
  exists desc',
    MLDB_Binary_Comparisons (fun x => x) 1 [5; 3] [254] 2 0 = Some ([5; 3], desc', 1) /\
    desc_bit desc' 0 = true.
Proof.
  destruct (MLDB_Binary_Comparisons_bits (fun x => x) 1 2 0 [5; 3] [254])
    as (desc' & Hrun & _ & _ & _ & Hbit).
  - lia.
  - lia.
  - vm_compute. discriminate.
  - repeat constructor; lia.
  - lia.
  - vm_compute. discriminate.
  - exists desc'. split; [exact Hrun|]. apply (Hbit 0 0 1); lia.
Defined.

Section FullDescriptor.
Context {F : Type} `{FloatOps F}.
Variable CV_TOGGLE_FLT : Z -> Z.
Variable fRound : F -> Z.
Variables fcos fsin : F -> F.
Variable pi : F.
Variable sample_step_of : Z -> Z -> Z.
Variable MLDB_Fill_Values : list Z -> Z -> Z -> F -> F -> F -> F -> F -> list Z.
Variable stack_values : list Z.
Hypothesis stack_size : (48 <= length stack_values)%nat.
Hypothesis fill_length : forall values step level xf yf co si scale,
  length (MLDB_Fill_Values values step level xf yf co si scale) = length values.

Variable options_ : AKAZEOptions F.
Variable kpt : KeyPoint F.

Let chan := descriptor_channels options_.
Let run :=
  Get_MLDB_Full_Descriptor CV_TOGGLE_FLT fRound fcos fsin pi sample_step_of
    MLDB_Fill_Values stack_values options_ kpt.

(** The bits that the call writes: they depend on the keypoint and on the
    contents of the stack, not on the row. *)
Lemma Get_MLDB_Full_Descriptor_run :
  0 <= chan <= 3 ->
  exists bits0 bits1 bits2 : list bool,
    Z.of_nat (length bits0) = chan * 6 /\
    Z.of_nat (length bits1) = chan * 36 /\
    Z.of_nat (length bits2) = chan * 120 /\
    forall desc,
      bytes desc -> 162 * chan <= 8 * Z.of_nat (length desc) ->
      exists desc',
        run desc = Ok (Some desc') /\
        length desc' = length desc /\ bytes desc' /\
        (forall d, 162 * chan <= d -> desc_bit desc' d = desc_bit desc d) /\
        written desc' 0 bits0 /\ written desc' (chan * 6) bits1 /\
        written desc' (chan * 42) bits2.
Proof.
  intros Hchan. subst run. unfold Get_MLDB_Full_Descriptor. fold chan.
  destruct (Z.leb_spec chan 3) as [_|?]; [|lia]. cbn [negb].
  cbv zeta.
  set (ratio := f_of_Z (Z.shiftl 1 (octave kpt))).
  set (scale := f_of_Z (fRound (flit 1 2 ⊗ size kpt ⊘ ratio))).
  set (angle_ := angle kpt ⊗ pi ⊘ f_of_Z 180).
  set (fill := fun values lvl =>
         MLDB_Fill_Values values (sample_step_of (descriptor_pattern_size options_) lvl)
           (class_id kpt) (pt_x kpt ⊘ ratio) (pt_y kpt ⊘ ratio) (fcos angle_)
           (fsin angle_) scale).
  set (v0 := take (Z.to_nat (16 * 3)) stack_values).
  set (t0 := toggle_values CV_TOGGLE_FLT (4 * chan) (fill v0 0)).
  set (t1 := toggle_values CV_TOGGLE_FLT (9 * chan) (fill t0 1)).
  set (t2 := toggle_values CV_TOGGLE_FLT (16 * chan) (fill t1 2)).
  assert (Hv0 : length v0 = 48%nat) by (subst v0; rewrite length_take; lia).
  assert (Ht0 : length t0 = 48%nat)
    by (subst t0 fill; cbv beta; now rewrite length_toggle_values, fill_length).
  assert (Ht1 : length t1 = 48%nat)
    by (subst t1 fill; cbv beta; now rewrite length_toggle_values, fill_length).
  exists (comparison_bits chan 4 t0), (comparison_bits chan 9 t1),
         (comparison_bits chan 16 t2).
  split; [rewrite length_comparison_bits by lia; reflexivity|].
  split; [rewrite length_comparison_bits by lia; reflexivity|].
  split; [rewrite length_comparison_bits by lia; reflexivity|].
  intros desc Hbytes Hroom.
  unfold for_loop. change (Z.to_nat (3 - 0)) with 3%nat. cbn [for_loop_nat].
  cbn [mbind option_bind]. change (0 + 1 + 1) with 2. change (0 + 1) with 1.
  change ((0 + 2) * (0 + 2)) with 4. change ((1 + 2) * (1 + 2)) with 9.
  change ((2 + 2) * (2 + 2)) with 16.
  fold (fill v0 0).
  destruct (MLDB_Binary_Comparisons_spec CV_TOGGLE_FLT chan (fill v0 0) desc 4 0)
    as (d0 & -> & Hl0 & Hb0 & Hout0 & Hin0);
    try assumption; try lia;
    [subst fill; cbv beta; rewrite fill_length; lia
    | change (4 * (4 - 1) / 2) with 6; lia |].
  cbn [mbind option_bind]. fold t0. fold (fill t0 1).
  change (4 * (4 - 1) / 2) with 6 in *.
  destruct (MLDB_Binary_Comparisons_spec CV_TOGGLE_FLT chan (fill t0 1) d0 9 (0 + chan * 6))
    as (d1 & -> & Hl1 & Hb1 & Hout1 & Hin1);
    try assumption; try lia;
    [subst fill; cbv beta; rewrite fill_length; lia
    | change (9 * (9 - 1) / 2) with 36; lia |].
  cbn [mbind option_bind]. fold t1. fold (fill t1 2).
  change (9 * (9 - 1) / 2) with 36 in *.
  destruct (MLDB_Binary_Comparisons_spec CV_TOGGLE_FLT chan (fill t1 2) d1 16
              (0 + chan * 6 + chan * 36))
    as (d2 & -> & Hl2 & Hb2 & Hout2 & Hin2);
    try assumption; try lia;
    [subst fill; cbv beta; rewrite fill_length; lia
    | change (16 * (16 - 1) / 2) with 120; lia |].
  cbn [mbind option_bind fst snd]. fold t2.
  change (16 * (16 - 1) / 2) with 120 in *.
  exists d2. split; [reflexivity|]. split; [congruence|]. split; [exact Hb2|].
  pose proof (length_comparison_bits chan 4 t0 ltac:(lia) ltac:(lia)) as Hn0.
  pose proof (length_comparison_bits chan 9 t1 ltac:(lia) ltac:(lia)) as Hn1.
  change (4 * (4 - 1) / 2) with 6 in Hn0. change (9 * (9 - 1) / 2) with 36 in Hn1.
  split; [|split; [|split]].
  - intros d Hd. rewrite Hout2, Hout1, Hout0 by lia. reflexivity.
  - intros n b Hn. pose proof (lookup_lt_Some _ _ _ Hn) as Hlt.
    rewrite Hout2, Hout1 by lia. apply Hin0. exact Hn.
  - intros n b Hn. pose proof (lookup_lt_Some _ _ _ Hn) as Hlt.
    rewrite Hout2 by lia.
    replace (chan * 6 + Z.of_nat n) with (0 + chan * 6 + Z.of_nat n) by lia.
    apply Hin1. exact Hn.
  - intros n b Hn.
    replace (chan * 42 + Z.of_nat n) with (0 + chan * 6 + chan * 36 + Z.of_nat n) by lia.
    apply Hin2. exact Hn.
Qed.

End FullDescriptor.

(** X12: [Get_MLDB_Full_Descriptor] fills the row that [Compute_Descriptors]
    allocates for the full descriptor, and no more.  More than three
    channels fail its assertion.  With up to three channels and a row of
    [ceil((6 + 36 + 120) * channels / 8)] bytes every access stays within
    the row and within the 48 values on the stack; the first
    [162 * channels] bits of the result do not depend on what the row held
    before, and the bits after them, the padding of the last byte, are left
    as they were. *)
Theorem Get_MLDB_Full_Descriptor_bits {F : Type} `{FloatOps F}
    (CV_TOGGLE_FLT : Z -> Z) (fRound : F -> Z) (fcos fsin : F -> F) (pi : F)
    (sample_step_of : Z -> Z -> Z)
    (MLDB_Fill_Values : list Z -> Z -> Z -> F -> F -> F -> F -> F -> list Z)
    (stack_values : list Z) (options_ : AKAZEOptions F) (kpt : KeyPoint F) :
  (48 <= length stack_values)%nat ->
  (forall values step level xf yf co si scale,
     length (MLDB_Fill_Values values step level xf yf co si scale) = length values) ->
  let chan := descriptor_channels options_ in
  let run :=
    Get_MLDB_Full_Descriptor CV_TOGGLE_FLT fRound fcos fsin pi sample_step_of
      MLDB_Fill_Values stack_values options_ kpt in
  (3 < chan ->
   forall desc,
     run desc = Throw (StsAssert "options_->descriptor_channels <= max_channels"%string)) /\
  (0 <= chan <= 3 ->
   forall desc other,
     bytes desc -> bytes other -> length other = length desc ->
     Z.of_nat (length desc) = ceil_div8 ((6 + 36 + 120) * chan) ->
     exists desc' other',
       run desc = Ok (Some desc') /\ run other = Ok (Some other') /\
       length desc' = length desc /\ bytes desc' /\
       (forall d, 0 <= d < 162 * chan -> desc_bit other' d = desc_bit desc' d) /\
       (forall d, 162 * chan <= d -> desc_bit desc' d = desc_bit desc d)).
Proof.
  intros Hstack Hfill chan run. split.
  - intros Hmany desc. subst run. unfold Get_MLDB_Full_Descriptor. fold chan.
    destruct (Z.leb_spec chan 3) as [?|_]; [lia | reflexivity].
  - intros Hchan desc other Hbytes Hbytes' Hsame Hrow.
    pose proof (ceil_div8_spec ((6 + 36 + 120) * chan)) as [_ Hceil].
    destruct (Get_MLDB_Full_Descriptor_run CV_TOGGLE_FLT fRound fcos fsin pi
                sample_step_of MLDB_Fill_Values stack_values Hstack Hfill options_ kpt
                Hchan)
      as (bits0 & bits1 & bits2 & Hn0 & Hn1 & Hn2 & Hrun).
    fold chan in Hn0, Hn1, Hn2.
    destruct (Hrun desc Hbytes ltac:(lia))
      as (desc' & Hd & Hlen & Hb & Hout & Hw0 & Hw1 & Hw2).
    destruct (Hrun other Hbytes' ltac:(lia))
      as (other' & Hd' & _ & _ & _ & Hw0' & Hw1' & Hw2').
    exists desc', other'. split; [exact Hd|]. split; [exact Hd'|].
    split; [exact Hlen|]. split; [exact Hb|]. split; [|exact Hout].
    fold chan in Hw0, Hw1, Hw2, Hw0', Hw1', Hw2'.
    intros d Hd0.
    destruct (Z_lt_ge_dec d (chan * 6)) as [H0 | H0];
      [|destruct (Z_lt_ge_dec d (chan * 42)) as [H1 | H1]].
    + destruct (lookup_lt_is_Some_2 bits0 (Z.to_nat d)) as [b Hbit]; [lia|].
      pose proof (Hw0 _ _ Hbit) as Ha. pose proof (Hw0' _ _ Hbit) as Hb'.
      rewrite Z2Nat.id in Ha, Hb' by lia.
      replace (0 + d) with d in Ha, Hb' by lia. congruence.
    + destruct (lookup_lt_is_Some_2 bits1 (Z.to_nat (d - chan * 6))) as [b Hbit]; [lia|].
      pose proof (Hw1 _ _ Hbit) as Ha. pose proof (Hw1' _ _ Hbit) as Hb'.
      rewrite Z2Nat.id in Ha, Hb' by lia.
      replace (chan * 6 + (d - chan * 6)) with d in Ha, Hb' by lia. congruence.
    + destruct (lookup_lt_is_Some_2 bits2 (Z.to_nat (d - chan * 42))) as [b Hbit]; [lia|].
      pose proof (Hw2 _ _ Hbit) as Ha. pose proof (Hw2' _ _ Hbit) as Hb'.
      rewrite Z2Nat.id in Ha, Hb' by lia.
      replace (chan * 42 + (d - chan * 42)) with d in Ha, Hb' by lia. congruence.
Qed.

(** Three channels, rows of 61 bytes: one cleared and one with all bits set
    give the same 486 bits, and the last two bits stay cleared in the
    first. *)
Lemma Get_MLDB_Full_Descriptor_bits_witness :
  let run :=
    Get_MLDB_Full_Descriptor (fun x => x) Samples.sample_fRound (fun x => x) (fun x => x)
      (B32.of_Z 3) (fun pattern_size lvl => pattern_size)
      (fun values _ _ _ _ _ _ _ => values) (repeat 0 48) Samples.default_options
      Samples.peak_A in
  exists desc' other',
    run (repeat 0 61%nat) = Ok (Some desc') /\
    run (repeat 255 61%nat) = Ok (Some other') /\
    (forall d, 0 <= d < 486 -> desc_bit other' d = desc_bit desc' d) /\
    desc_bit desc' 486 = false /\ desc_bit desc' 487 = false.
Proof.
  destruct (Get_MLDB_Full_Descriptor_bits (fun x => x) Samples.sample_fRound
              (fun x => x) (fun x => x) (B32.of_Z 3)
              (fun pattern_size lvl => pattern_size)
              (fun values _ _ _ _ _ _ _ => values) (repeat 0 48) Samples.default_options
              Samples.peak_A)
    as [_ Hrun].
  - rewrite repeat_length. lia.
  - reflexivity.
  - destruct (Hrun ltac:(cbn; lia) (repeat 0 61%nat) (repeat 255 61%nat))
      as (desc' & other' & Hd & Hd' & _ & _ & Hsame & Hout).
    + apply Forall_forall. intros x Hx. apply list_elem_of_In, repeat_spec in Hx. lia.
    + apply Forall_forall. intros x Hx. apply list_elem_of_In, repeat_spec in Hx. lia.
    + reflexivity.
    + reflexivity.
    + exists desc', other'. split; [exact Hd|]. split; [exact Hd'|].
      split; [exact Hsame|]. split; rewrite Hout by (cbn; lia); reflexivity.
Defined.
(** ** The subsampled descriptor reads what the constructor prepared *)

Section DescriptorSubsetFacts.
Context {F : Type} `{FloatOps F}.
Variable fceil : F -> F.
Variable sample_cell : AKAZEOptions F -> KeyPoint F -> Z -> Z -> Z -> F * F * F.
Variable options : AKAZEOptions F.
Variable kpt : KeyPoint F.

Lemma imat_at_row (m : list (list Z)) (i : nat) (c : Z) row v :
  m !! i = Some row -> row !! Z.to_nat c = Some v -> 0 <= c ->
  imat_at m (Z.of_nat i) c = Some v.
Proof.
  intros Hrow Hv Hc. unfold imat_at.
  destruct (Z.ltb_spec (Z.of_nat i) 0); [lia|].
  destruct (Z.ltb_spec c 0); [lia|]. cbn [orb].
  rewrite Nat2Z.id, Hrow. cbn [mbind option_bind]. exact Hv.
Qed.

(** The first [n] values are written. *)
Definition values_written (n : Z) (values : list (option F)) : Prop :=
  forall k, 0 <= k < n -> exists v, values_at values k = Some v.

Lemma values_set_spec (values : list (option F)) i v :
  0 <= i < Z.of_nat (length values) ->
  exists values',
    values_set values i v = Some values' /\ length values' = length values /\
    values_at values' i = Some v /\
    forall k w, values_at values k = Some w -> k <> i -> values_at values' k = Some w.
Proof.
  intros Hi. unfold values_set. destruct (Z.ltb_spec i 0); [lia|].
  destruct (Nat.ltb_spec (Z.to_nat i) (length values)); [|lia].
  eexists. split; [reflexivity|]. split; [apply length_insert|]. split.
  - unfold values_at. destruct (Z.ltb_spec i 0); [lia|].
    rewrite list_lookup_insert_eq by lia. reflexivity.
  - intros k w Hk Hne. unfold values_at in *. destruct (Z.ltb_spec k 0); [discriminate|].
    rewrite list_lookup_insert_ne by lia. exact Hk.
Qed.

(** One round of the sampling loop for three channels. *)
Lemma sample_round (samples : list (list Z)) (values : list (option F))
    (i : nat) g x y steps :
  descriptor_channels options = 3 ->
  samples !! i = Some [g; x; y] -> 0 <= g < 3 -> length steps = 3%nat ->
  3 * Z.of_nat i + 2 < Z.of_nat (length values) ->
  values_written (3 * Z.of_nat i) values ->
  exists values',
    (coords0 ← imat_at samples (Z.of_nat i) 0;
     sample_step ← arr_at steps coords0;
     coords1 ← imat_at samples (Z.of_nat i) 1;
     coords2 ← imat_at samples (Z.of_nat i) 2;
     let '(di, dx, dy) := sample_cell options kpt sample_step coords1 coords2 in
     values ← values_set values (descriptor_channels options * Z.of_nat i) di;
     if descriptor_channels options =? 2
     then values_set values (descriptor_channels options * Z.of_nat i + 1) dx
     else if descriptor_channels options =? 3 then
       values ← values_set values (descriptor_channels options * Z.of_nat i + 1) dx;
       values_set values (descriptor_channels options * Z.of_nat i + 2) dy
     else Some values) = Some values' /\
    length values' = length values /\
    values_written (3 * (Z.of_nat i + 1)) values'.
Proof.
  intros Hchan Hrow Hg Hsteps Hroom Hwritten. rewrite Hchan.
  rewrite (imat_at_row samples i 0 _ g Hrow eq_refl ltac:(lia)).
  rewrite (imat_at_row samples i 1 _ x Hrow eq_refl ltac:(lia)).
  rewrite (imat_at_row samples i 2 _ y Hrow eq_refl ltac:(lia)).
  cbn [mbind option_bind].
  rewrite arr_at_in by lia. cbn [mbind option_bind].
  destruct (sample_cell options kpt (elt steps g) x y) as [[di dx] dy].
  destruct (values_set_spec values (3 * Z.of_nat i) di) as (v1 & -> & Hl1 & Hat1 & Hk1);
    [lia|].
  cbn [mbind option_bind]. change (3 =? 2) with false. change (3 =? 3) with true.
  cbv iota.
  destruct (values_set_spec v1 (3 * Z.of_nat i + 1) dx) as (v2 & -> & Hl2 & Hat2 & Hk2);
    [lia|].
  cbn [mbind option_bind].
  destruct (values_set_spec v2 (3 * Z.of_nat i + 2) dy) as (v3 & -> & Hl3 & Hat3 & Hk3);
    [lia|].
  exists v3. split; [reflexivity|]. split; [congruence|].
  intros k Hk.
  destruct (Z.eq_dec k (3 * Z.of_nat i + 2)) as [-> | H2]; [eauto|].
  destruct (Z.eq_dec k (3 * Z.of_nat i + 1)) as [-> | H1]; [eauto|].
  destruct (Z.eq_dec k (3 * Z.of_nat i)) as [-> | H0]; [eauto|].
  destruct (Hwritten k ltac:(lia)) as [w Hw]. eauto.
Qed.

(** The store of bit [i] as the comparison loop writes it. *)
Lemma subset_bit_store (desc : list Z) (i : Z) (b : bool) :
  0 <= i ->
  (byte ← arr_at desc (Z.quot i 8);
   arr_set desc (Z.quot i 8)
     (if b then u8 (Z.lor byte (Z.shiftl 1 (Z.rem i 8)))
      else u8 (Z.land byte (Z.lnot (Z.shiftl 1 (Z.rem i 8))))))
  = write_bit desc i b.
Proof.
  intros Hi. unfold write_bit.
  rewrite Z.shiftr_div_pow2 by lia. change (2 ^ 3) with 8.
  change 7 with (Z.ones 3). rewrite Z.land_ones by lia. change (2 ^ 3) with 8.
  rewrite Z.quot_div_nonneg, Z.rem_mod_nonneg by lia. reflexivity.
Qed.

Lemma Get_MLDB_Descriptor_Subset_spec (samples comps : list (list Z)) (row : list Z) :
  descriptor_channels options = 3 ->
  (length samples <= 29)%nat ->
  (forall r, r ∈ samples -> exists g x y, r = [g; x; y] /\ 0 <= g < 3) ->
  (forall r, r ∈ comps ->
     exists a b, r = [a; b] /\
       0 <= a < 3 * Z.of_nat (length samples) /\
       0 <= b < 3 * Z.of_nat (length samples)) ->
  bytes row -> Z.of_nat (length comps) <= 8 * Z.of_nat (length row) ->
  exists row',
    Get_MLDB_Descriptor_Subset fceil sample_cell options kpt samples comps row
      = Some row' /\
    length row' = length row /\ bytes row' /\
    forall d, Z.of_nat (length comps) <= d -> desc_bit row' d = desc_bit row d.
Proof.
  intros Hchan Hlen Hsamples Hcomps Hbytes Hroom.
  unfold Get_MLDB_Descriptor_Subset. cbv zeta.
  set (steps := [descriptor_pattern_size options; _; _]).
  set (values0 := repeat None _).
  assert (Hl0 : length values0 = 87%nat)
    by (subst values0; rewrite repeat_length, Hchan; reflexivity).
  (* the sampling loop *)
  assert (Hsampled :
    exists values,
      for_loop 0 (Z.of_nat (length samples))
        (fun i values =>
           values ← values;
           coords0 ← imat_at samples i 0;
           sample_step ← arr_at steps coords0;
           coords1 ← imat_at samples i 1;
           coords2 ← imat_at samples i 2;
           let '(di, dx, dy) := sample_cell options kpt sample_step coords1 coords2 in
           values ← values_set values (descriptor_channels options * i) di;
           if descriptor_channels options =? 2
           then values_set values (descriptor_channels options * i + 1) dx
           else if descriptor_channels options =? 3 then
             values ← values_set values (descriptor_channels options * i + 1) dx;
             values_set values (descriptor_channels options * i + 2) dy
           else Some values)
        (Some values0) = Some values /\
      values_written (3 * Z.of_nat (length samples)) values).
  { enough (Hinv : exists values,
              for_loop 0 (Z.of_nat (length samples)) _ (Some values0) = Some values /\
              length values = 87%nat /\
              values_written (3 * Z.of_nat (length samples)) values)
      by (destruct Hinv as (v & Hv & _ & Hw); eauto).
    apply (for_loop_invariant
             (fun i st => exists values, st = Some values /\ length values = 87%nat /\
                                         values_written (3 * i) values)); [lia | |].
    - exists values0. split; [reflexivity|]. split; [exact Hl0|]. intros k Hk. lia.
    - intros i st Hi (values & -> & Hl & Hw). cbn [mbind option_bind].
      destruct (lookup_lt_is_Some_2 samples (Z.to_nat i)) as [r Hr]; [lia|].
      destruct (Hsamples r) as (g & x & y & -> & Hg);
        [apply list_elem_of_lookup; eauto|].
      destruct (sample_round samples values (Z.to_nat i) g x y steps)
        as (values' & Hrun & Hl' & Hw'); try assumption; try reflexivity.
      + lia.
      + rewrite Z2Nat.id by lia. exact Hw.
      + rewrite Z2Nat.id in Hrun, Hw' by lia. rewrite Hrun.
        exists values'. split; [reflexivity|]. split; [congruence | exact Hw']. }
  destruct Hsampled as (values & -> & Hwritten). cbn [mbind option_bind].
  (* the comparisons *)
  apply (for_loop_invariant
           (fun i st => exists row', st = Some row' /\ length row' = length row /\
                          bytes row' /\
                          forall d, i <= d -> desc_bit row' d = desc_bit row d));
    [lia | |].
  - exists row. split; [reflexivity|]. split; [reflexivity|]. split; [exact Hbytes|].
    intros d Hd. reflexivity.
  - intros i st Hi (row1 & -> & Hl1 & Hb1 & Hframe). cbn [mbind option_bind].
    destruct (lookup_lt_is_Some_2 comps (Z.to_nat i)) as [r Hr]; [lia|].
    destruct (Hcomps r) as (a & b & -> & Ha & Hb);
      [apply list_elem_of_lookup; eauto|].
    pose proof (imat_at_row comps (Z.to_nat i) 0 _ a Hr eq_refl ltac:(lia)) as Hat0.
    pose proof (imat_at_row comps (Z.to_nat i) 1 _ b Hr eq_refl ltac:(lia)) as Hat1.
    rewrite Z2Nat.id in Hat0, Hat1 by lia. rewrite Hat0, Hat1.
    cbn [mbind option_bind].
    destruct (Hwritten a Ha) as [va ->]. destruct (Hwritten b Hb) as [vb ->].
    cbn [mbind option_bind].
    rewrite (subset_bit_store row1 i (va >. vb)) by lia.
    destruct (write_bit_spec row1 i (va >. vb) Hb1) as (row2 & -> & Hl2 & Hb2 & Hbit);
      [lia|].
    exists row2. split; [reflexivity|]. split; [congruence|]. split; [exact Hb2|].
    intros d Hd. rewrite Hbit by lia.
    destruct (Z.eqb_spec d i); [lia|]. apply Hframe. lia.
Qed.

End DescriptorSubsetFacts.


(** ** The upright full descriptor always compares three channels *)

Section StoredBits.

(** The store of the bit at [dcount1], with the position split by [/] and
    [%], and the step to the next position. *)
Definition store_step (st : option (list Z * Z)) (b : bool) : option (list Z * Z) :=
  '(desc, dcount1) ← st;
  byte ← arr_at desc (Z.quot dcount1 8);
  desc ← arr_set desc (Z.quot dcount1 8)
           (if b then u8 (Z.lor byte (Z.shiftl 1 (Z.rem dcount1 8)))
            else u8 (Z.land byte (Z.lnot (Z.shiftl 1 (Z.rem dcount1 8)))));
  Some (desc, dcount1 + 1).

Lemma store_step_write desc d b :
  0 <= d -> store_step (Some (desc, d)) b = write_step (Some (desc, d)) b.
Proof.
  intros Hd. unfold store_step, write_step, write_bit. cbn [mbind option_bind].
  rewrite Z.shiftr_div_pow2 by lia. change (2 ^ 3) with 8.
  change 7 with (Z.ones 3). rewrite Z.land_ones by lia. change (2 ^ 3) with 8.
  rewrite Z.quot_div_nonneg, Z.rem_mod_nonneg by lia.
  destruct (arr_at desc (d / 8)); reflexivity.
Qed.

Lemma store_bits_write bs : forall desc d,
  0 <= d ->
  fold_left store_step bs (Some (desc, d)) = fold_left write_step bs (Some (desc, d)).
Proof.
  induction bs as [|b bs IH]; intros desc d Hd; [reflexivity|].
  cbn [fold_left]. rewrite store_step_write by exact Hd.
  destruct (write_step (Some (desc, d)) b) as [[desc1 d1]|] eqn:Hstep.
  - apply IH. unfold write_step in Hstep. cbn [mbind option_bind] in Hstep.
    destruct (write_bit desc d b); [|discriminate Hstep].
    cbn [mbind option_bind] in Hstep. injection Hstep as _ <-. lia.
  - clear. induction bs as [|b' bs IH']; [reflexivity | exact IH'].
Qed.

End StoredBits.

Section UprightFacts.
Context {F : Type} `{FloatOps F}.

(** The comparisons of one grid in the order of the loops: the values [i]
    and [j] and the channel [k]. *)
Definition triples (num : Z) : list (Z * Z * Z) :=
  i ← seqZ 0 num; j ← seqZ (i + 1) (num - (i + 1)); (fun k => (i, j, k)) <$> seqZ 0 3.

(** The body of the innermost loop. *)
Definition compare_step (chan : Z) (values : list F) (st : option (list Z * Z))
    (t : Z * Z * Z) : option (list Z * Z) :=
  '(desc, dcount1) ← st;
  valI ← farr_at values (chan * t.1.1 + t.2);
  valJ ← farr_at values (chan * t.1.2 + t.2);
  byte ← arr_at desc (Z.quot dcount1 8);
  desc ← arr_set desc (Z.quot dcount1 8)
           (if valI >. valJ
            then u8 (Z.lor byte (Z.shiftl 1 (Z.rem dcount1 8)))
            else u8 (Z.land byte (Z.lnot (Z.shiftl 1 (Z.rem dcount1 8)))));
  Some (desc, dcount1 + 1).

Lemma comparison_loops chan values num st :
  for_loop 0 num
    (fun i st =>
       for_loop (i + 1) num
         (fun j st =>
            for_loop 0 3
              (fun k st =>
                 '(desc, dcount1) ← st;
                 valI ← farr_at values (chan * i + k);
                 valJ ← farr_at values (chan * j + k);
                 byte ← arr_at desc (Z.quot dcount1 8);
                 desc ← arr_set desc (Z.quot dcount1 8)
                          (if valI >. valJ
                           then u8 (Z.lor byte (Z.shiftl 1 (Z.rem dcount1 8)))
                           else u8 (Z.land byte
                                      (Z.lnot (Z.shiftl 1 (Z.rem dcount1 8)))));
                 Some (desc, dcount1 + 1))
              st)
         st)
    st
  = fold_left (compare_step chan values) (triples num) st.
Proof.
  unfold triples.
  rewrite (for_loop_fold_bind 0 num _ (compare_step chan values)
             (fun i => j ← seqZ (i + 1) (num - (i + 1));
                       (fun k => (i, j, k)) <$> seqZ 0 3));
    [rewrite Z.sub_0_r; reflexivity|].
  intros i s Hi.
  apply (for_loop_fold_bind (i + 1) num _ (compare_step chan values)
           (fun j => (fun k => (i, j, k)) <$> seqZ 0 3)).
  intros j s' Hj.
  apply (for_loop_fold_map 0 3 _ (compare_step chan values) (fun k => (i, j, k))).
  intros k s'' Hk. reflexivity.
Qed.

Lemma compare_step_None chan values t : compare_step chan values None t = None.
Proof. reflexivity. Qed.

(** With fewer than three channels the comparison of the first with the
    last value of the 2x2 grid reads past the matrix. *)
Lemma compare_step_outside chan values st :
  1 <= chan <= 2 -> Z.of_nat (length values) = 4 * chan ->
  compare_step chan values st (0, 3, chan) = None.
Proof.
  intros Hchan Hlen. unfold compare_step. destruct st as [[desc d]|]; [|reflexivity].
  cbn [mbind option_bind fst snd].
  destruct (farr_at values (chan * 0 + chan)); [|reflexivity].
  cbn [mbind option_bind].
  unfold farr_at at 1. destruct (Z.ltb_spec (chan * 3 + chan) 0); [reflexivity|].
  rewrite lookup_ge_None_2 by lia. reflexivity.
Qed.

Lemma triples_overrun chan : 1 <= chan <= 2 -> (0, 3, chan) ∈ triples 4.
Proof.
  intros Hchan. assert (Hc : chan = 1 \/ chan = 2) by lia.
  destruct Hc as [-> | ->]; refine (bool_decide_unpack _ _); vm_compute; exact I.
Qed.

(** With three channels every read is inside a matrix of [num] rows. *)
Lemma triples_inside (num : Z) :
  num = 4 \/ num = 9 \/ num = 16 ->
  Forall (fun t => 0 <= 3 * t.1.1 + t.2 < 3 * num /\ 0 <= 3 * t.1.2 + t.2 < 3 * num)
    (triples num) /\
  Z.of_nat (length (triples num)) = 3 * (num * (num - 1) / 2).
Proof.
  intros [-> | [-> | ->]]; (split; [|reflexivity]);
    refine (bool_decide_unpack _ _); vm_compute; exact I.
Qed.

Lemma farr_at_in (a : list F) (i : Z) :
  0 <= i < Z.of_nat (length a) -> exists v, farr_at a i = Some v.
Proof.
  intros Hi. unfold farr_at. destruct (Z.ltb_spec i 0); [lia|].
  apply lookup_lt_is_Some_2. lia.
Qed.

(** The comparisons of one grid of three channels store their bits one
    after the other. *)
Lemma upright_level (values : list F) num desc d :
  num = 4 \/ num = 9 \/ num = 16 -> Z.of_nat (length values) = num * 3 ->
  bytes desc -> 0 <= d ->
  d + 3 * (num * (num - 1) / 2) <= 8 * Z.of_nat (length desc) ->
  exists desc',
    fold_left (compare_step 3 values) (triples num) (Some (desc, d))
      = Some (desc', d + 3 * (num * (num - 1) / 2)) /\
    length desc' = length desc /\ bytes desc' /\
    forall x, 0 <= x -> x < d \/ d + 3 * (num * (num - 1) / 2) <= x ->
      desc_bit desc' x = desc_bit desc x.
Proof.
  intros Hnum Hlen Hbytes Hd Hroom.
  destruct (triples_inside num Hnum) as [Hin Hcount].
  set (bit := fun t : Z * Z * Z =>
         match farr_at values (3 * t.1.1 + t.2), farr_at values (3 * t.1.2 + t.2) with
         | Some vi, Some vj => vi >. vj
         | _, _ => false
         end).
  rewrite (fold_left_map_ext (compare_step 3 values) store_step bit).
  2: { intros t s Ht.
       destruct (proj1 (Forall_forall _ _) Hin t Ht) as [Hi Hj].
       unfold compare_step, store_step, bit.
       destruct (farr_at_in values (3 * t.1.1 + t.2) ltac:(lia)) as [vi ->].
       destruct (farr_at_in values (3 * t.1.2 + t.2) ltac:(lia)) as [vj ->].
       destruct s as [[desc0 d0]|]; reflexivity. }
  rewrite store_bits_write by exact Hd.
  destruct (write_bits_spec (bit <$> triples num) desc d Hbytes Hd)
    as (desc' & Hrun & Hl & Hb & Hout & _).
  { rewrite length_fmap. lia. }
  rewrite length_fmap, Hcount in Hrun, Hout.
  exists desc'. split; [exact Hrun|]. split; [exact Hl|]. split; [exact Hb|].
  exact Hout.
Qed.

End UprightFacts.
